(** * qxfs: a client-side proxy for XFS device services

    Shallow embedding of [qxfsstream.cpp] / [qxfssocketstream.cpp] and the
    properties of the command correlator, the event dispatcher, the
    capability cache and the transport manager.

    Conventions of the embedding.
    - A [QVariantMap] / [QMap<QString, T>] is a key-sorted association list
      ([QMap.t]); iteration order is the list order, as in Qt.
    - The process-wide statics ([devices], [commands], [m_capabilities],
      [warnOnce]) and the heap of live proxies form the [World]; methods are
      computations in the state-and-fault monad [M].
    - Signal emission appends to [trace] (what a subscriber connected from
      outside observes) and then runs the slots the library itself connected,
      in connection order.
    - Locals captured by reference in a lambda live in a [Frame] of the
      object; the frame is dropped when the enclosing call returns. *)

From stdpp Require Import gmap strings list pretty.
From Stdlib Require Import String Ascii.
From Stdlib.Strings Require Import Byte.

Open Scope string_scope.

#[local] Set Warnings "-register-all".

(** ** QVariant and QMap *)

Inductive QVariant : Type :=
  | Invalid
  | VString (s : string)
  | VMap (m : list (string * QVariant)).

Module QMap.

Definition t (V : Type) : Type := list (string * V).

Section Ops.
Context {V : Type}.

Fixpoint find (k : string) (m : t V) : option V :=
    match m with
    | [] => None
    | (k', v) :: m' => if String.eqb k k' then Some v else find k m'
    end.

Definition contains (k : string) (m : t V) : bool :=
    match find k m with Some _ => true | None => false end.

(** [QMap::value(key, defaultValue)] and the const [operator[]]. *)
Definition value (k : string) (d : V) (m : t V) : V :=
    match find k m with Some v => v | None => d end.

(** [QMap::insert]: replaces the value of an existing key, keeps the keys
      ordered. *)
Fixpoint insert (k : string) (v : V) (m : t V) : t V :=
    match m with
    | [] => [(k, v)]
    | (k', v') :: m' =>
        match String.compare k k' with
        | Lt => (k, v) :: (k', v') :: m'
        | Eq => (k, v) :: m'
        | Gt => (k', v') :: insert k v m'
        end
    end.

(** [QMap::remove]. *)
Fixpoint remove (k : string) (m : t V) : t V :=
    match m with
    | [] => []
    | (k', v') :: m' =>
        if String.eqb k k' then remove k m' else (k', v') :: remove k m'
    end.

(** The non-const [operator[]]: a missing key is inserted with a
      default-constructed value before the reference is returned. *)
Definition index (k : string) (d : V) (m : t V) : V * t V :=
    match find k m with
    | Some v => (v, m)
    | None => (d, insert k d m)
    end.

Definition keys (m : t V) : list string := map fst m.

Definition isEmpty (m : t V) : bool :=
    match m with [] => true | _ => false end.
End Ops.

End QMap.

Abbreviation QVariantMap := (QMap.t QVariant).

(** [QVariant::toString] on the value kinds of the protocol. *)
Definition toString (v : QVariant) : string :=
  match v with VString s => s | _ => "" end.

(** [QVariant::toMap]. *)
Definition toMap (v : QVariant) : QVariantMap :=
  match v with VMap m => m | _ => [] end.

(** [v == QVariant(s)]: an invalid variant or a map never equals a string. *)
Definition eqQString (v : QVariant) (s : string) : bool :=
  match v with VString s' => String.eqb s' s | _ => false end.

Definition isEmptyString (s : string) : bool :=
  match s with EmptyString => true | _ => false end.

(** ** Signals, slots and call frames *)

Inductive Signal : Type :=
  | message (msg : QVariantMap)
  | executeComplete (msg : QVariantMap)
  | cancelComplete (msg : QVariantMap)
  | executeEventRecieved (msg : QVariantMap)
  | executeEventBroadcasted (msg : QVariantMap) (dwCommand : string)
      (lpCmdData : QVariant)
  | serviceEventRecieved (msg : QVariantMap)
  | userEventRecieved (msg : QVariantMap)
  | systemEventRecieved (msg : QVariantMap) (dwCommand : string)
      (lpCmdData : QVariant).

(** The lambdas the library connects to its own [message] signal, with the
    values they capture. *)
Inductive MessageSlot : Type :=
  | CtorSlot
  | ExecuteSlot (msgid dwCommand : string) (lpCmdData : QVariant)
  | GetInfoSlot (frame : nat) (msgid category : string)
  | CancelSlot (msgid : string).

(** The two lambdas of [syncCancel]: [c1] on [cancelComplete], [c2] on
    [executeComplete]. *)
Inductive CancelCompleteSlot : Type :=
  | SyncCancelC1 (frame : nat) (msgid : string).

Inductive ExecuteCompleteSlot : Type :=
  | SyncCancelC2 (frame : nat) (reqMsgId : string).

(** Locals of a blocking call that its lambdas capture by reference:
    [rv] and [loop] in [getInfo]; [finish] and [loop] in [syncCancel]. *)
Inductive Frame : Type :=
  | GetInfoFrame (rv : QVariantMap) (exited : bool)
  | SyncCancelFrame (finish : bool) (exited : bool).

Definition frame_exited (f : Frame) : bool :=
  match f with
  | GetInfoFrame _ e => e
  | SyncCancelFrame _ e => e
  end.

(** ** Sockets *)

Inductive SocketState : Type :=
  | UnconnectedState | ConnectingState | ConnectedState | ClosingState.

Definition SocketState_eqb (a b : SocketState) : bool :=
  match a, b with
  | UnconnectedState, UnconnectedState
  | ConnectingState, ConnectingState
  | ConnectedState, ConnectedState
  | ClosingState, ClosingState => true
  | _, _ => false
  end.

Record QSocket : Type := mkSocket {
  sock_state : SocketState;
  sock_encrypted : bool;
  sock_errorString : string;
  sock_rx : list byte;          (* bytes received and not yet read *)
  sock_tx : list QVariantMap    (* frames written with [ds << cmd] *)
}.

(** [m_io] is either null or the socket [m_socket] points to. *)
Inductive IoPtr : Type := IoNull | IoSocket.

(** ** The proxy object *)

Record QXfsSocketStream : Type := mkStream {
  objectName : string;
  m_io : IoPtr;
  m_strClass : string;
  m_statusCategory : string;
  m_capabilitiesCategory : string;
  m_pending : QMap.t string;
  m_socket : option QSocket;
  m_isLocal : bool;
  m_isSsl : bool;
  m_host : string;
  m_port : N;
  on_message : list (nat * MessageSlot);
  on_cancelComplete : list (nat * CancelCompleteSlot);
  on_executeComplete : list (nat * ExecuteCompleteSlot);
  next_connection : nat;
  frames : gmap nat Frame;
  next_frame : nat
}.

Definition set_m_pending (f : QMap.t string -> QMap.t string)
    (s : QXfsSocketStream) : QXfsSocketStream :=
  mkStream (objectName s) (m_io s) (m_strClass s) (m_statusCategory s)
    (m_capabilitiesCategory s) (f (m_pending s)) (m_socket s) (m_isLocal s)
    (m_isSsl s) (m_host s) (m_port s) (on_message s) (on_cancelComplete s)
    (on_executeComplete s) (next_connection s) (frames s) (next_frame s).

Definition set_m_socket (f : option QSocket -> option QSocket)
    (s : QXfsSocketStream) : QXfsSocketStream :=
  mkStream (objectName s) (m_io s) (m_strClass s) (m_statusCategory s)
    (m_capabilitiesCategory s) (m_pending s) (f (m_socket s)) (m_isLocal s)
    (m_isSsl s) (m_host s) (m_port s) (on_message s) (on_cancelComplete s)
    (on_executeComplete s) (next_connection s) (frames s) (next_frame s).

Definition set_on_message
    (f : list (nat * MessageSlot) -> list (nat * MessageSlot))
    (s : QXfsSocketStream) : QXfsSocketStream :=
  mkStream (objectName s) (m_io s) (m_strClass s) (m_statusCategory s)
    (m_capabilitiesCategory s) (m_pending s) (m_socket s) (m_isLocal s)
    (m_isSsl s) (m_host s) (m_port s) (f (on_message s)) (on_cancelComplete s)
    (on_executeComplete s) (next_connection s) (frames s) (next_frame s).

Definition set_on_cancelComplete
    (f : list (nat * CancelCompleteSlot) -> list (nat * CancelCompleteSlot))
    (s : QXfsSocketStream) : QXfsSocketStream :=
  mkStream (objectName s) (m_io s) (m_strClass s) (m_statusCategory s)
    (m_capabilitiesCategory s) (m_pending s) (m_socket s) (m_isLocal s)
    (m_isSsl s) (m_host s) (m_port s) (on_message s) (f (on_cancelComplete s))
    (on_executeComplete s) (next_connection s) (frames s) (next_frame s).

Definition set_on_executeComplete
    (f : list (nat * ExecuteCompleteSlot) -> list (nat * ExecuteCompleteSlot))
    (s : QXfsSocketStream) : QXfsSocketStream :=
  mkStream (objectName s) (m_io s) (m_strClass s) (m_statusCategory s)
    (m_capabilitiesCategory s) (m_pending s) (m_socket s) (m_isLocal s)
    (m_isSsl s) (m_host s) (m_port s) (on_message s) (on_cancelComplete s)
    (f (on_executeComplete s)) (next_connection s) (frames s) (next_frame s).

Definition set_next_connection (f : nat -> nat)
    (s : QXfsSocketStream) : QXfsSocketStream :=
  mkStream (objectName s) (m_io s) (m_strClass s) (m_statusCategory s)
    (m_capabilitiesCategory s) (m_pending s) (m_socket s) (m_isLocal s)
    (m_isSsl s) (m_host s) (m_port s) (on_message s) (on_cancelComplete s)
    (on_executeComplete s) (f (next_connection s)) (frames s) (next_frame s).

Definition set_frames (f : gmap nat Frame -> gmap nat Frame)
    (s : QXfsSocketStream) : QXfsSocketStream :=
  mkStream (objectName s) (m_io s) (m_strClass s) (m_statusCategory s)
    (m_capabilitiesCategory s) (m_pending s) (m_socket s) (m_isLocal s)
    (m_isSsl s) (m_host s) (m_port s) (on_message s) (on_cancelComplete s)
    (on_executeComplete s) (next_connection s) (f (frames s)) (next_frame s).

Definition set_next_frame (f : nat -> nat)
    (s : QXfsSocketStream) : QXfsSocketStream :=
  mkStream (objectName s) (m_io s) (m_strClass s) (m_statusCategory s)
    (m_capabilitiesCategory s) (m_pending s) (m_socket s) (m_isLocal s)
    (m_isSsl s) (m_host s) (m_port s) (on_message s) (on_cancelComplete s)
    (on_executeComplete s) (next_connection s) (frames s) (f (next_frame s)).

(** ** The process *)

Inductive LogEntry : Type :=
  | Warning (text : list string)
  | Critical (text : list string).

(** What the event loop can deliver to a proxy's socket. *)
Inductive IoEvent : Type :=
  | EvReadyRead (bytes : list byte)
  | EvDisconnected.

(** Outcome of a blocking [waitForConnected] / [waitForEncrypted]. *)
Inductive WaitResult : Type :=
  | WaitOk
  | WaitFailed (errorString : string).

Record World : Type := mkWorld {
  objs : gmap nat QXfsSocketStream;       (* live proxies, by address *)
  next_ptr : nat;
  devices : list nat;                     (* Q_GLOBAL_STATIC devices *)
  commands : QMap.t (list (string * QVariant));
  m_capabilities : QMap.t QVariantMap;
  warnOnce : list string;
  log : list LogEntry;
  trace : list (nat * Signal);            (* emitter, signal; oldest first *)
  uuid_seed : nat;
  inbox : list (nat * IoEvent);           (* socket events still to come *)
  net : list WaitResult;                  (* outcomes of the waits to come *)
  qt_debug : bool                         (* built without QT_NO_DEBUG *)
}.

Definition set_objs (f : gmap nat QXfsSocketStream -> gmap nat QXfsSocketStream)
    (w : World) : World :=
  mkWorld (f (objs w)) (next_ptr w) (devices w) (commands w)
    (m_capabilities w) (warnOnce w) (log w) (trace w) (uuid_seed w) (inbox w)
    (net w) (qt_debug w).

Definition set_next_ptr (f : nat -> nat) (w : World) : World :=
  mkWorld (objs w) (f (next_ptr w)) (devices w) (commands w)
    (m_capabilities w) (warnOnce w) (log w) (trace w) (uuid_seed w) (inbox w)
    (net w) (qt_debug w).

Definition set_devices (f : list nat -> list nat) (w : World) : World :=
  mkWorld (objs w) (next_ptr w) (f (devices w)) (commands w)
    (m_capabilities w) (warnOnce w) (log w) (trace w) (uuid_seed w) (inbox w)
    (net w) (qt_debug w).

Definition set_commands
    (f : QMap.t (list (string * QVariant)) -> QMap.t (list (string * QVariant)))
    (w : World) : World :=
  mkWorld (objs w) (next_ptr w) (devices w) (f (commands w))
    (m_capabilities w) (warnOnce w) (log w) (trace w) (uuid_seed w) (inbox w)
    (net w) (qt_debug w).

Definition set_m_capabilities
    (f : QMap.t QVariantMap -> QMap.t QVariantMap) (w : World) : World :=
  mkWorld (objs w) (next_ptr w) (devices w) (commands w)
    (f (m_capabilities w)) (warnOnce w) (log w) (trace w) (uuid_seed w)
    (inbox w) (net w) (qt_debug w).

Definition set_warnOnce (f : list string -> list string) (w : World) : World :=
  mkWorld (objs w) (next_ptr w) (devices w) (commands w)
    (m_capabilities w) (f (warnOnce w)) (log w) (trace w) (uuid_seed w)
    (inbox w) (net w) (qt_debug w).

Definition set_log (f : list LogEntry -> list LogEntry) (w : World) : World :=
  mkWorld (objs w) (next_ptr w) (devices w) (commands w)
    (m_capabilities w) (warnOnce w) (f (log w)) (trace w) (uuid_seed w)
    (inbox w) (net w) (qt_debug w).

Definition set_trace (f : list (nat * Signal) -> list (nat * Signal))
    (w : World) : World :=
  mkWorld (objs w) (next_ptr w) (devices w) (commands w)
    (m_capabilities w) (warnOnce w) (log w) (f (trace w)) (uuid_seed w)
    (inbox w) (net w) (qt_debug w).

Definition set_uuid_seed (f : nat -> nat) (w : World) : World :=
  mkWorld (objs w) (next_ptr w) (devices w) (commands w)
    (m_capabilities w) (warnOnce w) (log w) (trace w) (f (uuid_seed w))
    (inbox w) (net w) (qt_debug w).

Definition set_inbox (f : list (nat * IoEvent) -> list (nat * IoEvent))
    (w : World) : World :=
  mkWorld (objs w) (next_ptr w) (devices w) (commands w)
    (m_capabilities w) (warnOnce w) (log w) (trace w) (uuid_seed w)
    (f (inbox w)) (net w) (qt_debug w).

Definition set_net (f : list WaitResult -> list WaitResult)
    (w : World) : World :=
  mkWorld (objs w) (next_ptr w) (devices w) (commands w)
    (m_capabilities w) (warnOnce w) (log w) (trace w) (uuid_seed w)
    (inbox w) (f (net w)) (qt_debug w).

(** ** The monad of methods *)

Inductive Fault : Type :=
  | AssertFailed        (* Q_ASSERT in a debug build *)
  | NullDereference     (* member call through a null pointer *)
  | DanglingReference   (* a lambda outliving the locals it captured *)
  | Livelock.           (* a loop that never leaves *)

Inductive Res (A : Type) : Type :=
  | Ret (a : A) (w : World)     (* the call returned *)
  | Stop (f : Fault)            (* the process stopped *)
  | Blocked (w : World).        (* the event loop waits for events that
                                   never come *)

Arguments Ret {A} a w.
Arguments Stop {A} f.
Arguments Blocked {A} w.

Definition M (A : Type) : Type := World -> Res A.

Definition ret {A} (a : A) : M A := fun w => Ret a w.

Definition bind {A B} (c : M A) (k : A -> M B) : M B :=
  fun w =>
    match c w with
    | Ret a w' => k a w'
    | Stop f => Stop f
    | Blocked w' => Blocked w'
    end.

Definition fault {A} (f : Fault) : M A := fun _ => Stop f.

Definition gets {A} (f : World -> A) : M A := fun w => Ret (f w) w.

Definition modify (f : World -> World) : M unit := fun w => Ret tt (f w).

Declare Scope qt_scope.
Delimit Scope qt_scope with qt.

Notation "x ← y ; z" := (bind y (fun x => z))
  (at level 20, y at level 100, z at level 200, only parsing) : qt_scope.
Notation "x ;; z" := (bind x (fun _ => z))
  (at level 100, z at level 200, only parsing, right associativity) : qt_scope.

Open Scope qt_scope.

(** [for (x : l) body]. *)
Fixpoint forM {A} (l : list A) (body : A -> M unit) : M unit :=
  match l with
  | [] => ret tt
  | x :: l' => body x ;; forM l' body
  end.

Definition when (b : bool) (c : M unit) : M unit :=
  if b then c else ret tt.

(** [Q_ASSERT(cond)]: aborts in a debug build, expands to nothing
    otherwise. *)
Definition Q_ASSERT (cond : bool) : M unit :=
  fun w => if qt_debug w && negb cond then Stop AssertFailed else Ret tt w.

(** ** Access to the proxy a method runs on *)

Definition this_obj (this : nat) : M QXfsSocketStream :=
  fun w =>
    match objs w !! this with
    | Some s => Ret s w
    | None => Stop DanglingReference
    end.

Definition update_this (this : nat)
    (f : QXfsSocketStream -> QXfsSocketStream) : M unit :=
  s ← this_obj this;
  modify (set_objs (fun h => <[this := f s]> h)).

(** [emit sig]: what subscribers connected from outside get to see. *)
Definition emit (this : nat) (sig : Signal) : M unit :=
  modify (set_trace (fun t => (t ++ [(this, sig)])%list)).

Definition qWarning (text : list string) : M unit :=
  modify (set_log (fun l => (l ++ [Warning text])%list)).

Definition qCritical (text : list string) : M unit :=
  modify (set_log (fun l => (l ++ [Critical text])%list)).

(** Connection handles. *)
Definition is_connected {S : Type} (h : nat) (l : list (nat * S)) : bool :=
  existsb (fun c => Nat.eqb (fst c) h) l.

Definition drop_connection {S : Type} (h : nat) (l : list (nat * S))
    : list (nat * S) :=
  filter (fun c => fst c ≠ h) l.

Definition new_connection (this : nat) : M nat :=
  s ← this_obj this;
  update_this this (set_next_connection S) ;;
  ret (next_connection s).

(** [QUuid::createUuid().toString()]: an idealised generator that never
    repeats itself; the text is braced, hence never empty. *)
Definition uuid_string (n : nat) : string := "{" ++ pretty n ++ "}".

Definition createUuid : M string :=
  n ← gets uuid_seed;
  modify (set_uuid_seed S) ;;
  ret (uuid_string n).

(** ** The per-device command queue *)

(** The entry of [commands] under [objectName()], through the non-const
    [operator[]]. *)
Definition commands_of (this : nat) : M (list (string * QVariant)) :=
  s ← this_obj this;
  cmds ← gets commands;
  let '(l, cmds') := QMap.index (objectName s) [] cmds in
  modify (set_commands (fun _ => cmds')) ;;
  ret l.

Definition currentCommand (this : nat) : M (string * QVariant) :=
  l ← commands_of this;
  match l with
  | cmd :: _ => ret cmd
  | [] => ret ("", Invalid)
  end.

Definition appendCommand (this : nat) (cmd : string * QVariant) : M unit :=
  l ← commands_of this;
  s ← this_obj this;
  modify (set_commands (QMap.insert (objectName s) (l ++ [cmd])%list)).

Definition finishCommand (this : nat) : M unit :=
  l ← commands_of this;
  s ← this_obj this;
  match l with
  | _ :: rest => modify (set_commands (QMap.insert (objectName s) rest))
  | [] => ret tt
  end.

Definition done (this : nat) (msgid : string) : M unit :=
  finishCommand this ;;
  update_this this (set_m_pending (QMap.remove msgid)).

(** ** The slots of [syncCancel] and the two completion signals *)

Definition get_frame (this fid : nat) : M Frame :=
  s ← this_obj this;
  match frames s !! fid with
  | Some f => ret f
  | None => fault DanglingReference
  end.

Definition put_frame (this fid : nat) (f : Frame) : M unit :=
  update_this this (set_frames (fun fs => <[fid := f]> fs)).

(** Lambda [c1]. *)
Definition syncCancel_c1 (this h : nat) (slot : CancelCompleteSlot)
    (msg0 : QVariantMap) : M unit :=
  let '(SyncCancelC1 fid msgid) := slot in
  let '(id, msg) := QMap.index "msgid" Invalid msg0 in
  if negb (eqQString id msgid) then ret tt
  else
    f ← get_frame this fid;
    match f with
    | SyncCancelFrame finish exited =>
        update_this this (set_on_cancelComplete (drop_connection h)) ;;
        let '(hResult, _) := QMap.index "hResult" Invalid msg in
        if finish || negb (eqQString hResult "WFS_SUCCESS")
        then put_frame this fid (SyncCancelFrame finish true)
        else put_frame this fid (SyncCancelFrame true exited)
    | _ => fault DanglingReference
    end.

(** Lambda [c2]. *)
Definition syncCancel_c2 (this h : nat) (slot : ExecuteCompleteSlot)
    (msg0 : QVariantMap) : M unit :=
  let '(SyncCancelC2 fid reqMsgId) := slot in
  let '(id, _) := QMap.index "msgid" Invalid msg0 in
  if negb (eqQString id reqMsgId) then ret tt
  else
    f ← get_frame this fid;
    match f with
    | SyncCancelFrame finish exited =>
        update_this this (set_on_executeComplete (drop_connection h)) ;;
        if finish
        then put_frame this fid (SyncCancelFrame finish true)
        else put_frame this fid (SyncCancelFrame true exited)
    | _ => fault DanglingReference
    end.

(** An emission walks the connections present when it starts and skips the
    ones disconnected meanwhile. *)
Definition emit_cancelComplete (this : nat) (msg : QVariantMap) : M unit :=
  emit this (cancelComplete msg) ;;
  s ← this_obj this;
  forM (on_cancelComplete s) (fun c =>
    s' ← this_obj this;
    when (is_connected (fst c) (on_cancelComplete s'))
         (syncCancel_c1 this (fst c) (snd c) msg)).

Definition emit_executeComplete (this : nat) (msg : QVariantMap) : M unit :=
  emit this (executeComplete msg) ;;
  s ← this_obj this;
  forM (on_executeComplete s) (fun c =>
    s' ← this_obj this;
    when (is_connected (fst c) (on_executeComplete s'))
         (syncCancel_c2 this (fst c) (snd c) msg)).

(** ** The slots on [message] *)

(** Device-specific hooks; the defaults do nothing. *)
Definition serviceEvent (this : nat) (msg : QVariantMap) : M unit := ret tt.
Definition userEvent (this : nat) (msg : QVariantMap) : M unit := ret tt.
Definition systemEvent (this : nat) (msg : QVariantMap) : M unit := ret tt.

(** The lambda connected in the constructor. *)
Definition ctor_slot (this : nat) (msg0 : QVariantMap) : M unit :=
  let '(m, msg) := QMap.index "message" Invalid msg0 in
  let message := toString m in
  if String.eqb message "WFS_SERVICE_EVENT" then
    serviceEvent this msg ;;
    emit this (serviceEventRecieved msg)
  else if String.eqb message "WFS_USER_EVENT" then
    userEvent this msg ;;
    emit this (userEventRecieved msg)
  else if String.eqb message "WFS_SYSTEM_EVENT" then
    cmd ← currentCommand this;
    systemEvent this msg ;;
    emit this (systemEventRecieved msg (fst cmd) (snd cmd))
  else ret tt.

(** The [foreach] over [devices] in the lambda of [execute]. *)
Definition broadcast (this : nat) (msg : QVariantMap) (dwCommand : string)
    (lpCmdData : QVariant) : M unit :=
  ds ← gets devices;
  forM ds (fun device =>
    d ← this_obj device;
    s ← this_obj this;
    when (String.eqb (objectName d) (objectName s))
         (emit device (executeEventBroadcasted msg dwCommand lpCmdData))).

(** The lambda connected by [execute]. The condition of its [Q_ASSERT]
    reads [msg["dwCommandCode"]]; when that inserts the key the condition is
    false, so the insertion is never seen. *)
Definition execute_slot (this h : nat) (msgid dwCommand : string)
    (lpCmdData : QVariant) (msg0 : QVariantMap) : M unit :=
  let '(id, msg1) := QMap.index "msgid" Invalid msg0 in
  if negb (eqQString id msgid) then ret tt
  else
    broadcast this msg1 dwCommand lpCmdData ;;
    let '(hResult, msg) := QMap.index "hResult" Invalid msg1 in
    if eqQString hResult "WFS_SUCCESS" then
      if QMap.contains "message" msg then
        let message := toString (QMap.value "message" Invalid msg) in
        if String.eqb message "WFS_EXECUTE_COMPLETE" then
          Q_ASSERT (eqQString (QMap.value "dwCommandCode" Invalid msg)
                      dwCommand) ;;
          done this msgid ;;
          update_this this (set_on_message (drop_connection h)) ;;
          emit_executeComplete this msg
        else if String.eqb message "WFS_EXECUTE_EVENT" then
          emit this (executeEventRecieved msg)
        else ret tt
      else
        Q_ASSERT (eqQString (QMap.value "dwCommandCode" Invalid msg)
                    dwCommand) ;;
        appendCommand this (dwCommand, lpCmdData)
    else
      done this msgid ;;
      update_this this (set_on_message (drop_connection h)) ;;
      emit_executeComplete this msg.

(** The lambda connected by [cancel]. *)
Definition cancel_slot (this h : nat) (msgid : string)
    (msg0 : QVariantMap) : M unit :=
  let '(id, msg) := QMap.index "msgid" Invalid msg0 in
  if negb (eqQString id msgid) then ret tt
  else
    done this msgid ;;
    update_this this (set_on_message (drop_connection h)) ;;
    emit_cancelComplete this msg.

(** The lambda connected by [getInfo]. *)
Definition getInfo_slot (this fid : nat) (msgid category : string)
    (msg0 : QVariantMap) : M unit :=
  let '(id, msg1) := QMap.index "msgid" Invalid msg0 in
  if negb (eqQString id msgid) then ret tt
  else
    let '(hr, msg) := QMap.index "hResult" Invalid msg1 in
    let hResult := toString hr in
    let finish : M unit :=
      done this msgid ;;
      f ← get_frame this fid;
      match f with
      | GetInfoFrame _ _ => put_frame this fid (GetInfoFrame msg true)
      | _ => fault DanglingReference
      end in
    if String.eqb hResult "WFS_SUCCESS" then
      Q_ASSERT (negb (QMap.contains "message" msg)
                || eqQString (QMap.value "message" Invalid msg)
                     "WFS_GETINFO_COMPLETE") ;;
      if negb (QMap.contains "message" msg) then ret tt else finish
    else
      s ← this_obj this;
      qWarning [objectName s; " - "; category; " command failed with ";
                hResult] ;;
      finish.

Definition run_message_slot (this h : nat) (slot : MessageSlot)
    (msg : QVariantMap) : M unit :=
  match slot with
  | CtorSlot => ctor_slot this msg
  | ExecuteSlot msgid dwCommand lpCmdData =>
      execute_slot this h msgid dwCommand lpCmdData msg
  | GetInfoSlot fid msgid category => getInfo_slot this fid msgid category msg
  | CancelSlot msgid => cancel_slot this h msgid msg
  end.

(** [emit message(msg)]. *)
Definition emit_message (this : nat) (msg : QVariantMap) : M unit :=
  emit this (message msg) ;;
  s ← this_obj this;
  forM (on_message s) (fun c =>
    s' ← this_obj this;
    when (is_connected (fst c) (on_message s'))
         (run_message_slot this (fst c) (snd c) msg)).

(** ** The transport: qxfssocketstream.cpp *)

Definition io_device (s : QXfsSocketStream) : option QSocket :=
  match m_io s with
  | IoSocket => m_socket s
  | IoNull => None
  end.

Definition set_sock_state (st : SocketState) (k : QSocket) : QSocket :=
  mkSocket st (sock_encrypted k) (sock_errorString k) (sock_rx k) (sock_tx k).

Definition set_sock_encrypted (e : bool) (k : QSocket) : QSocket :=
  mkSocket (sock_state k) e (sock_errorString k) (sock_rx k) (sock_tx k).

Definition set_sock_errorString (e : string) (k : QSocket) : QSocket :=
  mkSocket (sock_state k) (sock_encrypted k) e (sock_rx k) (sock_tx k).

Definition set_sock_rx (f : list byte -> list byte) (k : QSocket) : QSocket :=
  mkSocket (sock_state k) (sock_encrypted k) (sock_errorString k)
    (f (sock_rx k)) (sock_tx k).

Definition set_sock_tx (f : list QVariantMap -> list QVariantMap)
    (k : QSocket) : QSocket :=
  mkSocket (sock_state k) (sock_encrypted k) (sock_errorString k)
    (sock_rx k) (f (sock_tx k)).

Definition update_socket (this : nat) (f : QSocket -> QSocket) : M unit :=
  update_this this (set_m_socket (option_map f)).

(** [QString::mid(n)]. *)
Fixpoint mid (n : nat) (s : string) : string :=
  match n, s with
  | O, _ => s
  | S n', String _ s' => mid n' s'
  | S _, EmptyString => EmptyString
  end.

(** [QString::split(sep)], empty parts kept. *)
Fixpoint split (sep : ascii) (s : string) : list string :=
  match s with
  | EmptyString => [EmptyString]
  | String c s' =>
      if Ascii.eqb c sep then EmptyString :: split sep s'
      else match split sep s' with
           | x :: r => String c x :: r
           | [] => [String c EmptyString]
           end
  end.

Definition digit (c : ascii) : option N :=
  let n := N_of_ascii c in
  if ((48 <=? n) && (n <=? 57))%N then Some (n - 48)%N else None.

Fixpoint toUInt_go (acc : N) (s : string) : option N :=
  match s with
  | EmptyString => Some acc
  | String c s' =>
      match digit c with
      | Some d => toUInt_go (acc * 10 + d)%N s'
      | None => None
      end
  end.

(** [QChar::isSpace] on the characters of the model, which are ASCII: the
    space and the controls from tab to carriage return. *)
Definition isSpace (c : ascii) : bool :=
  let n := N_of_ascii c in
  ((n =? 32) || ((9 <=? n) && (n <=? 13)))%N.

Fixpoint trim_left (s : string) : string :=
  match s with
  | EmptyString => EmptyString
  | String c s' => if isSpace c then trim_left s' else s
  end.

Fixpoint trim_right (s : string) : string :=
  match s with
  | EmptyString => EmptyString
  | String c s' =>
      match trim_right s' with
      | EmptyString => if isSpace c then EmptyString else String c EmptyString
      | r => String c r
      end
  end.

(** [QString::trimmed]. *)
Definition trimmed (s : string) : string := trim_right (trim_left s).

(** [QString::toUInt(&ok)] in base ten; [None] is [ok == false]. White space
    around the number is skipped and one plus sign may lead the digits; a
    minus sign, anything else that is not a digit, no digit at all and a
    value beyond 32 bits are refused. *)
Definition toUInt (s : string) : option N :=
  let t := trimmed s in
  let digits :=
    match t with
    | String c d => if Ascii.eqb c "+" then d else t
    | EmptyString => t
    end in
  match digits with
  | EmptyString => None
  | _ =>
      match toUInt_go 0%N digits with
      | Some n => if (n <=? 4294967295)%N then Some n else None
      | None => None
      end
  end.

Definition toUpper_ascii (c : ascii) : ascii :=
  let n := N_of_ascii c in
  if ((97 <=? n) && (n <=? 122))%N then ascii_of_N (n - 32) else c.

Fixpoint toUpper (s : string) : string :=
  match s with
  | EmptyString => EmptyString
  | String c s' => String (toUpper_ascii c) (toUpper s')
  end.

(** What [createSocket] leaves in the members of the object, what it returns
    ([su_io]) and what it logs. *)
Record SocketSetup : Type := mkSetup {
  su_io : IoPtr;
  su_socket : option QSocket;
  su_isLocal : bool;
  su_isSsl : bool;
  su_host : string;
  su_port : N;
  su_log : list LogEntry
}.

Definition fresh_socket (st : SocketState) : QSocket :=
  mkSocket st false "" [] [].

Definition bad_address (deviceAddress deviceId : string)
    (sock : option QSocket) (isSsl : bool) (host : string) : SocketSetup :=
  mkSetup IoNull sock false isSsl host 0%N
    [Critical [deviceId; ": unknown device connection address ";
               deviceAddress]].

Definition createSocket (deviceAddress deviceId : string) : SocketSetup :=
  if String.eqb deviceAddress "local" then
    (* QLocalSocket; setServerName; connectToServer() *)
    mkSetup IoSocket (Some (fresh_socket ConnectingState)) true false "" 0%N []
  else
    let isTcp := String.prefix "tcp://" deviceAddress in
    let isSsl := if isTcp then false else String.prefix "ssl://" deviceAddress in
    if isTcp || isSsl then
      let sock := Some (fresh_socket UnconnectedState) in
      match split ":" (mid 6 deviceAddress) with
      | [host; port] =>
          match toUInt port with
          | Some p =>
              mkSetup IoSocket (Some (fresh_socket ConnectingState)) false
                isSsl host (p mod 65536)%N []
          | None => bad_address deviceAddress deviceId sock isSsl host
          end
      | _ => bad_address deviceAddress deviceId sock isSsl ""
      end
    else bad_address deviceAddress deviceId None false "".

(** The constructors: [createSocket] is evaluated for the base-class
    argument, then [QXfsStream::QXfsStream], then the body of
    [QXfsSocketStream::QXfsSocketStream]. *)
Definition QXfsSocketStream_new (deviceAddress deviceId strClass : string)
    : M nat :=
  this ← gets next_ptr;
  modify (set_next_ptr S) ;;
  let su := createSocket deviceAddress deviceId in
  modify (set_log (fun l => (l ++ su_log su)%list)) ;;
  let cls := toUpper strClass in
  Q_ASSERT (Nat.eqb (String.length cls) 3) ;;
  Q_ASSERT (match su_io su with IoSocket => true | IoNull => false end) ;;
  modify (set_objs (fun h =>
    <[this := mkStream deviceId (su_io su) cls
                ("WFS_INF_" ++ cls ++ "_STATUS")
                ("WFS_INF_" ++ cls ++ "_CAPABILITIES")
                [] (su_socket su) (su_isLocal su) (su_isSsl su) (su_host su)
                (su_port su) [(0, CtorSlot)] [] [] 1 ∅ 0]> h)) ;;
  modify (set_devices (fun d => (d ++ [this])%list)) ;;
  ret this.

(** [QList::removeOne]. *)
Fixpoint removeOne (x : nat) (l : list nat) : list nat :=
  match l with
  | [] => []
  | y :: l' => if Nat.eqb x y then l' else y :: removeOne x l'
  end.

(** The destructors, derived class first. *)
Definition QXfsSocketStream_delete (this : nat) : M unit :=
  s ← this_obj this;
  match m_socket s with
  | None => fault NullDereference
  | Some _ =>
      modify (set_devices (removeOne this)) ;;
      modify (set_objs (fun h => delete this h))
  end.

(** [QLocalSocket::connectToServer()], [connectToHost()] and
    [connectToHostEncrypted()] on a socket that is not connected: the device
    is opened again, which empties its read buffer, and the connection is
    under way. *)
Definition reopen (k : QSocket) : QSocket :=
  set_sock_state ConnectingState (set_sock_rx (fun _ => []) k).

(** [waitForConnected()] / [waitForEncrypted()]. *)
Definition waitFor (this : nat) (encrypted : bool) : M bool :=
  n ← gets net;
  modify (set_net (fun l => tail l)) ;;
  match n with
  | WaitOk :: _ =>
      update_socket this (fun k =>
        set_sock_state ConnectedState
          (set_sock_encrypted (encrypted || sock_encrypted k) k)) ;;
      ret true
  | WaitFailed e :: _ =>
      update_socket this (fun k =>
        set_sock_state UnconnectedState (set_sock_errorString e k)) ;;
      ret false
  | [] =>
      update_socket this (fun k =>
        set_sock_state UnconnectedState
          (set_sock_errorString "Socket operation timed out" k)) ;;
      ret false
  end.

Definition connectToServer (this : nat) : M bool :=
  s ← this_obj this;
  match io_device s with
  | None => fault NullDereference
  | Some socket =>
      connected ←
        (if m_isLocal s then
           if negb (SocketState_eqb (sock_state socket) ConnectedState) then
             update_socket this reopen ;;
             waitFor this false
           else ret true
         else
           if negb (SocketState_eqb (sock_state socket) ConnectedState)
              || (m_isSsl s && negb (sock_encrypted socket)) then
             when (SocketState_eqb (sock_state socket) UnconnectedState
                   || SocketState_eqb (sock_state socket) ClosingState)
                  (update_socket this reopen) ;;
             waitFor this (m_isSsl s)
           else ret true);
      if connected then ret true
      else
        (* conn_err *)
        s' ← this_obj this;
        let on := objectName s' in
        let errorString :=
          match m_socket s' with
          | Some k => sock_errorString k
          | None => ""
          end in
        seen ← gets warnOnce;
        when (negb (existsb (String.eqb on) seen))
             (modify (set_warnOnce (fun l => on :: l)) ;;
              qWarning [on; " - unable to connect to device server: ";
                        errorString]) ;;
        ret false
  end.

(** [msg[key] = value]. *)
Definition assign (k : string) (v : QVariant) (m : QVariantMap)
    : QVariantMap :=
  QMap.insert k v m.

Fixpoint disconnected_loop (this : nat) (its : list (string * string))
    (msg : QVariantMap) : M unit :=
  match its with
  | [] => ret tt
  | (key, value) :: rest =>
      let msg1 := assign "msgid" (VString key) msg in
      let msg2 := assign "dwCommandCode" (VString value) msg1 in
      emit_message this msg2 ;;
      disconnected_loop this rest msg2
  end.

Definition disconnected (this : nat) : M unit :=
  s ← this_obj this;
  let commands := m_pending s in
  disconnected_loop this commands
    [("hResult", VString "WFS_ERR_CONNECTION_LOST")].

(** ** Requests: qxfsstream.cpp *)

(** [ds << cmd] on [m_io]. *)
Definition write_frame (this : nat) (cmd : QVariantMap) : M unit :=
  s ← this_obj this;
  match io_device s with
  | Some _ => update_socket this (set_sock_tx (fun t => (t ++ [cmd])%list))
  | None => ret tt
  end.

Definition connect_message (this : nat) (slot : MessageSlot) : M nat :=
  h ← new_connection this;
  update_this this (set_on_message (fun l => (l ++ [(h, slot)])%list)) ;;
  ret h.

Definition send (this : nat) (function dwCommand : string)
    (lpCmdData : QVariant) : M string :=
  ok ← connectToServer this;
  if negb ok then ret ""
  else
    msgid ← createUuid;
    write_frame this
      (assign "dwCommand" (VString dwCommand)
        (assign "function" (VString function)
          (assign "lpCmdData" lpCmdData
            (assign "msgid" (VString msgid) [])))) ;;
    update_this this (set_m_pending (QMap.insert msgid dwCommand)) ;;
    ret msgid.

Definition execute (this : nat) (dwCommand : string) (lpCmdData : QVariant)
    : M string :=
  msgid ← send this "WFSExecute" dwCommand lpCmdData;
  if isEmptyString msgid then ret ""
  else
    connect_message this (ExecuteSlot msgid dwCommand lpCmdData) ;;
    ret msgid.

Definition cancel (this : nat) (reqMsgId : string) : M string :=
  ok ← connectToServer this;
  if negb ok then ret ""
  else
    msgid ← createUuid;
    connect_message this (CancelSlot msgid) ;;
    update_this this (set_m_pending (QMap.insert msgid "")) ;;
    let cmd := assign "function" (VString "WFSCancel")
                 (assign "msgid" (VString msgid) []) in
    write_frame this
      (if negb (isEmptyString reqMsgId)
       then QMap.insert "RequestID" (VString reqMsgId) cmd
       else cmd) ;;
    ret msgid.

(** ** Reading frames and the blocking calls *)

(** Outcome of [ds >> msg] on the bytes buffered by the device: the stream
    status after the read and, unless the read ran past the end, the bytes
    left behind it. *)
Inductive ReadStatus : Type :=
  | ReadOk (msg : QVariantMap) (rest : list byte)
  | ReadPastEnd
  | ReadCorruptData (rest : list byte).

Section Codec.

(** [QDataStream &operator>>(QDataStream &, QVariantMap &)], big endian. *)
Variable read_QVariantMap : list byte -> ReadStatus.

(** The [for (;;)] of [readyRead]. [commitTransaction] rolls the device back
    when the status is [ReadPastEnd] and commits it otherwise; it returns
    true only when the status is [Ok]. *)
Fixpoint readyRead_loop (fuel : nat) (this : nat) : M unit :=
  match fuel with
  | O => fault Livelock
  | S fuel' =>
      s ← this_obj this;
      match io_device s with
      | None => fault NullDereference
      | Some socket =>
          match read_QVariantMap (sock_rx socket) with
          | ReadPastEnd => ret tt
          | ReadCorruptData rest =>
              update_socket this (set_sock_rx (fun _ => rest))
          | ReadOk msg rest =>
              update_socket this (set_sock_rx (fun _ => rest)) ;;
              emit_message this msg ;;
              readyRead_loop fuel' this
          end
      end
  end.

Definition readyRead (this : nat) : M unit :=
  s ← this_obj this;
  match io_device s with
  | None => fault NullDereference
  | Some socket => readyRead_loop (S (List.length (sock_rx socket))) this
  end.

(** One socket event handed out by the event loop. Events of a proxy that
    is gone, or that has no socket, reach nobody. *)
Definition deliver (ev : nat * IoEvent) : M unit :=
  fun w =>
    match objs w !! fst ev with
    | None => Ret tt w
    | Some s =>
        match snd ev with
        | EvReadyRead bytes =>
            match io_device s with
            | None => Ret tt w
            | Some _ =>
                (update_socket (fst ev)
                   (set_sock_rx (fun b => (b ++ bytes)%list)) ;;
                 readyRead (fst ev)) w
            end
        | EvDisconnected =>
            match m_socket s with
            | None => Ret tt w
            | Some _ =>
                (update_socket (fst ev) (fun k =>
                   set_sock_state UnconnectedState
                     (set_sock_encrypted false k)) ;;
                 disconnected (fst ev)) w
            end
        end
    end.

(** [loop.exec()]: hands out the coming events one by one until a slot has
    called [loop.exit()] on this loop. *)
Fixpoint loop_exec (evs : list (nat * IoEvent)) (this fid : nat) : M unit :=
  f ← get_frame this fid;
  if frame_exited f then ret tt
  else
    match evs with
    | [] => fun w => Blocked w
    | ev :: rest =>
        modify (set_inbox (fun _ => rest)) ;;
        deliver ev ;;
        loop_exec rest this fid
    end.

Definition QEventLoop_exec (this fid : nat) : M unit :=
  evs ← gets inbox;
  loop_exec evs this fid.

Definition new_frame (this : nat) (f : Frame) : M nat :=
  s ← this_obj this;
  update_this this (fun s =>
    set_next_frame S (set_frames (fun fs => <[next_frame s := f]> fs) s)) ;;
  ret (next_frame s).

Definition drop_frame (this fid : nat) : M unit :=
  update_this this (set_frames (fun fs => delete fid fs)).

Definition getInfo (this : nat) (category : string) (queryDetails : QVariant)
    : M QVariantMap :=
  msgid ← send this "WFSGetInfo" category queryDetails;
  if isEmptyString msgid then ret []
  else
    fid ← new_frame this (GetInfoFrame [] false);
    c ← connect_message this (GetInfoSlot fid msgid category);
    QEventLoop_exec this fid ;;
    update_this this (set_on_message (drop_connection c)) ;;
    f ← get_frame this fid;
    drop_frame this fid ;;
    ret (match f with GetInfoFrame rv _ => rv | _ => [] end).

Definition connect_cancelComplete (this : nat) (slot : CancelCompleteSlot)
    : M nat :=
  h ← new_connection this;
  update_this this
    (set_on_cancelComplete (fun l => (l ++ [(h, slot)])%list)) ;;
  ret h.

Definition connect_executeComplete (this : nat) (slot : ExecuteCompleteSlot)
    : M nat :=
  h ← new_connection this;
  update_this this
    (set_on_executeComplete (fun l => (l ++ [(h, slot)])%list)) ;;
  ret h.

(** [syncCancel] leaves [c1] and [c2] connected when it returns; only the
    lambdas disconnect themselves. *)
Definition syncCancel (this : nat) (reqMsgId : string) : M bool :=
  msgid ← cancel this reqMsgId;
  if isEmptyString msgid then ret false
  else
    fid ← new_frame this (SyncCancelFrame (isEmptyString reqMsgId) false);
    connect_cancelComplete this (SyncCancelC1 fid msgid) ;;
    connect_executeComplete this (SyncCancelC2 fid reqMsgId) ;;
    QEventLoop_exec this fid ;;
    drop_frame this fid ;;
    ret true.

Definition getCapabilities (this : nat) : M unit :=
  s ← this_obj this;
  data ← getInfo this (m_capabilitiesCategory s) Invalid;
  if QMap.contains "lpBuffer" data then
    modify (set_m_capabilities
      (QMap.insert (objectName s)
         (toMap (QMap.value "lpBuffer" Invalid data))))
  else ret tt.

(** [m_capabilities[objectName()]] through the non-const [operator[]]. *)
Definition capabilities_of (this : nat) : M QVariantMap :=
  s ← this_obj this;
  cache ← gets m_capabilities;
  let '(caps, cache') := QMap.index (objectName s) [] cache in
  modify (set_m_capabilities (fun _ => cache')) ;;
  ret caps.

Definition capabilities (this : nat) : M QVariantMap :=
  caps ← capabilities_of this;
  when (QMap.isEmpty caps) (getCapabilities this) ;;
  capabilities_of this.

Definition getStatus (this : nat) : M QVariantMap :=
  s ← this_obj this;
  data ← getInfo this (m_statusCategory s) Invalid;
  ret (toMap (QMap.value "lpBuffer" Invalid data)).

Definition status (this : nat) : M QVariantMap := getStatus this.

End Codec.

(** * Vocabulary of the statements *)

(** Partial correctness: what holds of the outcome when the computation
    returns, or is left waiting in an event loop. A stopped process owes
    nothing. *)
Definition post {A} (c : M A) (Q : A -> World -> Prop) (B : World -> Prop)
    (w : World) : Prop :=
  match c w with
  | Ret a w' => Q a w'
  | Blocked w' => B w'
  | Stop _ => True
  end.

(** [c] keeps [J]. *)
Definition pres {A} (J : World -> Prop) (c : M A) : Prop :=
  forall w, J w -> post c (fun _ => J) J w.

(** A member of a proxy as seen from the world; [d] when the proxy is gone. *)
Definition obj_field {X} (f : QXfsSocketStream -> X) (d : X) (this : nat)
    (w : World) : X :=
  match objs w !! this with
  | Some s => f s
  | None => d
  end.

Definition pending_of : nat -> World -> QMap.t string :=
  obj_field m_pending [].

Definition slots_of : nat -> World -> list (nat * MessageSlot) :=
  obj_field on_message [].

Definition queue_of (name : string) (w : World) : list (string * QVariant) :=
  QMap.value name [] (commands w).

(** What [finishCommand] makes of the map of queues. *)
Definition finish_queue (name : string)
    (cmds : QMap.t (list (string * QVariant)))
    : QMap.t (list (string * QVariant)) :=
  let '(l, cmds') := QMap.index name [] cmds in
  match l with
  | _ :: rest => QMap.insert name rest cmds'
  | [] => cmds'
  end.

(** An invariant that does not mind the signals of [P] being emitted. *)
Definition ignores_signals (J : World -> Prop) (P : nat * Signal -> Prop)
    : Prop :=
  forall w e, J w -> P e -> J (set_trace (fun t => (t ++ [e])%list) w).

(** An invariant that does not mind the lambdas of [syncCancel] running on
    the proxies of [O]. *)
Definition ignores_sync (J : World -> Prop) (O : nat -> Prop) : Prop :=
  (forall w p s f, O p -> J w -> objs w !! p = Some s ->
     J (set_objs (fun h => <[p := set_on_cancelComplete f s]> h) w)) /\
  (forall w p s f, O p -> J w -> objs w !! p = Some s ->
     J (set_objs (fun h => <[p := set_on_executeComplete f s]> h) w)) /\
  (forall w p s f, O p -> J w -> objs w !! p = Some s ->
     J (set_objs (fun h => <[p := set_frames f s]> h) w)).

Definition any_proxy (p : nat) : Prop := True.

(** An invariant that minds none of the effects of the slots, as long as
    the signals they emit are in [P]. *)
Definition ignores_slots (J : World -> Prop) (P : nat * Signal -> Prop)
    : Prop :=
  ignores_signals J P /\
  ignores_sync J any_proxy /\
  (forall w e, J w -> J (set_log (fun l => (l ++ [e])%list) w)) /\
  (forall w f, J w -> J (set_commands f w)) /\
  (forall w p s f, J w -> objs w !! p = Some s ->
     J (set_objs (fun h => <[p := set_m_pending f s]> h) w)) /\
  (forall w p s h, J w -> objs w !! p = Some s ->
     J (set_objs (fun m => <[p := set_on_message (drop_connection h) s]> m) w)).

Definition any_signal (e : nat * Signal) : Prop := True.

(** An invariant that does not mind bytes arriving or the socket closing. *)
Definition ignores_socket (J : World -> Prop) : Prop :=
  (forall w p s f, J w -> objs w !! p = Some s ->
     J (set_objs (fun h =>
          <[p := set_m_socket (option_map (set_sock_rx f)) s]> h) w)) /\
  (forall w p s st e, J w -> objs w !! p = Some s ->
     J (set_objs (fun h =>
          <[p := set_m_socket (option_map (fun k =>
                   set_sock_state st (set_sock_encrypted e k))) s]> h) w)).

(** The signals that no slot of the library listens to. *)
Definition is_quiet (sig : Signal) : bool :=
  match sig with
  | message _ | executeComplete _ | cancelComplete _ => false
  | _ => true
  end.

(** The signals added to the trace between two worlds. *)
Definition new_trace (w w' : World) : list (nat * Signal) :=
  drop (List.length (trace w)) (trace w').

(** Every proxy in the registry is alive. *)
Definition registry_live (w : World) : Prop :=
  Forall (fun d => is_Some (objs w !! d)) (devices w).

(** Every lambda of [syncCancel] that is still connected finds the locals
    it captured. *)
Definition sync_live (s : QXfsSocketStream) : Prop :=
  Forall (fun c => match snd c with SyncCancelC1 fid _ =>
            exists fin ex, frames s !! fid = Some (SyncCancelFrame fin ex) end)
         (on_cancelComplete s) /\
  Forall (fun c => match snd c with SyncCancelC2 fid _ =>
            exists fin ex, frames s !! fid = Some (SyncCancelFrame fin ex) end)
         (on_executeComplete s).

(** [hResult] as the lambdas read it. *)
Definition hResult_of (msg : QVariantMap) : QVariant :=
  QMap.value "hResult" Invalid msg.

Definition msgid_is (msg : QVariantMap) (id : string) : bool :=
  eqQString (QMap.value "msgid" Invalid msg) id.

(** [s'] differs from [s] at most in the connections and the frames of
    [syncCancel]. *)
Definition same_but_sync (s s' : QXfsSocketStream) : Prop :=
  s' = set_frames (fun _ => frames s')
         (set_on_cancelComplete (fun _ => on_cancelComplete s')
            (set_on_executeComplete (fun _ => on_executeComplete s') s)).

Definition is_sync_frame (fs : gmap nat Frame) (fid : nat) : Prop :=
  exists fin ex, fs !! fid = Some (SyncCancelFrame fin ex).

(** What the lambdas of [syncCancel] can make of a proxy. *)
Definition sync_step (s s' : QXfsSocketStream) : Prop :=
  same_but_sync s s' /\
  (forall fid, is_sync_frame (frames s) fid -> is_sync_frame (frames s') fid) /\
  (forall c, c ∈ on_cancelComplete s' -> c ∈ on_cancelComplete s) /\
  (forall c, c ∈ on_executeComplete s' -> c ∈ on_executeComplete s) /\
  (forall fid rv ex, frames s !! fid = Some (GetInfoFrame rv ex) ->
     frames s' !! fid = Some (GetInfoFrame rv ex)).

(** The proxies of the registry that carry a given [objectName], in
    registry order. *)
Definition listeners (w : World) (name : string) : list nat :=
  filter (fun d => objectName <$> (objs w !! d) = Some name) (devices w).

Definition broadcast_signals (w : World) (name : string) (msg : QVariantMap)
    (dwCommand : string) (lpCmdData : QVariant) : list (nat * Signal) :=
  map (fun d => (d, executeEventBroadcasted msg dwCommand lpCmdData))
      (listeners w name).

(** The frame as the lambdas of [execute] and [getInfo] pass it on: reading
    [msg["hResult"]] has added the key when the frame lacked it. *)
Definition with_hResult (msg : QVariantMap) : QVariantMap :=
  snd (QMap.index "hResult" Invalid msg).

(** The [Q_ASSERT] on the echoed command code lets the frame through. *)
Definition echo_ok (w : World) (dwCommand : string) (msg : QVariantMap)
    : Prop :=
  qt_debug w = false \/
  eqQString (QMap.value "dwCommandCode" Invalid msg) dwCommand = true.

Definition trace_extends (T : list (nat * Signal)) (w : World) : Prop :=
  exists rest, trace w = (T ++ rest)%list.

(** The warning of [conn_err] for a device identity. *)
Definition is_connect_warning (name : string) (e : LogEntry) : bool :=
  match e with
  | Warning [n; t; _] =>
      String.eqb n name && String.eqb t " - unable to connect to device server: "
  | _ => false
  end.

Definition connect_warnings (name : string) (l : list LogEntry) : nat :=
  List.length (List.filter (is_connect_warning name) l).

(** No warning for an identity that [warnOnce] does not hold, one at most
    for an identity it holds. *)
Definition warn_budget (name : string) (w : World) : Prop :=
  connect_warnings name (log w) <=
  (if existsb (String.eqb name) (warnOnce w) then 1 else 0).

(** The state of the socket makes [connectToServer] wait for a
    connection. *)
Definition must_connect (s : QXfsSocketStream) (k : QSocket) : bool :=
  if m_isLocal s then negb (SocketState_eqb (sock_state k) ConnectedState)
  else negb (SocketState_eqb (sock_state k) ConnectedState)
       || (m_isSsl s && negb (sock_encrypted k)).

(** The next wait does not succeed. *)
Definition wait_fails (w : World) : Prop :=
  match net w with
  | WaitOk :: _ => False
  | _ => True
  end.

(** Connection attempts, one after the other, by the proxies of a list. *)
Definition attempts (ps : list nat) : M unit :=
  forM ps (fun p => connectToServer p ;; ret tt).

(** A process that has just started. *)
Definition fresh_world (debug : bool) (waits : list WaitResult)
    (events : list (nat * IoEvent)) : World :=
  mkWorld ∅ 0 [] [] [] [] [] [] 0 events waits debug.

Definition returns {A} (a : A) (r : Res A) : Prop :=
  exists w', r = Ret a w'.

(** ** Frames in a byte stream *)

(** The frames that successive reads take off a buffer, and what is left
    of it: a read that runs past the end leaves the bytes where they are, a
    read of corrupt data drops what it has consumed. *)
Fixpoint decode_frames (rd : list byte -> ReadStatus) (fuel : nat)
    (buf : list byte) : list QVariantMap * list byte :=
  match fuel with
  | O => ([], buf)
  | S fuel' =>
      match rd buf with
      | ReadOk msg rest =>
          let '(ms, r) := decode_frames rd fuel' rest in (msg :: ms, r)
      | ReadPastEnd => ([], buf)
      | ReadCorruptData rest => ([], rest)
      end
  end.

(** A frame takes at least one byte. *)
Definition progressing (rd : list byte -> ReadStatus) : Prop :=
  forall buf msg rest, rd buf = ReadOk msg rest ->
    List.length rest < List.length buf.

(** The frames a proxy has put on its [message] signal. *)
Definition messages_of (this : nat) (tr : list (nat * Signal))
    : list QVariantMap :=
  omap (fun e => match snd e with
                 | message m => if decide (fst e = this) then Some m else None
                 | _ => None
                 end) tr.

Definition rx_of (this : nat) (w : World) : list byte :=
  obj_field (fun s => match io_device s with
                      | Some k => sock_rx k
                      | None => []
                      end) [] this w.

(** The call returns, or stops with a fault of [okS]; it is never left
    waiting. *)
Definition outcome_ok (okS : Fault -> Prop) {A} (c : M A) : Prop :=
  forall w, match c w with
            | Ret _ _ => True
            | Stop f => okS f
            | Blocked _ => False
            end.

Definition not_livelock (f : Fault) : Prop := f <> Livelock.
Definition any_fault (f : Fault) : Prop := True.

(** A stand-in for the wire format: one byte per frame, the index of the
    frame in a table; a byte beyond the table is corrupt data. *)
Definition table_codec (table : list QVariantMap) (buf : list byte)
    : ReadStatus :=
  match buf with
  | [] => ReadPastEnd
  | b :: rest =>
      match nth_error table (Byte.to_nat b) with
      | Some msg => ReadOk msg rest
      | None => ReadCorruptData rest
      end
  end.

(** A stand-in with frames of several bytes: a length byte, then that many
    bytes, of which the first is the index of the frame in a table. A
    buffer that ends before the announced length holds a frame that has
    only partly arrived; a length of zero or an index beyond the table is
    corrupt data, and the bytes of that frame are dropped. *)
Definition framed_codec (table : list QVariantMap) (buf : list byte)
    : ReadStatus :=
  match buf with
  | [] => ReadPastEnd
  | n :: body =>
      let len := Byte.to_nat n in
      if Nat.ltb (List.length body) len then ReadPastEnd
      else
        match firstn len body with
        | i :: _ =>
            match nth_error table (Byte.to_nat i) with
            | Some msg => ReadOk msg (skipn len body)
            | None => ReadCorruptData (skipn len body)
            end
        | [] => ReadCorruptData (skipn len body)
        end
  end.

(** ** What [syncCancel] waits for *)

(** The first [cancelComplete] that the proxy has emitted for the cancel
    request. *)
Definition cancel_reply (this : nat) (cid : string)
    (tr : list (nat * Signal)) : option QVariantMap :=
  head (omap (fun e => match snd e with
                       | cancelComplete m =>
                           if decide (fst e = this) then
                             if msgid_is m cid then Some m else None
                           else None
                       | _ => None
                       end) tr).

(** The proxy has emitted an [executeComplete] for the target request. *)
Definition execute_seen (this : nat) (rid : string)
    (tr : list (nat * Signal)) : bool :=
  existsb (fun e => match snd e with
                    | executeComplete m =>
                        bool_decide (fst e = this) && msgid_is m rid
                    | _ => false
                    end) tr.

(** The rule of the wait: the reply to the cancel request has been seen
    and either no target was given, or the reply is a failure, or the
    completion of the target has been seen as well. *)
Definition wait_over (this : nat) (cid rid : string)
    (tr : list (nat * Signal)) : bool :=
  match cancel_reply this cid tr with
  | Some m =>
      isEmptyString rid
      || negb (eqQString (hResult_of m) "WFS_SUCCESS")
      || execute_seen this rid tr
  | None => false
  end.

Definition execute_ids_set (l : list (nat * MessageSlot)) : Prop :=
  forall c, c ∈ l ->
    match snd c with
    | ExecuteSlot id _ _ => id <> ""
    | _ => True
    end.

(** A lambda that a returned [syncCancel] has left connected on
    [executeComplete]: the locals it captured by reference are gone, and
    neither its frame nor its handle is handed out again. *)
Definition stale (s : QXfsSocketStream) (c : nat * ExecuteCompleteSlot)
    : Prop :=
  fst c < next_connection s /\
  match snd c with
  | SyncCancelC2 fid _ => frames s !! fid = None /\ fid < next_frame s
  end.

(** The lambdas of [syncCancel] on a proxy between two calls: none on
    [cancelComplete], and on [executeComplete] those that returned calls
    have left. *)
Definition sync_settled (s : QXfsSocketStream) : Prop :=
  on_cancelComplete s = [] /\ Forall (stale s) (on_executeComplete s).

(** The state of a [syncCancel] that waits in its event loop, against the
    signals emitted since it started; [old] are the lambdas that earlier
    calls have left connected. *)
Definition waiting (this fid : nat) (cid rid : string) (h1 h2 : nat)
    (old : list (nat * ExecuteCompleteSlot)) (w0 w : World) : Prop :=
  exists s rest fin ex,
    objs w !! this = Some s /\
    trace w = (trace w0 ++ rest)%list /\
    frames s !! fid = Some (SyncCancelFrame fin ex) /\
    on_cancelComplete s =
      match cancel_reply this cid rest with
      | None => [(h1, SyncCancelC1 fid cid)]
      | Some _ => []
      end /\
    on_executeComplete s =
      (old ++ (if execute_seen this rid rest then []
               else [(h2, SyncCancelC2 fid rid)]))%list /\
    Forall (fun c => stale s c /\ fst c <> h2) old /\
    (h2 < next_connection s /\ fid < next_frame s) /\
    ex = wait_over this cid rid rest /\
    (ex = false ->
     fin = isEmptyString rid
           || (match cancel_reply this cid rest with
               | Some _ => true
               | None => false
               end)
           || execute_seen this rid rest) /\
    execute_ids_set (on_message s).

(** The exit flag of the event loop of a blocking call. *)
Definition exit_flag (this fid : nat) (w : World) : option bool :=
  match objs w !! this with
  | Some s => frame_exited <$> (frames s !! fid)
  | None => None
  end.

(** What [connectToServer] can make of a socket: the frames written to it
    stay; the bytes received stay or, where the device is opened again, are
    dropped. *)
Definition reconnects (f : QSocket -> QSocket) : Prop :=
  forall k, sock_tx (f k) = sock_tx k /\
            (sock_rx (f k) = sock_rx k \/ sock_rx (f k) = []).

(** An invariant that does not mind what [connectToServer] does: the wait,
    the warning, and what becomes of the socket. *)
Definition ignores_connect (J : World -> Prop) : Prop :=
  (forall w f, J w -> J (set_net f w)) /\
  (forall w f, J w -> J (set_warnOnce f w)) /\
  (forall w e, J w -> J (set_log (fun l => (l ++ [e])%list) w)) /\
  (forall w p s f, J w -> objs w !! p = Some s ->
     reconnects f ->
     J (set_objs (fun h => <[p := set_m_socket (option_map f) s]> h) w)).

(** * Invariants and vocabulary of the proofs *)

(** The effect [done] has on the queue and on the pending map is not
    undone by what a lambda does after it. *)
Definition done_effect (this : nat) (name : string)
    (q : list (string * QVariant)) (pd : QMap.t string) (w : World) : Prop :=
  queue_of name w = q /\ pending_of this w = pd.

(** The steps of a lambda that come before [done] leave the proxies and the
    queues alone. *)
Definition untouched (w0 w : World) : Prop :=
  objs w = objs w0 /\ commands w = commands w0.

(** The slots emit every signal but [message]. *)
Definition not_message (P : nat * Signal -> Prop) : Prop :=
  forall p sig, (forall msg, sig <> message msg) -> P (p, sig).

(** The bytes buffered for a proxy and the frames it has dispatched since
    [w0]. *)
Definition reading (this : nat) (w0 : World) (r : list byte)
    (L : list QVariantMap) (w : World) : Prop :=
  (exists s k, objs w !! this = Some s /\ io_device s = Some k /\
               sock_rx k = r) /\
  (exists rest, trace w = (trace w0 ++ rest)%list /\
                messages_of this rest = L).

(** Signals that the wait does not look at. *)
Definition neutral (this : nat) (e : nat * Signal) : Prop :=
  match snd e with
  | cancelComplete _ | executeComplete _ => fst e <> this
  | _ => True
  end.

(** The slots known to a waiting [syncCancel]: the lambdas of [execute] on
    its proxy carry an id. *)
Definition known_waiting (this : nat) (p : nat) (slot : MessageSlot) : Prop :=
  p = this ->
  match slot with
  | ExecuteSlot id _ _ => id <> ""
  | _ => True
  end.

(** What [write_frame] makes of the proxy. *)
Definition written (cmd : QVariantMap) (s : QXfsSocketStream)
    : QXfsSocketStream :=
  match io_device s with
  | Some _ =>
      set_m_socket (option_map (set_sock_tx (fun t => (t ++ [cmd])%list))) s
  | None => s
  end.

(** The reply that ends the wait: it carries the id of the query, and when
    its [hResult] is not the success value the failure is in the log with
    the device identity, the category and the cause. *)
Definition reply_ok (name id cat : string) (rv : QVariantMap)
    (lg : list LogEntry) : Prop :=
  msgid_is rv id = true /\
  (String.eqb (toString (hResult_of rv)) "WFS_SUCCESS" = false ->
   Warning [name; " - "; cat; " command failed with ";
            toString (hResult_of rv)] ∈ lg).

Definition own_getInfo_slots (fid : nat) (id cat : string)
    (l : list (nat * MessageSlot)) : Prop :=
  forall c, c ∈ l ->
    match snd c with
    | GetInfoSlot fid' id' cat' => fid' = fid -> id' = id /\ cat' = cat
    | _ => True
    end.

(** The state of a [getInfo] that waits in its event loop. *)
Definition asking (this fid : nat) (name id cat : string) (w : World) : Prop :=
  exists s rv ex,
    objs w !! this = Some s /\ objectName s = name /\
    frames s !! fid = Some (GetInfoFrame rv ex) /\
    (if ex then reply_ok name id cat rv (log w) else rv = []) /\
    own_getInfo_slots fid id cat (on_message s).

Definition known_asking (this fid : nat) (id cat : string) (p : nat)
    (slot : MessageSlot) : Prop :=
  p = this ->
  match slot with
  | GetInfoSlot fid' id' cat' => fid' = fid -> id' = id /\ cat' = cat
  | _ => True
  end.

(** An invariant that a lambda of [syncCancel] keeps when it finds its
    frame. *)
Definition keeps_sync_frames (J : World -> Prop) : Prop :=
  forall w p s fid fin ex F (fc : list (nat * CancelCompleteSlot) -> _)
         (fe : list (nat * ExecuteCompleteSlot) -> _),
    J w -> objs w !! p = Some s ->
    frames s !! fid = Some (SyncCancelFrame fin ex) ->
    J (set_objs (fun m =>
         <[p := set_frames (fun fs => <[fid := F]> fs)
                  (set_on_cancelComplete fc s)]> m) w) /\
    J (set_objs (fun m =>
         <[p := set_frames (fun fs => <[fid := F]> fs)
                  (set_on_executeComplete fe s)]> m) w).

Definition tx_of (this : nat) (w : World) : list QVariantMap :=
  obj_field (fun s => match io_device s with
                      | Some k => sock_tx k
                      | None => []
                      end) [] this w.

(** No lambda of [getInfo] is connected: no [getInfo] is under way. *)
Definition getInfo_free (l : list (nat * MessageSlot)) : Prop :=
  forall c, c ∈ l ->
    match snd c with
    | GetInfoSlot _ _ _ => False
    | _ => True
    end.

(** The frames written by a proxy and the capability cache, which no slot
    touches. *)
Definition querying (this : nat) (name : string) (X : list QVariantMap)
    (C : QMap.t QVariantMap) (w : World) : Prop :=
  (exists s k, objs w !! this = Some s /\ objectName s = name /\
               io_device s = Some k /\ sock_tx k = X) /\
  m_capabilities w = C.

(** The proxy before [getInfo] starts its wait. *)
Definition idle (this : nat) (name : string) (w : World) : Prop :=
  exists s, objs w !! this = Some s /\ objectName s = name /\
            getInfo_free (on_message s).

(** What [getInfo] hands back and leaves behind. *)
Definition getInfo_result (this : nat) (category : string) (w : World)
    (name : string) (rv : QVariantMap) (w' : World) : Prop :=
  (exists s', objs w' !! this = Some s' /\ objectName s' = name) /\
  m_capabilities w' = m_capabilities w /\
  ((rv = [] /\ tx_of this w' = tx_of this w /\
    exists w1, connectToServer this w = Ret false w1) \/
   (exists w1 query,
      connectToServer this w = Ret true w1 /\
      tx_of this w' = (tx_of this w ++ [query])%list /\
      QMap.find "function" query = Some (VString "WFSGetInfo") /\
      QMap.find "dwCommand" query = Some (VString category) /\
      reply_ok name (uuid_string (uuid_seed w1)) category rv (log w'))).

(** The proxy before a blocking call starts its wait; [old] are the
    lambdas that earlier calls of [syncCancel] have left connected. *)
Definition at_rest (this : nat) (old : list (nat * ExecuteCompleteSlot))
    (w0 w : World) : Prop :=
  exists s, objs w !! this = Some s /\
            on_cancelComplete s = [] /\ on_executeComplete s = old /\
            Forall (stale s) old /\
            execute_ids_set (on_message s) /\
            trace w = trace w0.

(** The frame that [cancel] writes. *)
Definition cancel_frame (msgid reqMsgId : string) : QVariantMap :=
  let cmd := assign "function" (VString "WFSCancel")
               (assign "msgid" (VString msgid) []) in
  if negb (isEmptyString reqMsgId)
  then QMap.insert "RequestID" (VString reqMsgId) cmd
  else cmd.

Definition slot_id (slot : MessageSlot) : option string :=
  match slot with
  | CtorSlot => None
  | ExecuteSlot id _ _ => Some id
  | GetInfoSlot _ id _ => Some id
  | CancelSlot id => Some id
  end.

(** The frame that [disconnected] makes up for a pending request. *)
Definition lost_message (id cmd : string) : QVariantMap :=
  assign "dwCommandCode" (VString cmd)
    (assign "msgid" (VString id)
       [("hResult", VString "WFS_ERR_CONNECTION_LOST")]).

(** The lambda that serves the request [id]. *)
Definition slot_for (id : string) (l : list (nat * MessageSlot))
    : option MessageSlot :=
  snd <$> List.find (fun c => bool_decide (slot_id (snd c) = Some id)) l.

(** The completion signal of the request [id]; a [getInfo] completes by
    leaving its event loop. *)
Definition completion (this : nat) (slot : option MessageSlot)
    (m : QVariantMap) : list (nat * Signal) :=
  match slot with
  | Some (ExecuteSlot _ _ _) => [(this, executeComplete m)]
  | Some (CancelSlot _) => [(this, cancelComplete m)]
  | _ => []
  end.

(** The dispatched frames and the completions in a trace. *)
Definition outcomes (t : list (nat * Signal)) : list (nat * Signal) :=
  List.filter (fun e => negb (is_quiet (snd e))) t.

(** A [getInfo] call frame that has left its loop on a lost connection. *)
Definition lost_exit (s : QXfsSocketStream) (fid : nat) : Prop :=
  exists rv, frames s !! fid = Some (GetInfoFrame rv true) /\
             hResult_of rv = VString "WFS_ERR_CONNECTION_LOST".

(** Every pending request has its lambda connected: what [send] and
    [cancel] establish and [done] with [disconnect] keep up. *)
Definition served (s : QXfsSocketStream) : Prop :=
  NoDup (QMap.keys (m_pending s)) /\
  NoDup (map fst (on_message s)) /\
  NoDup (omap (fun c => slot_id (snd c)) (on_message s)) /\
  (forall id, id ∈ QMap.keys (m_pending s) ->
     exists c, c ∈ on_message s /\ slot_id (snd c) = Some id) /\
  (forall c fid id cat, c ∈ on_message s -> snd c = GetInfoSlot fid id cat ->
     exists rv ex, frames s !! fid = Some (GetInfoFrame rv ex)).

(** What the lambda of the request [id] makes of the frame [msg] that
    reports the lost connection. *)
Definition lost_step (this h : nat) (id : string) (slot : MessageSlot)
    (msg : QVariantMap) (w : World) (s : QXfsSocketStream)
    (w' : World) (s' : QXfsSocketStream) : Prop :=
  objs w' = <[this := s']> (objs w) /\ devices w' = devices w /\
  m_pending s' = QMap.remove id (m_pending s) /\
  on_message s' = match slot with
                  | GetInfoSlot _ _ _ => on_message s
                  | _ => drop_connection h (on_message s)
                  end /\
  sync_live s' /\
  (forall fid rv ex, frames s !! fid = Some (GetInfoFrame rv ex) ->
     match slot with GetInfoSlot fid' _ _ => fid <> fid' | _ => True end ->
     frames s' !! fid = Some (GetInfoFrame rv ex)) /\
  match slot with
  | GetInfoSlot fid _ _ => frames s' !! fid = Some (GetInfoFrame msg true)
  | _ => True
  end /\
  exists X, trace w' = (trace w ++ X)%list /\
            outcomes X = completion this (Some slot) msg.

(** The frame that [disconnected] passes from one pending entry to the
    next. *)
Definition lost_base (prev : QVariantMap) : Prop :=
  prev = [("hResult", VString "WFS_ERR_CONNECTION_LOST")] \/
  exists id cmd, prev = lost_message id cmd.

(** The trace that the loop of [disconnected] leaves: per pending entry
    the dispatched frame and the completion of the request. *)
Definition lost_trace (this : nat) (l : list (nat * MessageSlot))
    (its : QMap.t string) : list (nat * Signal) :=
  flat_map (fun it =>
              (this, message (lost_message (fst it) (snd it)))
                :: completion this (slot_for (fst it) l)
                     (lost_message (fst it) (snd it))) its.

(** [n] times: read the current command, then finish it. *)
Fixpoint drain (n : nat) (this : nat) : M (list (string * QVariant)) :=
  match n with
  | O => ret []
  | S n' =>
      cmd ← currentCommand this;
      finishCommand this ;;
      rest ← drain n' this;
      ret (cmd :: rest)
  end.

(** What the lambda of the constructor emits for a frame, given the
    command at the head of the queue. *)
Definition event_signals (this : nat) (msg : QVariantMap)
    (cmd : string * QVariant) : list (nat * Signal) :=
  let m := toString (QMap.value "message" Invalid msg) in
  if String.eqb m "WFS_SERVICE_EVENT" then [(this, serviceEventRecieved msg)]
  else if String.eqb m "WFS_USER_EVENT" then [(this, userEventRecieved msg)]
  else if String.eqb m "WFS_SYSTEM_EVENT"
  then [(this, systemEventRecieved msg (fst cmd) (snd cmd))]
  else [].

(** The frame is not marked as one of the three events. *)
Definition no_event (msg : QVariantMap) : Prop :=
  let m := toString (QMap.value "message" Invalid msg) in
  m <> "WFS_SERVICE_EVENT" /\ m <> "WFS_USER_EVENT" /\
  m <> "WFS_SYSTEM_EVENT".

(** No connected lambda waits for the [msgid] of the frame. *)
Definition unknown_reply (msg : QVariantMap)
    (l : list (nat * MessageSlot)) : Prop :=
  forall c, c ∈ l ->
    match snd c with
    | CtorSlot => True
    | ExecuteSlot id _ _ | GetInfoSlot _ id _ | CancelSlot id =>
        msgid_is msg id = false
    end.

Fixpoint colon_free (s : string) : bool :=
  match s with
  | EmptyString => true
  | String c s' => negb (Ascii.eqb c ":") && colon_free s'
  end.

(** The scheme of a remote address. *)
Definition scheme (ssl : bool) : string :=
  if ssl then "ssl://" else "tcp://".

(** The proxy [s1] is [s] but for its socket, to which the same frames
    have been written; the bytes it had received are there still, or have
    been dropped. *)
Definition socket_only (s s1 : QXfsSocketStream) : Prop :=
  exists f, s1 = set_m_socket (option_map f) s /\ reconnects f.

(** From [w] to [w1] nothing has moved but sockets, the waits to come, the
    log and [warnOnce]. *)
Definition socket_moved (w w1 : World) : Prop :=
  devices w1 = devices w /\ commands w1 = commands w /\
  m_capabilities w1 = m_capabilities w /\ trace w1 = trace w /\
  uuid_seed w1 = uuid_seed w /\ inbox w1 = inbox w /\
  next_ptr w1 = next_ptr w /\ qt_debug w1 = qt_debug w /\
  forall p, option_Forall2 socket_only (objs w !! p) (objs w1 !! p).

(** [connectToServer] opens the socket again: it calls [connectToServer()]
    on a local socket that is not connected, and [connectToHost()] or
    [connectToHostEncrypted()] on a remote socket that is unconnected or
    closing. *)
Definition reopens (s : QXfsSocketStream) (k : QSocket) : bool :=
  if m_isLocal s then negb (SocketState_eqb (sock_state k) ConnectedState)
  else SocketState_eqb (sock_state k) UnconnectedState
       || SocketState_eqb (sock_state k) ClosingState.

(** The socket of the proxy is connected - and encrypted, if it is an SSL
    socket. *)
Definition ready (this : nat) (w : World) : Prop :=
  exists s k, objs w !! this = Some s /\ io_device s = Some k /\
              must_connect s k = false.

(** The frame [send] writes. *)
Definition request_frame (function id cmd : string) (data : QVariant)
    : QVariantMap :=
  assign "dwCommand" (VString cmd)
    (assign "function" (VString function)
       (assign "lpCmdData" data (assign "msgid" (VString id) []))).

(** The id has been handed out by [createUuid]. *)
Definition issued (w : World) (id : string) : Prop :=
  exists n, n < uuid_seed w /\ id = uuid_string n.

(** [served], with the ids in use handed out by [createUuid] and the
    connection handles handed out by [connect]. *)
Definition tidy (w : World) (s : QXfsSocketStream) : Prop :=
  served s /\
  (forall id, id ∈ QMap.keys (m_pending s) -> issued w id) /\
  (forall c id, c ∈ on_message s -> slot_id (snd c) = Some id ->
     issued w id) /\
  (forall c, c ∈ on_message s -> fst c < next_connection s).

(** [devices] lists the proxies that are alive, each once, and the
    pointers in use are behind the next one to be handed out. *)
Definition registry_exact (w : World) : Prop :=
  NoDup (devices w) /\
  (forall p, p ∈ devices w <-> is_Some (objs w !! p)) /\
  (forall p, is_Some (objs w !! p) -> p < next_ptr w).

(** No lambda of [syncCancel] is connected on a proxy outside [E]. *)
Definition free_but (E : nat -> bool) (w : World) : Prop :=
  forall p s, E p = false -> objs w !! p = Some s ->
    on_cancelComplete s = [] /\ on_executeComplete s = [].

(** No lambda of [syncCancel] is connected on any proxy. *)
Definition sync_free : World -> Prop := free_but (fun _ => false).

(** What depends on the other proxies alone. *)
Definition of_others (this : nat) (K : World -> Prop) : Prop :=
  forall x y, K x -> (forall p, p <> this -> objs y !! p = objs x !! p) -> K y.

(** No lambda of [getInfo] is connected on any proxy. *)
Definition all_idle (w : World) : Prop :=
  forall p s, objs w !! p = Some s -> getInfo_free (on_message s).

(** The lambdas of [getInfo] connected on the proxy [p] are the one under
    the handle [c] on the proxy [this]. *)
Definition asking_only (this c p : nat) (l : list (nat * MessageSlot))
    : Prop :=
  forall x, x ∈ l ->
    match snd x with
    | GetInfoSlot _ _ _ => p = this /\ fst x = c
    | _ => True
    end.

Definition one_asking (this c : nat) (w : World) : Prop :=
  forall p s, objs w !! p = Some s -> asking_only this c p (on_message s).

(** [c] keeps [J] when it returns. *)
Definition returns_keep {A} (J : World -> Prop) (c : M A) : Prop :=
  forall w, J w -> post c (fun _ => J) (fun _ => True) w.

(** Every proxy is [tidy]. *)
Definition all_tidy (w : World) : Prop :=
  forall p s, objs w !! p = Some s -> tidy w s.

(** During an emission of [message] by the proxy [this]: the lambdas still
    connected to it are among [l0], the ones the emission started with. *)
Definition emitting (this : nat) (l0 : list (nat * MessageSlot))
    (w : World) : Prop :=
  all_tidy w /\
  forall s, objs w !! this = Some s ->
    forall c, c ∈ on_message s -> c ∈ l0.

(** [s'] is [s] with, at most, fewer pending requests and fewer lambdas on
    [message]; the frames of [getInfo] are the same. *)
Definition shrunk (s s' : QXfsSocketStream) : Prop :=
  (forall id, id ∈ QMap.keys (m_pending s') -> id ∈ QMap.keys (m_pending s)) /\
  (forall c, c ∈ on_message s' -> c ∈ on_message s) /\
  (forall fid rv ex, frames s !! fid = Some (GetInfoFrame rv ex) ->
     frames s' !! fid = Some (GetInfoFrame rv ex)).

(** [emitting], with what else is to be kept. *)
Definition emitting_with (X : World -> Prop) (this : nat)
    (l0 : list (nat * MessageSlot)) (w : World) : Prop :=
  emitting this l0 w /\ X w.

Definition no_extra (w : World) : Prop := True.

(** Between the calls: every proxy tidy, no [getInfo] under way. *)
Definition at_ease (w : World) : Prop := all_tidy w /\ all_idle w.

(** The one lambda of [getInfo] that is connected is the one under the
    handle [c] on the proxy [this]; its call frame is there, and once the
    loop has been told to exit the request is no longer pending. *)
Definition getInfo_wait (this fid c : nat) (id cat : string)
    (w : World) : Prop :=
  (forall p s x, objs w !! p = Some s -> x ∈ on_message s ->
     match snd x with
     | GetInfoSlot _ _ _ => p = this /\ x = (c, GetInfoSlot fid id cat)
     | _ => True
     end) /\
  (exists s rv ex,
     objs w !! this = Some s /\ frames s !! fid = Some (GetInfoFrame rv ex) /\
     (ex = true -> id ∉ QMap.keys (m_pending s))) /\
  (forall s x, objs w !! this = Some s -> x ∈ on_message s -> fst x = c ->
     x = (c, GetInfoSlot fid id cat)).

(** On every proxy outside [E] the lambdas of [syncCancel] are as between
    two calls. *)
Definition settled_but (E : nat -> bool) (w : World) : Prop :=
  forall p s, E p = false -> objs w !! p = Some s -> sync_settled s.

Definition all_settled : World -> Prop := settled_but (fun _ => false).

(** * Concrete runs

    A card dispenser ["CRD1"] behind a local socket, driven through the
    calls of the library. The runs below are evaluated, not assumed. *)

Definition blank_stream : QXfsSocketStream :=
  mkStream "" IoNull "" "" "" [] None false false "" 0%N [] [] [] 0 ∅ 0.

Definition proxy_at (p : nat) (w : World) : QXfsSocketStream :=
  match objs w !! p with
  | Some s => s
  | None => blank_stream
  end.

(** The world a call leaves, whether it returned or is left waiting. *)
Definition state_after {A} (c : M A) (w : World) : World :=
  match c w with
  | Ret _ w' => w'
  | Blocked w' => w'
  | Stop _ => w
  end.

Definition dispense : string := "WFS_CMD_CRD_DISPENSE_CARD".

(** One proxy, constructed; the server accepts the first connection. *)
Definition crd_started (debug : bool) (events : list (nat * IoEvent))
    : World :=
  state_after (QXfsSocketStream_new "local" "CRD1" "crd")
    (fresh_world debug [WaitOk] events).

(** ... and with one [execute] sent: request "{0}" on connection 1. *)
Definition crd_pending (debug : bool) (events : list (nat * IoEvent))
    : World :=
  state_after (execute 0 dispense Invalid) (crd_started debug events).

Definition ack_frame : QVariantMap :=
  [("dwCommandCode", VString dispense); ("hResult", VString "WFS_SUCCESS");
   ("msgid", VString "{0}")].

Definition complete_frame : QVariantMap :=
  [("dwCommandCode", VString dispense); ("hResult", VString "WFS_SUCCESS");
   ("message", VString "WFS_EXECUTE_COMPLETE"); ("msgid", VString "{0}")].

(** A completion that echoes another command code. *)
Definition stray_frame : QVariantMap :=
  [("dwCommandCode", VString "WFS_CMD_CRD_RETAIN_CARD");
   ("hResult", VString "WFS_SUCCESS");
   ("message", VString "WFS_EXECUTE_COMPLETE"); ("msgid", VString "{0}")].

(** The request acknowledged: its command is queued. *)
Definition crd_acked : World :=
  state_after (emit_message 0 ack_frame) (crd_pending false []).

(** Two proxies of the same device identity, an [execute] sent on the
    first. *)
Definition crd_twice : World :=
  state_after (execute 0 dispense Invalid)
    (state_after (QXfsSocketStream_new "local" "CRD1" "crd")
       (crd_started false [])).

(** A server that does not answer. *)
Definition crd_offline : World :=
  state_after (QXfsSocketStream_new "local" "CRD1" "crd")
    (fresh_world false [WaitFailed "QLocalSocket::connectToServer: Connection refused"] []).

(** Bytes that have arrived on the socket of the proxy. *)
Definition crd_received (bytes : list byte) : World :=
  state_after (update_socket 0 (set_sock_rx (fun _ => bytes)))
    (crd_started false []).

Definition cancel_ok_frame : QVariantMap :=
  [("hResult", VString "WFS_SUCCESS"); ("msgid", VString "{1}")].

(** The completion of the cancelled request. *)
Definition cancelled_frame : QVariantMap :=
  [("dwCommandCode", VString dispense);
   ("hResult", VString "WFS_ERR_CANCELED"); ("msgid", VString "{0}")].

(** The wire of the [syncCancel] scenario: byte 0 is the completion of the
    request, byte 1 the reply to the cancel. *)
Definition cancel_wire : list byte -> ReadStatus :=
  table_codec [cancelled_frame; cancel_ok_frame].

Definition info_failure : QVariantMap :=
  [("hResult", VString "WFS_ERR_HARDWARE_ERROR"); ("msgid", VString "{0}")].

Definition caps_reply : QVariantMap :=
  [("hResult", VString "WFS_SUCCESS");
   ("lpBuffer", VMap [("fwType", VString "WFS_CRD_DISPENSE_TO_TRANSPORT")]);
   ("message", VString "WFS_GETINFO_COMPLETE"); ("msgid", VString "{0}")].

(** An [execute] and a [cancel] of it, both pending. *)
Definition crd_cancelling : World :=
  state_after (cancel 0 "{0}") (crd_pending false []).

(** An unsolicited event of the service provider. *)
Definition system_event : QVariantMap :=
  [("message", VString "WFS_SYSTEM_EVENT")].

(** A reply to a request that nobody waits for. *)
Definition late_reply : QVariantMap :=
  [("hResult", VString "WFS_SUCCESS"); ("msgid", VString "{9}")].

(** The backend refuses the cancel request. *)
Definition cancel_refused_frame : QVariantMap :=
  [("hResult", VString "WFS_ERR_INVALID_HSERVICE"); ("msgid", VString "{1}")].

(** The wire of a refused cancel: byte 0 is the refusal, byte 1 the
    completion of the request that was to be cancelled. *)
Definition refusing_wire : list byte -> ReadStatus :=
  table_codec [cancel_refused_frame; cancelled_frame].

(** Two commands for the queue. *)
Definition two_commands : list (string * QVariant) :=
  [(dispense, Invalid); ("WFS_CMD_CRD_RETAIN_CARD", VString "bin 1")].

(** The reply to a second cancel request. *)
Definition cancel_ok2_frame : QVariantMap :=
  [("hResult", VString "WFS_SUCCESS"); ("msgid", VString "{2}")].

(** The wire of two calls of [syncCancel]: byte 0 is the reply to the first
    cancel, byte 1 the completion of the request, byte 2 the reply to the
    second cancel. *)
Definition retry_wire : list byte -> ReadStatus :=
  table_codec [cancel_ok_frame; cancelled_frame; cancel_ok2_frame].

(** A wire with frames of three bytes: [x02], the index of the frame, one
    byte of padding. *)
Definition frame_wire : list byte -> ReadStatus :=
  framed_codec [ack_frame].

(** The dispenser connected, two bytes of a frame received, and then the
    connection lost; the server accepts a second connection. *)
Definition crd_cut_off : World :=
  state_after (deliver frame_wire (0, EvDisconnected))
    (state_after (deliver frame_wire (0, EvReadyRead [x02; x00]))
       (state_after (connectToServer 0)
          (state_after (QXfsSocketStream_new "local" "CRD1" "crd")
             (fresh_world false [WaitOk; WaitOk] [])))).

(** The dispenser after an [execute] and a [syncCancel] without a target:
    the reply to the cancel has come, the call has returned. *)
Definition crd_cancelled_all : World :=
  state_after (syncCancel retry_wire 0 "")
    (crd_pending false
       [(0, EvReadyRead [x00]); (0, EvReadyRead [x01]);
        (0, EvReadyRead [x02])]).

(** The dispenser after an [execute] and a [syncCancel] of it that the
    backend has refused. *)
Definition crd_refused : World :=
  state_after (syncCancel refusing_wire 0 "{0}")
    (crd_pending false [(0, EvReadyRead [x00])]).

(** * Facts about QMap *)

Lemma compare_refl (k : string) : String.compare k k = Eq.
Proof.
  pose proof (String.compare_antisym k k) as H.
  destruct (String.compare k k); simpl in H; congruence.
Qed.

Lemma compare_ne (k k' : string) : String.compare k k' <> Eq -> k <> k'.
Proof. intros H ->. apply H, compare_refl. Qed.

Lemma find_insert_eq {V} (k : string) (v : V) (m : QMap.t V) :
  QMap.find k (QMap.insert k v m) = Some v.
Proof.
  induction m as [|[k' v'] m IH]; simpl.
  - by rewrite String.eqb_refl.
  - destruct (String.compare k k') eqn:E; simpl.
    + by rewrite String.eqb_refl.
    + by rewrite String.eqb_refl.
    + assert (k <> k') as Hne by (apply compare_ne; congruence).
      apply String.eqb_neq in Hne. by rewrite Hne.
Qed.

Lemma find_insert_ne {V} (k k' : string) (v : V) (m : QMap.t V) :
  k <> k' -> QMap.find k' (QMap.insert k v m) = QMap.find k' m.
Proof.
  intros Hne. induction m as [|[k0 v0] m IH]; simpl.
  - apply not_eq_sym, String.eqb_neq in Hne. by rewrite Hne.
  - destruct (String.compare k k0) eqn:E; simpl.
    + apply String.compare_eq_iff in E. subst k0.
      apply not_eq_sym, String.eqb_neq in Hne. by rewrite Hne.
    + apply not_eq_sym, String.eqb_neq in Hne. by rewrite Hne.
    + destruct (String.eqb k' k0); [done | apply IH].
Qed.

Lemma find_remove_eq {V} (k : string) (m : QMap.t V) :
  QMap.find k (QMap.remove k m) = None.
Proof.
  induction m as [|[k' v'] m IH]; simpl; [done|].
  destruct (String.eqb k k') eqn:E; [done|]. simpl. by rewrite E.
Qed.

Lemma find_remove_ne {V} (k k' : string) (m : QMap.t V) :
  k <> k' -> QMap.find k' (QMap.remove k m) = QMap.find k' m.
Proof.
  intros Hne. induction m as [|[k0 v0] m IH]; simpl; [done|].
  destruct (String.eqb k k0) eqn:E; simpl.
  - apply String.eqb_eq in E. subst k0.
    apply not_eq_sym, String.eqb_neq in Hne. by rewrite Hne.
  - by rewrite IH.
Qed.

Lemma index_present {V} (k : string) (d v : V) (m : QMap.t V) :
  QMap.find k m = Some v -> QMap.index k d m = (v, m).
Proof. intros H. unfold QMap.index. by rewrite H. Qed.

Lemma index_absent {V} (k : string) (d : V) (m : QMap.t V) :
  QMap.find k m = None -> QMap.index k d m = (d, QMap.insert k d m).
Proof. intros H. unfold QMap.index. by rewrite H. Qed.

Lemma index_fst {V} (k : string) (d : V) (m : QMap.t V) :
  fst (QMap.index k d m) = QMap.value k d m.
Proof. unfold QMap.index, QMap.value. by destruct (QMap.find k m). Qed.

Lemma index_snd_find {V} (k : string) (d : V) (m : QMap.t V) :
  QMap.find k (snd (QMap.index k d m)) = Some (QMap.value k d m).
Proof.
  unfold QMap.index, QMap.value. destruct (QMap.find k m) eqn:E; simpl.
  - done.
  - apply find_insert_eq.
Qed.

Lemma index_snd_find_ne {V} (k k' : string) (d : V) (m : QMap.t V) :
  k <> k' -> QMap.find k' (snd (QMap.index k d m)) = QMap.find k' m.
Proof.
  intros Hne. unfold QMap.index. destruct (QMap.find k m); simpl; [done|].
  by apply find_insert_ne.
Qed.

Lemma value_insert_eq {V} (k : string) (d v : V) (m : QMap.t V) :
  QMap.value k d (QMap.insert k v m) = v.
Proof. unfold QMap.value. by rewrite find_insert_eq. Qed.

Lemma value_index_snd {V} (k k' : string) (d d' : V) (m : QMap.t V) :
  QMap.value k' d' (snd (QMap.index k d m)) =
  if String.eqb k k' then QMap.value k d m else QMap.value k' d' m.
Proof.
  destruct (String.eqb k k') eqn:E.
  - apply String.eqb_eq in E. subst. unfold QMap.value at 1.
    by rewrite index_snd_find.
  - apply String.eqb_neq in E. unfold QMap.value.
    by rewrite index_snd_find_ne.
Qed.

Lemma contains_index_snd {V} (k k' : string) (d : V) (m : QMap.t V) :
  k <> k' ->
  QMap.contains k' (snd (QMap.index k d m)) = QMap.contains k' m.
Proof. intros. unfold QMap.contains. by rewrite index_snd_find_ne. Qed.

Lemma remove_not_in {V} (k : string) (m : QMap.t V) :
  k ∉ QMap.keys (QMap.remove k m).
Proof.
  induction m as [|[k' v'] m IH]; simpl.
  - apply not_elem_of_nil.
  - destruct (String.eqb k k') eqn:E; [done|].
    simpl. apply not_elem_of_cons. split; [|done].
    by apply String.eqb_neq.
Qed.

Lemma remove_keys_subseteq {V} (k : string) (m : QMap.t V) :
  QMap.keys (QMap.remove k m) ⊆ QMap.keys m.
Proof.
  induction m as [|[k' v'] m IH]; simpl; [done|].
  destruct (String.eqb k k'); simpl.
  - intros x Hx. apply elem_of_cons. right. by apply IH.
  - intros x. rewrite !elem_of_cons. intros [->|H]; [by left|right].
    by apply IH.
Qed.

(** * Rules of the monad *)

Lemma post_ret {A} (a : A) (Q : A -> World -> Prop) B w :
  Q a w -> post (ret a) Q B w.
Proof. done. Qed.

Lemma post_bind {A C} (c : M A) (k : A -> M C) (Q : C -> World -> Prop) B w :
  post c (fun a w1 => post (k a) Q B w1) B w -> post (bind c k) Q B w.
Proof. unfold post, bind. by destruct (c w). Qed.

Lemma post_mono {A} (c : M A) (Q Q' : A -> World -> Prop) (B B' : World -> Prop) w :
  post c Q B w -> (forall a w', Q a w' -> Q' a w') ->
  (forall w', B w' -> B' w') -> post c Q' B' w.
Proof. unfold post. destruct (c w); auto. Qed.

Lemma post_gets {A} (f : World -> A) (Q : A -> World -> Prop) B w :
  Q (f w) w -> post (gets f) Q B w.
Proof. done. Qed.

Lemma post_modify (f : World -> World) (Q : unit -> World -> Prop) B w :
  Q tt (f w) -> post (modify f) Q B w.
Proof. done. Qed.

Lemma post_fault {A} (e : Fault) (Q : A -> World -> Prop) B w :
  post (fault e) Q B w.
Proof. done. Qed.

Lemma post_this_obj this (Q : QXfsSocketStream -> World -> Prop) B w :
  (forall s, objs w !! this = Some s -> Q s w) -> post (this_obj this) Q B w.
Proof. unfold post, this_obj. destruct (objs w !! this); auto. Qed.

Lemma post_update_this this f (Q : unit -> World -> Prop) B w :
  (forall s, objs w !! this = Some s ->
     Q tt (set_objs (fun h => <[this := f s]> h) w)) ->
  post (update_this this f) Q B w.
Proof.
  intros H. unfold update_this. apply post_bind, post_this_obj.
  intros s Hs. apply post_modify. by apply H.
Qed.

Lemma pres_ret {A} J (a : A) : pres J (ret a).
Proof. by intros w Hw. Qed.

Lemma pres_bind {A C} J (c : M A) (k : A -> M C) :
  pres J c -> (forall a, pres J (k a)) -> pres J (bind c k).
Proof.
  intros Hc Hk w Hw. apply post_bind.
  eapply post_mono; [by apply Hc | | done].
  intros a w' Hw'. by apply Hk.
Qed.

Lemma pres_gets {A} J (f : World -> A) : pres J (gets f).
Proof. by intros w Hw. Qed.

Lemma pres_fault {A} J e : pres J (@fault A e).
Proof. by intros w Hw. Qed.

Lemma pres_when J (b : bool) c : pres J c -> pres J (when b c).
Proof. destruct b; [done|]. intros _. apply pres_ret. Qed.

Lemma pres_forM {A} J (l : list A) body :
  (forall x, pres J (body x)) -> pres J (forM l body).
Proof.
  intros H. induction l as [|x l IH]; simpl.
  - apply pres_ret.
  - apply pres_bind; [apply H | intros _; apply IH].
Qed.

Lemma pres_Q_ASSERT J b : pres J (Q_ASSERT b).
Proof.
  intros w Hw. unfold post, Q_ASSERT. by destruct (qt_debug w && negb b).
Qed.

(** * The command queue and [done] *)

Lemma post_bind_eq {A C} (c : M A) (k : A -> M C) Q B w a w1 :
  c w = Ret a w1 -> post (k a) Q B w1 -> post (bind c k) Q B w.
Proof. intros Hc H. unfold post, bind in *. by rewrite Hc. Qed.

Lemma bind_eq {A C} (c : M A) (k : A -> M C) w a w1 :
  c w = Ret a w1 -> bind c k w = k a w1.
Proof. intros Hc. unfold bind. by rewrite Hc. Qed.

Lemma this_obj_eq this w s :
  objs w !! this = Some s -> this_obj this w = Ret s w.
Proof. intros H. unfold this_obj. by rewrite H. Qed.

Lemma update_this_eq this f w s :
  objs w !! this = Some s ->
  update_this this f w = Ret tt (set_objs (fun h => <[this := f s]> h) w).
Proof. intros H. unfold update_this. by rewrite (bind_eq _ _ _ _ _ (this_obj_eq _ _ _ H)). Qed.

Lemma pres_modify J f : (forall w, J w -> J (f w)) -> pres J (modify f).
Proof. intros H w Hw. apply post_modify. by apply H. Qed.

Lemma pres_this_obj J this : pres J (this_obj this).
Proof. intros w Hw. by apply post_this_obj. Qed.

Lemma pres_update_this J this f :
  (forall w s, J w -> objs w !! this = Some s ->
     J (set_objs (fun h => <[this := f s]> h) w)) ->
  pres J (update_this this f).
Proof. intros H w Hw. apply post_update_this. intros s Hs. by apply H. Qed.

Lemma pres_get_frame J this fid : pres J (get_frame this fid).
Proof.
  unfold get_frame. apply pres_bind; [apply pres_this_obj|].
  intros s. destruct (frames s !! fid); [apply pres_ret | apply pres_fault].
Qed.

Lemma obj_field_update {X} (f : QXfsSocketStream -> X) d this p s s' w :
  objs w !! p = Some s -> f s' = f s ->
  obj_field f d this (set_objs (fun h => <[p := s']> h) w) = obj_field f d this w.
Proof.
  intros Hp Hf. unfold obj_field. simpl.
  destruct (decide (p = this)) as [->|Hne].
  - by rewrite lookup_insert_eq, Hp.
  - by rewrite lookup_insert_ne.
Qed.

Lemma obj_field_same {X} (f : QXfsSocketStream -> X) d this s' w :
  obj_field f d this (set_objs (fun h => <[this := s']> h) w) = f s'.
Proof. unfold obj_field. simpl. by rewrite lookup_insert_eq. Qed.

Lemma pres_syncCancel_c1 J O this h slot msg :
  ignores_sync J O -> O this -> pres J (syncCancel_c1 this h slot msg).
Proof.
  intros (Hc & He & Hf) HO. destruct slot as [fid id]. unfold syncCancel_c1.
  destruct (QMap.index "msgid" Invalid msg) as [idv msg1].
  destruct (negb (eqQString idv id)); [apply pres_ret|].
  apply pres_bind; [apply pres_get_frame|]. intros [rv ex|fin ex]; [apply pres_fault|].
  apply pres_bind.
  { apply pres_update_this. intros w s Hw Hs. by apply Hc. }
  intros _. destruct (QMap.index "hResult" Invalid msg1) as [hr ?].
  destruct (fin || negb (eqQString hr "WFS_SUCCESS"));
    apply pres_update_this; intros w s Hw Hs; by apply Hf.
Qed.

Lemma pres_syncCancel_c2 J O this h slot msg :
  ignores_sync J O -> O this -> pres J (syncCancel_c2 this h slot msg).
Proof.
  intros (Hc & He & Hf) HO. destruct slot as [fid id]. unfold syncCancel_c2.
  destruct (QMap.index "msgid" Invalid msg) as [idv msg1].
  destruct (negb (eqQString idv id)); [apply pres_ret|].
  apply pres_bind; [apply pres_get_frame|]. intros [rv ex|fin ex]; [apply pres_fault|].
  apply pres_bind.
  { apply pres_update_this. intros w s Hw Hs. by apply He. }
  intros _. destruct fin;
    apply pres_update_this; intros w s Hw Hs; by apply Hf.
Qed.

Lemma pres_emit J P this sig :
  ignores_signals J P -> P (this, sig) -> pres J (emit this sig).
Proof. intros H HP. apply pres_modify. intros w Hw. by apply H. Qed.

Lemma pres_emit_cancelComplete J P O this msg :
  ignores_signals J P -> P (this, cancelComplete msg) ->
  ignores_sync J O -> O this ->
  pres J (emit_cancelComplete this msg).
Proof.
  intros HP Hin HJ HO. unfold emit_cancelComplete.
  apply pres_bind; [by eapply pres_emit|]. intros _.
  apply pres_bind; [apply pres_this_obj|]. intros s.
  apply pres_forM. intros c. apply pres_bind; [apply pres_this_obj|].
  intros s'. apply pres_when. by eapply pres_syncCancel_c1.
Qed.

Lemma pres_emit_executeComplete J P O this msg :
  ignores_signals J P -> P (this, executeComplete msg) ->
  ignores_sync J O -> O this ->
  pres J (emit_executeComplete this msg).
Proof.
  intros HP Hin HJ HO. unfold emit_executeComplete.
  apply pres_bind; [by eapply pres_emit|]. intros _.
  apply pres_bind; [apply pres_this_obj|]. intros s.
  apply pres_forM. intros c. apply pres_bind; [apply pres_this_obj|].
  intros s'. apply pres_when. by eapply pres_syncCancel_c2.
Qed.

Lemma commands_of_eq this w s :
  objs w !! this = Some s ->
  commands_of this w =
    Ret (queue_of (objectName s) w)
        (set_commands
           (fun _ => snd (QMap.index (objectName s) [] (commands w))) w).
Proof.
  intros Hs. unfold commands_of.
  rewrite (bind_eq _ _ _ _ _ (this_obj_eq _ _ _ Hs)). unfold bind, gets.
  unfold queue_of. rewrite <- index_fst.
  by destruct (QMap.index (objectName s) [] (commands w)).
Qed.

Lemma finishCommand_eq this w s :
  objs w !! this = Some s ->
  finishCommand this w =
    Ret tt (set_commands (fun _ => finish_queue (objectName s) (commands w)) w).
Proof.
  intros Hs. unfold finishCommand.
  rewrite (bind_eq _ _ _ _ _ (commands_of_eq _ _ _ Hs)).
  erewrite bind_eq; [|by apply this_obj_eq].
  unfold finish_queue, queue_of. rewrite <- index_fst.
  destruct (QMap.index (objectName s) [] (commands w)) as [l cmds'].
  simpl. by destruct l.
Qed.

Lemma queue_finish name cmds :
  QMap.value name [] (finish_queue name cmds) = tail (QMap.value name [] cmds).
Proof.
  unfold finish_queue.
  pose proof (index_fst name [] cmds) as H1.
  pose proof (index_snd_find name [] cmds) as H2.
  destruct (QMap.index name [] cmds) as [l cmds']. simpl in *.
  rewrite <- H1. destruct l as [|c rest].
  - unfold QMap.value. rewrite H2. by rewrite <- H1.
  - by rewrite value_insert_eq.
Qed.

Lemma done_eq this msgid w s :
  objs w !! this = Some s ->
  done this msgid w =
    Ret tt
      (set_objs (fun h => <[this := set_m_pending (QMap.remove msgid) s]> h)
         (set_commands (fun _ => finish_queue (objectName s) (commands w)) w)).
Proof.
  intros Hs. unfold done.
  rewrite (bind_eq _ _ _ _ _ (finishCommand_eq _ _ _ Hs)).
  by rewrite (update_this_eq _ _ _ s).
Qed.

Lemma appendCommand_eq this cmd w s :
  objs w !! this = Some s ->
  appendCommand this cmd w =
    Ret tt
      (set_commands (fun _ =>
         QMap.insert (objectName s) (queue_of (objectName s) w ++ [cmd])%list
           (snd (QMap.index (objectName s) [] (commands w)))) w).
Proof.
  intros Hs. unfold appendCommand.
  rewrite (bind_eq _ _ _ _ _ (commands_of_eq _ _ _ Hs)).
  by erewrite bind_eq; [|by apply this_obj_eq].
Qed.

Lemma done_effect_ignores_sync this name q pd :
  ignores_sync (done_effect this name q pd) any_proxy.
Proof.
  unfold done_effect, pending_of.
  repeat split; intros; destruct_and?; try done;
    by rewrite (obj_field_update _ _ _ _ _ _ _ H1).
Qed.

Lemma done_effect_ignores_signals this name q pd :
  ignores_signals (done_effect this name q pd) any_signal.
Proof. by intros w e [? ?] _. Qed.

Lemma done_effect_drop this name q pd h w s :
  done_effect this name q pd w -> objs w !! this = Some s ->
  done_effect this name q pd
    (set_objs (fun m => <[this := set_on_message (drop_connection h) s]> m) w).
Proof.
  unfold done_effect, pending_of. intros [? ?] Hs. split; [done|].
  by rewrite (obj_field_update _ _ _ _ _ _ _ Hs).
Qed.

Lemma untouched_ignores_signals w0 :
  ignores_signals (untouched w0) any_signal.
Proof. by intros w e [? ?] _. Qed.

Lemma pres_broadcast J P this msg dwCommand lpCmdData :
  ignores_signals J P ->
  (forall d, P (d, executeEventBroadcasted msg dwCommand lpCmdData)) ->
  pres J (broadcast this msg dwCommand lpCmdData).
Proof.
  intros HJ HP. unfold broadcast. apply pres_bind; [apply pres_gets|].
  intros ds. apply pres_forM. intros d.
  apply pres_bind; [apply pres_this_obj|]. intros sd.
  apply pres_bind; [apply pres_this_obj|]. intros s.
  apply pres_when. by eapply pres_emit.
Qed.

Lemma post_finalize this msgid h (after : M unit) w0 w s :
  untouched w0 w -> objs w0 !! this = Some s ->
  pres (done_effect this (objectName s) (tail (queue_of (objectName s) w0))
          (QMap.remove msgid (m_pending s))) after ->
  post (done this msgid ;;
        update_this this (set_on_message (drop_connection h)) ;; after)
       (fun _ => done_effect this (objectName s)
                   (tail (queue_of (objectName s) w0))
                   (QMap.remove msgid (m_pending s)))
       (fun _ => True) w.
Proof.
  intros [Ho Hc] Hs Hafter.
  assert (objs w !! this = Some s) as Hs' by by rewrite Ho.
  eapply post_bind_eq; [by apply done_eq|].
  eapply post_mono; [| by intros ? ? H; apply H | done].
  apply pres_bind; [|by intros _|].
  - apply pres_update_this. intros; by apply done_effect_drop.
  - split.
    + unfold queue_of. simpl. by rewrite queue_finish, Hc.
    + unfold pending_of. by rewrite obj_field_same.
Qed.

Lemma msgid_is_index msg id :
  msgid_is msg id = true ->
  QMap.index "msgid" Invalid msg = (QMap.value "msgid" Invalid msg, msg).
Proof.
  unfold msgid_is, QMap.index, QMap.value.
  destruct (QMap.find "msgid" msg); [done|]. simpl. done.
Qed.

(** C9. Finalizing a request pops the shared queue of the device identity:
    [done] removes the pending entry and, when the queue of the proxy's
    [objectName] is not empty, its head; so does every lambda that finalizes
    a request - the one of [execute] on a failure or on an execute-complete
    frame, the one of [cancel] on its reply, the one of [getInfo] on a
    failure or on a frame with a [message] field - whatever the queue holds
    and whoever put it there. *)
Theorem done_pops_shared_queue (this : nat) (w : World) (s : QXfsSocketStream) :
  objs w !! this = Some s ->
  let finalized msgid :=
    done_effect this (objectName s) (tail (queue_of (objectName s) w))
      (QMap.remove msgid (m_pending s)) in
  (forall msgid, exists w', done this msgid w = Ret tt w' /\ finalized msgid w') /\
  (forall h msgid dwCommand lpCmdData msg,
     msgid_is msg msgid = true ->
     eqQString (hResult_of msg) "WFS_SUCCESS" = false \/
       QMap.find "message" msg = Some (VString "WFS_EXECUTE_COMPLETE") ->
     post (execute_slot this h msgid dwCommand lpCmdData msg)
          (fun _ => finalized msgid) (fun _ => True) w) /\
  (forall h msgid msg,
     msgid_is msg msgid = true ->
     post (cancel_slot this h msgid msg)
          (fun _ => finalized msgid) (fun _ => True) w) /\
  (forall fid msgid category msg,
     msgid_is msg msgid = true ->
     String.eqb (toString (hResult_of msg)) "WFS_SUCCESS" = false \/
       QMap.contains "message" msg = true ->
     post (getInfo_slot this fid msgid category msg)
          (fun _ => finalized msgid) (fun _ => True) w).
Proof.
  intros Hs finalized. subst finalized. repeat split.
  - intros msgid. eexists. split; [by apply done_eq|]. split.
    + unfold queue_of. simpl. by rewrite queue_finish.
    + unfold pending_of. by rewrite obj_field_same.
  - intros h msgid dwCommand lpCmdData msg Hid Hfin.
    unfold execute_slot. rewrite (msgid_is_index _ _ Hid).
    unfold msgid_is in Hid. rewrite Hid. simpl negb. cbv iota.
    apply post_bind.
    eapply post_mono;
      [apply (pres_broadcast (untouched w) any_signal);
         [apply untouched_ignores_signals|done|done] | | done].
    intros ? w1 Hw1. cbv beta in *.
    pose proof (index_fst "hResult" Invalid msg) as Hh.
    pose proof (value_index_snd "hResult" "message" Invalid Invalid msg) as Hm.
    pose proof (contains_index_snd "hResult" "message" Invalid msg) as Hc.
    destruct (QMap.index "hResult" Invalid msg) as [hr msg2]. simpl in *.
    fold (hResult_of msg) in Hh. subst hr.
    destruct (eqQString (hResult_of msg) "WFS_SUCCESS") eqn:Hr.
    + destruct Hfin as [?|Hfin]; [done|].
      rewrite Hc by done. unfold QMap.contains. rewrite Hfin.
      rewrite Hm. unfold QMap.value at 1. rewrite Hfin. simpl.
      apply post_bind.
      eapply post_mono; [apply (pres_Q_ASSERT (untouched w)); done | | done].
      intros ? w2 Hw2. cbv beta in *.
      apply post_finalize; [done..|].
      eapply pres_emit_executeComplete;
        [apply done_effect_ignores_signals | done
        | apply done_effect_ignores_sync | done].
    + apply post_finalize; [done..|].
      eapply pres_emit_executeComplete;
        [apply done_effect_ignores_signals | done
        | apply done_effect_ignores_sync | done].
  - intros h msgid msg Hid.
    unfold cancel_slot. rewrite (msgid_is_index _ _ Hid).
    unfold msgid_is in Hid. rewrite Hid. simpl negb. cbv iota.
    apply post_finalize; [done..|].
    eapply pres_emit_cancelComplete;
      [apply done_effect_ignores_signals | done
      | apply done_effect_ignores_sync | done].
  - intros fid msgid category msg Hid Hfin.
    unfold getInfo_slot. rewrite (msgid_is_index _ _ Hid).
    unfold msgid_is in Hid. rewrite Hid. simpl negb. cbv iota.
    pose proof (index_fst "hResult" Invalid msg) as Hh.
    pose proof (contains_index_snd "hResult" "message" Invalid msg) as Hc.
    destruct (QMap.index "hResult" Invalid msg) as [hr msg2]. simpl in *.
    fold (hResult_of msg) in Hh. subst hr.
    assert (forall w1, untouched w w1 ->
      post (done this msgid ;; f ← get_frame this fid;
            match f with
            | GetInfoFrame _ _ => put_frame this fid (GetInfoFrame msg2 true)
            | _ => fault DanglingReference
            end)
        (fun _ => done_effect this (objectName s)
                    (tail (queue_of (objectName s) w))
                    (QMap.remove msgid (m_pending s)))
        (fun _ => True) w1) as Hfinish.
    { intros w1 [Ho Hq].
      assert (objs w1 !! this = Some s) as Hs' by by rewrite Ho.
      eapply post_bind_eq; [by apply done_eq|].
      eapply post_mono; [| by intros ? ? H; apply H | done].
      apply pres_bind; [apply pres_get_frame|intros f|].
      - destruct f; [|apply pres_fault].
        apply pres_update_this. intros. by apply done_effect_ignores_sync.
      - split.
        + unfold queue_of. simpl. by rewrite queue_finish, Hq.
        + unfold pending_of. by rewrite obj_field_same. }
    destruct (String.eqb (toString (hResult_of msg)) "WFS_SUCCESS") eqn:Hr.
    + destruct Hfin as [?|Hfin]; [done|]. rewrite Hc by done. rewrite Hfin.
      apply post_bind.
      eapply post_mono; [apply (pres_Q_ASSERT (untouched w)); done | | done].
      intros ? w2 Hw2. simpl. by apply Hfinish.
    + apply post_bind, post_this_obj. intros s1 Hs1.
      apply post_bind, post_modify. apply Hfinish. done.
Qed.

(** * What an emission does when every captured frame is alive *)

Lemma set_objs_id this s w :
  objs w !! this = Some s -> set_objs (fun m => <[this := s]> m) w = w.
Proof.
  intros H. destruct w. unfold set_objs. simpl in *. f_equal.
  by apply insert_id.
Qed.

Lemma set_objs_twice this a b w :
  set_objs (fun m => <[this := b]> m) (set_objs (fun m => <[this := a]> m) w)
  = set_objs (fun m => <[this := b]> m) w.
Proof. unfold set_objs. simpl. f_equal. apply insert_insert_eq. Qed.

Lemma bind_eq_ex {A C X} (c : M A) (k : A -> M C) w a w1
    (R : X -> Res C) (P : X -> Prop) :
  c w = Ret a w1 -> (exists x, k a w1 = R x /\ P x) ->
  exists x, bind c k w = R x /\ P x.
Proof. intros Hc H. unfold bind. by rewrite Hc. Qed.

Lemma same_but_sync_refl s : same_but_sync s s.
Proof. by destruct s. Qed.

Lemma same_but_sync_trans s1 s2 s3 :
  same_but_sync s1 s2 -> same_but_sync s2 s3 -> same_but_sync s1 s3.
Proof.
  unfold same_but_sync. intros H1 H2. rewrite H2 at 1. rewrite H1 at 1.
  by destruct s1.
Qed.

Lemma sync_step_refl s : sync_step s s.
Proof. split; [apply same_but_sync_refl|]. by repeat split. Qed.

Lemma sync_step_trans s1 s2 s3 :
  sync_step s1 s2 -> sync_step s2 s3 -> sync_step s1 s3.
Proof.
  intros (E1 & F1 & C1 & X1 & G1) (E2 & F2 & C2 & X2 & G2).
  split; [|split; [|split; [|split]]].
  - by eapply same_but_sync_trans.
  - intros fid H. by apply F2, F1.
  - intros c H. by apply C1, C2.
  - intros c H. by apply X1, X2.
  - intros fid rv ex H. by apply G2, G1.
Qed.

Lemma sync_live_step s s' : sync_live s -> sync_step s s' -> sync_live s'.
Proof.
  intros [Hc He] (_ & F & C & X & _). split; apply Forall_forall.
  - intros [h [fid id]] Hin. simpl. apply F.
    apply C in Hin. rewrite Forall_forall in Hc. by apply (Hc _ Hin).
  - intros [h [fid id]] Hin. simpl. apply F.
    apply X in Hin. rewrite Forall_forall in He. by apply (He _ Hin).
Qed.

Lemma elem_of_drop_connection {S} h (l : list (nat * S)) c :
  c ∈ drop_connection h l -> c ∈ l.
Proof. unfold drop_connection. rewrite list_elem_of_filter. by intros [_ ?]. Qed.

Lemma is_sync_frame_insert fs fid fid' fin ex :
  is_sync_frame fs fid -> is_sync_frame (<[fid' := SyncCancelFrame fin ex]> fs) fid.
Proof.
  intros (f & e & H). destruct (decide (fid' = fid)) as [->|Hne].
  - exists fin, ex. apply lookup_insert_eq.
  - exists f, e. by rewrite lookup_insert_ne.
Qed.

Lemma get_frame_eq this fid w s f :
  objs w !! this = Some s -> frames s !! fid = Some f ->
  get_frame this fid w = Ret f w.
Proof.
  intros Hs Hf. unfold get_frame. erewrite bind_eq; [|by apply this_obj_eq].
  by rewrite Hf.
Qed.

Lemma put_frame_eq this fid f w s :
  objs w !! this = Some s ->
  put_frame this fid f w =
    Ret tt (set_objs (fun m => <[this := set_frames (fun fs => <[fid := f]> fs) s]> m) w).
Proof. intros Hs. unfold put_frame. by apply update_this_eq. Qed.

Lemma syncCancel_c2_total this h c msg w s :
  objs w !! this = Some s ->
  (match snd (h, c) with SyncCancelC2 fid _ => is_sync_frame (frames s) fid end) ->
  exists s', syncCancel_c2 this h c msg w =
               Ret tt (set_objs (fun m => <[this := s']> m) w) /\
             sync_step s s'.
Proof.
  intros Hs Hlive. destruct c as [fid id]. simpl in Hlive.
  destruct Hlive as (fin & ex & Hf). unfold syncCancel_c2.
  destruct (QMap.index "msgid" Invalid msg) as [idv msg1].
  destruct (negb (eqQString idv id)).
  { exists s. split; [by rewrite set_objs_id | apply sync_step_refl]. }
  eapply bind_eq_ex; [by eapply get_frame_eq|]. cbv iota beta.
  eapply bind_eq_ex; [by apply update_this_eq|].
  set (s1 := set_on_executeComplete (drop_connection h) s).
  assert (forall f', exists s',
    put_frame this fid (SyncCancelFrame (fst f') (snd f'))
      (set_objs (fun m => <[this := s1]> m) w)
    = Ret tt (set_objs (fun m => <[this := s']> m) w) /\ sync_step s s') as Hput.
  { intros f'. eexists. split.
    - erewrite put_frame_eq; [|simpl; apply lookup_insert_eq].
      by rewrite set_objs_twice.
    - split; [by destruct s|]. split; [|split; [|split]]; simpl.
      + intros fid' H. by apply is_sync_frame_insert.
      + done.
      + intros c. apply elem_of_drop_connection.
      + intros fid' rv' ex' H. rewrite lookup_insert_ne; [done|].
        intros <-. congruence. }
  destruct fin.
  - apply (Hput (true, true)).
  - apply (Hput (true, ex)).
Qed.

Lemma syncCancel_c1_total this h c msg w s :
  objs w !! this = Some s ->
  (match snd (h, c) with SyncCancelC1 fid _ => is_sync_frame (frames s) fid end) ->
  exists s', syncCancel_c1 this h c msg w =
               Ret tt (set_objs (fun m => <[this := s']> m) w) /\
             sync_step s s'.
Proof.
  intros Hs Hlive. destruct c as [fid id]. simpl in Hlive.
  destruct Hlive as (fin & ex & Hf). unfold syncCancel_c1.
  destruct (QMap.index "msgid" Invalid msg) as [idv msg1].
  destruct (negb (eqQString idv id)).
  { exists s. split; [by rewrite set_objs_id | apply sync_step_refl]. }
  eapply bind_eq_ex; [by eapply get_frame_eq|]. cbv iota beta.
  eapply bind_eq_ex; [by apply update_this_eq|].
  set (s1 := set_on_cancelComplete (drop_connection h) s).
  assert (forall f', exists s',
    put_frame this fid (SyncCancelFrame (fst f') (snd f'))
      (set_objs (fun m => <[this := s1]> m) w)
    = Ret tt (set_objs (fun m => <[this := s']> m) w) /\ sync_step s s') as Hput.
  { intros f'. eexists. split.
    - erewrite put_frame_eq; [|simpl; apply lookup_insert_eq].
      by rewrite set_objs_twice.
    - split; [by destruct s|]. split; [|split; [|split]]; simpl.
      + intros fid' H. by apply is_sync_frame_insert.
      + intros c. apply elem_of_drop_connection.
      + done.
      + intros fid' rv' ex' H. rewrite lookup_insert_ne; [done|].
        intros <-. congruence. }
  destruct (QMap.index "hResult" Invalid msg1) as [hr ?].
  destruct (fin || negb (eqQString hr "WFS_SUCCESS")).
  - apply (Hput (fin, true)).
  - apply (Hput (true, ex)).
Qed.

Lemma forM_c2_total this msg (l : list (nat * ExecuteCompleteSlot)) :
  forall w s,
    objs w !! this = Some s ->
    Forall (fun c => match snd c with SyncCancelC2 fid _ =>
                       is_sync_frame (frames s) fid end) l ->
    exists s',
      forM l (fun c =>
        s' ← this_obj this;
        when (is_connected (fst c) (on_executeComplete s'))
             (syncCancel_c2 this (fst c) (snd c) msg)) w
      = Ret tt (set_objs (fun m => <[this := s']> m) w) /\ sync_step s s'.
Proof.
  induction l as [|[h c] l IH]; intros w s Hs Hl.
  - exists s. simpl. split; [by rewrite set_objs_id | apply sync_step_refl].
  - apply Forall_cons in Hl as [Hc Hl]. simpl forM.
    assert (exists s1,
      (s' ← this_obj this;
       when (is_connected h (on_executeComplete s'))
            (syncCancel_c2 this h c msg)) w
      = Ret tt (set_objs (fun m => <[this := s1]> m) w) /\ sync_step s s1)
      as (s1 & E1 & St1).
    { eapply bind_eq_ex; [by apply this_obj_eq|].
      destruct (is_connected h (on_executeComplete s)); simpl.
      - by apply syncCancel_c2_total.
      - exists s. split; [by rewrite set_objs_id | apply sync_step_refl]. }
    simpl fst. simpl snd. eapply bind_eq_ex; [exact E1|].
    destruct (IH (set_objs (fun m => <[this := s1]> m) w) s1) as (s2 & E2 & St2).
    + simpl. apply lookup_insert_eq.
    + eapply Forall_impl; [exact Hl|]. intros [h' [fid id]]. simpl.
      apply St1.
    + exists s2. rewrite E2, set_objs_twice. split; [done|].
      by eapply sync_step_trans.
Qed.

Lemma forM_c1_total this msg (l : list (nat * CancelCompleteSlot)) :
  forall w s,
    objs w !! this = Some s ->
    Forall (fun c => match snd c with SyncCancelC1 fid _ =>
                       is_sync_frame (frames s) fid end) l ->
    exists s',
      forM l (fun c =>
        s' ← this_obj this;
        when (is_connected (fst c) (on_cancelComplete s'))
             (syncCancel_c1 this (fst c) (snd c) msg)) w
      = Ret tt (set_objs (fun m => <[this := s']> m) w) /\ sync_step s s'.
Proof.
  induction l as [|[h c] l IH]; intros w s Hs Hl.
  - exists s. simpl. split; [by rewrite set_objs_id | apply sync_step_refl].
  - apply Forall_cons in Hl as [Hc Hl]. simpl forM.
    assert (exists s1,
      (s' ← this_obj this;
       when (is_connected h (on_cancelComplete s'))
            (syncCancel_c1 this h c msg)) w
      = Ret tt (set_objs (fun m => <[this := s1]> m) w) /\ sync_step s s1)
      as (s1 & E1 & St1).
    { eapply bind_eq_ex; [by apply this_obj_eq|].
      destruct (is_connected h (on_cancelComplete s)); simpl.
      - by apply syncCancel_c1_total.
      - exists s. split; [by rewrite set_objs_id | apply sync_step_refl]. }
    simpl fst. simpl snd. eapply bind_eq_ex; [exact E1|].
    destruct (IH (set_objs (fun m => <[this := s1]> m) w) s1) as (s2 & E2 & St2).
    + simpl. apply lookup_insert_eq.
    + eapply Forall_impl; [exact Hl|]. intros [h' [fid id]]. simpl.
      apply St1.
    + exists s2. rewrite E2, set_objs_twice. split; [done|].
      by eapply sync_step_trans.
Qed.

Lemma emit_executeComplete_total this msg w s :
  objs w !! this = Some s -> sync_live s ->
  exists s',
    emit_executeComplete this msg w =
      Ret tt (set_objs (fun m => <[this := s']> m)
                (set_trace (fun t => (t ++ [(this, executeComplete msg)])%list) w))
    /\ sync_step s s'.
Proof.
  intros Hs [_ Hlive]. unfold emit_executeComplete.
  eapply bind_eq_ex; [reflexivity|].
  eapply bind_eq_ex; [by apply this_obj_eq|].
  by apply forM_c2_total.
Qed.

Lemma emit_cancelComplete_total this msg w s :
  objs w !! this = Some s -> sync_live s ->
  exists s',
    emit_cancelComplete this msg w =
      Ret tt (set_objs (fun m => <[this := s']> m)
                (set_trace (fun t => (t ++ [(this, cancelComplete msg)])%list) w))
    /\ sync_step s s'.
Proof.
  intros Hs [Hlive _]. unfold emit_cancelComplete.
  eapply bind_eq_ex; [reflexivity|].
  eapply bind_eq_ex; [by apply this_obj_eq|].
  by apply forM_c1_total.
Qed.

(** The broadcast reaches the registered proxies of the same name, in
    registry order. *)
Lemma forM_broadcast this s msg dwCommand lpCmdData (ds : list nat) :
  forall w,
    objs w !! this = Some s ->
    Forall (fun d => is_Some (objs w !! d)) ds ->
    forM ds (fun device =>
      d ← this_obj device;
      s ← this_obj this;
      when (String.eqb (objectName d) (objectName s))
           (emit device (executeEventBroadcasted msg dwCommand lpCmdData))) w
    = Ret tt (set_trace (fun t =>
        (t ++ map (fun d => (d, executeEventBroadcasted msg dwCommand lpCmdData))
                (filter (fun d => objectName <$> (objs w !! d) = Some (objectName s))
                   ds))%list) w).
Proof.
  induction ds as [|d ds IH]; intros w Hs Hl.
  - simpl. destruct w; unfold set_trace; simpl. by rewrite app_nil_r.
  - apply Forall_cons in Hl as [[sd Hd] Hl]. simpl forM.
    rewrite filter_cons. rewrite Hd. simpl.
    destruct (String.eqb (objectName sd) (objectName s)) eqn:E.
    + erewrite bind_eq.
      2:{ erewrite bind_eq; [|by apply this_obj_eq].
          erewrite bind_eq; [|by apply this_obj_eq]. rewrite E. reflexivity. }
      apply String.eqb_eq in E. rewrite decide_True by congruence.
      rewrite IH; [|done..].
      simpl. unfold set_trace. simpl. by rewrite <- app_assoc.
    + erewrite bind_eq.
      2:{ erewrite bind_eq; [|by apply this_obj_eq].
          erewrite bind_eq; [|by apply this_obj_eq]. rewrite E. reflexivity. }
      apply String.eqb_neq in E. rewrite decide_False by congruence.
      by rewrite IH.
Qed.

Lemma broadcast_eq this msg dwCommand lpCmdData w s :
  objs w !! this = Some s -> registry_live w ->
  broadcast this msg dwCommand lpCmdData w =
    Ret tt (set_trace (fun t =>
      (t ++ broadcast_signals w (objectName s) msg dwCommand lpCmdData)%list) w).
Proof.
  intros Hs Hl. unfold broadcast. erewrite bind_eq; [|reflexivity].
  by apply forM_broadcast.
Qed.

(** * Invariants of the dispatch path *)

Ltac pres_step :=
  match goal with
  | |- pres _ (bind _ _) => apply pres_bind; [|intros ?]
  | |- pres _ (ret _) => apply pres_ret
  | |- pres _ (this_obj _) => apply pres_this_obj
  | |- pres _ (gets _) => apply pres_gets
  | |- pres _ (fault _) => apply pres_fault
  | |- pres _ (when _ _) => apply pres_when
  | |- pres _ (forM _ _) => apply pres_forM; intros ?
  | |- pres _ (Q_ASSERT _) => apply pres_Q_ASSERT
  | |- pres _ (get_frame _ _) => apply pres_get_frame
  | |- pres _ (if ?b then _ else _) => destruct b
  | |- pres _ (match ?x with _ => _ end) => destruct x
  end.

Section SlotsPreserve.

Variable J : World -> Prop.

(** What [J] tells about the lambdas connected to [message]. *)
Variable known : nat -> MessageSlot -> Prop.

Hypothesis J_known : forall w p s c, J w -> objs w !! p = Some s ->
  c ∈ on_message s -> known p (snd c).
Hypothesis J_quiet : forall w p sig, J w -> is_quiet sig = true ->
  J (set_trace (fun t => (t ++ [(p, sig)])%list) w).
Hypothesis J_commands : forall w f, J w -> J (set_commands f w).
Hypothesis J_pending : forall w p s f, J w -> objs w !! p = Some s ->
  J (set_objs (fun h => <[p := set_m_pending f s]> h) w).
Hypothesis J_on_message : forall w p s h, J w -> objs w !! p = Some s ->
  J (set_objs (fun m => <[p := set_on_message (drop_connection h) s]> m) w).
Hypothesis J_message : forall p msg, pres J (emit p (message msg)).
Hypothesis J_executeComplete : forall p id cmd data msg,
  known p (ExecuteSlot id cmd data) -> msgid_is msg id = true ->
  pres J (emit_executeComplete p msg).
Hypothesis J_cancelComplete : forall p id msg,
  known p (CancelSlot id) -> msgid_is msg id = true ->
  pres J (emit_cancelComplete p msg).
Hypothesis J_getInfo : forall p fid id cat msg,
  known p (GetInfoSlot fid id cat) ->
  pres J (getInfo_slot p fid id cat msg).

Lemma pres_emit_quiet p sig : is_quiet sig = true -> pres J (emit p sig).
Proof. intros Hq. apply pres_modify. intros w Hw. by apply J_quiet. Qed.

Lemma pres_commands_of this : pres J (commands_of this).
Proof.
  unfold commands_of. repeat pres_step.
  apply pres_modify. intros w Hw. by apply J_commands.
Qed.

Lemma pres_currentCommand this : pres J (currentCommand this).
Proof. unfold currentCommand. pres_step; [apply pres_commands_of|]. repeat pres_step. Qed.

Lemma pres_appendCommand this cmd : pres J (appendCommand this cmd).
Proof.
  unfold appendCommand. pres_step; [apply pres_commands_of|]. repeat pres_step.
  apply pres_modify. intros w Hw. by apply J_commands.
Qed.

Lemma pres_finishCommand this : pres J (finishCommand this).
Proof.
  unfold finishCommand. pres_step; [apply pres_commands_of|]. repeat pres_step.
  apply pres_modify. intros w Hw. by apply J_commands.
Qed.

Lemma pres_done this msgid : pres J (done this msgid).
Proof.
  unfold done. pres_step; [apply pres_finishCommand|].
  apply pres_update_this. intros. by apply J_pending.
Qed.

Lemma pres_ctor_slot this msg : pres J (ctor_slot this msg).
Proof.
  unfold ctor_slot, serviceEvent, userEvent, systemEvent.
  destruct (QMap.index "message" Invalid msg) as [m msg1].
  repeat first [ apply pres_currentCommand | by apply pres_emit_quiet | pres_step ].
Qed.

Lemma pres_broadcast_quiet this msg dwCommand lpCmdData :
  pres J (broadcast this msg dwCommand lpCmdData).
Proof.
  unfold broadcast. repeat first [ by apply pres_emit_quiet | pres_step ].
Qed.

Lemma pres_disconnect_message this h :
  pres J (update_this this (set_on_message (drop_connection h))).
Proof. apply pres_update_this. intros. by apply J_on_message. Qed.

Lemma msgid_is_with_hResult msg id :
  msgid_is msg id = true ->
  QMap.index "msgid" Invalid msg = (QMap.value "msgid" Invalid msg, msg) /\
  msgid_is (snd (QMap.index "hResult" Invalid msg)) id = true.
Proof.
  intros H. split; [by eapply msgid_is_index|].
  unfold msgid_is. by rewrite value_index_snd.
Qed.

Lemma pres_execute_slot this h msgid dwCommand lpCmdData msg :
  known this (ExecuteSlot msgid dwCommand lpCmdData) ->
  pres J (execute_slot this h msgid dwCommand lpCmdData msg).
Proof.
  intros Hk. unfold execute_slot.
  destruct (eqQString (QMap.value "msgid" Invalid msg) msgid) eqn:Hid.
  2:{ pose proof (index_fst "msgid" Invalid msg) as Hf.
      destruct (QMap.index "msgid" Invalid msg) as [id msg1]. simpl in Hf.
      subst id. rewrite Hid. apply pres_ret. }
  destruct (msgid_is_with_hResult msg msgid Hid) as [-> Hid2].
  rewrite Hid. simpl negb. cbv iota.
  pres_step; [apply pres_broadcast_quiet|].
  destruct (QMap.index "hResult" Invalid msg) as [hr msg2]. simpl in Hid2.
  repeat first
    [ apply pres_done | apply pres_disconnect_message
    | by eapply J_executeComplete | apply pres_appendCommand
    | by apply pres_emit_quiet | pres_step ].
Qed.

Lemma pres_cancel_slot this h msgid msg :
  known this (CancelSlot msgid) -> pres J (cancel_slot this h msgid msg).
Proof.
  intros Hk. unfold cancel_slot.
  destruct (eqQString (QMap.value "msgid" Invalid msg) msgid) eqn:Hid.
  2:{ pose proof (index_fst "msgid" Invalid msg) as Hf.
      destruct (QMap.index "msgid" Invalid msg) as [id msg1]. simpl in Hf.
      subst id. rewrite Hid. apply pres_ret. }
  rewrite (msgid_is_index _ _ Hid). rewrite Hid. simpl negb. cbv iota.
  repeat first
    [ apply pres_done | apply pres_disconnect_message
    | by eapply J_cancelComplete | pres_step ].
Qed.

Lemma pres_run_message_slot this h slot msg :
  known this slot -> pres J (run_message_slot this h slot msg).
Proof.
  intros Hk. destruct slot; simpl.
  - apply pres_ctor_slot.
  - by apply pres_execute_slot.
  - by apply J_getInfo.
  - by apply pres_cancel_slot.
Qed.

Lemma pres_forM_in {A} (l : list A) body :
  (forall x, x ∈ l -> pres J (body x)) -> pres J (forM l body).
Proof.
  induction l as [|x l IH]; intros H; simpl.
  - apply pres_ret.
  - apply pres_bind; [apply H; by left|]. intros _. apply IH.
    intros y Hy. apply H. by right.
Qed.

Lemma pres_emit_message this msg : pres J (emit_message this msg).
Proof.
  unfold emit_message. pres_step; [apply J_message|].
  intros w Hw. apply post_bind, post_this_obj. intros s Hs.
  apply pres_forM_in; [|done]. intros c Hc.
  pres_step; [pres_step|]. pres_step.
  apply pres_run_message_slot. by eapply J_known.
Qed.

Lemma pres_disconnected_loop this its :
  forall msg, pres J (disconnected_loop this its msg).
Proof.
  induction its as [|[key value] its IH]; intros msg; simpl.
  - apply pres_ret.
  - pres_step; [apply pres_emit_message | apply IH].
Qed.

Lemma pres_disconnected this : pres J (disconnected this).
Proof.
  unfold disconnected. pres_step; [pres_step|]. apply pres_disconnected_loop.
Qed.

Hypothesis J_socket : ignores_socket J.

Lemma pres_update_rx this f :
  pres J (update_socket this (set_sock_rx f)).
Proof. apply pres_update_this. intros. by apply J_socket. Qed.

Section WithCodec.

Variable read_QVariantMap : list byte -> ReadStatus.

Lemma pres_readyRead_loop fuel this :
  pres J (readyRead_loop read_QVariantMap fuel this).
Proof.
  induction fuel as [|fuel IH]; simpl; [apply pres_fault|].
  pres_step; [pres_step|]. destruct (io_device a); [|apply pres_fault].
  destruct (read_QVariantMap (sock_rx q)).
  - pres_step; [apply pres_update_rx|].
    pres_step; [apply pres_emit_message | apply IH].
  - apply pres_ret.
  - apply pres_update_rx.
Qed.

Lemma pres_readyRead this : pres J (readyRead read_QVariantMap this).
Proof.
  unfold readyRead. pres_step; [pres_step|].
  destruct (io_device a); [apply pres_readyRead_loop | apply pres_fault].
Qed.

Lemma pres_deliver ev : pres J (deliver read_QVariantMap ev).
Proof.
  intros w Hw. unfold post, deliver.
  destruct (objs w !! ev.1) as [s|] eqn:Hs; [|done].
  destruct (ev.2) as [bytes|].
  - destruct (io_device s); [|done].
    apply (pres_bind J (update_socket ev.1 (set_sock_rx (fun b => (b ++ bytes)%list)))
             (fun _ => readyRead read_QVariantMap ev.1));
      [apply pres_update_rx | intros _; apply pres_readyRead | done].
  - destruct (m_socket s); [|done].
    apply (pres_bind J
             (update_socket ev.1 (fun k =>
                set_sock_state UnconnectedState (set_sock_encrypted false k)))
             (fun _ => disconnected ev.1));
      [ | intros _; apply pres_disconnected | done].
    apply pres_update_this. intros. by apply J_socket.
Qed.

Hypothesis J_inbox : forall w f, J w -> J (set_inbox f w).

Lemma pres_loop_exec evs this fid :
  pres J (loop_exec read_QVariantMap evs this fid).
Proof.
  induction evs as [|ev evs IH]; simpl.
  - pres_step; [apply pres_get_frame|]. destruct (frame_exited a); [apply pres_ret|].
    by intros w Hw.
  - pres_step; [apply pres_get_frame|]. destruct (frame_exited a); [apply pres_ret|].
    pres_step; [apply pres_modify; intros; by apply J_inbox|].
    pres_step; [apply pres_deliver | apply IH].
Qed.

End WithCodec.

End SlotsPreserve.

(** An invariant that minds none of the effects of the slots is kept by
    all of them. *)
Lemma pres_getInfo_slot_ignored J P this fid msgid category msg :
  ignores_slots J P -> pres J (getInfo_slot this fid msgid category msg).
Proof.
  intros (Ht & (Hc & He & Hf) & Hl & Hq & Hp & Hm). unfold getInfo_slot.
  destruct (QMap.index "msgid" Invalid msg) as [id msg1].
  destruct (negb (eqQString id msgid)); [apply pres_ret|].
  destruct (QMap.index "hResult" Invalid msg1) as [hr msg2].
  assert (pres J (done this msgid ;; f ← get_frame this fid;
                  match f with
                  | GetInfoFrame _ _ => put_frame this fid (GetInfoFrame msg2 true)
                  | _ => fault DanglingReference
                  end)) as Hfin.
  { pres_step; [by apply pres_done|].
    apply pres_bind; [apply pres_get_frame|intros f].
    destruct f; [|apply pres_fault].
    apply pres_update_this. intros. by apply Hf. }
  repeat first [ apply Hfin | pres_step ].
  apply pres_modify. intros. by apply Hl.
Qed.

Lemma pres_run_message_slot_ignored J P this h slot msg :
  ignores_slots J P -> not_message P ->
  pres J (run_message_slot this h slot msg).
Proof.
  intros HJ HP. pose proof HJ as (Ht & Hs & Hl & Hq & Hp & Hm).
  apply (pres_run_message_slot J (fun _ _ => True)); try done.
  - intros w p sig Hw Hsig. apply Ht; [done|]. apply HP.
    intros m ->. done.
  - intros. eapply pres_emit_executeComplete; [done| |done|done]. by apply HP.
  - intros. eapply pres_emit_cancelComplete; [done| |done|done]. by apply HP.
  - intros. by eapply pres_getInfo_slot_ignored.
Qed.

Lemma pres_slots_ignored J P this msg l :
  ignores_slots J P -> not_message P ->
  pres J (forM l (fun c =>
    s' ← this_obj this;
    when (is_connected (fst c) (on_message s'))
         (run_message_slot this (fst c) (snd c) msg))).
Proof.
  intros HJ HP. repeat first [ by eapply pres_run_message_slot_ignored | pres_step ].
Qed.

Lemma pres_emit_message_ignored J this msg :
  ignores_slots J any_signal -> pres J (emit_message this msg).
Proof.
  intros HJ. unfold emit_message.
  pres_step; [eapply pres_emit; [apply HJ|done]|].
  pres_step; [pres_step|]. by eapply pres_slots_ignored.
Qed.

Lemma pres_deliver_ignored J rd ev :
  ignores_slots J any_signal -> ignores_socket J -> pres J (deliver rd ev).
Proof.
  intros HJ Hs. pose proof HJ as (Ht & Hy & Hl & Hq & Hp & Hm).
  apply (pres_deliver J (fun _ _ => True)); try done.
  - intros. by apply Ht.
  - intros. by eapply pres_emit.
  - intros. by eapply pres_emit_executeComplete.
  - intros. by eapply pres_emit_cancelComplete.
  - intros. by eapply pres_getInfo_slot_ignored.
Qed.

Lemma pres_loop_exec_ignored J rd evs this fid :
  ignores_slots J any_signal -> ignores_socket J ->
  (forall w f, J w -> J (set_inbox f w)) ->
  pres J (loop_exec rd evs this fid).
Proof.
  intros HJ Hs Hi. pose proof HJ as (Ht & Hy & Hl & Hq & Hp & Hm).
  apply (pres_loop_exec J (fun _ _ => True)); try done.
  - intros. by apply Ht.
  - intros. by eapply pres_emit.
  - intros. by eapply pres_emit_executeComplete.
  - intros. by eapply pres_emit_cancelComplete.
  - intros. by eapply pres_getInfo_slot_ignored.
Qed.

(** * The lambda of [execute] *)

Lemma value_eq_index k x msg :
  eqQString (QMap.value k Invalid msg) x = true ->
  QMap.index k Invalid msg = (QMap.value k Invalid msg, msg).
Proof.
  unfold QMap.index, QMap.value. by destruct (QMap.find k msg).
Qed.

Lemma value_of_find {V} k (d v : V) m :
  QMap.find k m = Some v -> QMap.value k d m = v.
Proof. intros H. unfold QMap.value. by rewrite H. Qed.

Lemma new_trace_app w w' X :
  trace w' = (trace w ++ X)%list -> new_trace w w' = X.
Proof. intros H. unfold new_trace. rewrite H. apply drop_app_length. Qed.

Lemma Q_ASSERT_eq b w :
  qt_debug w = false \/ b = true -> Q_ASSERT b w = Ret tt w.
Proof. intros [H| ->]; unfold Q_ASSERT; [by rewrite H|]. by rewrite andb_false_r. Qed.

Lemma same_but_sync_fields s s' :
  same_but_sync s s' ->
  m_pending s' = m_pending s /\ on_message s' = on_message s /\
  objectName s' = objectName s.
Proof. intros H. rewrite H. by destruct s. Qed.

Lemma finalize_total this msgid h msg' w s :
  objs w !! this = Some s -> sync_live s ->
  exists w',
    (done this msgid ;;
     update_this this (set_on_message (drop_connection h)) ;;
     emit_executeComplete this msg') w = Ret tt w' /\
    (pending_of this w' = QMap.remove msgid (m_pending s) /\
     slots_of this w' = drop_connection h (on_message s) /\
     trace w' = (trace w ++ [(this, executeComplete msg')])%list).
Proof.
  intros Hs Hlive.
  eapply bind_eq_ex; [by apply done_eq|].
  eapply bind_eq_ex; [apply update_this_eq; simpl; apply lookup_insert_eq|].
  rewrite set_objs_twice.
  set (s3 := set_on_message (drop_connection h)
               (set_m_pending (QMap.remove msgid) s)).
  set (w3 := set_objs _ _).
  destruct (emit_executeComplete_total this msg' w3 s3) as (s' & E & St).
  { subst w3. simpl. apply lookup_insert_eq. }
  { by destruct s. }
  eexists. split; [exact E|].
  destruct St as (Heq & _). apply same_but_sync_fields in Heq as (Hp & Hm & _).
  unfold pending_of, slots_of. rewrite !obj_field_same. by rewrite Hp, Hm.
Qed.

(** C1, with the proviso of the assertion. The lambda that [execute]
    connects, on a frame whose [msgid] is the one of its request, with
    every registered proxy alive and
    no lambda of a returned [syncCancel] left connected: a frame whose
    [hResult] is not the success value completes the request - the
    broadcast, then [executeComplete] with the frame, the pending entry
    removed, the lambda disconnected; a success frame marked
    execute-complete does the same provided the [Q_ASSERT] on the echoed
    command code lets it through; a success frame marked execute-event
    emits [executeEventRecieved] and leaves the pending entry; a success
    frame without a [message] field appends (command code, payload) to the
    queue of the proxy's [objectName] and leaves the pending entry, again
    provided the [Q_ASSERT] lets it through. *)
Theorem execute_reply_protocol (this h : nat) (msgid dwCommand : string)
    (lpCmdData : QVariant) (msg : QVariantMap) (w : World)
    (s : QXfsSocketStream) :
  objs w !! this = Some s -> registry_live w -> sync_live s ->
  msgid_is msg msgid = true ->
  let run := execute_slot this h msgid dwCommand lpCmdData msg w in
  let bc := broadcast_signals w (objectName s) msg dwCommand lpCmdData in
  let completes msg' w' :=
    pending_of this w' = QMap.remove msgid (m_pending s) /\
    slots_of this w' = drop_connection h (on_message s) /\
    new_trace w w' = (bc ++ [(this, executeComplete msg')])%list in
  let stays w' :=
    pending_of this w' = m_pending s /\ slots_of this w' = on_message s in
  (eqQString (hResult_of msg) "WFS_SUCCESS" = false ->
   exists w', run = Ret tt w' /\ completes (with_hResult msg) w') /\
  (eqQString (hResult_of msg) "WFS_SUCCESS" = true ->
   QMap.find "message" msg = Some (VString "WFS_EXECUTE_COMPLETE") ->
   echo_ok w dwCommand msg ->
   exists w', run = Ret tt w' /\ completes msg w') /\
  (eqQString (hResult_of msg) "WFS_SUCCESS" = true ->
   QMap.find "message" msg = Some (VString "WFS_EXECUTE_EVENT") ->
   exists w', run = Ret tt w' /\ stays w' /\
     new_trace w w' = (bc ++ [(this, executeEventRecieved msg)])%list) /\
  (eqQString (hResult_of msg) "WFS_SUCCESS" = true ->
   QMap.find "message" msg = None ->
   echo_ok w dwCommand msg ->
   exists w', run = Ret tt w' /\ stays w' /\
     new_trace w w' = bc /\
     queue_of (objectName s) w' =
       (queue_of (objectName s) w ++ [(dwCommand, lpCmdData)])%list).
Proof.
  intros Hs Hreg Hlive Hid run bc completes stays.
  assert (run =
    (let '(hResult, msg2) := QMap.index "hResult" Invalid msg in
     if eqQString hResult "WFS_SUCCESS" then
       if QMap.contains "message" msg2 then
         let message := toString (QMap.value "message" Invalid msg2) in
         if String.eqb message "WFS_EXECUTE_COMPLETE" then
           Q_ASSERT (eqQString (QMap.value "dwCommandCode" Invalid msg2)
                       dwCommand) ;;
           done this msgid ;;
           update_this this (set_on_message (drop_connection h)) ;;
           emit_executeComplete this msg2
         else if String.eqb message "WFS_EXECUTE_EVENT" then
           emit this (executeEventRecieved msg2)
         else ret tt
       else
         Q_ASSERT (eqQString (QMap.value "dwCommandCode" Invalid msg2)
                     dwCommand) ;;
         appendCommand this (dwCommand, lpCmdData)
     else
       done this msgid ;;
       update_this this (set_on_message (drop_connection h)) ;;
       emit_executeComplete this msg2)
      (set_trace (fun t => (t ++ bc)%list) w)) as Hrun.
  { subst run. unfold execute_slot. rewrite (msgid_is_index _ _ Hid).
    unfold msgid_is in Hid. rewrite Hid. cbv beta iota delta [negb].
    erewrite bind_eq; [|by apply broadcast_eq]. done. }
  set (w1 := set_trace (fun t => (t ++ bc)%list) w) in *.
  assert (objs w1 !! this = Some s) as Hs1 by done.
  rewrite Hrun. clear Hrun.
  repeat split.
  - (* failure *)
    intros Hfail. unfold with_hResult.
    pose proof (index_fst "hResult" Invalid msg) as Hh.
    destruct (QMap.index "hResult" Invalid msg) as [hr msg2]. simpl in *.
    fold (hResult_of msg) in Hh. subst hr. rewrite Hfail.
    destruct (finalize_total this msgid h msg2 w1 s Hs1 Hlive)
      as (w' & E & Hp & Hm & Ht).
    exists w'. split; [done|]. subst completes. cbv beta. repeat split; [done..|].
    apply new_trace_app. rewrite Ht. subst w1. simpl. by rewrite <- app_assoc.
  - (* success, complete *)
    intros Hok Hmsg Hecho. rewrite (value_eq_index _ _ _ Hok).
    unfold hResult_of in Hok. rewrite Hok. unfold QMap.contains, QMap.value at 1.
    rewrite Hmsg. simpl.
    erewrite bind_eq; [|apply Q_ASSERT_eq; exact Hecho].
    destruct (finalize_total this msgid h msg w1 s Hs1 Hlive)
      as (w' & E & Hp & Hm & Ht).
    exists w'. split; [done|]. subst completes. cbv beta. repeat split; [done..|].
    apply new_trace_app. rewrite Ht. subst w1. simpl. by rewrite <- app_assoc.
  - (* success, event *)
    intros Hok Hmsg. rewrite (value_eq_index _ _ _ Hok).
    unfold hResult_of in Hok. rewrite Hok. unfold QMap.contains.
    rewrite (value_of_find _ _ _ _ Hmsg), Hmsg. simpl.
    eexists. split; [reflexivity|]. subst stays. cbv beta.
    unfold pending_of, slots_of, obj_field. simpl. rewrite Hs. repeat split.
    apply new_trace_app. simpl. by rewrite <- app_assoc.
  - (* success, acknowledgement *)
    intros Hok Hmsg Hecho. rewrite (value_eq_index _ _ _ Hok).
    unfold hResult_of in Hok. rewrite Hok. unfold QMap.contains.
    rewrite Hmsg. simpl.
    erewrite bind_eq; [|apply Q_ASSERT_eq; exact Hecho]. cbv beta.
    rewrite (appendCommand_eq _ _ _ _ Hs1).
    eexists. split; [reflexivity|]. subst stays. cbv beta.
    unfold pending_of, slots_of, obj_field. simpl. rewrite Hs. repeat split.
    + apply new_trace_app. done.
    + unfold queue_of. simpl. by rewrite value_insert_eq.
Qed.

Lemma post_Ret {A} (c : M A) Q B w a w' :
  post c Q B w -> c w = Ret a w' -> Q a w'.
Proof. unfold post. intros H Hc. by rewrite Hc in H. Qed.


Lemma trace_extends_ignores_slots T :
  ignores_slots (trace_extends T) any_signal.
Proof.
  unfold trace_extends. split; [|repeat split; intros; done].
  intros w e [rest H] _. exists (rest ++ [e])%list. simpl.
  by rewrite H, app_assoc.
Qed.

(** C5. Whenever the lambda of [execute] handles a frame of its request -
    in particular a frame that completes it, with success or with failure -
    every proxy of the registry that carries the issuer's [objectName], the
    issuer or not, has [executeEventBroadcasted] emitted on it with the
    frame, the command code and the payload of the request. *)
Theorem completion_is_broadcast (this h : nat) (msgid dwCommand : string)
    (lpCmdData : QVariant) (msg : QVariantMap) (w w' : World)
    (s : QXfsSocketStream) :
  objs w !! this = Some s -> registry_live w ->
  msgid_is msg msgid = true ->
  execute_slot this h msgid dwCommand lpCmdData msg w = Ret tt w' ->
  forall d sd,
    d ∈ devices w -> objs w !! d = Some sd ->
    objectName sd = objectName s ->
    (d, executeEventBroadcasted msg dwCommand lpCmdData) ∈ new_trace w w'.
Proof.
  intros Hs Hreg Hid Hrun d sd Hd Hsd Hname.
  set (bc := broadcast_signals w (objectName s) msg dwCommand lpCmdData).
  assert (trace_extends (trace w ++ bc) w') as [rest Ht].
  { pose proof (trace_extends_ignores_slots (trace w ++ bc)) as HJ.
    eapply (post_Ret _ (fun _ => trace_extends (trace w ++ bc))
              (trace_extends (trace w ++ bc))); [|exact Hrun].
    unfold execute_slot. rewrite (msgid_is_index _ _ Hid).
    unfold msgid_is in Hid. rewrite Hid. simpl negb. cbv iota.
    eapply post_bind_eq; [by apply broadcast_eq|].
    assert (pres (trace_extends (trace w ++ bc))
              (run_message_slot this h (ExecuteSlot msgid dwCommand lpCmdData)
                 msg)) as Hslot.
    { eapply pres_run_message_slot_ignored; [exact HJ|]. by intros ? ? ?. }
    pose proof (pres_execute_slot (trace_extends (trace w ++ bc))) as Hex.
    destruct HJ as (Ht & Hy & Hl & Hq & Hp & Hm).
    destruct (QMap.index "hResult" Invalid msg) as [hr msg2].
    assert (forall c : M unit, pres (trace_extends (trace w ++ bc)) c ->
      post c (fun _ => trace_extends (trace w ++ bc))
        (trace_extends (trace w ++ bc))
        (set_trace (fun t => (t ++ bc)%list) w)) as Hgo.
    { intros c Hc'. apply Hc'. exists []. simpl. by rewrite app_nil_r. }
    apply Hgo.
    repeat first
      [ apply pres_done; by auto
      | apply pres_disconnect_message; by auto
      | eapply pres_emit_executeComplete; by eauto
      | apply pres_appendCommand; by auto
      | eapply pres_emit; by eauto
      | pres_step ]. }
  unfold new_trace. rewrite Ht, <- app_assoc, drop_app_length.
  apply elem_of_app. left. unfold bc, broadcast_signals.
  apply list_elem_of_fmap. exists d. split; [done|].
  unfold listeners. apply list_elem_of_filter. split; [|done].
  rewrite Hsd. simpl. by rewrite Hname.
Qed.

(** * Connecting *)

Lemma bind_assoc {A B C} (c : M A) (k1 : A -> M B) (k2 : B -> M C) w :
  bind (bind c k1) k2 w = bind c (fun a => bind (k1 a) k2) w.
Proof. unfold bind. by destruct (c w). Qed.

Lemma forM_app {A} (l1 l2 : list A) body w :
  forM (l1 ++ l2) body w = (forM l1 body ;; forM l2 body) w.
Proof.
  revert w. induction l1 as [|x l1 IH]; intros w; [done|].
  simpl. rewrite bind_assoc. unfold bind.
  destruct (body x w); [|done..]. apply IH.
Qed.

Lemma connect_warnings_app name l1 l2 :
  connect_warnings name (l1 ++ l2) =
  connect_warnings name l1 + connect_warnings name l2.
Proof. unfold connect_warnings. by rewrite List.filter_app, length_app. Qed.

Lemma warn_budget_objs name w f :
  warn_budget name w -> warn_budget name (set_objs f w).
Proof. done. Qed.

Lemma warn_budget_net name w f :
  warn_budget name w -> warn_budget name (set_net f w).
Proof. done. Qed.

Lemma pres_waitFor name this enc : pres (warn_budget name) (waitFor this enc).
Proof.
  unfold waitFor. pres_step; [pres_step|]. pres_step.
  { apply pres_modify. intros. by apply warn_budget_net. }
  destruct a as [|[|e] rest];
    (pres_step; [|apply pres_ret]);
    apply pres_update_this; intros; by apply warn_budget_objs.
Qed.

(** The block under the label [conn_err]. *)
Lemma conn_err_budget name on err B w :
  warn_budget name w ->
  post (seen ← gets warnOnce;
        when (negb (existsb (String.eqb on) seen))
             (modify (set_warnOnce (fun l => on :: l)) ;;
              qWarning [on; " - unable to connect to device server: "; err]) ;;
        ret false)
       (fun b w' => b = false /\ warn_budget name w' /\
                    existsb (String.eqb on) (warnOnce w') = true)
       B w.
Proof.
  intros Hw. unfold post, bind, gets, when, modify, qWarning, ret.
  destruct (existsb (String.eqb on) (warnOnce w)) eqn:Hseen; simpl.
  - done.
  - split; [done|]. rewrite String.eqb_refl. simpl. split; [|done].
    unfold warn_budget in *. simpl. rewrite connect_warnings_app.
    unfold connect_warnings at 2. simpl.
    destruct (String.eqb name on) eqn:E.
    + apply String.eqb_eq in E. subst on. rewrite Hseen in Hw.
      rewrite String.eqb_refl. simpl. lia.
    + simpl. rewrite String.eqb_sym, E. simpl. lia.
Qed.

Lemma pres_connectToServer name this :
  pres (warn_budget name) (connectToServer this).
Proof.
  unfold connectToServer. pres_step; [pres_step|].
  destruct (io_device a) as [socket|]; [|apply pres_fault].
  pres_step.
  - repeat first
      [ apply pres_waitFor
      | apply pres_update_this; intros; by apply warn_budget_objs
      | pres_step ].
  - destruct a0; [apply pres_ret|]. pres_step; [pres_step|].
    intros w Hw.
    eapply post_mono; [by apply conn_err_budget | by intros ? ? (_ & ? & _) | done].
Qed.

Lemma waitFor_fails this enc w s :
  objs w !! this = Some s -> wait_fails w ->
  exists w', waitFor this enc w = Ret false w' /\
             log w' = log w /\ warnOnce w' = warnOnce w /\
             is_Some (objs w' !! this) /\
             objectName <$> (objs w' !! this) = Some (objectName s).
Proof.
  intros Hs Hf. unfold waitFor, wait_fails in *.
  erewrite bind_eq; [|reflexivity]. erewrite bind_eq; [|reflexivity].
  destruct (net w) as [|[|e] rest]; [|done|].
  - erewrite bind_eq; [|by apply update_this_eq]. eexists. split; [reflexivity|].
    simpl. rewrite lookup_insert_eq. by eauto.
  - erewrite bind_eq; [|by apply update_this_eq]. eexists. split; [reflexivity|].
    simpl. rewrite lookup_insert_eq. by eauto.
Qed.

(** X19. For a proxy that has a socket - its address was [local],
    [tcp://host:port] or [ssl://host:port] - an attempt that has to connect
    and whose wait fails makes [connectToServer] return false; and whatever
    the proxies and however many the attempts, an identity that has no
    connection warning in the log and is not in [warnOnce] gets at most one
    such warning. *)
Theorem connect_failure_warns_once (name : string) :
  (forall this w s k,
     objs w !! this = Some s -> io_device s = Some k ->
     must_connect s k = true -> wait_fails w ->
     exists w', connectToServer this w = Ret false w') /\
  (forall ps w,
     warn_budget name w ->
     post (attempts ps)
          (fun _ w' => warn_budget name w' /\
                       connect_warnings name (log w') <= 1)
          (fun _ => True) w).
Proof.
  split.
  - intros this w s k Hs Hk Hmust Hfail.
    change (returns false (connectToServer this w)).
    unfold connectToServer.
    erewrite bind_eq; [|by apply this_obj_eq]. rewrite Hk.
    assert (forall w1 s1, objs w1 !! this = Some s1 -> wait_fails w1 ->
      forall enc, returns false
        ((connected ← waitFor this enc;
         if connected then ret true
         else
           s' ← this_obj this;
           (let on := objectName s' in
            let errorString :=
              match m_socket s' with
              | Some k => sock_errorString k
              | None => ""
              end in
            seen ← gets warnOnce;
            when (negb (existsb (String.eqb on) seen))
                 (modify (set_warnOnce (fun l => on :: l)) ;;
                  qWarning [on; " - unable to connect to device server: ";
                            errorString]) ;;
            ret false)) w1)) as Hgo.
    { intros w1 s1 Hs1 Hf1 enc.
      destruct (waitFor_fails this enc w1 s1 Hs1 Hf1) as (w2 & E & _ & _ & [s2 Hs2] & _).
      erewrite bind_eq; [|exact E]. cbv iota.
      erewrite bind_eq; [|by apply this_obj_eq]. cbv zeta.
      unfold returns, bind, gets, when, modify, qWarning, ret.
      destruct (negb _); eauto. }
    unfold must_connect in Hmust. destruct (m_isLocal s).
    + rewrite Hmust. rewrite bind_assoc.
      erewrite bind_eq; [|by apply update_this_eq].
      apply (Hgo _ (set_m_socket (option_map reopen) s));
        [simpl; apply lookup_insert_eq | done].
    + rewrite Hmust. rewrite bind_assoc.
      destruct (SocketState_eqb (sock_state k) UnconnectedState
                || SocketState_eqb (sock_state k) ClosingState).
      * simpl when. erewrite bind_eq; [|by apply update_this_eq].
        apply (Hgo _ (set_m_socket (option_map reopen) s));
          [simpl; apply lookup_insert_eq | done].
      * simpl when. erewrite bind_eq; [|reflexivity]. by apply (Hgo _ s).
  - intros ps w Hw. unfold attempts.
    eapply post_mono; [| | done].
    + apply (pres_forM (warn_budget name)); [|exact Hw]. intros p.
      pres_step; [apply pres_connectToServer | apply pres_ret].
    + intros ? w' Hw'. cbv beta in Hw'. split; [done|]. unfold warn_budget in Hw'.
      destruct (existsb _ _); lia.
Qed.

(** C8. The address [ftp://x] is not surfaced as a connection failure.
    [createSocket] logs a critical message - not the warning of a failed
    connection - and returns no device. In a debug build the constructor
    stops at its [Q_ASSERT(m_io)]; in a release build the proxy is built
    around the null device, and [connectToServer], and with it [execute],
    [cancel] and [getInfo], goes through the null pointer instead of
    returning failure. *)
Theorem unknown_address_not_a_failure (rd : list byte -> ReadStatus)
    (deviceId : string) (waits : list WaitResult)
    (events : list (nat * IoEvent)) :
  createSocket "ftp://x" deviceId =
    mkSetup IoNull None false false "" 0%N
      [Critical [deviceId; ": unknown device connection address "; "ftp://x"]] /\
  QXfsSocketStream_new "ftp://x" deviceId "crd" (fresh_world true waits events)
    = Stop AssertFailed /\
  exists w,
    QXfsSocketStream_new "ftp://x" deviceId "crd"
      (fresh_world false waits events) = Ret 0 w /\
    connect_warnings deviceId (log w) = 0 /\
    connectToServer 0 w = Stop NullDereference /\
    (forall cmd data, execute 0 cmd data w = Stop NullDereference) /\
    (forall id, cancel 0 id w = Stop NullDereference) /\
    (forall cat q, getInfo rd 0 cat q w = Stop NullDereference).
Proof.
  split; [reflexivity|]. split; [vm_compute; reflexivity|].
  eexists. split; [vm_compute; reflexivity|].
  split; [vm_compute; reflexivity|].
  split; [vm_compute; reflexivity|].
  split; [|split]; intros; vm_compute; reflexivity.
Qed.

(** * Reading frames *)

Section Outcomes.

Variable okS : Fault -> Prop.

Lemma outcome_ok_ret {A} (a : A) : outcome_ok okS (ret a).
Proof. by intros w. Qed.

Lemma outcome_ok_bind {A C} (c : M A) (k : A -> M C) :
  outcome_ok okS c -> (forall a, outcome_ok okS (k a)) ->
  outcome_ok okS (bind c k).
Proof.
  intros Hc Hk w. unfold bind. specialize (Hc w).
  destruct (c w); [apply Hk|done..].
Qed.

Lemma outcome_ok_gets {A} (f : World -> A) : outcome_ok okS (gets f).
Proof. by intros w. Qed.

Lemma outcome_ok_modify f : outcome_ok okS (modify f).
Proof. by intros w. Qed.

Lemma outcome_ok_fault {A} e : okS e -> outcome_ok okS (@fault A e).
Proof. by intros H w. Qed.

Lemma outcome_ok_this_obj this : okS DanglingReference ->
  outcome_ok okS (this_obj this).
Proof. intros H w. unfold this_obj. by destruct (objs w !! this). Qed.

Lemma outcome_ok_Q_ASSERT b : okS AssertFailed -> outcome_ok okS (Q_ASSERT b).
Proof. intros H w. unfold Q_ASSERT. by destruct (qt_debug w && negb b). Qed.

Lemma outcome_ok_when b c : outcome_ok okS c -> outcome_ok okS (when b c).
Proof. destruct b; [done|]. intros _. apply outcome_ok_ret. Qed.

Lemma outcome_ok_forM {A} (l : list A) body :
  (forall x, outcome_ok okS (body x)) -> outcome_ok okS (forM l body).
Proof.
  intros H. induction l as [|x l IH]; simpl.
  - apply outcome_ok_ret.
  - apply outcome_ok_bind; [apply H|by intros _].
Qed.

Hypothesis ok_assert : okS AssertFailed.
Hypothesis ok_null : okS NullDereference.
Hypothesis ok_dangling : okS DanglingReference.

Ltac ok_step :=
  match goal with
  | |- outcome_ok _ (bind _ _) => apply outcome_ok_bind; [|intros ?]
  | |- outcome_ok _ (ret _) => apply outcome_ok_ret
  | |- outcome_ok _ (this_obj _) => by apply outcome_ok_this_obj
  | |- outcome_ok _ (gets _) => apply outcome_ok_gets
  | |- outcome_ok _ (modify _) => apply outcome_ok_modify
  | |- outcome_ok _ (fault _) => by apply outcome_ok_fault
  | |- outcome_ok _ (when _ _) => apply outcome_ok_when
  | |- outcome_ok _ (forM _ _) => apply outcome_ok_forM; intros ?
  | |- outcome_ok _ (Q_ASSERT _) => by apply outcome_ok_Q_ASSERT
  | |- outcome_ok _ (if ?b then _ else _) => destruct b
  | |- outcome_ok _ (match ?x with _ => _ end) => destruct x
  end.

Ltac ok_unfold :=
  unfold emit_message, run_message_slot, ctor_slot, execute_slot, cancel_slot,
    getInfo_slot, broadcast, emit_executeComplete, emit_cancelComplete,
    syncCancel_c1, syncCancel_c2, done, finishCommand, appendCommand,
    currentCommand, commands_of, get_frame, put_frame, update_socket,
    update_this, emit, qWarning, serviceEvent, userEvent, systemEvent.

Lemma outcome_ok_emit_message this msg : outcome_ok okS (emit_message this msg).
Proof. ok_unfold. repeat ok_step. Qed.

Lemma outcome_ok_disconnected this : outcome_ok okS (disconnected this).
Proof.
  unfold disconnected. ok_step; [ok_step|].
  generalize [("hResult", VString "WFS_ERR_CONNECTION_LOST")].
  induction (m_pending a) as [|[key value] its IH]; intros msg; simpl.
  - apply outcome_ok_ret.
  - ok_step; [apply outcome_ok_emit_message | apply IH].
Qed.

Lemma outcome_ok_readyRead rd this :
  okS Livelock -> outcome_ok okS (readyRead rd this).
Proof.
  intros Hl. unfold readyRead. ok_step; [ok_step|].
  destruct (io_device a); [|by apply outcome_ok_fault].
  generalize (S (List.length (sock_rx q))). intros fuel.
  induction fuel as [|fuel IH]; simpl; [by apply outcome_ok_fault|].
  ok_step; [ok_step|]. destruct (io_device a0); [|by apply outcome_ok_fault].
  destruct (rd (sock_rx q0)).
  - ok_step; [ok_unfold; repeat ok_step|].
    ok_step; [apply outcome_ok_emit_message | apply IH].
  - apply outcome_ok_ret.
  - ok_unfold. repeat ok_step.
Qed.

Lemma outcome_ok_deliver rd ev :
  okS Livelock -> outcome_ok okS (deliver rd ev).
Proof.
  intros Hl w. unfold deliver.
  destruct (objs w !! ev.1) as [s|] eqn:Hs; [|done].
  destruct (ev.2) as [bytes|].
  - destruct (io_device s); [|done].
    apply (outcome_ok_bind
             (update_socket ev.1 (set_sock_rx (fun b => (b ++ bytes)%list)))
             (fun _ => readyRead rd ev.1)).
    + ok_unfold. repeat ok_step.
    + intros _. by apply outcome_ok_readyRead.
  - destruct (m_socket s); [|done].
    apply (outcome_ok_bind
             (update_socket ev.1 (fun k =>
                set_sock_state UnconnectedState (set_sock_encrypted false k)))
             (fun _ => disconnected ev.1)).
    + ok_unfold. repeat ok_step.
    + intros _. apply outcome_ok_disconnected.
Qed.

End Outcomes.

Lemma emit_message_no_livelock this msg w :
  emit_message this msg w <> Stop Livelock.
Proof.
  assert (outcome_ok not_livelock (emit_message this msg)) as H
    by (apply outcome_ok_emit_message; done).
  specialize (H w).
  destruct (emit_message this msg w); [done| |done].
  intros [= ->]. by apply H.
Qed.

Lemma deliver_never_blocked rd ev w w' : deliver rd ev w <> Blocked w'.
Proof.
  assert (outcome_ok any_fault (deliver rd ev)) as H
    by (apply outcome_ok_deliver; done).
  specialize (H w).
  by destruct (deliver rd ev w).
Qed.

Lemma io_device_set_rx s k f :
  io_device s = Some k ->
  io_device (set_m_socket (option_map (set_sock_rx f)) s) =
    Some (set_sock_rx f k).
Proof.
  unfold io_device. simpl. destruct (m_io s); [done|]. by intros ->.
Qed.

Lemma decode_frames_fuel rd :
  progressing rd ->
  forall fuel buf n, List.length buf < fuel ->
    decode_frames rd (fuel + n) buf = decode_frames rd fuel buf.
Proof.
  intros Hp. induction fuel as [|fuel IH]; intros buf n Hlen; [lia|].
  simpl. destruct (rd buf) as [msg rest| |rest] eqn:E; [|done..].
  rewrite IH; [done|]. apply Hp in E. lia.
Qed.

Lemma reading_update this w0 r L w p s s' :
  reading this w0 r L w -> objs w !! p = Some s ->
  io_device s' = io_device s ->
  reading this w0 r L (set_objs (fun h => <[p := s']> h) w).
Proof.
  intros [(s0 & k & Hs & Hk & Hr) Ht] Hp Hio. split; [|done]. simpl.
  destruct (decide (p = this)) as [->|Hne].
  - exists s', k. rewrite lookup_insert_eq. rewrite Hio.
    rewrite Hs in Hp. by injection Hp as <-.
  - exists s0, k. by rewrite lookup_insert_ne.
Qed.

Lemma reading_ignores_slots this w0 r L :
  ignores_slots (reading this w0 r L)
    (fun e => forall m, snd e <> message m).
Proof.
  split; [|split; [split; [|split]|split; [|split; [|split]]]].
  - intros w [p sig] [Hrx (rest & Ht & Hm)] HP. split; [done|].
    exists (rest ++ [(p, sig)])%list. simpl. split; [by rewrite Ht, app_assoc|].
    unfold messages_of in *. rewrite omap_app, Hm. simpl.
    destruct sig; try by rewrite app_nil_r. by specialize (HP msg).
  - intros. eapply reading_update; [done..|by destruct s].
  - intros. eapply reading_update; [done..|by destruct s].
  - intros. eapply reading_update; [done..|by destruct s].
  - by intros w e [? ?].
  - by intros w f [? ?].
  - intros. eapply reading_update; [done..|by destruct s].
  - intros. eapply reading_update; [done..|by destruct s].
Qed.

Lemma emit_message_reading this w0 r L msg w :
  reading this w0 r L w ->
  post (emit_message this msg) (fun _ => reading this w0 r (L ++ [msg]))
       (fun _ => True) w.
Proof.
  intros [Hrx (rest & Ht & Hm)]. unfold emit_message.
  eapply post_bind_eq; [reflexivity|].
  eapply post_mono; [| by intros ? ? H; apply H | done].
  apply (pres_bind (reading this w0 r (L ++ [msg]))).
  - apply pres_this_obj.
  - intros s. eapply pres_slots_ignored; [apply reading_ignores_slots|].
    intros p sig Hsig m. simpl. apply Hsig.
  - split; [done|]. exists (rest ++ [(this, message msg)])%list. simpl.
    split; [by rewrite Ht, app_assoc|].
    unfold messages_of in *. rewrite omap_app, Hm. simpl.
    by rewrite decide_True.
Qed.

Lemma readyRead_loop_frames rd this w0 :
  progressing rd ->
  forall fuel w r L,
    reading this w0 r L w -> List.length r < fuel ->
    readyRead_loop rd fuel this w <> Stop Livelock /\
    post (readyRead_loop rd fuel this)
         (fun _ => reading this w0 (snd (decode_frames rd fuel r))
                     (L ++ fst (decode_frames rd fuel r)))
         (fun _ => True) w.
Proof.
  intros Hp. induction fuel as [|fuel IH]; intros w r L Hread Hlen; [lia|].
  pose proof Hread as [(s & k & Hs & Hk & Hr) Ht]. simpl.
  unfold post. erewrite bind_eq; [|by apply this_obj_eq]. rewrite Hk, Hr.
  destruct (rd r) as [msg rest| |rest] eqn:E.
  - erewrite bind_eq; [|by apply update_this_eq].
    set (w1 := set_objs _ w).
    assert (reading this w0 rest L w1) as Hread1.
    { split; [|done]. subst w1. simpl. rewrite lookup_insert_eq.
      eexists _, _. split; [done|]. split; [by apply io_device_set_rx|done]. }
    pose proof (emit_message_reading this w0 rest L msg w1 Hread1) as Hem.
    pose proof (emit_message_no_livelock this msg w1) as Hnl.
    unfold post, bind in *. destruct (emit_message this msg w1) as [[] w2|f|w2].
    + apply Hp in E. destruct (IH w2 rest (L ++ [msg])%list) as [Hn Hpost];
        [done|lia|].
      split; [done|].
      destruct (decode_frames rd fuel rest) as [ms r'] eqn:Ed. simpl in *.
      by rewrite <- app_assoc in Hpost.
    + split; [congruence|done].
    + done.
  - split; [done|]. simpl. by rewrite app_nil_r.
  - unfold update_socket. erewrite update_this_eq; [|done]. split; [done|]. simpl.
    rewrite app_nil_r. split; [|done]. simpl. rewrite lookup_insert_eq.
    eexists _, _. split; [done|]. split; [by apply io_device_set_rx|done].
Qed.

Lemma readyRead_frames rd this w s k :
  objs w !! this = Some s -> io_device s = Some k ->
  progressing rd ->
  let fuel := S (List.length (sock_rx k)) in
  readyRead rd this w <> Stop Livelock /\
  post (readyRead rd this)
       (fun _ w' =>
          messages_of this (new_trace w w') =
            fst (decode_frames rd fuel (sock_rx k)) /\
          rx_of this w' = snd (decode_frames rd fuel (sock_rx k)))
       (fun _ => True) w.
Proof.
  intros Hs Hk Hp fuel.
  assert (reading this w (sock_rx k) [] w) as Hread.
  { split; [by eauto|]. exists []. by rewrite app_nil_r. }
  destruct (readyRead_loop_frames rd this w Hp fuel w (sock_rx k) [] Hread)
    as [Hn Hpost]; [subst fuel; lia|].
  assert (readyRead rd this w = readyRead_loop rd fuel this w) as Heq.
  { unfold readyRead. erewrite bind_eq; [|by apply this_obj_eq].
    by rewrite Hk. }
  unfold post in *. rewrite Heq. split; [done|].
  destruct (readyRead_loop rd fuel this w) as [[] w'| |]; [|done..].
  destruct Hpost as [(s' & k' & Hs' & Hk' & Hr') (rest & Ht & Hm)].
  simpl in *. split.
  - unfold new_trace. by rewrite Ht, drop_app_length.
  - unfold rx_of, obj_field. by rewrite Hs', Hk'.
Qed.

Lemma framed_codec_progressing table : progressing (framed_codec table).
Proof.
  intros buf msg rest. unfold framed_codec. destruct buf as [|n body]; [done|].
  destruct (Nat.ltb (List.length body) (Byte.to_nat n)) eqn:Hlen; [done|].
  destruct (firstn (Byte.to_nat n) body) as [|i l]; [done|].
  destruct (nth_error table (Byte.to_nat i)); [|done].
  intros [= _ <-]. simpl. rewrite length_skipn. lia.
Qed.

(** C7. A read that runs past the end of the buffered bytes - a frame has
    only partly arrived - leaves the proxy and the process exactly as they
    were: no byte is consumed and no frame is dispatched. A read of corrupt
    data is not rolled back: the bytes it has consumed are dropped, nothing
    is dispatched for them and [readyRead] returns with what lies behind
    them still buffered. While a frame takes at least one byte, [readyRead]
    does not spin; it puts on [message] the frames that successive reads
    take off the buffer, one after the other and in their order, and stops
    at the first read that does not yield a frame, which more fuel would
    not change. Bytes that arrive are put behind the bytes that were left,
    so that a frame is dispatched by the read at which its last byte is
    there. *)
Theorem readyRead_transactional (rd : list byte -> ReadStatus) (this : nat)
    (w : World) (s : QXfsSocketStream) (k : QSocket) :
  objs w !! this = Some s -> io_device s = Some k ->
  (rd (sock_rx k) = ReadPastEnd -> readyRead rd this w = Ret tt w) /\
  (forall rest, rd (sock_rx k) = ReadCorruptData rest ->
     exists w', readyRead rd this w = Ret tt w' /\
                rx_of this w' = rest /\ new_trace w w' = []) /\
  (progressing rd ->
   let fuel := S (List.length (sock_rx k)) in
   readyRead rd this w <> Stop Livelock /\
   (forall n, decode_frames rd (fuel + n) (sock_rx k) =
              decode_frames rd fuel (sock_rx k)) /\
   post (readyRead rd this)
        (fun _ w' =>
           messages_of this (new_trace w w') =
             fst (decode_frames rd fuel (sock_rx k)) /\
           rx_of this w' = snd (decode_frames rd fuel (sock_rx k)))
        (fun _ => True) w) /\
  (progressing rd ->
   forall bytes,
     let buf := (sock_rx k ++ bytes)%list in
     let fuel := S (List.length buf) in
     post (deliver rd (this, EvReadyRead bytes))
          (fun _ w' =>
             messages_of this (new_trace w w') =
               fst (decode_frames rd fuel buf) /\
             rx_of this w' = snd (decode_frames rd fuel buf))
          (fun _ => True) w).
Proof.
  intros Hs Hk. split; [|split; [|split]].
  - intros Hrd. unfold readyRead. erewrite bind_eq; [|by apply this_obj_eq].
    rewrite Hk. simpl. erewrite bind_eq; [|by apply this_obj_eq].
    by rewrite Hk, Hrd.
  - intros rest Hrd. unfold readyRead.
    erewrite bind_eq; [|by apply this_obj_eq].
    rewrite Hk. simpl. erewrite bind_eq; [|by apply this_obj_eq].
    rewrite Hk, Hrd. unfold update_socket.
    erewrite update_this_eq; [|done]. eexists. split; [reflexivity|].
    split.
    + unfold rx_of, obj_field. simpl. rewrite lookup_insert_eq.
      by rewrite (io_device_set_rx s k _ Hk).
    + unfold new_trace. simpl. apply drop_all.
  - intros Hp fuel.
    destruct (readyRead_frames rd this w s k Hs Hk Hp) as [Hn Hpost].
    split; [done|]. split; [|done].
    intros n. apply decode_frames_fuel; [done|]. subst fuel. lia.
  - intros Hp bytes buf fuel. unfold post, deliver. simpl. rewrite Hs, Hk.
    erewrite bind_eq; [|unfold update_socket; by apply update_this_eq].
    set (w1 := set_objs _ w).
    assert (objs w1 !! this =
            Some (set_m_socket (option_map
                    (set_sock_rx (fun b => (b ++ bytes)%list))) s)) as Hs1
      by (subst w1; simpl; apply lookup_insert_eq).
    pose proof (io_device_set_rx s k (fun b => (b ++ bytes)%list) Hk) as Hk1.
    destruct (readyRead_frames rd this w1 _ _ Hs1 Hk1 Hp) as [_ Hpost].
    unfold post in Hpost.
    destruct (readyRead rd this w1) as [[] w'| |]; [|done..].
    exact Hpost.
Qed.

(** * The wait of [syncCancel] *)

Lemma get_frame_cases this fid w :
  get_frame this fid w =
    match objs w !! this with
    | Some s => match frames s !! fid with
                | Some f => Ret f w
                | None => Stop DanglingReference
                end
    | None => Stop DanglingReference
    end.
Proof.
  unfold get_frame, bind, this_obj. destruct (objs w !! this) as [s|]; [|done].
  by destruct (frames s !! fid).
Qed.

(** The event loop returns with its exit flag set and is left waiting with
    the flag clear. *)
Lemma loop_exec_post J rd this fid :
  (forall ev, pres J (deliver rd ev)) ->
  (forall w f, J w -> J (set_inbox f w)) ->
  forall evs w, J w ->
    post (loop_exec rd evs this fid)
         (fun _ w' => J w' /\ exit_flag this fid w' = Some true)
         (fun w' => J w' /\ exit_flag this fid w' = Some false) w.
Proof.
  intros Hdel Hin. induction evs as [|ev evs IH]; intros w Hw;
    unfold post; simpl; unfold bind at 1; rewrite get_frame_cases;
    destruct (objs w !! this) as [s|] eqn:Hs; try done;
    destruct (frames s !! fid) as [f|] eqn:Hf; try done;
    destruct (frame_exited f) eqn:Hex.
  - split; [done|]. unfold exit_flag. by rewrite Hs, Hf, <- Hex.
  - split; [done|]. unfold exit_flag. by rewrite Hs, Hf, <- Hex.
  - split; [done|]. unfold exit_flag. by rewrite Hs, Hf, <- Hex.
  - unfold bind, modify.
    set (w1 := set_inbox (fun _ => evs) w).
    assert (J w1) as Hw1 by by apply Hin.
    pose proof (Hdel ev w1 Hw1) as Hd. unfold post in Hd.
    pose proof (deliver_never_blocked rd ev w1) as Hnb.
    destruct (deliver rd ev w1) as [[] w2|e|w2]; [|done|by destruct (Hnb w2)].
    apply (IH w2 Hd).
Qed.

Lemma cancel_reply_snoc this cid tr e :
  cancel_reply this cid (tr ++ [e]) =
    match cancel_reply this cid tr with
    | Some m => Some m
    | None =>
        match snd e with
        | cancelComplete m =>
            if decide (fst e = this) then
              if msgid_is m cid then Some m else None
            else None
        | _ => None
        end
    end.
Proof.
  unfold cancel_reply. rewrite omap_app.
  match goal with |- context [omap ?f tr] => destruct (omap f tr) as [|x l] end;
    simpl; [|done].
  destruct (snd e); simpl; try done.
  destruct (decide (fst e = this)); [|done]. by destruct (msgid_is msg cid).
Qed.

Lemma execute_seen_snoc this rid tr e :
  execute_seen this rid (tr ++ [e]) =
    execute_seen this rid tr
    || match snd e with
       | executeComplete m => bool_decide (fst e = this) && msgid_is m rid
       | _ => false
       end.
Proof.
  unfold execute_seen. rewrite existsb_app. simpl. by rewrite orb_false_r.
Qed.

Lemma waiting_trace this fid cid rid h1 h2 old w0 :
  ignores_signals (waiting this fid cid rid h1 h2 old w0) (neutral this).
Proof.
  intros w e (s & rest & fin & ex & Hs & Ht & Hf & Hc & He & Hold & Hnew & Hex & Hfin & Hids) Hn.
  assert (cancel_reply this cid (rest ++ [e]) = cancel_reply this cid rest) as E1.
  { rewrite cancel_reply_snoc. destruct (cancel_reply this cid rest); [done|].
    unfold neutral in Hn. destruct (snd e); try done.
    by rewrite decide_False. }
  assert (execute_seen this rid (rest ++ [e]) = execute_seen this rid rest) as E2.
  { rewrite execute_seen_snoc. unfold neutral in Hn. destruct (snd e);
      try by rewrite orb_false_r.
    rewrite bool_decide_eq_false_2 by done. by rewrite orb_false_r. }
  exists s, (rest ++ [e])%list, fin, ex. unfold wait_over in *.
  rewrite E1, E2. simpl. rewrite Ht, app_assoc. done.
Qed.

(** A lambda that is stale stays so while nothing is allocated and the
    frames that are gone stay gone. *)
Lemma stale_kept s s' c :
  next_connection s <= next_connection s' ->
  next_frame s <= next_frame s' ->
  (forall i, i < next_frame s -> frames s !! i = None ->
             frames s' !! i = None) ->
  stale s c -> stale s' c.
Proof.
  intros Hc Hn Hf [Hh Hd]. split; [lia|].
  destruct (snd c) as [i rid]. destruct Hd as [Hd Hi].
  split; [by apply Hf|lia].
Qed.

Lemma old_kept h2 s s' (old : list (nat * ExecuteCompleteSlot)) :
  next_connection s <= next_connection s' ->
  next_frame s <= next_frame s' ->
  (forall i, i < next_frame s -> frames s !! i = None ->
             frames s' !! i = None) ->
  Forall (fun c => stale s c /\ fst c <> h2) old ->
  Forall (fun c => stale s' c /\ fst c <> h2) old.
Proof.
  intros Hc Hn Hf Hold. eapply Forall_impl; [exact Hold|].
  intros c [Hst Hne]. split; [by eapply stale_kept|done].
Qed.

Lemma waiting_obj this fid cid rid h1 h2 old w0 w p s s' :
  waiting this fid cid rid h1 h2 old w0 w -> objs w !! p = Some s ->
  (p = this ->
   frames s' !! fid = frames s !! fid /\
   on_cancelComplete s' = on_cancelComplete s /\
   on_executeComplete s' = on_executeComplete s /\
   (forall c, c ∈ on_message s' -> c ∈ on_message s) /\
   next_connection s' = next_connection s /\
   next_frame s' = next_frame s /\
   (forall i, frames s !! i = None -> frames s' !! i = None)) ->
  waiting this fid cid rid h1 h2 old w0 (set_objs (fun h => <[p := s']> h) w).
Proof.
  intros (s0 & rest & fin & ex & Hs & Ht & Hf & Hc & He & Hold & Hnew & Hex & Hfin & Hids) Hp Hsame.
  destruct (decide (p = this)) as [->|Hne].
  - destruct (Hsame eq_refl) as (Ef & Ec & Ee & Em & Enc & Enf & Edead).
    rewrite Hs in Hp. injection Hp as <-.
    exists s', rest, fin, ex. simpl.
    rewrite lookup_insert_eq, Ef, Ec, Ee, Enc, Enf.
    repeat split; try done.
    + eapply old_kept; [| | |exact Hold]; [lia|lia|]. intros i _. apply Edead.
    + lia.
    + lia.
    + intros c Hin. by apply Hids, Em.
  - exists s0, rest, fin, ex. simpl. by rewrite lookup_insert_ne.
Qed.

(** Updates that touch neither the frames nor the connections of
    [syncCancel]. *)
Lemma waiting_same this fid cid rid h1 h2 old w0 w p s s' :
  waiting this fid cid rid h1 h2 old w0 w -> objs w !! p = Some s ->
  frames s' = frames s ->
  on_cancelComplete s' = on_cancelComplete s ->
  on_executeComplete s' = on_executeComplete s ->
  next_connection s' = next_connection s ->
  next_frame s' = next_frame s ->
  (forall c, c ∈ on_message s' -> c ∈ on_message s) ->
  waiting this fid cid rid h1 h2 old w0 (set_objs (fun h => <[p := s']> h) w).
Proof.
  intros Hw Hs Ef Ec Ee Enc Enf Em. eapply waiting_obj; [done..|].
  intros _. rewrite Ef. done.
Qed.

Lemma waiting_ignores_sync_others this fid cid rid h1 h2 old w0 :
  ignores_sync (waiting this fid cid rid h1 h2 old w0) (fun p => p <> this).
Proof. repeat split; intros; eapply waiting_obj; done. Qed.

Lemma syncCancel_c1_eq this h fid id msg w s fin ex :
  objs w !! this = Some s ->
  frames s !! fid = Some (SyncCancelFrame fin ex) ->
  syncCancel_c1 this h (SyncCancelC1 fid id) msg w =
    Ret tt
      (if msgid_is msg id then
         set_objs (fun m =>
           <[this := set_frames (fun fs =>
                       <[fid := if fin || negb (eqQString (hResult_of msg)
                                                  "WFS_SUCCESS")
                                then SyncCancelFrame fin true
                                else SyncCancelFrame true ex]> fs)
                       (set_on_cancelComplete (drop_connection h) s)]> m) w
       else w).
Proof.
  intros Hs Hf. unfold syncCancel_c1.
  destruct (msgid_is msg id) eqn:Hid.
  - rewrite (msgid_is_index _ _ Hid). unfold msgid_is in Hid. rewrite Hid.
    cbv beta iota delta [negb].
    erewrite bind_eq; [|by eapply get_frame_eq]. cbv beta iota.
    erewrite bind_eq; [|by apply update_this_eq].
    pose proof (index_fst "hResult" Invalid msg) as Hh.
    destruct (QMap.index "hResult" Invalid msg) as [hr msg2]. simpl in Hh.
    fold (hResult_of msg) in Hh. subst hr. cbv beta iota.
    fold (negb (eqQString (hResult_of msg) "WFS_SUCCESS")).
    destruct (fin || negb (eqQString (hResult_of msg) "WFS_SUCCESS"));
      (erewrite put_frame_eq; [|simpl; apply lookup_insert_eq]);
      by rewrite set_objs_twice.
  - pose proof (index_fst "msgid" Invalid msg) as Hm.
    destruct (QMap.index "msgid" Invalid msg) as [idv msg1]. simpl in Hm.
    subst idv. unfold msgid_is in Hid. by rewrite Hid.
Qed.

Lemma syncCancel_c2_eq this h fid id msg w s fin ex :
  objs w !! this = Some s ->
  frames s !! fid = Some (SyncCancelFrame fin ex) ->
  syncCancel_c2 this h (SyncCancelC2 fid id) msg w =
    Ret tt
      (if msgid_is msg id then
         set_objs (fun m =>
           <[this := set_frames (fun fs =>
                       <[fid := if fin then SyncCancelFrame fin true
                                else SyncCancelFrame true ex]> fs)
                       (set_on_executeComplete (drop_connection h) s)]> m) w
       else w).
Proof.
  intros Hs Hf. unfold syncCancel_c2.
  destruct (msgid_is msg id) eqn:Hid.
  - rewrite (msgid_is_index _ _ Hid). unfold msgid_is in Hid. rewrite Hid.
    cbv beta iota delta [negb].
    erewrite bind_eq; [|by eapply get_frame_eq]. cbv beta iota.
    erewrite bind_eq; [|by apply update_this_eq]. cbv beta iota.
    destruct fin;
      (erewrite put_frame_eq; [|simpl; apply lookup_insert_eq]);
      by rewrite set_objs_twice.
  - pose proof (index_fst "msgid" Invalid msg) as Hm.
    destruct (QMap.index "msgid" Invalid msg) as [idv msg1]. simpl in Hm.
    subst idv. unfold msgid_is in Hid. by rewrite Hid.
Qed.

Lemma drop_connection_single {S} h (c : S) : drop_connection h [(h, c)] = [].
Proof. unfold drop_connection. rewrite filter_cons. simpl. by rewrite decide_False by auto. Qed.

Lemma is_connected_single {S} h (c : S) : is_connected h [(h, c)] = true.
Proof. unfold is_connected. simpl. by rewrite Nat.eqb_refl. Qed.

Lemma is_connected_last {S} h (c : S) l : is_connected h (l ++ [(h, c)]) = true.
Proof.
  unfold is_connected. rewrite existsb_app. simpl.
  by rewrite Nat.eqb_refl, orb_true_r.
Qed.

Lemma drop_connection_last {S} h (c : S) (P : nat * S -> Prop) l :
  Forall (fun x => P x /\ fst x <> h) l ->
  drop_connection h (l ++ [(h, c)]) = l.
Proof.
  intros Hl. unfold drop_connection. rewrite filter_app, filter_cons. simpl.
  rewrite decide_False by auto. rewrite filter_nil, app_nil_r.
  induction Hl as [|x l [_ Hx] Hl IH]; [done|].
  rewrite filter_cons, decide_True by done. by rewrite IH.
Qed.

(** The frame of a waiting call is written: the lambdas that were stale
    stay so. *)
Lemma old_put h2 s s' fid f0 (old : list (nat * ExecuteCompleteSlot)) :
  frames s !! fid = Some f0 ->
  next_connection s' = next_connection s -> next_frame s' = next_frame s ->
  (forall i, i <> fid -> frames s' !! i = frames s !! i) ->
  Forall (fun c => stale s c /\ fst c <> h2) old ->
  Forall (fun c => stale s' c /\ fst c <> h2) old.
Proof.
  intros Hf Enc Enf Hi. apply old_kept; [lia|lia|].
  intros i _ Hd. rewrite Hi; [done|]. intros ->. congruence.
Qed.

(** The lambdas left by earlier calls, run on a completion: those that
    wait for another id do nothing; one that waits for this id goes
    through its dangling references. *)
Lemma stale_lambdas_run this msg (l : list (nat * ExecuteCompleteSlot)) w s :
  objs w !! this = Some s -> Forall (stale s) l ->
  let body := fun c : nat * ExecuteCompleteSlot =>
    (s' ← this_obj this;
     when (is_connected (fst c) (on_executeComplete s'))
          (syncCancel_c2 this (fst c) (snd c) msg)) in
  forM l body w = Ret tt w \/ forM l body w = Stop DanglingReference.
Proof.
  intros Hs Hl body. induction Hl as [|c l Hc Hl IH]; [by left|].
  simpl.
  assert (body c w = Ret tt w \/ body c w = Stop DanglingReference) as [E|E].
  { subst body. cbv beta. erewrite bind_eq; [|by apply this_obj_eq].
    destruct (is_connected _ _); [|by left]. simpl when.
    destruct c as [h [i rid]]. destruct Hc as [_ [Hdead _]]. simpl in *.
    unfold syncCancel_c2. destruct (QMap.index "msgid" Invalid msg) as [id m].
    destruct (negb _); [by left|]. right.
    unfold bind. by rewrite get_frame_cases, Hs, Hdead. }
  - unfold bind. rewrite E. exact IH.
  - right. unfold bind. by rewrite E.
Qed.

Lemma waiting_intro this fid cid rid h1 h2 old w0 w s rest fin ex :
  objs w !! this = Some s ->
  trace w = (trace w0 ++ rest)%list ->
  frames s !! fid = Some (SyncCancelFrame fin ex) ->
  on_cancelComplete s =
    match cancel_reply this cid rest with
    | None => [(h1, SyncCancelC1 fid cid)]
    | Some _ => []
    end ->
  on_executeComplete s =
    (old ++ (if execute_seen this rid rest then []
             else [(h2, SyncCancelC2 fid rid)]))%list ->
  Forall (fun c => stale s c /\ fst c <> h2) old ->
  h2 < next_connection s -> fid < next_frame s ->
  ex = wait_over this cid rid rest ->
  (ex = false ->
   fin = isEmptyString rid
         || (match cancel_reply this cid rest with
             | Some _ => true
             | None => false
             end)
         || execute_seen this rid rest) ->
  execute_ids_set (on_message s) ->
  waiting this fid cid rid h1 h2 old w0 w.
Proof. intros. by exists s, rest, fin, ex. Qed.

(** The proxy emits [cancelComplete] while its [syncCancel] waits. *)
Lemma waiting_cancelComplete this fid cid rid h1 h2 old w0 msg :
  pres (waiting this fid cid rid h1 h2 old w0) (emit_cancelComplete this msg).
Proof.
  intros w (s & rest & fin & ex & Hs & Ht & Hf & Hc & He & Hold & [Hh2 Hfid] & Hex & Hfin & Hids).
  unfold emit_cancelComplete. eapply post_bind_eq; [reflexivity|].
  set (e := (this, cancelComplete msg)).
  set (w1 := set_trace (fun t => (t ++ [e])%list) w).
  assert (objs w1 !! this = Some s) as Hs1 by done.
  assert (trace w1 = (trace w0 ++ (rest ++ [e]))%list) as Ht1
    by (subst w1; simpl; by rewrite Ht, app_assoc).
  assert (execute_seen this rid (rest ++ [e]) = execute_seen this rid rest) as E2.
  { rewrite execute_seen_snoc. simpl. by rewrite orb_false_r. }
  pose proof (cancel_reply_snoc this cid rest e) as E1. simpl in E1.
  rewrite decide_True in E1 by done.
  eapply post_bind_eq; [by apply this_obj_eq|]. rewrite Hc.
  destruct (cancel_reply this cid rest) as [m0|] eqn:Hcr.
  - simpl. apply post_ret.
    apply (waiting_intro _ _ _ _ _ _ _ _ _ s (rest ++ [e])%list fin ex);
      try done; unfold wait_over in *; by rewrite ?E1, ?E2, ?Hcr in *.
  - simpl forM. eapply post_bind_eq.
    { erewrite bind_eq; [|by apply this_obj_eq]. rewrite Hc.
      rewrite is_connected_single. simpl when.
      by eapply syncCancel_c1_eq. }
    apply post_ret. destruct (msgid_is msg cid) eqn:Hid.
    + unfold wait_over in Hex. rewrite Hcr in Hex. subst ex.
      specialize (Hfin eq_refl). simpl in Hfin. rewrite orb_false_r in Hfin.
      destruct (fin || negb (eqQString (hResult_of msg) "WFS_SUCCESS"))
        eqn:Hcond.
      * eapply (waiting_intro _ _ _ _ _ _ _ _ _ _ (rest ++ [e])%list fin true);
          [simpl; apply lookup_insert_eq | exact Ht1
          | simpl; apply lookup_insert_eq | | | | | | | |].
        -- simpl. by rewrite E1, Hc, drop_connection_single.
        -- simpl. by rewrite E2.
        -- eapply old_put; [exact Hf|done|done| |exact Hold].
           intros i Hi. simpl. by rewrite lookup_insert_ne.
        -- done.
        -- done.
        -- unfold wait_over. rewrite E1, E2. subst fin.
           destruct (isEmptyString rid), (execute_seen this rid rest),
             (eqQString (hResult_of msg) "WFS_SUCCESS"); simpl in *; done.
        -- done.
        -- done.
      * eapply (waiting_intro _ _ _ _ _ _ _ _ _ _ (rest ++ [e])%list true false);
          [simpl; apply lookup_insert_eq | exact Ht1
          | simpl; apply lookup_insert_eq | | | | | | | |].
        -- simpl. by rewrite E1, Hc, drop_connection_single.
        -- simpl. by rewrite E2.
        -- eapply old_put; [exact Hf|done|done| |exact Hold].
           intros i Hi. simpl. by rewrite lookup_insert_ne.
        -- done.
        -- done.
        -- unfold wait_over. rewrite E1, E2. subst fin.
           destruct (isEmptyString rid), (execute_seen this rid rest),
             (eqQString (hResult_of msg) "WFS_SUCCESS"); simpl in *; done.
        -- intros _. rewrite E1. by rewrite orb_true_r.
        -- done.
    + apply (waiting_intro _ _ _ _ _ _ _ _ _ s (rest ++ [e])%list fin ex);
        try done; unfold wait_over in *; by rewrite ?E1, ?E2, ?Hcr in *.
Qed.

Lemma msgid_is_inj msg id id' :
  msgid_is msg id = true -> msgid_is msg id' = true -> id = id'.
Proof.
  unfold msgid_is, eqQString. destruct (QMap.value "msgid" Invalid msg); try done.
  rewrite !String.eqb_eq. congruence.
Qed.

(** The proxy emits [executeComplete], for a request whose id is not
    empty, while its [syncCancel] waits. *)
Lemma waiting_executeComplete this fid cid rid h1 h2 old w0 msg id :
  id <> "" -> msgid_is msg id = true ->
  pres (waiting this fid cid rid h1 h2 old w0) (emit_executeComplete this msg).
Proof.
  intros Hid0 Hid1.
  intros w (s & rest & fin & ex & Hs & Ht & Hf & Hc & He & Hold & [Hh2 Hfid] & Hex & Hfin & Hids).
  unfold emit_executeComplete. eapply post_bind_eq; [reflexivity|].
  set (e := (this, executeComplete msg)).
  set (w1 := set_trace (fun t => (t ++ [e])%list) w).
  assert (objs w1 !! this = Some s) as Hs1 by done.
  assert (trace w1 = (trace w0 ++ (rest ++ [e]))%list) as Ht1
    by (subst w1; simpl; by rewrite Ht, app_assoc).
  assert (cancel_reply this cid (rest ++ [e]) = cancel_reply this cid rest) as E1.
  { rewrite cancel_reply_snoc. by destruct (cancel_reply this cid rest). }
  pose proof (execute_seen_snoc this rid rest e) as E2. simpl in E2.
  rewrite bool_decide_eq_true_2 in E2 by done. simpl in E2.
  eapply post_bind_eq; [by apply this_obj_eq|]. rewrite He.
  assert (Forall (stale s) old) as Hst
    by (eapply Forall_impl; [exact Hold|]; by intros c [? _]).
  unfold post. rewrite forM_app. unfold bind at 1.
  destruct (stale_lambdas_run this msg old w1 s Hs1 Hst) as [Eold|Eold];
    rewrite Eold; [|done].
  change (post (forM (if execute_seen this rid rest then []
                      else [(h2, SyncCancelC2 fid rid)])
                  (fun c => s' ← this_obj this;
                     when (is_connected (fst c) (on_executeComplete s'))
                          (syncCancel_c2 this (fst c) (snd c) msg)))
               (fun _ => waiting this fid cid rid h1 h2 old w0)
               (waiting this fid cid rid h1 h2 old w0) w1).
  destruct (execute_seen this rid rest) eqn:Hes.
  - simpl. apply post_ret.
    apply (waiting_intro _ _ _ _ _ _ _ _ _ s (rest ++ [e])%list fin ex);
      try done; unfold wait_over in *; rewrite ?E1, ?E2, ?Hes in *; done.
  - simpl forM. eapply post_bind_eq.
    { erewrite bind_eq; [|by apply this_obj_eq]. rewrite He.
      rewrite is_connected_last. simpl when.
      by eapply syncCancel_c2_eq. }
    apply post_ret. destruct (msgid_is msg rid) eqn:Hid.
    + assert (isEmptyString rid = false) as Hne.
      { rewrite <- (msgid_is_inj _ _ _ Hid1 Hid). by destruct id. }
      unfold wait_over in Hex, Hfin. rewrite Hne in *.
      assert (ex || fin = match cancel_reply this cid rest with
                          | Some _ => true
                          | None => false
                          end) as Hboth.
      { destruct (cancel_reply this cid rest) as [m0|]; simpl in *.
        - destruct ex; [done|]. by rewrite (Hfin eq_refl).
        - subst ex. by rewrite (Hfin eq_refl). }
      assert (drop_connection h2 (old ++ [(h2, SyncCancelC2 fid rid)])
              = (old ++ [])%list) as Edrop.
      { rewrite app_nil_r. by eapply drop_connection_last. }
      destruct fin.
      * eapply (waiting_intro _ _ _ _ _ _ _ _ _ _ (rest ++ [e])%list true true);
          [simpl; apply lookup_insert_eq | exact Ht1
          | simpl; apply lookup_insert_eq | | | | | | | |].
        -- simpl. by rewrite E1.
        -- simpl. by rewrite E2, He, Edrop.
        -- eapply old_put; [exact Hf|done|done| |exact Hold].
           intros i Hi. simpl. by rewrite lookup_insert_ne.
        -- done.
        -- done.
        -- unfold wait_over. rewrite E1, E2, Hne.
           rewrite orb_true_r in Hboth.
           destruct (cancel_reply this cid rest) as [m0|]; [|done].
           simpl. by rewrite orb_true_r.
        -- done.
        -- done.
      * eapply (waiting_intro _ _ _ _ _ _ _ _ _ _ (rest ++ [e])%list true ex);
          [simpl; apply lookup_insert_eq | exact Ht1
          | simpl; apply lookup_insert_eq | | | | | | | |].
        -- simpl. by rewrite E1.
        -- simpl. by rewrite E2, He, Edrop.
        -- eapply old_put; [exact Hf|done|done| |exact Hold].
           intros i Hi. simpl. by rewrite lookup_insert_ne.
        -- done.
        -- done.
        -- unfold wait_over. rewrite E1, E2, Hne.
           rewrite orb_false_r in Hboth.
           destruct (cancel_reply this cid rest) as [m0|]; [|done].
           simpl. by rewrite orb_true_r.
        -- intros _. rewrite E2. by rewrite orb_true_r.
        -- done.
    + apply (waiting_intro _ _ _ _ _ _ _ _ _ s (rest ++ [e])%list fin ex);
        try done; unfold wait_over in *; rewrite ?E1, ?E2, ?Hes in *; done.
Qed.

Lemma waiting_getInfo_slot this fid cid rid h1 h2 old w0 p fid' id' cat msg :
  pres (waiting this fid cid rid h1 h2 old w0) (getInfo_slot p fid' id' cat msg).
Proof.
  set (J := waiting this fid cid rid h1 h2 old w0).
  assert (forall w f, J w -> J (set_commands f w)) as Hq by done.
  assert (forall w e, J w -> J (set_log (fun l => (l ++ [e])%list) w)) as Hl
    by done.
  assert (forall q msgid, pres J (done q msgid)) as Hdone.
  { intros q msgid. apply pres_done; [done|].
    intros w q' s f Hw Hs. by eapply waiting_same. }
  unfold getInfo_slot.
  destruct (QMap.index "msgid" Invalid msg) as [id msg1].
  destruct (negb (eqQString id id')); [apply pres_ret|].
  destruct (QMap.index "hResult" Invalid msg1) as [hr msg2].
  assert (pres J (done p id' ;; f ← get_frame p fid';
                  match f with
                  | GetInfoFrame _ _ => put_frame p fid' (GetInfoFrame msg2 true)
                  | _ => fault DanglingReference
                  end)) as Hfin.
  { pres_step; [apply Hdone|]. intros w Hw. unfold post, bind.
    rewrite get_frame_cases.
    destruct (objs w !! p) as [s|] eqn:Hs; [|done].
    destruct (frames s !! fid') as [[rv ex|fin ex]|] eqn:Hf; [|done..].
    erewrite put_frame_eq; [|done]. eapply waiting_obj; [done..|].
    intros ->. simpl.
    assert (fid' <> fid) as Hne.
    { intros ->.
      destruct Hw as (s0 & rest & fin & ex0 & Hs0 & _ & Hf0 & _).
      rewrite Hs0 in Hs. injection Hs as <-. congruence. }
    split; [by apply lookup_insert_ne|]. do 5 (split; [done|]).
    intros i Hi. rewrite lookup_insert_ne; [done|]. intros ->. congruence. }
  repeat first [ apply Hfin | pres_step ].
  apply pres_modify. intros. by apply Hl.
Qed.

Lemma waiting_deliver this fid cid rid h1 h2 old w0 rd ev :
  pres (waiting this fid cid rid h1 h2 old w0) (deliver rd ev).
Proof.
  set (J := waiting this fid cid rid h1 h2 old w0).
  pose proof (waiting_trace this fid cid rid h1 h2 old w0) as Htrace.
  apply (pres_deliver J (known_waiting this)).
  - intros w p s c (s0 & rest & fin & ex & Hs0 & _ & _ & _ & _ & _ & _ & _ & _ & Hids)
      Hs Hin ->.
    rewrite Hs0 in Hs. injection Hs as <-. by apply Hids.
  - intros w p sig Hw Hsig. apply Htrace; [done|].
    unfold neutral. by destruct sig.
  - done.
  - intros w p s f Hw Hs. by eapply waiting_same.
  - intros w p s h Hw Hs. eapply waiting_same; [done..|].
    intros c. apply elem_of_drop_connection.
  - intros p msg. eapply pres_emit; [exact Htrace|]. done.
  - intros p id cmd data msg Hk Hid.
    destruct (decide (p = this)) as [->|Hne].
    + eapply waiting_executeComplete; [|done]. by apply Hk.
    + eapply pres_emit_executeComplete;
        [exact Htrace | done | apply waiting_ignores_sync_others | done].
  - intros p id msg Hk Hid.
    destruct (decide (p = this)) as [->|Hne].
    + apply waiting_cancelComplete.
    + eapply pres_emit_cancelComplete;
        [exact Htrace | done | apply waiting_ignores_sync_others | done].
  - intros. apply waiting_getInfo_slot.
  - split.
    + intros w p s f Hw Hs. by eapply waiting_same.
    + intros w p s st e Hw Hs. by eapply waiting_same.
Qed.

(** * Around a blocking call *)

Lemma reconnects_reopen : reconnects reopen.
Proof. intros k. split; [done|by right]. Qed.

Lemma reconnects_state f :
  (forall k, sock_tx (f k) = sock_tx k /\ sock_rx (f k) = sock_rx k) ->
  reconnects f.
Proof. intros Hf k. destruct (Hf k) as [-> ->]. split; [done|by left]. Qed.

Lemma pres_waitFor_ignored J this enc :
  ignores_connect J -> pres J (waitFor this enc).
Proof.
  intros (Hn & Hw & Hl & Hs). unfold waitFor. pres_step; [pres_step|]. pres_step.
  { apply pres_modify. intros. by apply Hn. }
  destruct a as [|[|e] rest];
    (pres_step; [|apply pres_ret]);
    apply pres_update_this; intros w0 s0 Hw0 Hs0;
    apply (Hs w0 this s0 _ Hw0 Hs0); by apply reconnects_state.
Qed.

Lemma pres_connectToServer_ignored J this :
  ignores_connect J -> pres J (connectToServer this).
Proof.
  intros HJ. pose proof HJ as (Hn & Hw & Hl & Hs).
  unfold connectToServer. pres_step; [pres_step|].
  destruct (io_device a) as [socket|]; [|apply pres_fault].
  pres_step.
  - repeat first
      [ by apply pres_waitFor_ignored
      | apply pres_update_this; intros w0 s0 Hw0 Hs0;
        apply (Hs w0 this s0 _ Hw0 Hs0), reconnects_reopen
      | pres_step ].
  - destruct a0; [apply pres_ret|]. pres_step; [pres_step|].
    pres_step; [pres_step|]. pres_step; [|pres_step].
    pres_step. pres_step; apply pres_modify; intros; by auto.
Qed.

Lemma new_connection_eq this w s :
  objs w !! this = Some s ->
  new_connection this w =
    Ret (next_connection s)
        (set_objs (fun h => <[this := set_next_connection S s]> h) w).
Proof.
  intros Hs. unfold new_connection.
  erewrite bind_eq; [|by apply this_obj_eq].
  by erewrite bind_eq; [|by apply update_this_eq].
Qed.

Lemma connect_message_eq this slot w s :
  objs w !! this = Some s ->
  connect_message this slot w =
    Ret (next_connection s)
        (set_objs (fun h =>
           <[this := set_on_message
                       (fun l => (l ++ [(next_connection s, slot)])%list)
                       (set_next_connection S s)]> h) w).
Proof.
  intros Hs. unfold connect_message.
  erewrite bind_eq; [|by apply new_connection_eq].
  erewrite bind_eq; [|apply update_this_eq; simpl; apply lookup_insert_eq].
  by rewrite set_objs_twice.
Qed.

Lemma connect_cancelComplete_eq this slot w s :
  objs w !! this = Some s ->
  connect_cancelComplete this slot w =
    Ret (next_connection s)
        (set_objs (fun h =>
           <[this := set_on_cancelComplete
                       (fun l => (l ++ [(next_connection s, slot)])%list)
                       (set_next_connection S s)]> h) w).
Proof.
  intros Hs. unfold connect_cancelComplete.
  erewrite bind_eq; [|by apply new_connection_eq].
  erewrite bind_eq; [|apply update_this_eq; simpl; apply lookup_insert_eq].
  by rewrite set_objs_twice.
Qed.

Lemma connect_executeComplete_eq this slot w s :
  objs w !! this = Some s ->
  connect_executeComplete this slot w =
    Ret (next_connection s)
        (set_objs (fun h =>
           <[this := set_on_executeComplete
                       (fun l => (l ++ [(next_connection s, slot)])%list)
                       (set_next_connection S s)]> h) w).
Proof.
  intros Hs. unfold connect_executeComplete.
  erewrite bind_eq; [|by apply new_connection_eq].
  erewrite bind_eq; [|apply update_this_eq; simpl; apply lookup_insert_eq].
  by rewrite set_objs_twice.
Qed.

Lemma new_frame_eq this f w s :
  objs w !! this = Some s ->
  new_frame this f w =
    Ret (next_frame s)
        (set_objs (fun h =>
           <[this := set_next_frame S
                       (set_frames (fun fs => <[next_frame s := f]> fs) s)]> h)
           w).
Proof.
  intros Hs. unfold new_frame.
  erewrite bind_eq; [|by apply this_obj_eq].
  by erewrite bind_eq; [|by apply update_this_eq].
Qed.

Lemma write_frame_eq this cmd w s :
  objs w !! this = Some s ->
  write_frame this cmd w =
    Ret tt (set_objs (fun h => <[this := written cmd s]> h) w).
Proof.
  intros Hs. unfold write_frame, written.
  erewrite bind_eq; [|by apply this_obj_eq].
  destruct (io_device s).
  - unfold update_socket. by erewrite update_this_eq.
  - by rewrite set_objs_id.
Qed.

Lemma written_fields cmd s :
  on_message (written cmd s) = on_message s /\
  on_cancelComplete (written cmd s) = on_cancelComplete s /\
  on_executeComplete (written cmd s) = on_executeComplete s /\
  frames (written cmd s) = frames s /\
  next_frame (written cmd s) = next_frame s /\
  next_connection (written cmd s) = next_connection s /\
  objectName (written cmd s) = objectName s /\
  m_pending (written cmd s) = m_pending s.
Proof. unfold written. by destruct (io_device s). Qed.

(** * The wait of [getInfo] *)

Lemma reply_ok_log name id cat rv lg e :
  reply_ok name id cat rv lg -> reply_ok name id cat rv (lg ++ [e]).
Proof.
  intros [H1 H2]. split; [done|]. intros H. apply elem_of_app. left. by apply H2.
Qed.

Lemma asking_log this fid name id cat w e :
  asking this fid name id cat w ->
  asking this fid name id cat (set_log (fun l => (l ++ [e])%list) w).
Proof.
  intros (s & rv & ex & Hs & Hn & Hf & Hr & Ho). exists s, rv, ex.
  repeat split; try done. destruct ex; [|done]. by apply reply_ok_log.
Qed.

Lemma asking_obj this fid name id cat w p s s' :
  asking this fid name id cat w -> objs w !! p = Some s ->
  (p = this ->
   objectName s' = objectName s /\ frames s' !! fid = frames s !! fid /\
   (forall c, c ∈ on_message s' -> c ∈ on_message s)) ->
  asking this fid name id cat (set_objs (fun h => <[p := s']> h) w).
Proof.
  intros (s0 & rv & ex & Hs & Hn & Hf & Hr & Ho) Hp Hsame.
  destruct (decide (p = this)) as [->|Hne].
  - destruct (Hsame eq_refl) as (En & Ef & Em).
    rewrite Hs in Hp. injection Hp as <-.
    exists s', rv, ex. simpl. rewrite lookup_insert_eq, Ef, En.
    repeat split; try done. intros c Hin. by apply Ho, Em.
  - exists s0, rv, ex. simpl. by rewrite lookup_insert_ne.
Qed.

Lemma syncCancel_c1_nomatch this h fid id msg w :
  msgid_is msg id = false ->
  syncCancel_c1 this h (SyncCancelC1 fid id) msg w = Ret tt w.
Proof.
  intros Hid. unfold syncCancel_c1.
  pose proof (index_fst "msgid" Invalid msg) as Hm.
  destruct (QMap.index "msgid" Invalid msg) as [idv msg1]. simpl in Hm.
  subst idv. unfold msgid_is in Hid. by rewrite Hid.
Qed.

Lemma syncCancel_c2_nomatch this h fid id msg w :
  msgid_is msg id = false ->
  syncCancel_c2 this h (SyncCancelC2 fid id) msg w = Ret tt w.
Proof.
  intros Hid. unfold syncCancel_c2.
  pose proof (index_fst "msgid" Invalid msg) as Hm.
  destruct (QMap.index "msgid" Invalid msg) as [idv msg1]. simpl in Hm.
  subst idv. unfold msgid_is in Hid. by rewrite Hid.
Qed.

Lemma syncCancel_c1_stops this h fid id msg w :
  msgid_is msg id = true ->
  (forall s fin ex, objs w !! this = Some s ->
     frames s !! fid <> Some (SyncCancelFrame fin ex)) ->
  exists e, syncCancel_c1 this h (SyncCancelC1 fid id) msg w = Stop e.
Proof.
  intros Hid Hno. unfold syncCancel_c1. rewrite (msgid_is_index _ _ Hid).
  unfold msgid_is in Hid. rewrite Hid. cbv beta iota delta [negb].
  unfold bind at 1. rewrite get_frame_cases.
  destruct (objs w !! this) as [s|] eqn:Hs; [|by eauto].
  destruct (frames s !! fid) as [[rv ex|fin ex]|] eqn:Hf; try by eauto.
  by destruct (Hno s fin ex).
Qed.

Lemma syncCancel_c2_stops this h fid id msg w :
  msgid_is msg id = true ->
  (forall s fin ex, objs w !! this = Some s ->
     frames s !! fid <> Some (SyncCancelFrame fin ex)) ->
  exists e, syncCancel_c2 this h (SyncCancelC2 fid id) msg w = Stop e.
Proof.
  intros Hid Hno. unfold syncCancel_c2. rewrite (msgid_is_index _ _ Hid).
  unfold msgid_is in Hid. rewrite Hid. cbv beta iota delta [negb].
  unfold bind at 1. rewrite get_frame_cases.
  destruct (objs w !! this) as [s|] eqn:Hs; [|by eauto].
  destruct (frames s !! fid) as [[rv ex|fin ex]|] eqn:Hf; try by eauto.
  by destruct (Hno s fin ex).
Qed.

Lemma pres_syncCancel_c1_frames J p h slot msg :
  keeps_sync_frames J -> pres J (syncCancel_c1 p h slot msg).
Proof.
  intros HJ w Hw. destruct slot as [fid id]. unfold post.
  destruct (msgid_is msg id) eqn:Hid.
  - destruct (objs w !! p) as [s|] eqn:Hs.
    + destruct (frames s !! fid) as [[rv ex|fin ex]|] eqn:Hf.
      * destruct (syncCancel_c1_stops p h fid id msg w Hid) as [e ->];
          [|done]. intros s' ? ? Hs'. congruence.
      * erewrite syncCancel_c1_eq; [|done..]. rewrite Hid.
        by eapply HJ.
      * destruct (syncCancel_c1_stops p h fid id msg w Hid) as [e ->];
          [|done]. intros s' ? ? Hs'. congruence.
    + destruct (syncCancel_c1_stops p h fid id msg w Hid) as [e ->];
        [|done]. intros s' ? ? Hs'. congruence.
  - by rewrite syncCancel_c1_nomatch.
Qed.

Lemma pres_syncCancel_c2_frames J p h slot msg :
  keeps_sync_frames J -> pres J (syncCancel_c2 p h slot msg).
Proof.
  intros HJ w Hw. destruct slot as [fid id]. unfold post.
  destruct (msgid_is msg id) eqn:Hid.
  - destruct (objs w !! p) as [s|] eqn:Hs.
    + destruct (frames s !! fid) as [[rv ex|fin ex]|] eqn:Hf.
      * destruct (syncCancel_c2_stops p h fid id msg w Hid) as [e ->];
          [|done]. intros s' ? ? Hs'. congruence.
      * erewrite syncCancel_c2_eq; [|done..]. rewrite Hid.
        by eapply HJ.
      * destruct (syncCancel_c2_stops p h fid id msg w Hid) as [e ->];
          [|done]. intros s' ? ? Hs'. congruence.
    + destruct (syncCancel_c2_stops p h fid id msg w Hid) as [e ->];
        [|done]. intros s' ? ? Hs'. congruence.
  - by rewrite syncCancel_c2_nomatch.
Qed.

Lemma asking_keeps_sync_frames this fid name id cat :
  keeps_sync_frames (asking this fid name id cat).
Proof.
  intros w p s fid' fin ex F fc fe Hw Hs Hf.
  assert (p = this -> fid' <> fid) as Hne.
  { intros -> ->. destruct Hw as (s0 & rv & ex0 & Hs0 & _ & Hf0 & _).
    rewrite Hs0 in Hs. injection Hs as <-. congruence. }
  split; (eapply asking_obj; [done..|]); intros E; simpl;
    (split; [done|split; [|done]]); apply lookup_insert_ne; by apply Hne.
Qed.

Lemma asking_completions this fid name id cat p msg :
  pres (asking this fid name id cat) (emit_cancelComplete p msg) /\
  pres (asking this fid name id cat) (emit_executeComplete p msg).
Proof.
  set (J := asking this fid name id cat).
  assert (ignores_signals J any_signal) as Ht by by intros w e Hw _.
  pose proof (asking_keeps_sync_frames this fid name id cat) as Hk.
  split.
  - unfold emit_cancelComplete.
    pres_step; [by eapply pres_emit|]. pres_step; [pres_step|].
    pres_step. pres_step; [pres_step|]. pres_step.
    by apply pres_syncCancel_c1_frames.
  - unfold emit_executeComplete.
    pres_step; [by eapply pres_emit|]. pres_step; [pres_step|].
    pres_step. pres_step; [pres_step|]. pres_step.
    by apply pres_syncCancel_c2_frames.
Qed.

Lemma hResult_of_with_hResult msg :
  hResult_of (with_hResult msg) = hResult_of msg.
Proof.
  unfold hResult_of, with_hResult. by rewrite value_index_snd, String.eqb_refl.
Qed.

Lemma asking_getInfo_slot this fid name id cat p fid' id' cat' msg :
  known_asking this fid id cat p (GetInfoSlot fid' id' cat') ->
  pres (asking this fid name id cat) (getInfo_slot p fid' id' cat' msg).
Proof.
  intros Hknown.
  set (J := asking this fid name id cat).
  assert (forall w f, J w -> J (set_commands f w)) as Hq by done.
  assert (forall J', (forall w f, J' w -> J' (set_commands f w)) ->
            (forall w q s f, J' w -> objs w !! q = Some s ->
               J' (set_objs (fun h => <[q := set_m_pending f s]> h) w)) ->
            pres J' (done p id')) as Hdone.
  { intros J' H1 H2. by apply pres_done. }
  assert (forall w q s f, J w -> objs w !! q = Some s ->
            J (set_objs (fun h => <[q := set_m_pending f s]> h) w)) as Hpend.
  { intros w q s f Hw Hs. eapply asking_obj; [done..|]. by intros _. }
  unfold getInfo_slot.
  destruct (msgid_is msg id') eqn:Hid.
  2:{ pose proof (index_fst "msgid" Invalid msg) as Hm.
      destruct (QMap.index "msgid" Invalid msg) as [idv msg1]. simpl in Hm.
      subst idv. unfold msgid_is in Hid. rewrite Hid. apply pres_ret. }
  rewrite (msgid_is_index _ _ Hid). pose proof Hid as Hid'.
  unfold msgid_is in Hid'. rewrite Hid'. cbv beta iota delta [negb].
  pose proof (index_fst "hResult" Invalid msg) as Hh.
  pose proof (hResult_of_with_hResult msg) as Hh2.
  destruct (msgid_is_with_hResult msg id' Hid) as [_ Hid2].
  unfold with_hResult in Hh2.
  destruct (QMap.index "hResult" Invalid msg) as [hr msg2]. simpl in *.
  fold (hResult_of msg) in Hh. subst hr.
  (* the tail shared by the two branches *)
  set (logged := fun w : World =>
         String.eqb (toString (hResult_of msg)) "WFS_SUCCESS" = false ->
         forall s, objs w !! p = Some s ->
         Warning [objectName s; " - "; cat'; " command failed with ";
                  toString (hResult_of msg)] ∈ log w).
  assert (forall w, J w -> logged w ->
    post (done p id' ;; f ← get_frame p fid';
          match f with
          | GetInfoFrame _ _ => put_frame p fid' (GetInfoFrame msg2 true)
          | _ => fault DanglingReference
          end) (fun _ => J) J w) as Hfin.
  { intros w Hw Hlog.
    assert (pres (fun w => J w /\ logged w) (done p id')) as Hd.
    { apply Hdone.
      - intros w' f [? ?]. split; [by apply Hq|done].
      - intros w' q s f [? Hl'] Hs. split; [by apply Hpend|].
        intros Hfail s' Hs'. simpl in *.
        destruct (decide (q = p)) as [->|Hne].
        + rewrite lookup_insert_eq in Hs'. injection Hs' as <-.
          by apply (Hl' Hfail s).
        + rewrite lookup_insert_ne in Hs' by done. by apply Hl'. }
    apply post_bind. eapply post_mono; [by apply Hd | | by intros ? [? ?]].
    intros [] w1 [Hw1 Hlog1]. unfold post, bind. rewrite get_frame_cases.
    destruct (objs w1 !! p) as [s|] eqn:Hs; [|done].
    destruct (frames s !! fid') as [[rv ex|fin ex]|] eqn:Hf; [|done..].
    erewrite put_frame_eq; [|done].
    destruct (decide (p = this /\ fid' = fid)) as [[-> ->]|Hne].
    - destruct (Hknown eq_refl eq_refl) as [-> ->].
      destruct Hw1 as (s0 & rv0 & ex0 & Hs0 & Hn0 & Hf0 & Hr0 & Ho0).
      rewrite Hs0 in Hs. injection Hs as <-.
      eexists _, msg2, true. simpl. rewrite lookup_insert_eq.
      split; [reflexivity|]. simpl. rewrite lookup_insert_eq.
      repeat split; try done.
      rewrite Hh2. intros Hfail. rewrite <- Hn0. by apply Hlog1.
    - eapply asking_obj; [done..|]. intros ->. simpl.
      repeat split; try done. apply lookup_insert_ne. intros ->. by apply Hne. }
  destruct (String.eqb (toString (hResult_of msg)) "WFS_SUCCESS") eqn:Hres.
  - intros w Hw. apply post_bind.
    eapply post_mono; [by apply (pres_Q_ASSERT J) | | done].
    intros [] w1 Hw1. cbv beta in *.
    destruct (QMap.contains "message" msg2); [|by apply post_ret].
    apply Hfin; [done|]. by intros ?.
  - intros w Hw. apply post_bind, post_this_obj. intros s Hs.
    apply post_bind, post_modify. apply Hfin.
    + by apply asking_log.
    + intros _ s' Hs'. simpl in *. rewrite Hs in Hs'. injection Hs' as <-.
      apply elem_of_app. right. by apply list_elem_of_singleton.
Qed.

Lemma asking_deliver this fid name id cat rd ev :
  pres (asking this fid name id cat) (deliver rd ev).
Proof.
  set (J := asking this fid name id cat).
  apply (pres_deliver J (known_asking this fid id cat)).
  - intros w p s c (s0 & rv & ex & Hs0 & _ & _ & _ & Ho) Hs Hin ->.
    rewrite Hs0 in Hs. injection Hs as <-. specialize (Ho c Hin).
    by destruct (snd c).
  - done.
  - done.
  - intros w p s f Hw Hs. eapply asking_obj; [done..|]. by intros _.
  - intros w p s h Hw Hs. eapply asking_obj; [done..|]. intros _. simpl.
    repeat split; try done. intros c. apply elem_of_drop_connection.
  - intros p msg. by apply pres_modify.
  - intros. apply asking_completions.
  - intros. apply asking_completions.
  - intros. by apply asking_getInfo_slot.
  - split.
    + intros w p s f Hw Hs. eapply asking_obj; [done..|]. by intros _.
    + intros w p s st e Hw Hs. eapply asking_obj; [done..|]. by intros _.
Qed.

(** * What [getInfo] returns *)

Lemma querying_obj this name X C w p s s' :
  querying this name X C w -> objs w !! p = Some s ->
  (p = this -> objectName s' = objectName s /\
     (sock_tx <$> io_device s') = (sock_tx <$> io_device s)) ->
  querying this name X C (set_objs (fun h => <[p := s']> h) w).
Proof.
  intros [(s0 & k & Hs & Hn & Hk & Hx) Hc] Hp Hsame. split; [|done].
  destruct (decide (p = this)) as [->|Hne].
  - destruct (Hsame eq_refl) as [En Eio].
    rewrite Hs in Hp. injection Hp as <-. rewrite Hk in Eio. simpl in Eio.
    destruct (io_device s') as [k'|] eqn:Hk'; [|done].
    exists s', k'. simpl. rewrite lookup_insert_eq. simpl in Eio.
    repeat split; congruence.
  - exists s0, k. simpl. by rewrite lookup_insert_ne.
Qed.

Lemma io_device_socket_update s f :
  io_device (set_m_socket (option_map f) s) = option_map f (io_device s).
Proof. unfold io_device. simpl. by destruct (m_io s). Qed.

Lemma querying_ignores_slots this name X C :
  ignores_slots (querying this name X C) any_signal.
Proof.
  split; [|split; [split; [|split]|split; [|split; [|split]]]].
  - by intros w e [? ?] _.
  - intros. eapply querying_obj; [done..|]. intros _. by destruct s.
  - intros. eapply querying_obj; [done..|]. intros _. by destruct s.
  - intros. eapply querying_obj; [done..|]. intros _. by destruct s.
  - by intros w e [? ?].
  - by intros w f [? ?].
  - intros. eapply querying_obj; [done..|]. intros _. by destruct s.
  - intros. eapply querying_obj; [done..|]. intros _. by destruct s.
Qed.

Lemma querying_ignores_socket this name X C :
  ignores_socket (querying this name X C).
Proof.
  split; intros; (eapply querying_obj; [done..|]); intros _;
    (split; [done|]); rewrite io_device_socket_update;
    by destruct (io_device s).
Qed.

Lemma querying_ignores_connect this name X C :
  ignores_connect (querying this name X C).
Proof.
  split; [|split; [|split]]; try (by intros w f [? ?]).
  intros w p s f Hw Hs Hf. eapply querying_obj; [done..|]. intros _.
  split; [done|]. rewrite io_device_socket_update.
  destruct (io_device s); [|done]. simpl. f_equal. apply Hf.
Qed.

Lemma pres_and {A} (J1 J2 : World -> Prop) (c : M A) :
  pres J1 c -> pres J2 c -> pres (fun w => J1 w /\ J2 w) c.
Proof.
  intros H1 H2 w [Hw1 Hw2]. specialize (H1 w Hw1). specialize (H2 w Hw2).
  unfold post in *. by destruct (c w).
Qed.

Lemma connectToServer_cases this w :
  (exists s k, objs w !! this = Some s /\ io_device s = Some k) \/
  (exists e, connectToServer this w = Stop e).
Proof.
  unfold connectToServer, bind, this_obj, fault.
  destruct (objs w !! this) as [s|]; [|right; eexists; reflexivity].
  destruct (io_device s) as [k|] eqn:Hk; [left; by eauto|].
  right; eexists; reflexivity.
Qed.

Lemma getInfo_free_own fid id cat l :
  getInfo_free l -> own_getInfo_slots fid id cat l.
Proof.
  intros H c Hc. specialize (H c Hc). by destruct (snd c).
Qed.

Lemma idle_ignores_connect this name : ignores_connect (idle this name).
Proof.
  repeat split; try done.
  intros w p s f (s0 & Hs0 & Hn & Hg) Hs Hf.
  destruct (decide (p = this)) as [->|Hne].
  - rewrite Hs0 in Hs. injection Hs as <-.
    eexists. simpl. rewrite lookup_insert_eq. done.
  - exists s0. simpl. by rewrite lookup_insert_ne.
Qed.

Lemma tx_of_querying this name X C w :
  querying this name X C w -> tx_of this w = X.
Proof.
  intros [(s & k & Hs & _ & Hk & Hx) _]. unfold tx_of, obj_field.
  by rewrite Hs, Hk.
Qed.

Lemma getInfo_post rd this category queryDetails w s :
  objs w !! this = Some s -> getInfo_free (on_message s) ->
  post (getInfo rd this category queryDetails)
       (getInfo_result this category w (objectName s)) (fun _ => True) w.
Proof.
  intros Hs Hfree. set (name := objectName s).
  destruct (connectToServer_cases this w) as [(s0 & k & Hs0 & Hk)|[e He]].
  2:{ unfold post, getInfo, send, bind. by rewrite He. }
  rewrite Hs in Hs0. injection Hs0 as <-.
  set (X := sock_tx k). set (C := m_capabilities w).
  assert (querying this name X C w) as Hq by (split; [by exists s, k|done]).
  assert (tx_of this w = X) as Htx by by eapply tx_of_querying.
  assert (idle this name w) as Hidle by by exists s.
  destruct (connectToServer this w) as [ok w1| |] eqn:Hconn;
    [|by unfold post, getInfo, send, bind; rewrite Hconn..].
  assert (querying this name X C w1 /\ idle this name w1) as [Hq1 Hidle1].
  { split.
    - eapply (post_Ret _ (fun _ => querying this name X C)
                (querying this name X C)); [|exact Hconn].
      by apply pres_connectToServer_ignored; [apply querying_ignores_connect|].
    - eapply (post_Ret _ (fun _ => idle this name) (idle this name));
        [|exact Hconn].
      by apply pres_connectToServer_ignored; [apply idle_ignores_connect|]. }
  unfold getInfo. apply post_bind. unfold send.
  eapply post_bind_eq; [exact Hconn|].
  destruct ok; simpl negb; cbv iota.
  2:{ apply post_ret. simpl. apply post_ret.
      destruct Hq1 as [(s1 & k1 & Hs1 & Hn1 & Hk1 & Hx1) Hc1].
      split; [by eauto|]. split; [done|]. left.
      split; [done|]. split; [|by eauto].
      rewrite Htx. unfold tx_of, obj_field. by rewrite Hs1, Hk1. }
  destruct Hq1 as [(s1 & k1 & Hs1 & Hn1 & Hk1 & Hx1) Hc1].
  destruct Hidle1 as (s1' & Hs1' & _ & Hfree1).
  rewrite Hs1 in Hs1'. injection Hs1' as <-.
  eapply post_bind_eq; [reflexivity|].
  set (id := uuid_string (uuid_seed w1)). set (w2 := set_uuid_seed S w1).
  eapply post_bind_eq; [by apply (write_frame_eq _ _ w2 s1)|].
  eapply post_bind_eq; [apply update_this_eq; simpl; apply lookup_insert_eq|].
  rewrite set_objs_twice. apply post_ret. cbv beta.
  change (isEmptyString id) with false. cbv iota.
  match goal with |- context [written ?c s1] => set (query := c) end.
  set (s2 := set_m_pending (QMap.insert id category) (written query s1)).
  eapply post_bind_eq; [apply new_frame_eq; simpl; apply lookup_insert_eq|].
  rewrite set_objs_twice.
  eapply post_bind_eq;
    [apply connect_message_eq; simpl; apply lookup_insert_eq|].
  rewrite set_objs_twice.
  destruct (written_fields query s1) as (Em & Ec & Ee & Ef & Enf & Enc & En & Ep).
  set (fid := next_frame s2).
  match goal with |- post _ _ _ (set_objs (fun h => <[this := ?x]> h) _) =>
    set (s3 := x) end.
  set (w3 := set_objs _ w2).
  set (c := next_connection
              (set_next_frame S
                 (set_frames (fun fs => <[fid := GetInfoFrame [] false]> fs) s2))).
  assert (io_device s3 = Some (set_sock_tx (fun t => (t ++ [query])%list) k1))
    as Hk3.
  { subst s3 s2. simpl. unfold written. rewrite Hk1.
    unfold io_device in *. simpl. destruct (m_io s1); [done|].
    by rewrite Hk1. }
  set (J := fun w => asking this fid name id category w /\
                     querying this name (X ++ [query])%list C w).
  assert (J w3) as HJ3.
  { split.
    - exists s3, [], false. subst w3 s3. simpl. rewrite lookup_insert_eq.
      split; [done|]. simpl. rewrite lookup_insert_eq.
      split; [by rewrite En|]. split; [done|]. split; [done|].
      rewrite Em. intros c0 Hin. apply elem_of_app in Hin as [Hin|Hin].
      + by apply (getInfo_free_own fid id category _ Hfree1).
      + apply list_elem_of_singleton in Hin. by subst c0.
    - split; [|done]. eexists s3, _. subst w3. simpl.
      rewrite lookup_insert_eq. split; [done|]. split; [|split; [exact Hk3|]].
      + subst s3 s2. simpl. by rewrite En.
      + simpl. by rewrite Hx1. }
  apply post_bind. unfold QEventLoop_exec. eapply post_bind_eq; [reflexivity|].
  eapply post_mono; [|  | done].
  { apply (loop_exec_post J rd this fid); [| |exact HJ3].
    - intros ev. apply pres_and; [apply asking_deliver|].
      apply pres_deliver_ignored;
        [apply querying_ignores_slots | apply querying_ignores_socket].
    - intros w' f [Ha [Hb Hc']]. split; [|split]; done. }
  intros [] w4 [[Hask Hquery] Hflag]. cbv beta.
  destruct Hask as (s4 & rv & ex & Hs4 & Hn4 & Hf4 & Hrv & _).
  unfold exit_flag in Hflag. rewrite Hs4, Hf4 in Hflag. simpl in Hflag.
  injection Hflag as ->.
  eapply post_bind_eq; [by apply update_this_eq|].
  eapply post_bind_eq;
    [eapply get_frame_eq; [simpl; apply lookup_insert_eq|exact Hf4]|].
  eapply post_bind_eq; [unfold drop_frame; apply update_this_eq; simpl;
                        apply lookup_insert_eq|].
  rewrite set_objs_twice. apply post_ret.
  destruct Hquery as [(s4' & k4 & Hs4' & _ & Hk4 & Hx4) Hc4].
  rewrite Hs4 in Hs4'. injection Hs4' as <-.
  split; [|split].
  - eexists. simpl. rewrite lookup_insert_eq. split; [done|]. done.
  - done.
  - right. exists w1, query. split; [done|]. split; [|split; [|split]].
    + rewrite Htx. unfold tx_of, obj_field. simpl. rewrite lookup_insert_eq.
      unfold io_device in *. simpl. by rewrite Hk4.
    + subst query. reflexivity.
    + subst query. reflexivity.
    + done.
Qed.
(** * [syncCancel] up to its wait *)

Lemma connectToServer_tx this w b w1 :
  connectToServer this w = Ret b w1 ->
  tx_of this w1 = tx_of this w /\
  exists s1 k1, objs w1 !! this = Some s1 /\ io_device s1 = Some k1.
Proof.
  intros Hc.
  destruct (connectToServer_cases this w) as [(s & k & Hs & Hk)|[e He]];
    [|congruence].
  assert (querying this (objectName s) (sock_tx k) (m_capabilities w) w) as Hq.
  { split; [by exists s, k|done]. }
  assert (querying this (objectName s) (sock_tx k) (m_capabilities w) w1)
    as Hq1.
  { eapply (post_Ret _ (fun _ => querying this _ _ _) (querying this _ _ _));
      [|exact Hc].
    by apply pres_connectToServer_ignored; [apply querying_ignores_connect|]. }
  rewrite (tx_of_querying _ _ _ _ _ Hq), (tx_of_querying _ _ _ _ _ Hq1).
  split; [done|]. destruct Hq1 as [(s1 & k1 & Hs1 & _ & Hk1 & _) _]. by eauto.
Qed.

Lemma cancel_eq this reqMsgId w w1 s1 :
  connectToServer this w = Ret true w1 -> objs w1 !! this = Some s1 ->
  let id := uuid_string (uuid_seed w1) in
  cancel this reqMsgId w =
    Ret id (set_objs (fun h =>
              <[this := written (cancel_frame id reqMsgId)
                          (set_m_pending (QMap.insert id "")
                             (set_on_message
                                (fun l => (l ++ [(next_connection s1,
                                                  CancelSlot id)])%list)
                                (set_next_connection S s1)))]> h)
              (set_uuid_seed S w1)).
Proof.
  intros Hc Hs1 id. unfold cancel. erewrite bind_eq; [|exact Hc].
  cbv beta iota delta [negb]. erewrite bind_eq; [|reflexivity]. cbv beta.
  erewrite bind_eq; [|by apply (connect_message_eq _ _ (set_uuid_seed S w1) s1)].
  erewrite bind_eq; [|apply update_this_eq; simpl; apply lookup_insert_eq].
  rewrite set_objs_twice.
  erewrite bind_eq; [|apply write_frame_eq; simpl; apply lookup_insert_eq].
  by rewrite set_objs_twice.
Qed.

Lemma tx_of_written this cmd s w :
  is_Some (io_device s) ->
  forall s', io_device s' = io_device (written cmd s) ->
  tx_of this (set_objs (fun h => <[this := s']> h) w) =
  (obj_field (fun s => match io_device s with
                       | Some k => sock_tx k
                       | None => []
                       end) [] this
     (set_objs (fun h => <[this := s]> h) w) ++ [cmd])%list.
Proof.
  intros [k Hk] s' E. unfold tx_of, obj_field. simpl.
  rewrite !lookup_insert_eq, E. unfold written. rewrite Hk.
  unfold io_device in *. simpl. destruct (m_io s); [done|].
  rewrite Hk. done.
Qed.

Lemma at_rest_ignores_connect this old w0 :
  ignores_connect (at_rest this old w0).
Proof.
  repeat split; try done.
  intros w p s f (s0 & Hs0 & Hc & He & Hold & Hi & Ht) Hs Hf.
  destruct (decide (p = this)) as [->|Hne].
  - rewrite Hs0 in Hs. injection Hs as <-.
    eexists. simpl. rewrite lookup_insert_eq. done.
  - exists s0. simpl. by rewrite lookup_insert_ne.
Qed.

Lemma post_run_eq {A} (c c' : M A) Q B w w' :
  c w = c' w' -> post c' Q B w' -> post c Q B w.
Proof. unfold post. by intros ->. Qed.

Lemma pres_true {A} (c : M A) : pres (fun _ => True) c.
Proof. intros w _. unfold post. by destruct (c w). Qed.

(** [syncCancel] with the connection there, on a proxy that has no lambda
    on [cancelComplete] and only stale ones on [executeComplete]: it sends
    the cancel request, allocates its locals, connects its two lambdas and
    enters the event loop. *)
Lemma syncCancel_start rd this reqMsgId w w1 s :
  objs w !! this = Some s -> sync_settled s ->
  execute_ids_set (on_message s) ->
  connectToServer this w = Ret true w1 ->
  let cid := uuid_string (uuid_seed w1) in
  exists fid h1 h2 w3,
    syncCancel rd this reqMsgId w =
      (QEventLoop_exec rd this fid ;; drop_frame this fid ;; ret true) w3 /\
    waiting this fid cid reqMsgId h1 h2 (on_executeComplete s) w w3 /\
    tx_of this w3 = (tx_of this w ++ [cancel_frame cid reqMsgId])%list /\
    (forall p, p <> this -> objs w3 !! p = objs w1 !! p).
Proof.
  intros Hs [Hc0 Hst0] Hids Hconn cid.
  set (old := on_executeComplete s).
  assert (at_rest this old w w1) as (s1 & Hs1 & Hc1 & He1 & Hold1 & Hids1 & Ht1).
  { eapply (post_Ret _ (fun _ => at_rest this old w) (at_rest this old w));
      [|exact Hconn].
    apply pres_connectToServer_ignored; [apply at_rest_ignores_connect|].
    by exists s. }
  destruct (connectToServer_tx this w true w1 Hconn)
    as (Htx & s1' & k1 & Hs1' & Hk1).
  rewrite Hs1 in Hs1'. injection Hs1' as <-.
  unfold syncCancel.
  erewrite bind_eq; [|by apply (cancel_eq this reqMsgId w w1 s1)].
  cbv zeta. fold cid. change (isEmptyString cid) with false. cbv iota.
  set (cmd := cancel_frame cid reqMsgId).
  match goal with |- context [written cmd ?x] => set (s2 := x) end.
  set (w2 := set_uuid_seed S w1).
  destruct (written_fields cmd s2) as (Em & Ec & Ee & Ef & Enf & Enc & _ & _).
  erewrite bind_eq; [|apply new_frame_eq; simpl; apply lookup_insert_eq].
  rewrite set_objs_twice.
  erewrite bind_eq;
    [|apply connect_cancelComplete_eq; simpl; apply lookup_insert_eq].
  rewrite set_objs_twice.
  erewrite bind_eq;
    [|apply connect_executeComplete_eq; simpl; apply lookup_insert_eq].
  rewrite set_objs_twice.
  set (fid := next_frame (written cmd s2)).
  match goal with |- context [set_objs (fun h => <[this := ?x]> h) w2] =>
    set (s3 := x) end.
  set (w3 := set_objs _ w2).
  set (h1 := next_connection (written cmd s2)).
  exists fid, h1, (S h1), w3. split; [reflexivity|].
  assert (next_connection s1 < h1) as Hh1
    by (subst h1; rewrite Enc; subst s2; simpl; lia).
  assert (fid = next_frame s1) as Hfid by (subst fid; by rewrite Enf).
  split; [|split].
  - apply (waiting_intro _ _ _ _ _ _ _ _ _ s3 []
             (isEmptyString reqMsgId) false).
    + subst w3. simpl. apply lookup_insert_eq.
    + subst w3 w2. simpl. by rewrite app_nil_r.
    + subst s3. simpl. apply lookup_insert_eq.
    + subst s3. simpl. rewrite Ec. subst s2. simpl. by rewrite Hc1.
    + subst s3. simpl. rewrite Ee. subst s2. simpl. by rewrite He1.
    + eapply Forall_impl; [exact Hold1|]. intros c [Hh Hd].
      split; [|lia]. split; [subst s3; simpl; lia|].
      destruct (snd c) as [i rid]. destruct Hd as [Hd Hi].
      subst s3. simpl. rewrite Enf, Ef. subst s2. simpl.
      split; [|lia]. rewrite lookup_insert_ne; [done|].
      fold fid. lia.
    + subst s3. simpl. lia.
    + subst s3. simpl. lia.
    + done.
    + intros _. simpl. by rewrite !orb_false_r.
    + subst s3. simpl. rewrite Em. subst s2. simpl.
      intros c Hin. apply elem_of_app in Hin as [Hin|Hin].
      * by apply Hids1.
      * apply list_elem_of_singleton in Hin. by subst c.
  - rewrite <- Htx. subst w3.
    rewrite (tx_of_written this cmd s2 w2); [| |done].
    + unfold tx_of, obj_field. simpl. rewrite lookup_insert_eq, Hs1.
      subst s2. unfold io_device in *. simpl. by destruct (m_io s1).
    + subst s2. unfold io_device in *. simpl.
      destruct (m_io s1); [done|]. by eexists.
  - intros p Hp. subst w3 w2. simpl. by rewrite lookup_insert_ne.
Qed.





(** * The result of [syncCancel] *)

Lemma post_bind_any {A C} (c : M A) (k : A -> M C) (Q : C -> World -> Prop) w :
  (forall a w1, post (k a) Q (fun _ => True) w1) ->
  post (bind c k) Q (fun _ => True) w.
Proof. intros H. unfold post, bind. destruct (c w); [apply H|done..]. Qed.

Lemma isEmptyString_uuid n : isEmptyString (uuid_string n) = false.
Proof. done. Qed.

Lemma cancel_sent this reqMsgId w :
  (forall w1, connectToServer this w = Ret false w1 ->
     cancel this reqMsgId w = Ret "" w1) /\
  (forall w1, connectToServer this w = Ret true w1 ->
     post (cancel this reqMsgId)
          (fun id _ => id = uuid_string (uuid_seed w1)) (fun _ => True) w).
Proof.
  split; intros w1 Hc; unfold cancel.
  - by erewrite bind_eq; [|exact Hc].
  - eapply post_bind_eq; [exact Hc|]. simpl negb. cbv iota.
    eapply post_bind_eq; [reflexivity|].
    do 3 (apply post_bind_any; intros).
    by apply post_ret.
Qed.



(** The lambda of [getInfo] on a failure reply to its query. *)
Lemma getInfo_slot_failure this fid id cat msg w s rv0 ex0 :
  objs w !! this = Some s ->
  frames s !! fid = Some (GetInfoFrame rv0 ex0) ->
  msgid_is msg id = true ->
  String.eqb (toString (hResult_of msg)) "WFS_SUCCESS" = false ->
  getInfo_slot this fid id cat msg w =
    Ret tt
      (set_objs (fun h =>
         <[this := set_frames
                     (fun fs => <[fid := GetInfoFrame (with_hResult msg) true]> fs)
                     (set_m_pending (QMap.remove id) s)]> h)
         (set_commands (fun _ => finish_queue (objectName s) (commands w))
            (set_log (fun l =>
               (l ++ [Warning [objectName s; " - "; cat;
                               " command failed with ";
                               toString (hResult_of msg)]])%list) w))).
Proof.
  intros Hs Hf Hid Hfail. unfold getInfo_slot.
  rewrite (msgid_is_index _ _ Hid). pose proof Hid as Hid'.
  unfold msgid_is in Hid'. rewrite Hid'. cbv beta iota delta [negb].
  pose proof (index_fst "hResult" Invalid msg) as Hh.
  unfold with_hResult.
  destruct (QMap.index "hResult" Invalid msg) as [hr msg2]. simpl in Hh.
  fold (hResult_of msg) in Hh. subst hr. rewrite Hfail.
  erewrite bind_eq; [|by apply this_obj_eq].
  erewrite bind_eq; [|reflexivity].
  erewrite bind_eq; [|by apply done_eq].
  erewrite bind_eq;
    [|eapply get_frame_eq; [simpl; apply lookup_insert_eq|exact Hf]].
  cbv beta iota. erewrite put_frame_eq; [|simpl; apply lookup_insert_eq].
  by rewrite set_objs_twice.
Qed.


(** * The capability cache *)

Lemma bind_Ret_inv {A C} (c : M A) (k : A -> M C) w b w' :
  bind c k w = Ret b w' ->
  exists a w1, c w = Ret a w1 /\ k a w1 = Ret b w'.
Proof. unfold bind. destruct (c w) as [a w1| |]; [by eauto|done..]. Qed.

Lemma capabilities_of_eq this w s :
  objs w !! this = Some s ->
  capabilities_of this w =
    Ret (fst (QMap.index (objectName s) [] (m_capabilities w)))
        (set_m_capabilities
           (fun _ => snd (QMap.index (objectName s) [] (m_capabilities w))) w).
Proof.
  intros Hs. unfold capabilities_of.
  erewrite bind_eq; [|by apply this_obj_eq].
  erewrite bind_eq; [|reflexivity].
  by destruct (QMap.index (objectName s) [] (m_capabilities w)).
Qed.

Lemma set_m_capabilities_id w :
  set_m_capabilities (fun _ => m_capabilities w) w = w.
Proof. by destruct w. Qed.

Lemma capabilities_of_cached this w s caps :
  objs w !! this = Some s ->
  QMap.find (objectName s) (m_capabilities w) = Some caps ->
  capabilities_of this w = Ret caps w.
Proof.
  intros Hs Hc. rewrite (capabilities_of_eq _ _ _ Hs).
  rewrite (index_present _ _ _ _ Hc). simpl.
  by rewrite set_m_capabilities_id.
Qed.

(** C6. On a proxy on which no [getInfo] is under way and whose device
    identity has no entry in the capability cache, a first [capabilities]
    that returns a snapshot that is not empty has written exactly one frame
    to the backend, the [WFSGetInfo] query for the capability category, and
    has stored the snapshot under the device identity; a second
    [capabilities], on that proxy or on any proxy of the same device
    identity, returns the stored snapshot and leaves the world as it is, so
    it writes no further query. *)
Theorem capabilities_cached (rd : list byte -> ReadStatus) (this : nat)
    (w w1 : World) (s : QXfsSocketStream) (caps : QVariantMap) :
  objs w !! this = Some s ->
  getInfo_free (on_message s) ->
  QMap.find (objectName s) (m_capabilities w) = None ->
  capabilities rd this w = Ret caps w1 ->
  caps <> [] ->
  (exists query,
     tx_of this w1 = (tx_of this w ++ [query])%list /\
     QMap.find "function" query = Some (VString "WFSGetInfo") /\
     QMap.find "dwCommand" query =
       Some (VString (m_capabilitiesCategory s))) /\
  QMap.find (objectName s) (m_capabilities w1) = Some caps /\
  (forall that s2,
     objs w1 !! that = Some s2 -> objectName s2 = objectName s ->
     capabilities rd that w1 = Ret caps w1).
Proof.
  intros Hs Hfree Hnone Hrun Hcaps.
  unfold capabilities in Hrun.
  erewrite bind_eq in Hrun; [|by apply capabilities_of_eq].
  rewrite (index_absent _ _ _ Hnone) in Hrun. simpl in Hrun.
  set (cache := QMap.insert (objectName s) [] (m_capabilities w)) in *.
  set (wa := set_m_capabilities (fun _ => cache) w) in *.
  apply bind_Ret_inv in Hrun as ([] & wb & Hget & Hrun).
  unfold getCapabilities in Hget.
  erewrite bind_eq in Hget; [|by apply (this_obj_eq _ wa s)].
  apply bind_Ret_inv in Hget as (data & wc & Hinfo & Hstore).
  pose proof (getInfo_post rd this (m_capabilitiesCategory s) Invalid wa s
                Hs Hfree) as Hpost.
  apply (post_Ret _ _ _ _ _ _ Hpost) in Hinfo.
  destruct Hinfo as ((sc & Hsc & Hnc) & Hcc & Hsent).
  assert (QMap.find (objectName s) (m_capabilities wc) = Some []) as Hfc.
  { rewrite Hcc. subst wa cache. simpl. apply find_insert_eq. }
  assert (objs wb !! this = Some sc /\
          (QMap.contains "lpBuffer" data = false ->
           m_capabilities wb = m_capabilities wc) /\
          (QMap.contains "lpBuffer" data = true ->
           m_capabilities wb =
             QMap.insert (objectName s)
               (toMap (QMap.value "lpBuffer" Invalid data))
               (m_capabilities wc)) /\
          tx_of this wb = tx_of this wc) as (Hsb & Hb0 & Hb1 & Htb).
  { unfold modify, ret in Hstore.
    destruct (QMap.contains "lpBuffer" data); injection Hstore as <-;
      repeat split; done. }
  destruct (QMap.contains "lpBuffer" data) eqn:Hlp.
  2:{ rewrite (capabilities_of_cached this wb sc [] Hsb) in Hrun.
      - injection Hrun as <- _. by destruct Hcaps.
      - rewrite Hnc, Hb0; done. }
  assert (QMap.find (objectName s) (m_capabilities wb) =
          Some (toMap (QMap.value "lpBuffer" Invalid data))) as Hfb.
  { rewrite Hb1 by done. apply find_insert_eq. }
  rewrite (capabilities_of_cached this wb sc _ Hsb) in Hrun
    by (by rewrite Hnc).
  injection Hrun as <- <-.
  destruct Hsent as [(-> & _)|(w' & query & _ & Htx & Hfn & Hcmd & _)];
    [done|].
  split; [|split; [done|]].
  - exists query. by rewrite Htb, Htx.
  - intros that s2 Hs2 Hn2. unfold capabilities.
    erewrite bind_eq;
      [|apply (capabilities_of_cached that wb s2); [done|by rewrite Hn2]].
    destruct (toMap (QMap.value "lpBuffer" Invalid data)) eqn:E; [done|].
    simpl. erewrite bind_eq; [|reflexivity].
    apply (capabilities_of_cached that wb s2); [done|by rewrite Hn2].
Qed.

(** * Loss of the connection *)

Lemma outcomes_app t1 t2 : outcomes (t1 ++ t2) = (outcomes t1 ++ outcomes t2)%list.
Proof. apply List.filter_app. Qed.

Lemma outcomes_broadcast w name msg cmd data :
  outcomes (broadcast_signals w name msg cmd data) = [].
Proof.
  unfold broadcast_signals. induction (listeners w name); [done|]. by simpl.
Qed.

Lemma sync_live_fields s s' :
  frames s' = frames s -> on_cancelComplete s' = on_cancelComplete s ->
  on_executeComplete s' = on_executeComplete s ->
  sync_live s -> sync_live s'.
Proof. unfold sync_live. by intros -> -> ->. Qed.

Lemma with_hResult_present msg v :
  QMap.find "hResult" msg = Some v -> with_hResult msg = msg.
Proof. intros H. unfold with_hResult. by rewrite (index_present _ _ _ _ H). Qed.

Lemma eqQString_toString v x :
  eqQString v x = false -> x <> "" -> String.eqb (toString v) x = false.
Proof.
  destruct v; simpl; intros H1 H2; first [done | by destruct x].
Qed.

Section LostStep.
Variables (this h : nat) (id : string) (msg : QVariantMap).
Variables (w : World) (s : QXfsSocketStream).
Hypothesis Hs : objs w !! this = Some s.
Hypothesis Hreg : registry_live w.
Hypothesis Hlive : sync_live s.
Hypothesis Hid : msgid_is msg id = true.
Hypothesis Hfail : eqQString (hResult_of msg) "WFS_SUCCESS" = false.
Hypothesis Hres : with_hResult msg = msg.

Lemma execute_slot_lost cmd data :
  exists w' s',
    execute_slot this h id cmd data msg w = Ret tt w' /\
    lost_step this h id (ExecuteSlot id cmd data) msg w s w' s'.
Proof.
  unfold execute_slot. rewrite (msgid_is_index _ _ Hid). pose proof Hid as Hid'.
  unfold msgid_is in Hid'. rewrite Hid'. cbv beta iota delta [negb].
  erewrite bind_eq; [|by apply broadcast_eq].
  pose proof (index_fst "hResult" Invalid msg) as Hh.
  pose proof Hres as Hres'. unfold with_hResult in Hres'.
  destruct (QMap.index "hResult" Invalid msg) as [hr msg2]. simpl in Hh, Hres'.
  fold (hResult_of msg) in Hh. subst hr msg2. rewrite Hfail.
  set (bc := broadcast_signals w (objectName s) msg cmd data).
  set (w1 := set_trace (fun t => (t ++ bc)%list) w).
  erewrite bind_eq; [|by apply (done_eq this id w1 s)].
  erewrite bind_eq; [|apply update_this_eq; simpl; apply lookup_insert_eq].
  rewrite set_objs_twice.
  set (s3 := set_on_message (drop_connection h)
               (set_m_pending (QMap.remove id) s)).
  match goal with |- context [emit_executeComplete this msg ?x] =>
    set (w3 := x) end.
  destruct (emit_executeComplete_total this msg w3 s3)
    as (s' & E & St); [subst w3; simpl; apply lookup_insert_eq|by destruct s|].
  rewrite E. eexists _, s'. split; [reflexivity|].
  pose proof St as (Heq & _ & _ & _ & Hg).
  apply same_but_sync_fields in Heq as (Hp & Hm & _).
  split; [simpl; by rewrite insert_insert_eq|]. split; [done|].
  split; [by rewrite Hp|]. split; [by rewrite Hm|].
  split; [eapply sync_live_step; [|exact St]; by destruct s|].
  split; [intros fid rv ex Hf _; by apply Hg|]. split; [done|].
  exists (bc ++ [(this, executeComplete msg)])%list. simpl.
  split; [by rewrite app_assoc|].
  rewrite outcomes_app. subst bc. by rewrite outcomes_broadcast.
Qed.

Lemma cancel_slot_lost :
  exists w' s',
    cancel_slot this h id msg w = Ret tt w' /\
    lost_step this h id (CancelSlot id) msg w s w' s'.
Proof.
  unfold cancel_slot. rewrite (msgid_is_index _ _ Hid). pose proof Hid as Hid'.
  unfold msgid_is in Hid'. rewrite Hid'. cbv beta iota delta [negb].
  erewrite bind_eq; [|by apply (done_eq this id w s)].
  erewrite bind_eq; [|apply update_this_eq; simpl; apply lookup_insert_eq].
  rewrite set_objs_twice.
  set (s3 := set_on_message (drop_connection h)
               (set_m_pending (QMap.remove id) s)).
  match goal with |- context [emit_cancelComplete this msg ?x] =>
    set (w3 := x) end.
  destruct (emit_cancelComplete_total this msg w3 s3)
    as (s' & E & St); [subst w3; simpl; apply lookup_insert_eq|by destruct s|].
  rewrite E. eexists _, s'. split; [reflexivity|].
  pose proof St as (Heq & _ & _ & _ & Hg).
  apply same_but_sync_fields in Heq as (Hp & Hm & _).
  split; [simpl; by rewrite insert_insert_eq|]. split; [done|].
  split; [by rewrite Hp|]. split; [by rewrite Hm|].
  split; [eapply sync_live_step; [|exact St]; by destruct s|].
  split; [intros fid rv ex Hf _; by apply Hg|]. split; [done|].
  by exists [(this, cancelComplete msg)].
Qed.

Lemma getInfo_slot_lost fid cat rv0 ex0 :
  frames s !! fid = Some (GetInfoFrame rv0 ex0) ->
  exists w' s',
    getInfo_slot this fid id cat msg w = Ret tt w' /\
    lost_step this h id (GetInfoSlot fid id cat) msg w s w' s'.
Proof.
  intros Hf. erewrite getInfo_slot_failure; [|done..|].
  2:{ by apply eqQString_toString. }
  eexists _, _. split; [reflexivity|]. rewrite Hres.
  split; [done|]. split; [done|]. split; [done|]. split; [done|].
  split.
  { destruct Hlive as [H1 H2]. split; simpl.
    - eapply Forall_impl; [exact H1|]. intros [h' [fid' id']]. simpl.
      intros (fin & ex & Hf'). exists fin, ex.
      rewrite lookup_insert_ne; [done|]. intros <-. congruence.
    - eapply Forall_impl; [exact H2|]. intros [h' [fid' id']]. simpl.
      intros (fin & ex & Hf'). exists fin, ex.
      rewrite lookup_insert_ne; [done|]. intros <-. congruence. }
  split; [intros fid' rv ex Hf' Hne; simpl; by rewrite lookup_insert_ne|].
  split; [simpl; apply lookup_insert_eq|].
  exists []. simpl. by rewrite app_nil_r.
Qed.

Lemma run_slot_lost slot :
  slot_id slot = Some id ->
  (forall fid id' cat, slot = GetInfoSlot fid id' cat ->
     exists rv ex, frames s !! fid = Some (GetInfoFrame rv ex)) ->
  exists w' s',
    run_message_slot this h slot msg w = Ret tt w' /\
    lost_step this h id slot msg w s w' s'.
Proof.
  intros Hslot Hframe. destruct slot as [|id' cmd data|fid id' cat|id'];
    simpl in Hslot; try done; injection Hslot as ->; simpl.
  - apply execute_slot_lost.
  - destruct (Hframe fid id cat eq_refl) as (rv & ex & Hf).
    by eapply getInfo_slot_lost.
  - apply cancel_slot_lost.
Qed.

End LostStep.

Lemma msgid_is_other msg id id' :
  msgid_is msg id = true -> id' <> id -> msgid_is msg id' = false.
Proof.
  intros H Hne. destruct (msgid_is msg id') eqn:E; [|done].
  destruct Hne. by eapply msgid_is_inj.
Qed.

(** The lambdas of the other requests, and the one of the constructor,
    let the frame pass. *)
Lemma run_deaf this h slot msg id w :
  msgid_is msg id = true -> QMap.find "message" msg = None ->
  slot_id slot <> Some id ->
  run_message_slot this h slot msg w = Ret tt w.
Proof.
  intros Hid Hm Hne.
  assert (forall id', id' <> id ->
            exists v m, QMap.index "msgid" Invalid msg = (v, m) /\
                        eqQString v id' = false) as Hoff.
  { intros id' Hd. exists (QMap.value "msgid" Invalid msg), msg.
    split; [by eapply msgid_is_index|]. by eapply msgid_is_other. }
  destruct slot as [|id' cmd data|fid id' cat|id']; simpl.
  - unfold ctor_slot. by rewrite (index_absent _ _ _ Hm).
  - destruct (Hoff id') as (v & m & E1 & E); [by intros ->|].
    unfold execute_slot. rewrite E1. by rewrite E.
  - destruct (Hoff id') as (v & m & E1 & E); [by intros ->|].
    unfold getInfo_slot. rewrite E1. by rewrite E.
  - destruct (Hoff id') as (v & m & E1 & E); [by intros ->|].
    unfold cancel_slot. rewrite E1. by rewrite E.
Qed.

Lemma forM_deaf this msg id (l : list (nat * MessageSlot)) w s :
  objs w !! this = Some s ->
  msgid_is msg id = true -> QMap.find "message" msg = None ->
  (forall c, c ∈ l -> slot_id (snd c) <> Some id) ->
  forM l (fun c =>
    s' ← this_obj this;
    when (is_connected (fst c) (on_message s'))
         (run_message_slot this (fst c) (snd c) msg)) w = Ret tt w.
Proof.
  intros Hs Hid Hm. induction l as [|c l IH]; intros Hl; [done|].
  simpl. erewrite bind_eq.
  - apply IH. intros c' Hc'. apply Hl. by right.
  - erewrite bind_eq; [|by apply this_obj_eq].
    destruct (is_connected (fst c) (on_message s)); [|done]. simpl.
    eapply run_deaf; [done..|]. apply Hl. by left.
Qed.

Lemma is_connected_elem {S} h (slot : S) l :
  (h, slot) ∈ l -> is_connected h l = true.
Proof.
  intros H. unfold is_connected. apply existsb_exists.
  exists (h, slot). split; [by apply list_elem_of_In|]. apply Nat.eqb_refl.
Qed.

Lemma served_split s id :
  served s -> id ∈ QMap.keys (m_pending s) ->
  exists h slot l1 l2,
    on_message s = (l1 ++ (h, slot) :: l2)%list /\ slot_id slot = Some id /\
    (forall c, c ∈ (l1 ++ l2)%list -> slot_id (snd c) <> Some id) /\
    (forall c, c ∈ (l1 ++ l2)%list -> fst c <> h).
Proof.
  intros (_ & Hh & Hi & Hp & _) Hin.
  destruct (Hp id Hin) as ([h slot] & Hc & Hslot). simpl in Hslot.
  apply list_elem_of_split in Hc as (l1 & l2 & E).
  exists h, slot, l1, l2. split; [done|]. split; [done|].
  rewrite E in Hh, Hi. split.
  - rewrite omap_app in Hi. simpl in Hi. rewrite Hslot in Hi.
    apply NoDup_app in Hi as (_ & H1 & H2). apply NoDup_cons in H2 as [H2 _].
    intros c Hc Hid. apply elem_of_app in Hc as [Hc|Hc].
    + apply (H1 id); [|by left]. apply list_elem_of_omap. by exists c.
    + apply H2. apply list_elem_of_omap. by exists c.
  - rewrite map_app in Hh. simpl in Hh.
    apply NoDup_app in Hh as (_ & H1 & H2). apply NoDup_cons in H2 as [H2 _].
    intros c Hc Hid. apply elem_of_app in Hc as [Hc|Hc].
    + apply (H1 h); [|by left]. rewrite <- Hid. apply list_elem_of_fmap.
      by exists c.
    + apply H2. rewrite <- Hid. apply list_elem_of_fmap. by exists c.
Qed.

(** Dispatching the frame of the request [id] runs the lambda of that
    request and nothing else. *)
Lemma emit_message_lost this id msg w s :
  objs w !! this = Some s -> registry_live w -> sync_live s -> served s ->
  id ∈ QMap.keys (m_pending s) ->
  msgid_is msg id = true ->
  eqQString (hResult_of msg) "WFS_SUCCESS" = false ->
  with_hResult msg = msg -> QMap.find "message" msg = None ->
  exists h slot w' s',
    (h, slot) ∈ on_message s /\ slot_id slot = Some id /\
    (forall c, c ∈ on_message s ->
       slot_id (snd c) = Some id \/ fst c = h -> c = (h, slot)) /\
    emit_message this msg w = Ret tt w' /\
    lost_step this h id slot msg
      (set_trace (fun t => (t ++ [(this, message msg)])%list) w) s w' s'.
Proof.
  intros Hs Hreg Hlive Hserved Hin Hid Hfail Hres Hm.
  destruct (served_split s id Hserved Hin)
    as (h & slot & l1 & l2 & E & Hslot & Hdeaf & Hh).
  assert (forall c, c ∈ l1 -> slot_id (snd c) <> Some id) as Hd1.
  { intros c Hc. apply Hdeaf. apply elem_of_app. by left. }
  assert (forall c, c ∈ l2 -> slot_id (snd c) <> Some id) as Hd2.
  { intros c Hc. apply Hdeaf. apply elem_of_app. by right. }
  set (w1 := set_trace (fun t => (t ++ [(this, message msg)])%list) w).
  destruct (run_slot_lost this h id msg w1 s Hs Hreg Hlive Hid Hfail Hres slot
              Hslot) as (w' & s' & Hrun & Hstep).
  { intros fid id' cat ->. destruct Hserved as (_ & _ & _ & _ & Hf).
    apply (Hf (h, GetInfoSlot fid id' cat) fid id' cat); [|done].
    rewrite E. apply elem_of_app. right. by left. }
  exists h, slot, w', s'.
  split; [rewrite E; apply elem_of_app; right; by left|]. split; [done|].
  split.
  { intros c Hc Hor. rewrite E in Hc.
    apply elem_of_app in Hc as [Hc|Hc];
      [|apply elem_of_cons in Hc as [->|Hc]; [done|]].
    - destruct Hor as [Hor|Hor].
      + destruct (Hdeaf c); [apply elem_of_app; by left|done].
      + destruct (Hh c); [apply elem_of_app; by left|done].
    - destruct Hor as [Hor|Hor].
      + destruct (Hdeaf c); [apply elem_of_app; by right|done].
      + destruct (Hh c); [apply elem_of_app; by right|done]. }
  split; [|done].
  unfold emit_message. erewrite bind_eq; [|reflexivity]. fold w1.
  erewrite bind_eq; [|by apply (this_obj_eq this w1 s)].
  rewrite E, forM_app.
  erewrite bind_eq; [|by eapply (forM_deaf this msg id l1 w1 s)].
  simpl forM. erewrite bind_eq.
  2:{ erewrite bind_eq; [|by apply (this_obj_eq this w1 s)].
      simpl fst. simpl snd. rewrite (is_connected_elem h slot).
      - simpl. exact Hrun.
      - rewrite E. apply elem_of_app. right. by left. }
  destruct Hstep as (Ho & _).
  eapply (forM_deaf this msg id l2 w' s'); [|done..].
  rewrite Ho. apply lookup_insert_eq.
Qed.

Lemma remove_absent {V} (k : string) (m : QMap.t V) :
  k ∉ QMap.keys m -> QMap.remove k m = m.
Proof.
  induction m as [|[k' v'] m IH]; simpl; [done|].
  rewrite not_elem_of_cons. intros [Hne Hin].
  apply String.eqb_neq in Hne. rewrite Hne. by rewrite IH.
Qed.

Lemma NoDup_remove_keys {V} (k : string) (m : QMap.t V) :
  NoDup (QMap.keys m) -> NoDup (QMap.keys (QMap.remove k m)).
Proof.
  induction m as [|[k' v'] m IH]; simpl; [done|].
  rewrite NoDup_cons. intros [Hin Hnd].
  destruct (String.eqb k k'); [by apply IH|]. simpl.
  apply NoDup_cons. split; [|by apply IH].
  intros H. apply Hin. by apply (remove_keys_subseteq k m).
Qed.

Lemma NoDup_map_drop {S X} (f : nat * S -> X) h (l : list (nat * S)) :
  NoDup (map f l) -> NoDup (map f (drop_connection h l)).
Proof.
  unfold drop_connection. induction l as [|c l IH]; simpl; [done|].
  rewrite NoDup_cons. intros [Hin Hnd]. rewrite filter_cons.
  destruct (decide (fst c ≠ h)); [|by apply IH]. simpl.
  apply NoDup_cons. split; [|by apply IH].
  intros H. apply Hin. apply list_elem_of_fmap in H as (c' & -> & Hc').
  apply list_elem_of_fmap. exists c'. split; [done|].
  by apply list_elem_of_filter in Hc' as [_ ?].
Qed.

Lemma NoDup_omap_drop {S X} (f : nat * S -> option X) h (l : list (nat * S)) :
  NoDup (omap f l) -> NoDup (omap f (drop_connection h l)).
Proof.
  unfold drop_connection. induction l as [|c l IH]; simpl; [done|].
  rewrite filter_cons.
  destruct (f c) as [x|] eqn:E.
  - rewrite NoDup_cons. intros [Hin Hnd].
    destruct (decide (fst c ≠ h)); [|by apply IH]. simpl. rewrite E.
    apply NoDup_cons. split; [|by apply IH].
    intros H. apply Hin. apply list_elem_of_omap in H as (c' & Hc' & E').
    apply list_elem_of_omap. exists c'. split; [|done].
    by apply list_elem_of_filter in Hc' as [_ ?].
  - intros Hnd. destruct (decide (fst c ≠ h)); [|by apply IH].
    simpl. rewrite E. by apply IH.
Qed.

Lemma find_unique {A} (P : A -> bool) (l : list A) (x : A) :
  x ∈ l -> P x = true -> (forall c, c ∈ l -> P c = true -> c = x) ->
  List.find P l = Some x.
Proof.
  intros Hin Hx Hothers. induction l as [|c l IH]; [by apply elem_of_nil in Hin|].
  simpl. destruct (P c) eqn:E.
  - f_equal. apply Hothers; [by left|done].
  - apply IH.
    + apply elem_of_cons in Hin as [->|Hin]; [congruence|done].
    + intros c' Hc'. apply Hothers. by right.
Qed.

Lemma find_drop_connection {S} (P : nat * S -> bool) h (l : list (nat * S)) :
  (forall c, c ∈ l -> fst c = h -> P c = false) ->
  List.find P (drop_connection h l) = List.find P l.
Proof.
  unfold drop_connection. induction l as [|c l IH]; intros H; [done|].
  rewrite filter_cons. simpl.
  destruct (decide (fst c ≠ h)) as [Hne|He].
  - simpl. destruct (P c); [done|]. apply IH. intros c' Hc'. apply H. by right.
  - rewrite (H c); [|by left|by destruct (decide (fst c = h))].
    apply IH. intros c' Hc'. apply H. by right.
Qed.

Lemma flat_map_ext_elem {A B} (f g : A -> list B) (l : list A) :
  (forall a, a ∈ l -> f a = g a) -> flat_map f l = flat_map g l.
Proof.
  induction l as [|a l IH]; intros H; [done|]. simpl.
  rewrite (H a) by by left. f_equal. apply IH. intros a' Ha'. apply H. by right.
Qed.

Lemma lost_base_assign prev id cmd :
  lost_base prev ->
  assign "dwCommandCode" (VString cmd) (assign "msgid" (VString id) prev) =
  lost_message id cmd.
Proof. by intros [->|(id' & cmd' & ->)]. Qed.

Lemma lost_message_facts id cmd :
  msgid_is (lost_message id cmd) id = true /\
  eqQString (hResult_of (lost_message id cmd)) "WFS_SUCCESS" = false /\
  with_hResult (lost_message id cmd) = lost_message id cmd /\
  QMap.find "message" (lost_message id cmd) = None /\
  hResult_of (lost_message id cmd) = VString "WFS_ERR_CONNECTION_LOST".
Proof.
  split; [|by repeat split].
  unfold msgid_is. simpl. apply String.eqb_refl.
Qed.

Lemma served_step this h id slot msg w s w' s' :
  served s -> lost_step this h id slot msg w s w' s' ->
  (h, slot) ∈ on_message s -> slot_id slot = Some id ->
  (forall c, c ∈ on_message s ->
     slot_id (snd c) = Some id \/ fst c = h -> c = (h, slot)) ->
  served s' /\
  (forall c, c ∈ on_message s' -> c ∈ on_message s) /\
  (forall c, c ∈ on_message s -> slot_id (snd c) <> Some id ->
     c ∈ on_message s').
Proof.
  intros (Hk & Hh & Hi & Hp & Hf) (Ho & Hd & Hpd & Hm & Hl & Hg & Hgi & _)
    Hin Hslot Huniq.
  assert (forall c, c ∈ on_message s' -> c ∈ on_message s) as Hsub.
  { intros c. rewrite Hm. destruct slot; try done;
      apply elem_of_drop_connection. }
  assert (forall c, c ∈ on_message s -> slot_id (snd c) <> Some id ->
            c ∈ on_message s') as Hkeep.
  { intros c Hc Hne. rewrite Hm.
    assert (c ∈ drop_connection h (on_message s)).
    { apply list_elem_of_filter. split; [|done]. intros Hfst.
      rewrite (Huniq c Hc (or_intror Hfst)) in Hne. by simpl in Hne. }
    by destruct slot. }
  split; [|done]. split; [|split; [|split; [|split]]].
  - rewrite Hpd. by apply NoDup_remove_keys.
  - rewrite Hm. destruct slot; try done; by apply NoDup_map_drop.
  - rewrite Hm. destruct slot; try done; by apply NoDup_omap_drop.
  - intros id2 Hin2. rewrite Hpd in Hin2.
    assert (id2 <> id) as Hne.
    { intros ->. by apply (remove_not_in id (m_pending s)). }
    apply remove_keys_subseteq in Hin2.
    destruct (Hp id2 Hin2) as (c & Hc & Hid2). exists c. split; [|done].
    apply Hkeep; [done|]. rewrite Hid2. congruence.
  - intros c fid id2 cat Hc Hsnd. apply Hsub in Hc.
    destruct (Hf c fid id2 cat Hc Hsnd) as (rv & ex & Hfr).
    destruct slot as [|? ? ?|fid' ? ?|?];
      try (exists rv, ex; by apply Hg).
    destruct (decide (fid = fid')) as [->|Hne]; [by eauto|].
    exists rv, ex. by apply Hg.
Qed.

Lemma lost_exit_step this h id slot cmd w s w' s' fid :
  lost_step this h id slot (lost_message id cmd) w s w' s' ->
  lost_exit s fid -> lost_exit s' fid.
Proof.
  intros (_ & _ & _ & _ & _ & Hg & Hgi & _) (rv & Hf & Hr).
  destruct slot as [|? ? ?|fid' ? ?|?];
    try (exists rv; split; [by apply Hg|done]).
  destruct (decide (fid = fid')) as [->|Hne].
  - by exists (lost_message id cmd).
  - exists rv. split; [by apply Hg|done].
Qed.

Lemma registry_live_step this w w1 w' s s' :
  objs w1 = objs w -> devices w1 = devices w ->
  objs w !! this = Some s ->
  objs w' = <[this := s']> (objs w1) -> devices w' = devices w1 ->
  registry_live w -> registry_live w'.
Proof.
  unfold registry_live. intros E1 E2 Hs -> -> H. rewrite E1, E2.
  eapply Forall_impl; [exact H|]. intros d [x Hx]. simpl.
  destruct (decide (d = this)) as [->|Hne].
  - rewrite lookup_insert_eq. by eexists.
  - rewrite lookup_insert_ne by done. by eexists.
Qed.

Lemma disconnected_loop_total this (its : QMap.t string) :
  forall prev w s,
    lost_base prev ->
    objs w !! this = Some s -> registry_live w -> sync_live s -> served s ->
    m_pending s = its ->
    exists w' s',
      disconnected_loop this its prev w = Ret tt w' /\
      objs w' !! this = Some s' /\ m_pending s' = [] /\
      (exists X, trace w' = (trace w ++ X)%list /\
                 outcomes X = lost_trace this (on_message s) its) /\
      (forall fid, lost_exit s fid -> lost_exit s' fid) /\
      (forall c fid id cat,
         c ∈ on_message s -> snd c = GetInfoSlot fid id cat ->
         id ∈ QMap.keys its -> lost_exit s' fid).
Proof.
  induction its as [|[id cmd] rest IH]; intros prev w s Hprev Hs Hreg Hlive Hsv Hp.
  { exists w, s. simpl. repeat split; try done.
    - exists []. by rewrite app_nil_r.
    - intros c fid id cat _ _ Hin. by apply elem_of_nil in Hin. }
  simpl disconnected_loop. rewrite (lost_base_assign _ _ _ Hprev).
  set (msg := lost_message id cmd).
  destruct (lost_message_facts id cmd) as (Hid & Hfail & Hres & Hm & Hhr).
  pose proof Hsv as (Hnd & _).
  rewrite Hp in Hnd. simpl in Hnd. apply NoDup_cons in Hnd as [Hfresh Hnd].
  destruct (emit_message_lost this id msg w s Hs Hreg Hlive Hsv)
    as (h & slot & w1 & s1 & Hin & Hslot & Huniq & Hemit & Hstep);
    [rewrite Hp; by left|done..|].
  destruct (served_step this h id slot msg _ s w1 s1 Hsv Hstep Hin Hslot Huniq)
    as (Hsv1 & Hsub & Hkeep).
  pose proof Hstep as (Ho & Hd & Hpd & Hmsg & Hl1 & Hg & Hgi & X & Ht & HX).
  assert (objs w1 !! this = Some s1) as Hs1.
  { rewrite Ho. apply lookup_insert_eq. }
  assert (m_pending s1 = rest) as Hp1.
  { rewrite Hpd, Hp. simpl. rewrite String.eqb_refl. by apply remove_absent. }
  assert (registry_live w1) as Hreg1.
  { eapply (registry_live_step this w); [| |exact Hs|exact Ho|exact Hd|done];
      done. }
  destruct (IH msg w1 s1) as (w' & s' & Hrun & Hs' & Hp' & (X' & Ht' & HX') & Hle & Hgs);
    [right; by exists id, cmd|done..|].
  exists w', s'. split; [by erewrite bind_eq|].
  split; [done|]. split; [done|]. split; [|split].
  - exists ([(this, message msg)] ++ X ++ X')%list. split.
    + rewrite Ht', Ht. simpl. by rewrite <- !app_assoc.
    + rewrite !outcomes_app, HX, HX'. unfold lost_trace. simpl.
      assert (slot_for id (on_message s) = Some slot) as ->.
      { unfold slot_for. rewrite (find_unique _ _ (h, slot)); [done|exact Hin| |].
        - simpl. by apply bool_decide_eq_true.
        - intros c Hc Hc'. apply bool_decide_eq_true in Hc'.
          apply Huniq; [done|by left]. }
      f_equal. f_equal. apply flat_map_ext_elem. intros [id' cmd'] Hin'.
      simpl. f_equal. f_equal. unfold slot_for. f_equal.
      assert (id' <> id) as Hne.
      { intros ->. apply Hfresh. apply list_elem_of_fmap.
        by exists (id, cmd'). }
      assert (List.find (fun c => bool_decide (slot_id (snd c) = Some id'))
                (drop_connection h (on_message s)) =
              List.find (fun c => bool_decide (slot_id (snd c) = Some id'))
                (on_message s)) as Hfd.
      { apply find_drop_connection. intros c Hc Hfst.
        apply bool_decide_eq_false. rewrite (Huniq c Hc (or_intror Hfst)).
        simpl. rewrite Hslot. congruence. }
      rewrite Hmsg. by destruct slot.
  - intros fid Hfid. apply Hle. by eapply lost_exit_step.
  - intros c fid id2 cat Hc Hsnd Hin2. simpl in Hin2.
    apply elem_of_cons in Hin2 as [->|Hin2].
    + assert (c = (h, slot)) as ->.
      { apply Huniq; [done|]. left. by rewrite Hsnd. }
      simpl in Hsnd. subst slot. apply Hle. by exists msg.
    + apply (Hgs c fid id2 cat); [|done..].
      apply Hkeep; [done|]. rewrite Hsnd. simpl. intros [= ->]. done.
Qed.

Lemma omap_filter {A B} (f : A -> option B) (P : A -> bool) (l : list A) :
  (forall x, P x = false -> f x = None) ->
  omap f (List.filter P l) = omap f l.
Proof.
  intros H. unfold omap. induction l as [|x l IH]; [done|]. simpl.
  destruct (P x) eqn:E; simpl; [by rewrite IH|]. by rewrite (H x E).
Qed.

Lemma messages_of_outcomes this t :
  messages_of this (outcomes t) = messages_of this t.
Proof.
  unfold messages_of, outcomes. apply omap_filter.
  intros [p sig]. by destruct sig.
Qed.

Lemma messages_of_lost_trace this l its :
  messages_of this (lost_trace this l its) =
  map (fun it => lost_message (fst it) (snd it)) its.
Proof.
  unfold lost_trace. induction its as [|[id cmd] its IH]; [done|].
  simpl. unfold messages_of in *. rewrite omap_app. simpl.
  rewrite decide_True by done. rewrite IH. f_equal.
  unfold completion. by destruct (slot_for id l) as [[]|].
Qed.

(** X20. [disconnected] on a proxy every pending request of which has its
    lambda connected - with the registered proxies alive and no lambda of
    a returned [syncCancel] left connected (every connected lambda of
    [syncCancel] finds its locals) - returns after it has taken the
    pending map as it was and dispatched, entry by entry in the order of
    that map, one frame with hResult WFS_ERR_CONNECTION_LOST, the msgid of
    the entry and its command code; the frames and completions it emitted
    are, per entry, the frame followed by exactly one [executeComplete]
    (for an execute) or one [cancelComplete] (for a cancel) carrying that
    frame, every waiting [getInfo] of a pending request has left its loop
    with such a frame, and no request is pending any more. *)
Theorem disconnect_fails_all_pending (this : nat) (w : World)
    (s : QXfsSocketStream) :
  objs w !! this = Some s -> registry_live w -> sync_live s -> served s ->
  exists w',
    disconnected this w = Ret tt w' /\
    pending_of this w' = [] /\
    messages_of this (new_trace w w') =
      map (fun it => lost_message (fst it) (snd it)) (m_pending s) /\
    outcomes (new_trace w w') =
      lost_trace this (on_message s) (m_pending s) /\
    (forall c fid id cat,
       c ∈ on_message s -> snd c = GetInfoSlot fid id cat ->
       id ∈ QMap.keys (m_pending s) ->
       exists rv,
         obj_field (fun s' => frames s' !! fid) None this w' =
           Some (GetInfoFrame rv true) /\
         hResult_of rv = VString "WFS_ERR_CONNECTION_LOST").
Proof.
  intros Hs Hreg Hlive Hsv.
  destruct (disconnected_loop_total this (m_pending s)
              [("hResult", VString "WFS_ERR_CONNECTION_LOST")] w s)
    as (w' & s' & Hrun & Hs' & Hp' & (X & Ht & HX) & _ & Hgs);
    [by left|done..|].
  exists w'. split.
  { unfold disconnected. erewrite bind_eq; [|by apply this_obj_eq]. done. }
  split; [unfold pending_of, obj_field; by rewrite Hs'|].
  rewrite (new_trace_app w w' X Ht).
  split; [|split; [done|]].
  - by rewrite <- messages_of_outcomes, HX, messages_of_lost_trace.
  - intros c fid id cat Hc Hsnd Hin.
    destruct (Hgs c fid id cat Hc Hsnd Hin) as (rv & Hf & Hr).
    exists rv. unfold obj_field. by rewrite Hs'.
Qed.

Lemma table_codec_progressing table : progressing (table_codec table).
Proof.
  intros [|b buf] msg rest; [done|]. simpl.
  destruct (nth_error table (Byte.to_nat b)); [|done].
  intros [= _ <-]. lia.
Qed.

(** * The command queue of a device identity *)

Lemma value_insert_ne {V} (k k' : string) (d v : V) (m : QMap.t V) :
  k <> k' -> QMap.value k' d (QMap.insert k v m) = QMap.value k' d m.
Proof. intros H. unfold QMap.value. by rewrite find_insert_ne. Qed.

Lemma value_index_other {V} (k k' : string) (d d' : V) (m : QMap.t V) :
  QMap.value k' d' (snd (QMap.index k d m)) =
  if String.eqb k k' then QMap.value k d m else QMap.value k' d' m.
Proof. apply value_index_snd. Qed.

Lemma queue_of_index name name' w :
  QMap.value name' [] (snd (QMap.index name [] (commands w))) =
  queue_of name' w.
Proof.
  rewrite value_index_snd. unfold queue_of.
  destruct (String.eqb name name') eqn:E; [|done].
  apply String.eqb_eq in E. by subst.
Qed.

Lemma currentCommand_eq this w s :
  objs w !! this = Some s ->
  currentCommand this w =
    Ret (hd ("", Invalid) (queue_of (objectName s) w))
        (set_commands
           (fun _ => snd (QMap.index (objectName s) [] (commands w))) w).
Proof.
  intros Hs. unfold currentCommand.
  erewrite bind_eq; [|by apply commands_of_eq].
  by destruct (queue_of (objectName s) w).
Qed.

Lemma queue_of_appended name name' l w :
  queue_of name'
    (set_commands (fun _ =>
       QMap.insert name l (snd (QMap.index name [] (commands w)))) w) =
  if String.eqb name name' then l else queue_of name' w.
Proof.
  unfold queue_of at 1. simpl. destruct (String.eqb name name') eqn:E.
  - apply String.eqb_eq in E. subst. apply value_insert_eq.
  - apply String.eqb_neq in E. rewrite value_insert_ne by done.
    apply queue_of_index.
Qed.

Lemma queue_of_finished name name' w :
  queue_of name' (set_commands (fun _ => finish_queue name (commands w)) w) =
  if String.eqb name name' then tail (queue_of name w) else queue_of name' w.
Proof.
  unfold queue_of at 1. simpl. destruct (String.eqb name name') eqn:E.
  - apply String.eqb_eq in E. subst. apply queue_finish.
  - apply String.eqb_neq in E. unfold finish_queue.
    pose proof (queue_of_index name name' w) as H.
    destruct (QMap.index name [] (commands w)) as [l cmds']. simpl in H.
    destruct l; [done|]. by rewrite value_insert_ne.
Qed.

Lemma forM_appendCommand this s cmds :
  forall w, objs w !! this = Some s ->
  exists w',
    forM cmds (appendCommand this) w = Ret tt w' /\
    objs w' = objs w /\
    forall name,
      queue_of name w' =
      if String.eqb (objectName s) name
      then (queue_of name w ++ cmds)%list else queue_of name w.
Proof.
  induction cmds as [|cmd cmds IH]; intros w Hs.
  - exists w. split; [done|]. split; [done|]. intros name.
    destruct (String.eqb _ _); [by rewrite app_nil_r|done].
  - simpl forM. eapply bind_eq_ex; [by apply appendCommand_eq|].
    cbv beta. set (w1 := set_commands _ w).
    destruct (IH w1 Hs) as (w' & Hrun & Ho & Hq).
    exists w'. split; [done|]. split; [done|]. intros name.
    rewrite Hq. subst w1. rewrite queue_of_appended.
    destruct (String.eqb (objectName s) name) eqn:E; [|done].
    apply String.eqb_eq in E. subst. by rewrite <- app_assoc.
Qed.

Lemma drain_queue that s2 :
  forall q w, objs w !! that = Some s2 ->
  queue_of (objectName s2) w = q ->
  exists w',
    drain (List.length q) that w = Ret q w' /\
    objs w' = objs w /\
    forall name,
      queue_of name w' =
      if String.eqb (objectName s2) name then [] else queue_of name w.
Proof.
  induction q as [|cmd q IH]; intros w Hs Hq.
  - exists w. split; [done|]. split; [done|]. intros name.
    destruct (String.eqb _ _) eqn:E; [|done].
    apply String.eqb_eq in E. by subst.
  - simpl drain. eapply bind_eq_ex; [by apply currentCommand_eq|].
    rewrite Hq. simpl hd.
    cbv beta. set (w1 := set_commands _ w).
    assert (forall name, queue_of name w1 = queue_of name w) as Hq1.
    { intros name. apply queue_of_index. }
    eapply bind_eq_ex; [by apply (finishCommand_eq that w1 s2)|].
    cbv beta. set (w2 := set_commands _ w1).
    assert (forall name, queue_of name w2 =
              if String.eqb (objectName s2) name
              then q else queue_of name w) as Hq2.
    { intros name. subst w2. rewrite queue_of_finished, !Hq1, Hq. done. }
    destruct (IH w2) as (w' & Hrun & Ho & Hq').
    { done. }
    { by rewrite Hq2, String.eqb_refl. }
    exists w'. split; [by erewrite bind_eq|]. split; [done|].
    intros name. rewrite Hq', Hq2. by destruct (String.eqb _ _).
Qed.

(** X1. The command queue is first in, first out, and it belongs to the
    device identity: the commands that one proxy appends come back, after
    the ones queued before and in the order of appending, as the current
    commands of any proxy that carries the same [objectName], each until it
    is finished; the queue is empty afterwards. *)
Theorem command_queue_fifo (this that : nat)
    (cmds : list (string * QVariant)) (w : World)
    (s s2 : QXfsSocketStream) :
  objs w !! this = Some s -> objs w !! that = Some s2 ->
  objectName s2 = objectName s ->
  let q0 := queue_of (objectName s) w in
  exists w',
    (forM cmds (appendCommand this) ;;
     drain (List.length q0 + List.length cmds) that) w
      = Ret (q0 ++ cmds)%list w' /\
    queue_of (objectName s) w' = [].
Proof.
  intros Hs Hs2 Hname q0.
  destruct (forM_appendCommand this s cmds w Hs) as (w1 & Hrun & Ho & Hq).
  eapply bind_eq_ex; [exact Hrun|].
  destruct (drain_queue that s2 (q0 ++ cmds)%list w1) as (w' & Hd & _ & Hq').
  { by rewrite Ho. }
  { by rewrite Hname, Hq, String.eqb_refl. }
  exists w'. rewrite length_app in Hd. split; [done|].
  by rewrite Hq', Hname, String.eqb_refl.
Qed.

(** X2. The queues of the other device identities, the proxies and their
    pending requests are out of reach of the queue operations: none of
    [currentCommand], [appendCommand], [finishCommand] changes the queue of
    an [objectName] other than the proxy's, and [currentCommand] changes no
    queue at all; on an empty queue it yields the empty command with an
    invalid payload, and [finishCommand] leaves the queue empty. *)
Theorem command_queue_isolated (this : nat) (cmd : string * QVariant)
    (w : World) (s : QXfsSocketStream) :
  objs w !! this = Some s ->
  (exists w',
     currentCommand this w =
       Ret (hd ("", Invalid) (queue_of (objectName s) w)) w' /\
     objs w' = objs w /\ forall name, queue_of name w' = queue_of name w) /\
  (exists w',
     appendCommand this cmd w = Ret tt w' /\ objs w' = objs w /\
     forall name, name <> objectName s -> queue_of name w' = queue_of name w) /\
  (exists w',
     finishCommand this w = Ret tt w' /\ objs w' = objs w /\
     queue_of (objectName s) w' = tail (queue_of (objectName s) w) /\
     forall name, name <> objectName s -> queue_of name w' = queue_of name w).
Proof.
  intros Hs. split; [|split].
  - eexists. split; [by apply currentCommand_eq|]. split; [done|].
    intros name. apply queue_of_index.
  - eexists. split; [by apply appendCommand_eq|]. split; [done|].
    intros name Hne. rewrite queue_of_appended.
    destruct (String.eqb _ _) eqn:E; [|done].
    apply String.eqb_eq in E. by subst.
  - eexists. split; [by apply finishCommand_eq|]. split; [done|]. split.
    + by rewrite queue_of_finished, String.eqb_refl.
    + intros name Hne. rewrite queue_of_finished.
      destruct (String.eqb _ _) eqn:E; [|done].
      apply String.eqb_eq in E. by subst.
Qed.

(** * Unsolicited events and unknown replies *)

Lemma index_of_text k msg :
  toString (QMap.value k Invalid msg) <> "" ->
  QMap.index k Invalid msg = (QMap.value k Invalid msg, msg).
Proof.
  unfold QMap.index, QMap.value. by destruct (QMap.find k msg).
Qed.

Lemma set_trace_new w X :
  new_trace w (set_trace (fun t => (t ++ X)%list) w) = X.
Proof. unfold new_trace. simpl. by rewrite drop_app_length. Qed.

(** X3. The lambda of the constructor turns a frame marked
    WFS_SERVICE_EVENT, WFS_USER_EVENT or WFS_SYSTEM_EVENT into the signal
    of that name, carrying the frame unchanged; a system event also carries
    the command at the head of the queue of the device identity - the empty
    command with an invalid payload when nothing is queued. Any other frame
    makes it emit nothing. In no case does it touch a proxy or the content
    of a queue. *)
Theorem event_routing (this : nat) (msg : QVariantMap) (w : World)
    (s : QXfsSocketStream) :
  objs w !! this = Some s ->
  exists w',
    ctor_slot this msg w = Ret tt w' /\
    objs w' = objs w /\
    (forall name, queue_of name w' = queue_of name w) /\
    new_trace w w' =
      event_signals this msg (hd ("", Invalid) (queue_of (objectName s) w)).
Proof.
  intros Hs. unfold ctor_slot, event_signals.
  set (m := toString (QMap.value "message" Invalid msg)).
  assert (m <> "" ->
          QMap.index "message" Invalid msg =
            (QMap.value "message" Invalid msg, msg)) as Hidx
    by apply index_of_text.
  pose proof (index_fst "message" Invalid msg) as Hfst.
  destruct (String.eqb m "WFS_SERVICE_EVENT") eqn:E1.
  { rewrite Hidx by (apply String.eqb_eq in E1; by rewrite E1).
    fold m. rewrite E1. eexists. split; [reflexivity|]. split; [done|].
    split; [done|]. apply set_trace_new. }
  destruct (String.eqb m "WFS_USER_EVENT") eqn:E2.
  { rewrite Hidx by (apply String.eqb_eq in E2; by rewrite E2).
    fold m. rewrite E1, E2. eexists. split; [reflexivity|]. split; [done|].
    split; [done|]. apply set_trace_new. }
  destruct (String.eqb m "WFS_SYSTEM_EVENT") eqn:E3.
  { rewrite Hidx by (apply String.eqb_eq in E3; by rewrite E3).
    fold m. rewrite E1, E2, E3.
    eapply bind_eq_ex; [by apply currentCommand_eq|].
    eexists. split; [reflexivity|]. split; [done|].
    split; [intros name; apply queue_of_index|].
    unfold new_trace. simpl. by rewrite drop_app_length. }
  destruct (QMap.index "message" Invalid msg) as [v msg'] eqn:E.
  simpl in Hfst. subst v. fold m. rewrite E1, E2, E3.
  exists w. split; [done|]. split; [done|]. split; [done|].
  unfold new_trace. by rewrite drop_all.
Qed.

Lemma run_unknown this h slot msg w :
  no_event msg ->
  match slot with
  | CtorSlot => True
  | ExecuteSlot id _ _ | GetInfoSlot _ id _ | CancelSlot id =>
      msgid_is msg id = false
  end ->
  run_message_slot this h slot msg w = Ret tt w.
Proof.
  intros (N1 & N2 & N3) Hslot.
  pose proof (index_fst "msgid" Invalid msg) as Hid.
  pose proof (index_fst "message" Invalid msg) as Hm.
  destruct slot as [|id cmd data|fid id cat|id]; simpl.
  - unfold ctor_slot.
    destruct (QMap.index "message" Invalid msg) as [v msg']. simpl in Hm.
    subst v. apply String.eqb_neq in N1, N2, N3. by rewrite N1, N2, N3.
  - unfold execute_slot.
    destruct (QMap.index "msgid" Invalid msg) as [v msg']. simpl in Hid.
    subst v. unfold msgid_is in Hslot. by rewrite Hslot.
  - unfold getInfo_slot.
    destruct (QMap.index "msgid" Invalid msg) as [v msg']. simpl in Hid.
    subst v. unfold msgid_is in Hslot. by rewrite Hslot.
  - unfold cancel_slot.
    destruct (QMap.index "msgid" Invalid msg) as [v msg']. simpl in Hid.
    subst v. unfold msgid_is in Hslot. by rewrite Hslot.
Qed.

Lemma forM_unknown this msg (l : list (nat * MessageSlot)) w s :
  objs w !! this = Some s -> no_event msg -> unknown_reply msg l ->
  forM l (fun c =>
    s' ← this_obj this;
    when (is_connected (fst c) (on_message s'))
         (run_message_slot this (fst c) (snd c) msg)) w = Ret tt w.
Proof.
  intros Hs Hev. induction l as [|c l IH]; intros Hl; [done|].
  simpl. erewrite bind_eq.
  - apply IH. intros c' Hc'. apply Hl. by right.
  - erewrite bind_eq; [|by apply this_obj_eq].
    destruct (is_connected (fst c) (on_message s)); [|done]. simpl.
    apply run_unknown; [done|]. apply (Hl c). by left.
Qed.

(** X4. A frame that is no event and whose [msgid] - if it has one - is
    the one of no connected lambda is put on the [message] signal and has
    no other effect: nothing else is emitted, no request is completed, no
    queue, no proxy and no log entry changes. *)
Theorem unknown_reply_ignored (this : nat) (msg : QVariantMap) (w : World)
    (s : QXfsSocketStream) :
  objs w !! this = Some s ->
  no_event msg -> unknown_reply msg (on_message s) ->
  emit_message this msg w =
    Ret tt (set_trace (fun t => (t ++ [(this, message msg)])%list) w).
Proof.
  intros Hs Hev Hun. unfold emit_message.
  erewrite bind_eq; [|reflexivity].
  set (w1 := set_trace _ w).
  erewrite bind_eq; [|by apply (this_obj_eq this w1 s)].
  by apply (forM_unknown this msg _ w1 s).
Qed.

(** * Device addresses *)

Lemma split_colon_free h : colon_free h = true -> split ":" h = [h].
Proof.
  induction h as [|c h IH]; [done|]. simpl.
  intros [Hc Hh]%andb_true_iff. apply negb_true_iff in Hc. rewrite Hc.
  by rewrite IH.
Qed.

Lemma split_join h p :
  colon_free h = true -> colon_free p = true ->
  split ":" (h ++ String ":" p) = [h; p].
Proof.
  intros Hh Hp. induction h as [|c h IH]; simpl.
  - by rewrite split_colon_free.
  - simpl in Hh. apply andb_true_iff in Hh as [Hc Hh].
    apply negb_true_iff in Hc. rewrite Hc. by rewrite IH.
Qed.

Lemma toUInt_go_colon_free p :
  forall acc n, toUInt_go acc p = Some n -> colon_free p = true.
Proof.
  induction p as [|c p IH]; intros acc n; [done|]. simpl.
  destruct (digit c) as [d|] eqn:Hd; [|done]. intros H.
  rewrite (IH _ _ H), andb_true_r. apply negb_true_iff, Ascii.eqb_neq.
  intros ->. by vm_compute in Hd.
Qed.

Lemma digit_plain c d :
  digit c = Some d -> isSpace c = false /\ Ascii.eqb c "+" = false.
Proof.
  destruct c as [[] [] [] [] [] [] [] []]; vm_compute; intros H;
    first [done | discriminate H].
Qed.

Lemma trim_right_digits p :
  forall acc n, toUInt_go acc p = Some n -> trim_right p = p.
Proof.
  induction p as [|c p IH]; intros acc n; [done|]. simpl.
  destruct (digit c) as [d|] eqn:Hd; [|done]. intros H.
  rewrite (IH _ _ H). destruct p; [|done].
  by rewrite (proj1 (digit_plain c d Hd)).
Qed.

(** On plain decimal text [toUInt] has nothing to skip. *)
Lemma toUInt_digits port n :
  port <> "" -> toUInt_go 0%N port = Some n -> (n <= 4294967295)%N ->
  toUInt port = Some n.
Proof.
  intros Hne Hp Hn. destruct port as [|c port]; [done|].
  pose proof (trim_right_digits _ _ _ Hp) as Ht.
  pose proof Hp as Hp'. simpl in Hp'.
  destruct (digit c) as [d|] eqn:Hd; [|done].
  destruct (digit_plain c d Hd) as [Hsp Hplus].
  unfold toUInt, trimmed.
  change (trim_left (String c port))
    with (if isSpace c then trim_left port else String c port).
  rewrite Hsp, Ht, Hplus, Hp. apply N.leb_le in Hn. by rewrite Hn.
Qed.

Lemma prefix_app a b : String.prefix a (a ++ b) = true.
Proof.
  induction a as [|c a IH]; simpl; [by destruct b|].
  by destruct (ascii_dec c c).
Qed.

(** X5. An address [tcp://host:port] or [ssl://host:port] whose host has no
    colon and whose port is a decimal number that fits 32 bits gives a
    socket that is connecting to that host, encrypted for [ssl] only, and
    logs nothing. The port is kept modulo 65536: [m_port] is a [quint16]
    and a larger number is not refused. *)
Theorem createSocket_remote (ssl : bool) (host port deviceId : string)
    (n : N) :
  colon_free host = true ->
  port <> "" -> toUInt_go 0%N port = Some n -> (n <= 4294967295)%N ->
  createSocket (scheme ssl ++ host ++ String ":" port) deviceId =
    mkSetup IoSocket (Some (fresh_socket ConnectingState)) false ssl host
      (n mod 65536)%N [].
Proof.
  intros Hh Hne Hp Hn.
  pose proof (toUInt_digits port n Hne Hp Hn) as Hport.
  pose proof (split_join host port Hh (toUInt_go_colon_free _ _ _ Hp)) as Hs.
  set (addr := scheme ssl ++ host ++ String ":" port).
  assert (mid 6 addr = host ++ String ":" port) as Hmid
    by (subst addr; destruct ssl; vm_compute; reflexivity).
  assert (String.eqb addr "local" = false) as Hloc
    by (subst addr; destruct ssl; vm_compute; reflexivity).
  assert (String.prefix "tcp://" addr = negb ssl) as Htcp.
  { subst addr. destruct ssl; [vm_compute; reflexivity|apply prefix_app]. }
  assert (String.prefix "ssl://" addr = ssl) as Hssl.
  { subst addr. destruct ssl; [apply prefix_app|vm_compute; reflexivity]. }
  unfold createSocket. rewrite Hloc, Htcp, Hssl, Hmid, Hs, Hport.
  by destruct ssl.
Qed.

(** X6. [createSocket] has two outcomes. Either it yields the device, a
    socket that is connecting, and logs nothing; or it yields no device and
    logs one critical message that names the device id and the address, in
    which case a socket object has been left in [m_socket] exactly when the
    address began with [tcp://] or [ssl://]. The address [local] always has
    the first outcome. *)
Theorem createSocket_outcomes (deviceAddress deviceId : string) :
  let su := createSocket deviceAddress deviceId in
  (deviceAddress = "local" -> su_io su = IoSocket /\ su_isLocal su = true) /\
  ((su_io su = IoSocket /\ su_log su = [] /\
    su_socket su = Some (fresh_socket ConnectingState)) \/
   (su_io su = IoNull /\ su_isLocal su = false /\
    su_log su = [Critical [deviceId; ": unknown device connection address ";
                           deviceAddress]] /\
    (is_Some (su_socket su) <->
     String.prefix "tcp://" deviceAddress = true \/
     String.prefix "ssl://" deviceAddress = true))).
Proof.
  intros su. subst su. split; [by intros ->|].
  assert (forall sock isSsl host,
    (is_Some sock <->
     String.prefix "tcp://" deviceAddress = true \/
     String.prefix "ssl://" deviceAddress = true) ->
    let su := bad_address deviceAddress deviceId sock isSsl host in
    su_io su = IoNull /\ su_isLocal su = false /\
    su_log su = [Critical [deviceId; ": unknown device connection address ";
                           deviceAddress]] /\
    (is_Some (su_socket su) <->
     String.prefix "tcp://" deviceAddress = true \/
     String.prefix "ssl://" deviceAddress = true)) as Hbad by done.
  unfold createSocket.
  destruct (String.eqb deviceAddress "local"); [by left|].
  destruct (String.prefix "tcp://" deviceAddress) eqn:Et;
    [|destruct (String.prefix "ssl://" deviceAddress) eqn:Es];
    cbv beta zeta iota delta [orb].
  - assert (forall k : QSocket, is_Some (Some k) <->
              true = true \/
              String.prefix "ssl://" deviceAddress = true) as Hk.
    { intros k. split; [by left|by eexists]. }
    destruct (split ":" (mid 6 deviceAddress)) as [|host [|port [|? ?]]];
      [right; by apply Hbad..| |right; by apply Hbad].
    destruct (toUInt port); [by left|]. right. by apply Hbad.
  - assert (forall k : QSocket, is_Some (Some k) <->
              false = true \/ true = true) as Hk.
    { intros k. split; [by right|by eexists]. }
    destruct (split ":" (mid 6 deviceAddress)) as [|host [|port [|? ?]]];
      [right; by apply Hbad..| |right; by apply Hbad].
    destruct (toUInt port); [by left|]. right. by apply Hbad.
  - right. apply Hbad. split; [by intros [? ?]|by intros [?|?]].
Qed.

(** * What a connection attempt can change *)

Lemma socket_only_refl s : socket_only s s.
Proof.
  exists (fun k => k). split; [|by intros k; split; [|left]].
  destruct s as [? ? ? ? ? ? sk]. unfold set_m_socket. simpl. by destruct sk.
Qed.

Lemma socket_only_step s s1 f :
  socket_only s s1 -> reconnects f ->
  socket_only s (set_m_socket (option_map f) s1).
Proof.
  intros (f0 & -> & H0) Hf. exists (fun k => f (f0 k)). split.
  - destruct s as [? ? ? ? ? ? sk]. unfold set_m_socket. simpl. by destruct sk.
  - intros k. destruct (Hf (f0 k)) as [Et Hr], (H0 k) as [Et0 Hr0].
    rewrite Et, Et0. split; [done|].
    destruct Hr as [Er|Er]; rewrite Er; [done|by right].
Qed.

Lemma socket_moved_refl w : socket_moved w w.
Proof.
  repeat split; try done. intros p.
  destruct (objs w !! p); constructor. apply socket_only_refl.
Qed.

Lemma socket_moved_ignores_connect w : ignores_connect (socket_moved w).
Proof.
  split; [|split; [|split]]; try (by intros w1 f H).
  intros w1 p s f (Hd & Hc & Hm & Ht & Hu & Hi & Hn & Hq & Ho) Hs Hf.
  repeat split; try done. intros q. simpl.
  destruct (decide (q = p)) as [->|Hne].
  - rewrite lookup_insert_eq. specialize (Ho p). rewrite Hs in Ho.
    inversion Ho as [s0 s1 Hrel|]; subst. constructor.
    by apply socket_only_step.
  - rewrite lookup_insert_ne by done. apply Ho.
Qed.

Lemma connectToServer_moves this w b w1 :
  connectToServer this w = Ret b w1 -> socket_moved w w1.
Proof.
  intros Hc.
  eapply (post_Ret _ (fun _ => socket_moved w) (socket_moved w)); [|exact Hc].
  apply pres_connectToServer_ignored;
    [apply socket_moved_ignores_connect|apply socket_moved_refl].
Qed.

Lemma socket_only_fields s s1 :
  socket_only s s1 ->
  objectName s1 = objectName s /\ m_io s1 = m_io s /\
  m_pending s1 = m_pending s /\ on_message s1 = on_message s /\
  on_cancelComplete s1 = on_cancelComplete s /\
  on_executeComplete s1 = on_executeComplete s /\
  next_connection s1 = next_connection s /\ frames s1 = frames s /\
  next_frame s1 = next_frame s /\ m_isLocal s1 = m_isLocal s /\
  m_isSsl s1 = m_isSsl s /\
  (sock_tx <$> m_socket s1) = (sock_tx <$> m_socket s).
Proof.
  intros (f & -> & Hf). repeat split; try done. simpl.
  destruct (m_socket s) as [k|]; [|done]. simpl. f_equal. apply Hf.
Qed.

Lemma socket_only_rx s s1 k :
  socket_only s s1 -> m_socket s = Some k ->
  exists k1, m_socket s1 = Some k1 /\
             (sock_rx k1 = sock_rx k \/ sock_rx k1 = []).
Proof.
  intros (f & -> & Hf) Hk. exists (f k). simpl. rewrite Hk. split; [done|].
  apply Hf.
Qed.

Lemma socket_moved_at this w w1 s :
  socket_moved w w1 -> objs w !! this = Some s ->
  exists s1, objs w1 !! this = Some s1 /\ socket_only s s1.
Proof.
  intros (_ & _ & _ & _ & _ & _ & _ & _ & Ho) Hs. specialize (Ho this).
  rewrite Hs in Ho. inversion Ho; subst. by eauto.
Qed.

Lemma waitFor_true this enc w s w' :
  objs w !! this = Some s -> waitFor this enc w = Ret true w' ->
  w' = set_objs (fun h =>
         <[this := set_m_socket (option_map (fun k =>
                     set_sock_state ConnectedState
                       (set_sock_encrypted (enc || sock_encrypted k) k))) s]> h)
         (set_net (fun l => tail l) w).
Proof.
  intros Hs. unfold waitFor.
  erewrite bind_eq; [|reflexivity]. erewrite bind_eq; [|reflexivity].
  destruct (net w) as [|[|e] rest];
    (erewrite bind_eq; [|by apply update_this_eq]); unfold ret;
    intros [= <-]; done.
Qed.

Lemma connectToServer_true_ready this w w1 :
  connectToServer this w = Ret true w1 -> ready this w1.
Proof.
  intros Hc. unfold connectToServer in Hc.
  apply bind_Ret_inv in Hc as (s & w0 & Hs & Hc).
  unfold this_obj in Hs. destruct (objs w !! this) as [s0|] eqn:Hs0; [|done].
  injection Hs as E1 E2. subst s0 w0.
  destruct (io_device s) as [k|] eqn:Hk; [|done].
  apply bind_Ret_inv in Hc as (c & w2 & Hconn & Hc).
  destruct c.
  2:{ exfalso. unfold bind, this_obj, gets, when, modify, qWarning, ret in Hc.

      destruct (objs w2 !! this); [|done]. by destruct (negb _) in Hc. }
  injection Hc as <-.
  assert (forall enc w3 s3 k3 w4,
    objs w3 !! this = Some s3 -> io_device s3 = Some k3 ->
    m_isLocal s3 = m_isLocal s -> m_isSsl s3 = m_isSsl s ->
    (m_isLocal s = false -> enc = m_isSsl s) ->
    waitFor this enc w3 = Ret true w4 -> ready this w4) as Hwait.
  { intros enc w3 s3 k3 w4 Hs3 Hk3 Hl3 Hssl3 Henc Hw.
    rewrite (waitFor_true this enc w3 s3 w4 Hs3 Hw).
    eexists _, _. simpl. rewrite lookup_insert_eq. split; [done|].
    unfold io_device in *. simpl. destruct (m_io s3); [done|].
    rewrite Hk3. simpl. split; [done|]. unfold must_connect. simpl.
    rewrite Hl3, Hssl3. destruct (m_isLocal s); [done|].
    rewrite (Henc eq_refl). by destruct (m_isSsl s). }
  assert (forall f, io_device (set_m_socket (option_map f) s) =
                    Some (f k)) as Hio.
  { intros f. unfold io_device in *. simpl. destruct (m_io s); [done|].
    by rewrite Hk. }
  destruct (m_isLocal s) eqn:Hloc.
  - destruct (negb (SocketState_eqb (sock_state k) ConnectedState)) eqn:Hst.
    + apply bind_Ret_inv in Hconn as ([] & w3 & Hup & Hw).
      unfold update_socket in Hup.
      erewrite update_this_eq in Hup by done. injection Hup as <-.
      eapply (Hwait false) in Hw;
        [exact Hw|simpl; apply lookup_insert_eq|apply Hio|done..].
    + injection Hconn as <-. exists s, k. split; [done|]. split; [done|].
      unfold must_connect. by rewrite Hloc.
  - destruct (negb (SocketState_eqb (sock_state k) ConnectedState)
              || m_isSsl s && negb (sock_encrypted k)) eqn:Hst.
    + apply bind_Ret_inv in Hconn as ([] & w3 & Hup & Hw).
      destruct (SocketState_eqb (sock_state k) UnconnectedState
                || SocketState_eqb (sock_state k) ClosingState).
      * simpl in Hup. unfold update_socket in Hup.
        erewrite update_this_eq in Hup by done.
        injection Hup as <-.
        eapply (Hwait (m_isSsl s)) in Hw;
          [exact Hw|simpl; apply lookup_insert_eq|apply Hio|done..].
      * injection Hup as <-.
        eapply (Hwait (m_isSsl s)) in Hw; [exact Hw|exact Hs0|exact Hk|done..].
    + injection Hconn as <-. exists s, k. split; [done|]. split; [done|].
      unfold must_connect. by rewrite Hloc.
Qed.

Lemma connectToServer_ready this w :
  ready this w -> connectToServer this w = Ret true w.
Proof.
  intros (s & k & Hs & Hk & Hm). unfold connectToServer.
  erewrite bind_eq; [|by apply this_obj_eq]. rewrite Hk.
  unfold must_connect in Hm. destruct (m_isLocal s); by rewrite Hm.
Qed.

Lemma rx_empty_ignores_connect this :
  ignores_connect (fun w => rx_of this w = []).
Proof.
  split; [|split; [|split]]; try (by intros w1 f H).
  intros w p s f Hw Hs Hf. unfold rx_of, obj_field in *. simpl.
  destruct (decide (p = this)) as [->|Hne].
  - rewrite lookup_insert_eq. rewrite Hs in Hw. unfold io_device in *. simpl.
    destruct (m_io s); [done|]. destruct (m_socket s) as [k|]; [|done]. simpl.
    destruct (Hf k) as [_ [Er|Er]]; rewrite Er; done.
  - by rewrite lookup_insert_ne.
Qed.

Lemma connectToServer_reopens this w s k b w1 :
  objs w !! this = Some s -> io_device s = Some k -> reopens s k = true ->
  connectToServer this w = Ret b w1 -> rx_of this w1 = [].
Proof.
  intros Hs Hk Hre Hc.
  set (J := fun x => rx_of this x = []).
  set (w3 := set_objs (fun h =>
                <[this := set_m_socket (option_map reopen) s]> h) w).
  assert (J w3) as Hw3.
  { unfold J, rx_of, obj_field. subst w3. simpl. rewrite lookup_insert_eq.
    unfold io_device in *. simpl. destruct (m_io s); [done|].
    by rewrite Hk. }
  assert (forall enc w2 c, waitFor this enc w3 = Ret c w2 -> J w2) as Hwait.
  { intros enc w2 c Hw.
    eapply (post_Ret _ (fun _ => J) J); [|exact Hw].
    by apply pres_waitFor_ignored; [apply rx_empty_ignores_connect|]. }
  unfold connectToServer in Hc.
  erewrite bind_eq in Hc; [|by apply this_obj_eq]. rewrite Hk in Hc.
  apply bind_Ret_inv in Hc as (c & w2 & Hconn & Hc).
  assert (J w2) as Hw2.
  { unfold reopens in Hre. destruct (m_isLocal s).
    - rewrite Hre in Hconn.
      apply bind_Ret_inv in Hconn as ([] & w3' & Hup & Hw).
      unfold update_socket in Hup. erewrite update_this_eq in Hup by done.
      injection Hup as <-. by apply (Hwait _ _ _ Hw).
    - destruct (negb (SocketState_eqb (sock_state k) ConnectedState)
                || m_isSsl s && negb (sock_encrypted k)) eqn:Hst.
      + rewrite Hre in Hconn.
        apply bind_Ret_inv in Hconn as ([] & w3' & Hup & Hw).
        simpl in Hup. unfold update_socket in Hup.
        erewrite update_this_eq in Hup by done.
        injection Hup as <-. by apply (Hwait _ _ _ Hw).
      + exfalso. apply orb_false_iff in Hst as [Hst _].
        apply negb_false_iff in Hst.
        destruct (sock_state k); simpl in *; done. }
  destruct c; [by injection Hc as _ <-|].
  unfold J, rx_of, obj_field in *.
  unfold bind, this_obj, gets, when, modify, qWarning, ret in Hc.
  destruct (objs w2 !! this) as [s2|] eqn:Hs2; [|done].
  destruct (negb _) in Hc; injection Hc as _ <-; simpl; by rewrite Hs2.
Qed.

(** X7. Once the socket of a proxy is connected - and encrypted, for an
    SSL socket - [connectToServer] returns true and leaves the process as
    it is: it does not wait, it logs nothing. That is the state every
    successful [connectToServer] leaves, so after one success the later
    calls cost nothing. Whatever its result, a call changes nothing but
    sockets, the log and [warnOnce]: pending requests, connections, queues,
    the cache and the frames written stay. The bytes received and not yet
    read do not always stay: a call that opens the socket again - a local
    socket that is not connected, a remote one that is unconnected or
    closing - returns with an empty read buffer. *)
Theorem connectToServer_settles (this : nat) (w : World) :
  (ready this w -> connectToServer this w = Ret true w) /\
  (forall w1, connectToServer this w = Ret true w1 ->
     ready this w1 /\ connectToServer this w1 = Ret true w1) /\
  (forall b w1, connectToServer this w = Ret b w1 -> socket_moved w w1) /\
  (forall s k b w1,
     objs w !! this = Some s -> io_device s = Some k -> reopens s k = true ->
     connectToServer this w = Ret b w1 -> rx_of this w1 = []).
Proof.
  split; [apply connectToServer_ready|]. split; [|split].
  - intros w1 Hc. pose proof (connectToServer_true_ready this w w1 Hc) as Hr.
    split; [done|]. by apply connectToServer_ready.
  - intros b w1. apply connectToServer_moves.
  - intros s k b w1. apply connectToServer_reopens.
Qed.

(** * Sending a request *)

Lemma uuid_string_inj n m : uuid_string n = uuid_string m -> n = m.
Proof.
  unfold uuid_string. intros H. injection H as H.
  apply (inj pretty). revert H. generalize (pretty m). generalize (pretty n).
  clear. intros a. induction a as [|x a IH]; intros [|y b]; simpl; intros H.
  - done.
  - injection H as _ H. by destruct b.
  - injection H as _ H. by destruct a.
  - injection H as -> H. f_equal. by apply IH.
Qed.

Lemma not_issued_next w : ~ issued w (uuid_string (uuid_seed w)).
Proof. intros (n & Hn & E). apply uuid_string_inj in E. lia. Qed.

Lemma keys_insert {V} (k x : string) (v : V) (m : QMap.t V) :
  x ∈ QMap.keys (QMap.insert k v m) <-> x = k \/ x ∈ QMap.keys m.
Proof.
  induction m as [|[k' v'] m IH]; simpl.
  - rewrite list_elem_of_singleton, elem_of_nil. tauto.
  - destruct (String.compare k k') eqn:E; simpl.
    + apply String.compare_eq_iff in E. subst k'. rewrite !elem_of_cons. tauto.
    + rewrite !elem_of_cons. tauto.
    + rewrite !elem_of_cons, IH. tauto.
Qed.

Lemma NoDup_insert_keys {V} (k : string) (v : V) (m : QMap.t V) :
  k ∉ QMap.keys m -> NoDup (QMap.keys m) ->
  NoDup (QMap.keys (QMap.insert k v m)).
Proof.
  induction m as [|[k' v'] m IH]; simpl; intros Hk Hnd.
  - apply NoDup_singleton.
  - apply not_elem_of_cons in Hk as [Hne Hk].
    apply NoDup_cons in Hnd as [Hk' Hnd].
    destruct (String.compare k k') eqn:E; simpl.
    + by apply String.compare_eq_iff in E.
    + apply NoDup_cons. split; [|by apply NoDup_cons].
      apply not_elem_of_cons. done.
    + apply NoDup_cons. split; [|by apply IH].
      fold (QMap.keys (QMap.insert k v m)). rewrite keys_insert.
      intros [->|H]; done.
Qed.

Lemma remove_insert_absent {V} (k : string) (v : V) (m : QMap.t V) :
  k ∉ QMap.keys m -> QMap.remove k (QMap.insert k v m) = m.
Proof.
  induction m as [|[k' v'] m IH]; simpl; intros Hk.
  - by rewrite String.eqb_refl.
  - apply not_elem_of_cons in Hk as [Hne Hk].
    destruct (String.compare k k') eqn:E; simpl.
    + by apply String.compare_eq_iff in E.
    + rewrite String.eqb_refl. apply String.eqb_neq in Hne. rewrite Hne.
      by rewrite remove_absent.
    + apply String.eqb_neq in Hne. rewrite Hne. by rewrite IH.
Qed.

Lemma drop_connection_fresh {S} h (x : S) (l : list (nat * S)) :
  (forall c, c ∈ l -> fst c <> h) ->
  drop_connection h (l ++ [(h, x)])%list = l.
Proof.
  unfold drop_connection. induction l as [|c l IH]; intros Hl.
  - simpl. rewrite filter_cons_False by (simpl; by auto). done.
  - simpl. rewrite filter_cons_True by (apply Hl; by left).
    f_equal. apply IH. intros c' Hc'. apply Hl. by right.
Qed.

Lemma send_eq this function cmd data w w1 s1 :
  connectToServer this w = Ret true w1 -> objs w1 !! this = Some s1 ->
  let id := uuid_string (uuid_seed w1) in
  send this function cmd data w =
    Ret id (set_objs (fun h =>
              <[this := set_m_pending (QMap.insert id cmd)
                          (written (request_frame function id cmd data) s1)]> h)
              (set_uuid_seed S w1)).
Proof.
  intros Hc Hs1 id. unfold send. erewrite bind_eq; [|exact Hc].
  cbv beta iota delta [negb]. erewrite bind_eq; [|reflexivity]. cbv beta. fold id.
  erewrite bind_eq; [|by apply (write_frame_eq _ _ (set_uuid_seed S w1) s1)].
  erewrite bind_eq; [|apply update_this_eq; simpl; apply lookup_insert_eq].
  by rewrite set_objs_twice.
Qed.

Lemma send_fail this function cmd data w w1 :
  connectToServer this w = Ret false w1 ->
  send this function cmd data w = Ret "" w1.
Proof. intros Hc. unfold send. by erewrite bind_eq; [|exact Hc]. Qed.

Lemma execute_eq this cmd data w w1 s1 :
  connectToServer this w = Ret true w1 -> objs w1 !! this = Some s1 ->
  let id := uuid_string (uuid_seed w1) in
  execute this cmd data w =
    Ret id (set_objs (fun h =>
              <[this := set_on_message
                          (fun l => (l ++ [(next_connection s1,
                                            ExecuteSlot id cmd data)])%list)
                          (set_next_connection S
                             (set_m_pending (QMap.insert id cmd)
                                (written (request_frame "WFSExecute" id cmd data)
                                   s1)))]> h)
              (set_uuid_seed S w1)).
Proof.
  intros Hc Hs1 id. unfold execute.
  erewrite bind_eq; [|by apply send_eq]. cbv beta zeta.
  change (isEmptyString (uuid_string (uuid_seed w1))) with false. cbv iota.
  erewrite bind_eq; [|apply connect_message_eq; simpl; apply lookup_insert_eq].
  rewrite set_objs_twice. cbn [next_connection set_m_pending].
  destruct (written_fields (request_frame "WFSExecute"
              (uuid_string (uuid_seed w1)) cmd data) s1)
    as (_ & _ & _ & _ & _ & E & _).
  rewrite E. done.
Qed.

(** X8. [execute] returns the empty string exactly when [connectToServer]
    fails, and then it leaves no pending request, connects no lambda and
    writes nothing. When the connection is there it returns the next id of
    the generator, never empty; the request is pending under that id with
    its command code, one lambda for that id is connected behind the
    others, and one frame - function WFSExecute, the command, its data and
    the id - is written behind what was sent before; no signal is emitted
    and the queues and the cache stay. *)
Theorem execute_outcome (this : nat) (cmd : string) (data : QVariant)
    (w : World) (s : QXfsSocketStream) :
  objs w !! this = Some s ->
  let id := uuid_string (uuid_seed w) in
  (forall w1, connectToServer this w = Ret false w1 ->
     execute this cmd data w = Ret "" w1 /\
     pending_of this w1 = m_pending s /\ slots_of this w1 = on_message s /\
     tx_of this w1 = tx_of this w) /\
  (forall w1, connectToServer this w = Ret true w1 ->
     exists w',
       execute this cmd data w = Ret id w' /\ id <> "" /\
       pending_of this w' = QMap.insert id cmd (m_pending s) /\
       slots_of this w' =
         (on_message s ++ [(next_connection s, ExecuteSlot id cmd data)])%list /\
       tx_of this w' =
         (tx_of this w ++ [request_frame "WFSExecute" id cmd data])%list /\
       uuid_seed w' = S (uuid_seed w) /\ trace w' = trace w /\
       commands w' = commands w /\ m_capabilities w' = m_capabilities w).
Proof.
  intros Hs id.
  assert (forall b w1, connectToServer this w = Ret b w1 ->
    exists s1, objs w1 !! this = Some s1 /\ m_pending s1 = m_pending s /\
      on_message s1 = on_message s /\ next_connection s1 = next_connection s /\
      tx_of this w1 = tx_of this w /\ is_Some (io_device s1) /\
      uuid_seed w1 = uuid_seed w /\ trace w1 = trace w /\
      commands w1 = commands w /\ m_capabilities w1 = m_capabilities w) as Hfr.
  { intros b w1 Hc. pose proof (connectToServer_moves _ _ _ _ Hc) as Hm.
    destruct (socket_moved_at this w w1 s Hm Hs) as (s1 & Hs1 & Hso).
    destruct (socket_only_fields s s1 Hso)
      as (_ & _ & Hp & Hom & _ & _ & Hnc & _).
    destruct (connectToServer_tx this w b w1 Hc) as (Htx & s1' & k1 & Hs1' & Hk1).
    rewrite Hs1 in Hs1'. injection Hs1' as <-.
    destruct Hm as (_ & Hcm & Hcap & Htr & Hu & _).
    exists s1. repeat split; done. }
  split.
  - intros w1 Hc.
    destruct (Hfr false w1 Hc) as (s1 & Hs1 & Hp & Hom & _ & Htx & _).
    split; [unfold execute; by erewrite bind_eq; [|by apply send_fail]|].
    unfold pending_of, slots_of, obj_field. by rewrite Hs1.
  - intros w1 Hc.
    destruct (Hfr true w1 Hc)
      as (s1 & Hs1 & Hp & Hom & Hnc & Htx & Hio & Hu & Htr & Hcm & Hcap).
    rewrite (execute_eq this cmd data w w1 s1 Hc Hs1). cbv zeta.
    rewrite Hu. fold id. eexists. split; [reflexivity|].
    split; [done|].
    set (fr := request_frame "WFSExecute" id cmd data).
    destruct (written_fields fr s1) as (Em & _ & _ & _ & _ & _ & _ & Ep).
    unfold pending_of, slots_of, obj_field. simpl. rewrite lookup_insert_eq.
    simpl. rewrite Ep, Em, Hp, Hom, Hnc.
    split; [done|]. split; [done|]. split; [|by rewrite Hu].
    rewrite (tx_of_written this fr s1 (set_uuid_seed S w1) Hio) by done.
    rewrite <- Htx. unfold tx_of, obj_field. simpl.
    by rewrite lookup_insert_eq, Hs1.
Qed.

Lemma issued_next w w' id :
  uuid_seed w' = S (uuid_seed w) ->
  issued w id \/ id = uuid_string (uuid_seed w) -> issued w' id.
Proof.
  intros Hu [(n & Hn & ->)| ->]; eexists; (split; [|reflexivity]); lia.
Qed.

(** A request added under the next id, its lambda connected last. *)
Lemma tidy_add w w' s s' v slot :
  let id := uuid_string (uuid_seed w) in
  tidy w s -> uuid_seed w' = S (uuid_seed w) ->
  m_pending s' = QMap.insert id v (m_pending s) ->
  on_message s' = (on_message s ++ [(next_connection s, slot)])%list ->
  slot_id slot = Some id ->
  (forall fid i cat, slot <> GetInfoSlot fid i cat) ->
  next_connection s' = S (next_connection s) -> frames s' = frames s ->
  tidy w' s'.
Proof.
  intros id ((Hk & Hh & Hi & Hp & Hf) & Hpi & Hsi & Hlt) Hu Ep Em Hslot Hng
    Enc Ef.
  assert (id ∉ QMap.keys (m_pending s)) as Hfresh.
  { intros Hin. by apply (not_issued_next w), Hpi. }
  split; [split; [|split; [|split; [|split]]]|split; [|split]].
  - rewrite Ep. by apply NoDup_insert_keys.
  - rewrite Em, map_app. apply NoDup_app. split; [done|]. split.
    + intros h Hin Hin'. apply list_elem_of_singleton in Hin'. simpl in Hin'.
      apply list_elem_of_fmap in Hin as (c & -> & Hc).
      specialize (Hlt c Hc). lia.
    + apply NoDup_singleton.
  - rewrite Em, omap_app. apply NoDup_app. split; [done|]. split.
    + intros x Hin Hin'. simpl in Hin'. rewrite Hslot in Hin'.
      apply list_elem_of_singleton in Hin'. subst x.
      apply list_elem_of_omap in Hin as (c & Hc & Hx).
      by apply (not_issued_next w), (Hsi c).
    + simpl. rewrite Hslot. apply NoDup_singleton.
  - intros x Hx. rewrite Ep in Hx. apply keys_insert in Hx as [->|Hx].
    + exists (next_connection s, slot). split; [|done].
      rewrite Em. apply elem_of_app. right. by left.
    + destruct (Hp x Hx) as (c & Hc & Hcx). exists c. split; [|done].
      rewrite Em. apply elem_of_app. by left.
  - intros c fid i cat Hc Hsnd. rewrite Ef. rewrite Em in Hc.
    apply elem_of_app in Hc as [Hc|Hc]; [by eapply Hf|].
    apply list_elem_of_singleton in Hc. subst c. by destruct (Hng fid i cat).
  - intros x Hx. rewrite Ep in Hx. apply (issued_next w); [done|].
    apply keys_insert in Hx as [->|Hx]; [by right|left; by apply Hpi].
  - intros c x Hc Hx. rewrite Em in Hc. apply (issued_next w); [done|].
    apply elem_of_app in Hc as [Hc|Hc]; [left; by eapply Hsi|].
    apply list_elem_of_singleton in Hc. subst c. simpl in Hx.
    rewrite Hslot in Hx. injection Hx as <-. by right.
  - intros c Hc. rewrite Enc. rewrite Em in Hc.
    apply elem_of_app in Hc as [Hc|Hc]; [specialize (Hlt c Hc); lia|].
    apply list_elem_of_singleton in Hc. subst c. simpl. lia.
Qed.

Lemma tidy_moved w w1 s s1 :
  tidy w s -> socket_moved w w1 -> socket_only s s1 -> tidy w1 s1.
Proof.
  intros ((Hk & Hh & Hi & Hp & Hf) & Hpi & Hsi & Hlt)
    (_ & _ & _ & _ & Hu & _) Hso.
  destruct (socket_only_fields s s1 Hso)
    as (_ & _ & Ep & Em & _ & _ & Enc & Ef & _).
  unfold tidy, served, issued. by rewrite Ep, Em, Enc, Ef, Hu.
Qed.

(** X9. A proxy as the constructor leaves it has every pending request
    served by one connected lambda - it has none - with ids that come from
    the generator; [connectToServer], [execute] and [cancel] keep that up,
    whatever they return. So the pending map and the lambdas on [message]
    stay matched one to one as long as requests are only sent. *)
Theorem requests_keep_served (this : nat) (w : World) (s : QXfsSocketStream) :
  (forall deviceAddress deviceId strClass p w',
     QXfsSocketStream_new deviceAddress deviceId strClass w = Ret p w' ->
     exists s', objs w' !! p = Some s' /\ tidy w' s' /\
                m_pending s' = [] /\ on_message s' = [(0, CtorSlot)]) /\
  (objs w !! this = Some s -> tidy w s ->
     (forall b w', connectToServer this w = Ret b w' ->
        exists s', objs w' !! this = Some s' /\ tidy w' s') /\
     (forall cmd data id w', execute this cmd data w = Ret id w' ->
        exists s', objs w' !! this = Some s' /\ tidy w' s') /\
     (forall reqMsgId id w', cancel this reqMsgId w = Ret id w' ->
        exists s', objs w' !! this = Some s' /\ tidy w' s')).
Proof.
  split.
  - intros deviceAddress deviceId strClass p w' Hnew.
    unfold QXfsSocketStream_new in Hnew.
    apply bind_Ret_inv in Hnew as (p0 & w1 & E1 & Hnew).
    apply bind_Ret_inv in Hnew as ([] & w2 & E2 & Hnew).
    apply bind_Ret_inv in Hnew as ([] & w3 & E3 & Hnew).
    apply bind_Ret_inv in Hnew as ([] & w4 & E4 & Hnew).
    apply bind_Ret_inv in Hnew as ([] & w5 & E5 & Hnew).
    apply bind_Ret_inv in Hnew as ([] & w6 & E6 & Hnew).
    apply bind_Ret_inv in Hnew as ([] & w7 & E7 & Hnew).
    injection E1 as <- <-. injection E6 as <-. injection E7 as <-.
    injection Hnew as <- <-. eexists. simpl. rewrite lookup_insert_eq.
    split; [reflexivity|]. split; [|done]. simpl.
    split; [split; [|split; [|split; [|split]]]|split; [|split]]; simpl.
    + apply NoDup_nil_2.
    + apply NoDup_singleton.
    + apply NoDup_nil_2.
    + intros id Hin. by apply elem_of_nil in Hin.
    + intros c fid id cat Hc Hsnd. apply list_elem_of_singleton in Hc.
      by subst c.
    + intros id Hin. by apply elem_of_nil in Hin.
    + intros c id Hc Hsnd. apply list_elem_of_singleton in Hc. by subst c.
    + intros c Hc. apply list_elem_of_singleton in Hc. subst c. simpl. lia.
  - intros Hs Ht.
    assert (forall b w1, connectToServer this w = Ret b w1 ->
      exists s1, objs w1 !! this = Some s1 /\ tidy w1 s1) as Hconn.
    { intros b w1 Hc. pose proof (connectToServer_moves _ _ _ _ Hc) as Hm.
      destruct (socket_moved_at this w w1 s Hm Hs) as (s1 & Hs1 & Hso).
      exists s1. split; [done|]. by eapply tidy_moved. }
    split; [exact Hconn|]. split.
    + intros cmd data id w' Hex'. pose proof Hex' as Hex.
      unfold execute, send in Hex.
      apply bind_Ret_inv in Hex as (id0 & w0 & Hsend & Hex).
      apply bind_Ret_inv in Hsend as (b & w1 & Hc & Hsend).
      destruct (Hconn b w1 Hc) as (s1 & Hs1 & Ht1). destruct b.
      * rewrite (execute_eq this cmd data w w1 s1 Hc Hs1) in Hex'.
        injection Hex' as <- <-. eexists. simpl. rewrite lookup_insert_eq.
        split; [reflexivity|].
        set (fr := request_frame _ _ _ _).
        destruct (written_fields fr s1) as (Em & _ & _ & Ef & _ & Enc & _ & Ep).
        eapply (tidy_add w1 _ s1); [exact Ht1|done|simpl; by rewrite Ep|
          simpl; by rewrite Em|done|done|simpl; by rewrite Enc|simpl; by rewrite Ef].
      * injection Hsend as <- <-. injection Hex as <- <-. by eauto.
    + intros reqMsgId id w' Hcan.
      pose proof Hcan as Hcan'. unfold cancel in Hcan'.
      apply bind_Ret_inv in Hcan' as (b & w1 & Hc & Hrest).
      destruct (Hconn b w1 Hc) as (s1 & Hs1 & Ht1). destruct b.
      * rewrite (cancel_eq this reqMsgId w w1 s1 Hc Hs1) in Hcan.
        injection Hcan as <- <-. eexists. simpl. rewrite lookup_insert_eq.
        split; [reflexivity|].
        set (fr := cancel_frame _ _). set (s2 := set_m_pending _ _).
        destruct (written_fields fr s2) as (Em & _ & _ & Ef & _ & Enc & _ & Ep).
        eapply (tidy_add w1 _ s1); [exact Ht1|done|by rewrite Ep|
          by rewrite Em|done|done|by rewrite Enc|by rewrite Ef].
      * injection Hrest as <- <-. by eauto.
Qed.

(** An [execute] that has returned an id has gone through a successful
    [connectToServer]. *)
Lemma execute_sent this cmd data w s id w' :
  objs w !! this = Some s -> execute this cmd data w = Ret id w' ->
  id <> "" ->
  exists w1 s1,
    connectToServer this w = Ret true w1 /\ objs w1 !! this = Some s1 /\
    socket_moved w w1 /\ socket_only s s1 /\
    id = uuid_string (uuid_seed w1) /\
    w' = set_objs (fun h =>
           <[this := set_on_message
                       (fun l => (l ++ [(next_connection s1,
                                         ExecuteSlot id cmd data)])%list)
                       (set_next_connection S
                          (set_m_pending (QMap.insert id cmd)
                             (written (request_frame "WFSExecute" id cmd data)
                                s1)))]> h)
           (set_uuid_seed S w1).
Proof.
  intros Hs Hex Hid. pose proof Hex as Hex'. unfold execute, send in Hex'.
  apply bind_Ret_inv in Hex' as (id0 & w0 & Hsend & Hex').
  apply bind_Ret_inv in Hsend as (b & w1 & Hc & Hsend).
  pose proof (connectToServer_moves _ _ _ _ Hc) as Hm.
  destruct (socket_moved_at this w w1 s Hm Hs) as (s1 & Hs1 & Hso).
  destruct b.
  - rewrite (execute_eq this cmd data w w1 s1 Hc Hs1) in Hex.
    injection Hex as <- <-. by exists w1, s1.
  - injection Hsend as <- <-. by injection Hex' as <- <-.
Qed.

(** X10. On a proxy that is in order - its pending requests served, their
    ids and handles handed out by the library -, with the registered
    proxies alive and with no lambda of a returned [syncCancel] left
    connected (every connected lambda of [syncCancel] finds its locals):
    an [execute] that has sent its request, answered by a frame that
    carries its id and an [hResult] other than the success value (and no
    [message] field). The dispatch of the frame returns, the pending map
    and the lambdas on [message] are again what they were before the
    [execute], and of [message], [executeComplete] and [cancelComplete]
    the proxy has emitted [message] with the frame and then one
    [executeComplete] with it. Where a returned [syncCancel] has left its
    lambda connected the statement is silent: a lambda left waiting for
    this very id would run through its dangling references. *)
Theorem execute_failure_round_trip (this : nat) (cmd : string)
    (data : QVariant) (w w1 : World) (s : QXfsSocketStream) (id : string)
    (msg : QVariantMap) :
  objs w !! this = Some s -> registry_live w -> sync_live s -> tidy w s ->
  execute this cmd data w = Ret id w1 -> id <> "" ->
  msgid_is msg id = true ->
  eqQString (hResult_of msg) "WFS_SUCCESS" = false ->
  with_hResult msg = msg -> QMap.find "message" msg = None ->
  exists w2,
    emit_message this msg w1 = Ret tt w2 /\
    pending_of this w2 = m_pending s /\ slots_of this w2 = on_message s /\
    outcomes (new_trace w1 w2) =
      [(this, message msg); (this, executeComplete msg)].
Proof.
  intros Hs Hreg Hlive Ht Hex Hne Hid Hfail Hres Hm.
  destruct (execute_sent this cmd data w s id w1 Hs Hex Hne)
    as (w0 & s0 & Hc & Hs0 & Hmv & Hso & Eid & ->).
  subst id. set (id := uuid_string (uuid_seed w0)) in *.
  pose proof (tidy_moved w w0 s s0 Ht Hmv Hso) as Ht0.
  destruct (socket_only_fields s s0 Hso)
    as (_ & _ & Ep & Em & Ecc & Eec & Enc & Ef & _).
  set (fr := request_frame "WFSExecute" id cmd data) in *.
  destruct (written_fields fr s0) as (Em' & Ecc' & Eec' & Ef' & _ & Enc' & _ & Ep').
  set (s2 := set_on_message _ _).
  set (w2 := set_objs _ _).
  assert (objs w2 !! this = Some s2) as Hs2
    by (subst w2; simpl; apply lookup_insert_eq).
  assert (m_pending s2 = QMap.insert id cmd (m_pending s0)) as Ep2
    by (subst s2; simpl; by rewrite Ep').
  assert (on_message s2 =
          (on_message s0 ++ [(next_connection s0, ExecuteSlot id cmd data)])%list)
    as Em2 by (subst s2; simpl; by rewrite Em').
  assert (tidy w2 s2) as Ht2.
  { eapply (tidy_add w0 w2 s0 s2 cmd (ExecuteSlot id cmd data));
      [exact Ht0|done|done|done|done|done|subst s2; simpl; by rewrite Enc'|subst s2; simpl; by rewrite Ef']. }
  assert (registry_live w2) as Hreg2.
  { unfold registry_live in *. subst w2. simpl.
    destruct Hmv as (Hd & _ & _ & _ & _ & _ & _ & _ & Ho). rewrite Hd.
    eapply Forall_impl; [exact Hreg|]. intros d [x Hx]. simpl.
    destruct (decide (d = this)) as [->|Hd'].
    - rewrite lookup_insert_eq. by eexists.
    - rewrite lookup_insert_ne by done. specialize (Ho d). rewrite Hx in Ho.
      inversion Ho. by eexists. }
  assert (sync_live s2) as Hlive2.
  { unfold sync_live in *. subst s2. simpl. by rewrite Ecc', Eec', Ef', Ecc, Eec, Ef. }
  assert (id ∉ QMap.keys (m_pending s0)) as Hfresh.
  { intros Hin. destruct Ht0 as (_ & Hpi & _).
    by apply (not_issued_next w0), Hpi. }
  destruct (emit_message_lost this id msg w2 s2 Hs2 Hreg2 Hlive2 (proj1 Ht2))
    as (h & slot & w' & s' & Hin & Hslot & Huniq & Hrun & Hstep);
    [rewrite Ep2; apply keys_insert; by left|done..|].
  assert ((next_connection s0, ExecuteSlot id cmd data) = (h, slot)) as Ehs.
  { apply Huniq; [|by left]. rewrite Em2. apply elem_of_app. right. by left. }
  injection Ehs as <- <-.
  destruct Hstep as (Ho & _ & Epd & Emd & _ & _ & _ & X & HtX & HX).
  exists w'. split; [exact Hrun|].
  unfold pending_of, slots_of, obj_field. rewrite Ho, lookup_insert_eq.
  rewrite Epd, Emd, Ep2, Em2.
  rewrite remove_insert_absent by done.
  rewrite drop_connection_fresh.
  2:{ intros c Hin0. destruct Ht0 as (_ & _ & _ & Hlt).
      specialize (Hlt c Hin0). lia. }
  split; [done|]. split; [done|].
  rewrite (new_trace_app w2 w' ([(this, message msg)] ++ X)%list).
  - rewrite outcomes_app, HX. done.
  - rewrite HtX. simpl. by rewrite <- app_assoc.
Qed.

(** * The registry of proxies *)

Lemma registry_exact_update w p s s' :
  registry_exact w -> objs w !! p = Some s ->
  registry_exact (set_objs (fun h => <[p := s']> h) w).
Proof.
  intros (Hnd & Hdom & Hlt) Hp.
  assert (forall q, is_Some (<[p := s']> (objs w) !! q) <->
                    is_Some (objs w !! q)) as Hq.
  { intros q. destruct (decide (q = p)) as [->|Hne].
    - rewrite lookup_insert_eq, Hp. split; by eauto.
    - by rewrite lookup_insert_ne. }
  split; [done|]. split; simpl.
  - intros q. by rewrite Hq.
  - intros q Hin. apply Hlt. by apply Hq.
Qed.

Lemma registry_exact_ignores_slots :
  ignores_slots registry_exact any_signal.
Proof.
  split; [by intros w e Hw _|].
  split; [repeat split; intros; by eapply registry_exact_update|].
  split; [by intros w e Hw|]. split; [by intros w f Hw|].
  split; intros; by eapply registry_exact_update.
Qed.

Lemma registry_exact_ignores_socket : ignores_socket registry_exact.
Proof. split; intros; by eapply registry_exact_update. Qed.

Lemma registry_exact_ignores_connect : ignores_connect registry_exact.
Proof.
  split; [by intros w f Hw|]. split; [by intros w f Hw|].
  split; [by intros w f Hw|]. intros; by eapply registry_exact_update.
Qed.

Lemma pres_update_this_registry this f :
  pres registry_exact (update_this this f).
Proof. apply pres_update_this. intros. by eapply registry_exact_update. Qed.

Ltac reg_step :=
  first
    [ apply pres_update_this_registry
    | apply pres_connectToServer_ignored; apply registry_exact_ignores_connect
    | apply pres_modify; by intros ? ?
    | pres_step ].

Lemma pres_send_registry this function cmd data :
  pres registry_exact (send this function cmd data).
Proof.
  unfold send, createUuid, write_frame, update_socket. repeat reg_step.
Qed.

Lemma pres_connect_message_registry this slot :
  pres registry_exact (connect_message this slot).
Proof. unfold connect_message, new_connection. repeat reg_step. Qed.

Lemma pres_execute_registry this cmd data :
  pres registry_exact (execute this cmd data).
Proof.
  unfold execute. reg_step; [apply pres_send_registry|].
  reg_step; [reg_step|]. reg_step; [apply pres_connect_message_registry|].
  reg_step.
Qed.

Lemma pres_cancel_registry this reqMsgId :
  pres registry_exact (cancel this reqMsgId).
Proof.
  unfold cancel. reg_step; [reg_step|]. reg_step; [reg_step|].
  unfold createUuid, write_frame, update_socket.
  repeat first [apply pres_connect_message_registry | reg_step].
Qed.

Lemma pres_QEventLoop_exec_registry rd this fid :
  pres registry_exact (QEventLoop_exec rd this fid).
Proof.
  unfold QEventLoop_exec. reg_step; [reg_step|].
  apply pres_loop_exec_ignored;
    [apply registry_exact_ignores_slots|apply registry_exact_ignores_socket|
     by intros w f Hw].
Qed.

Lemma pres_getInfo_registry rd this category queryDetails :
  pres registry_exact (getInfo rd this category queryDetails).
Proof.
  unfold getInfo. reg_step; [apply pres_send_registry|].
  reg_step; [reg_step|]. unfold new_frame, drop_frame.
  repeat first [ apply pres_connect_message_registry
               | apply pres_QEventLoop_exec_registry
               | reg_step ].
Qed.

Lemma pres_syncCancel_registry rd this reqMsgId :
  pres registry_exact (syncCancel rd this reqMsgId).
Proof.
  unfold syncCancel. reg_step; [apply pres_cancel_registry|].
  reg_step; [reg_step|].
  unfold new_frame, drop_frame, connect_cancelComplete,
    connect_executeComplete, new_connection.
  repeat first [ apply pres_QEventLoop_exec_registry | reg_step ].
Qed.

Lemma pres_capabilities_of_registry this :
  pres registry_exact (capabilities_of this).
Proof.
  unfold capabilities_of. reg_step; [reg_step|]. reg_step; [reg_step|].
  destruct (QMap.index _ _ _). repeat reg_step.
Qed.

Lemma pres_getCapabilities_registry rd this :
  pres registry_exact (getCapabilities rd this).
Proof.
  unfold getCapabilities. reg_step; [reg_step|].
  reg_step; [apply pres_getInfo_registry|]. repeat reg_step.
Qed.

Lemma elem_of_removeOne x y l :
  NoDup l -> y ∈ removeOne x l <-> y ∈ l /\ y <> x.
Proof.
  induction l as [|z l IH]; simpl; intros Hnd.
  - rewrite elem_of_nil. tauto.
  - apply NoDup_cons in Hnd as [Hz Hnd]. destruct (Nat.eqb x z) eqn:E.
    + apply Nat.eqb_eq in E. subst z. rewrite elem_of_cons. split.
      * intros Hy. split; [by right|]. by intros ->.
      * intros [[->|Hy] Hne]; done.
    + apply Nat.eqb_neq in E. rewrite !elem_of_cons, (IH Hnd). split.
      * intros [->|[Hy Hne]]; [split; [by left|done]|split; [by right|done]].
      * intros [[->|Hy] Hne]; [by left|by right].
Qed.

Lemma NoDup_removeOne x l : NoDup l -> NoDup (removeOne x l).
Proof.
  induction l as [|z l IH]; simpl; intros Hnd; [done|].
  apply NoDup_cons in Hnd as [Hz Hnd]. destruct (Nat.eqb x z); [done|].
  apply NoDup_cons. split; [|by apply IH].
  rewrite (elem_of_removeOne x z l Hnd). tauto.
Qed.

Lemma QXfsSocketStream_new_registry a d c w p w' :
  registry_exact w -> QXfsSocketStream_new a d c w = Ret p w' ->
  registry_exact w' /\ p = next_ptr w /\ (p ∉ devices w) /\
  devices w' = (devices w ++ [p])%list /\
  forall q, q <> p -> objs w' !! q = objs w !! q.
Proof.
  intros (Hnd & Hdom & Hlt) Hnew. unfold QXfsSocketStream_new in Hnew.
  apply bind_Ret_inv in Hnew as (p0 & w1 & E1 & Hnew).
  apply bind_Ret_inv in Hnew as ([] & w2 & E2 & Hnew).
  apply bind_Ret_inv in Hnew as ([] & w3 & E3 & Hnew).
  apply bind_Ret_inv in Hnew as ([] & w4 & E4 & Hnew).
  apply bind_Ret_inv in Hnew as ([] & w5 & E5 & Hnew).
  apply bind_Ret_inv in Hnew as ([] & w6 & E6 & Hnew).
  apply bind_Ret_inv in Hnew as ([] & w7 & E7 & Hnew).
  injection E1 as <- <-. injection E2 as <-. injection E3 as <-.
  unfold Q_ASSERT in E4, E5. simpl in E4, E5.
  destruct (_ && _) in E4; [done|]. injection E4 as <-.
  destruct (_ && _) in E5; [done|]. injection E5 as <-.
  injection E6 as <-. injection E7 as <-. injection Hnew as <- <-.
  assert (next_ptr w ∉ devices w) as Hfresh.
  { intros Hin. apply Hdom, Hlt in Hin. lia. }
  split; [|split; [done|split; [done|split; [done|]]]].
  - split; [|split]; simpl.
    + apply NoDup_app. split; [done|]. split; [|apply NoDup_singleton].
      intros x Hx Hx'. apply list_elem_of_singleton in Hx'. by subst x.
    + intros q. rewrite elem_of_app, list_elem_of_singleton.
      destruct (decide (q = next_ptr w)) as [->|Hne].
      * rewrite lookup_insert_eq. split; [by eauto|by right].
      * rewrite lookup_insert_ne by done. rewrite <- Hdom; tauto.
    + intros q. destruct (decide (q = next_ptr w)) as [->|Hne]; [lia|].
      rewrite lookup_insert_ne by done. intros Hq. apply Hlt in Hq. lia.
  - intros q Hq. simpl. by rewrite lookup_insert_ne.
Qed.

Lemma QXfsSocketStream_delete_registry this w w' :
  registry_exact w -> QXfsSocketStream_delete this w = Ret tt w' ->
  registry_exact w' /\ objs w' !! this = None /\ (this ∉ devices w') /\
  (forall q, q <> this -> objs w' !! q = objs w !! q) /\
  forall q, q ∈ devices w' <-> q ∈ devices w /\ q <> this.
Proof.
  intros (Hnd & Hdom & Hlt) Hdel. unfold QXfsSocketStream_delete in Hdel.
  apply bind_Ret_inv in Hdel as (s & w1 & Hs & Hdel).
  unfold this_obj in Hs. destruct (objs w !! this) as [s0|] eqn:Hthis; [|done].
  injection Hs as <- <-. destruct (m_socket _) as [k|]; [|done].
  injection Hdel as <-. simpl.
  split; [split; [|split]|split; [|split; [|split]]]; simpl.
  - by apply NoDup_removeOne.
  - intros q. rewrite (elem_of_removeOne this q _ Hnd).
    destruct (decide (q = this)) as [->|Hne].
    + rewrite lookup_delete_eq. split; [tauto|]. by intros [? ?].
    + rewrite lookup_delete_ne by done. rewrite <- Hdom; tauto.
  - intros q. destruct (decide (q = this)) as [->|Hne].
    + rewrite lookup_delete_eq. by intros [? ?].
    + rewrite lookup_delete_ne by done. apply Hlt.
  - apply lookup_delete_eq.
  - rewrite (elem_of_removeOne this this _ Hnd). tauto.
  - intros q Hq. by rewrite lookup_delete_ne.
  - intros q. apply (elem_of_removeOne this q _ Hnd).
Qed.

(** X11. The registry is exact - [devices] lists the live proxies, each
    once - in a fresh process, and every operation of the library keeps it
    so, whether it returns or is left waiting: the constructor, which
    appends the new proxy under a pointer not in use, the destructor, which
    takes its proxy - and only it - out of the list, the dispatch of any
    socket event, [execute], [cancel], [syncCancel], [getInfo],
    [getCapabilities] and [connectToServer]. An exact registry holds no
    dangling pointer, which is what the broadcast of [execute] relies
    on. *)
Theorem registry_kept (rd : list byte -> ReadStatus) :
  (forall debug waits events,
     registry_exact (fresh_world debug waits events)) /\
  (forall w, registry_exact w -> registry_live w) /\
  (forall a d c w p w',
     registry_exact w -> QXfsSocketStream_new a d c w = Ret p w' ->
     registry_exact w' /\ p = next_ptr w /\ (p ∉ devices w) /\
     devices w' = (devices w ++ [p])%list /\
     forall q, q <> p -> objs w' !! q = objs w !! q) /\
  (forall this w w',
     registry_exact w -> QXfsSocketStream_delete this w = Ret tt w' ->
     registry_exact w' /\ objs w' !! this = None /\ (this ∉ devices w') /\
     (forall q, q <> this -> objs w' !! q = objs w !! q) /\
     forall q, q ∈ devices w' <-> q ∈ devices w /\ q <> this) /\
  (forall ev, pres registry_exact (deliver rd ev)) /\
  (forall this, pres registry_exact (connectToServer this)) /\
  (forall this cmd data, pres registry_exact (execute this cmd data)) /\
  (forall this reqMsgId, pres registry_exact (cancel this reqMsgId)) /\
  (forall this reqMsgId, pres registry_exact (syncCancel rd this reqMsgId)) /\
  (forall this category queryDetails,
     pres registry_exact (getInfo rd this category queryDetails)) /\
  (forall this, pres registry_exact (getCapabilities rd this)).
Proof.
  split; [|split; [|split; [|split; [|split; [|split; [|split; [|split;
    [|split; [|split]]]]]]]]].
  - intros debug waits events. split; [apply NoDup_nil_2|]. split; simpl.
    + intros p. rewrite elem_of_nil, lookup_empty. split; [done|].
      by intros [? ?].
    + intros p. rewrite lookup_empty. by intros [? ?].
  - intros w (_ & Hdom & _). apply Forall_forall. intros p Hp. by apply Hdom.
  - intros a d c w p w'. apply QXfsSocketStream_new_registry.
  - intros this w w'. apply QXfsSocketStream_delete_registry.
  - intros ev. apply pres_deliver_ignored;
      [apply registry_exact_ignores_slots|apply registry_exact_ignores_socket].
  - intros this. apply pres_connectToServer_ignored,
      registry_exact_ignores_connect.
  - intros. apply pres_execute_registry.
  - intros. apply pres_cancel_registry.
  - intros. apply pres_syncCancel_registry.
  - intros. apply pres_getInfo_registry.
  - intros. apply pres_getCapabilities_registry.
Qed.

(** * Status and the cache of capabilities *)


(** X13. [capabilities], on a proxy on which no [getInfo] is under way,
    when it returns: the cache holds, under the device identity of the
    proxy, the snapshot that was returned, and the entries of the other
    identities are what they were. An empty snapshot is no answer: after it
    the next [capabilities] on any proxy of that identity asks the device
    again. *)
Theorem capabilities_entry (rd : list byte -> ReadStatus) (this : nat)
    (w w1 : World) (s : QXfsSocketStream) (caps : QVariantMap) :
  objs w !! this = Some s -> getInfo_free (on_message s) ->
  capabilities rd this w = Ret caps w1 ->
  QMap.find (objectName s) (m_capabilities w1) = Some caps /\
  (forall name, name <> objectName s ->
     QMap.find name (m_capabilities w1) = QMap.find name (m_capabilities w)) /\
  (caps = [] ->
   forall that s2,
     objs w1 !! that = Some s2 -> objectName s2 = objectName s ->
     capabilities rd that w1 =
       (getCapabilities rd that ;; capabilities_of that) w1).
Proof.
  intros Hs Hfree Hrun.
  assert (forall that s2 wx c,
    objs wx !! that = Some s2 -> objectName s2 = objectName s ->
    QMap.find (objectName s) (m_capabilities wx) = Some c ->
    capabilities_of that wx = Ret c wx) as Hhit.
  { intros that s2 wx c Hs2 Hn Hf.
    apply (capabilities_of_cached that wx s2); [done|by rewrite Hn]. }
  assert (QMap.find (objectName s) (m_capabilities w1) = Some caps /\
          forall name, name <> objectName s ->
            QMap.find name (m_capabilities w1) =
            QMap.find name (m_capabilities w)) as [Hentry Hrest].
  { unfold capabilities in Hrun.
    erewrite bind_eq in Hrun; [|by apply capabilities_of_eq].
    rewrite index_fst in Hrun.
    set (cache := snd (QMap.index (objectName s) [] (m_capabilities w))) in *.
    set (wa := set_m_capabilities (fun _ => cache) w) in *.
    assert (QMap.find (objectName s) cache =
            Some (QMap.value (objectName s) [] (m_capabilities w))) as Hfa
      by apply index_snd_find.
    assert (forall name, name <> objectName s ->
              QMap.find name cache = QMap.find name (m_capabilities w)) as Hra.
    { intros name Hne. apply index_snd_find_ne. by apply not_eq_sym. }
    apply bind_Ret_inv in Hrun as ([] & wb & Hget & Hrun).
    destruct (QMap.isEmpty (QMap.value (objectName s) [] (m_capabilities w))).
    - unfold when, getCapabilities in Hget.
      erewrite bind_eq in Hget; [|by apply (this_obj_eq _ wa s)].
      apply bind_Ret_inv in Hget as (data & wc & Hinfo & Hstore).
      pose proof (getInfo_post rd this (m_capabilitiesCategory s) Invalid wa s
                    Hs Hfree) as Hpost.
      apply (post_Ret _ _ _ _ _ _ Hpost) in Hinfo.
      destruct Hinfo as ((sc & Hsc & Hnc) & Hcc & _).
      change (m_capabilities wa) with cache in Hcc.
      unfold modify, ret in Hstore.
      destruct (QMap.contains "lpBuffer" data); injection Hstore as <-.
      + rewrite (Hhit this sc _ (toMap (QMap.value "lpBuffer" Invalid data)))
          in Hrun; [|done|done|simpl; apply find_insert_eq].
        injection Hrun as <- <-. simpl. split; [apply find_insert_eq|].
        intros name Hne. rewrite find_insert_ne by by apply not_eq_sym.
        rewrite Hcc. by apply Hra.
      + rewrite (Hhit this sc wc _ Hsc Hnc) in Hrun by (by rewrite Hcc).
        injection Hrun as <- <-. rewrite Hcc. split; [done|]. exact Hra.
    - injection Hget as <-.
      rewrite (Hhit this s wa _ Hs eq_refl Hfa) in Hrun.
      injection Hrun as <- <-. by split. }
  split; [done|]. split; [done|].
  intros -> that s2 Hs2 Hn. unfold capabilities.
  erewrite bind_eq; [|by apply (Hhit that s2 w1 [])]. done.
Qed.

(** * The lambdas of [syncCancel] *)

Lemma free_but_new E w p s' :
  free_but E w -> on_cancelComplete s' = [] -> on_executeComplete s' = [] ->
  free_but E (set_objs (fun h => <[p := s']> h) w).
Proof.
  intros Hw Hc He q s Hq. simpl. destruct (decide (q = p)) as [->|Hne].
  - rewrite lookup_insert_eq. by intros [= <-].
  - rewrite lookup_insert_ne by done. by apply Hw.
Qed.

Lemma free_but_update E w p s s' :
  free_but E w -> objs w !! p = Some s ->
  (E p = false -> on_cancelComplete s' = on_cancelComplete s /\
                  on_executeComplete s' = on_executeComplete s) ->
  free_but E (set_objs (fun h => <[p := s']> h) w).
Proof.
  intros Hw Hs Hsame q s0 Hq. simpl. destruct (decide (q = p)) as [->|Hne].
  - rewrite lookup_insert_eq. intros [= <-].
    destruct (Hsame Hq) as [-> ->]. by apply (Hw p s).
  - rewrite lookup_insert_ne by done. by apply Hw.
Qed.

Lemma free_but_ignores_signals E : ignores_signals (free_but E) any_signal.
Proof. by intros w e Hw _. Qed.

Lemma free_but_ignores_sync E :
  ignores_sync (free_but E) (fun p => E p = true).
Proof.
  split; [|split]; intros w p s f Hp Hw Hs;
    (eapply free_but_update; [done..|]); intros Hq; congruence.
Qed.

Lemma free_but_ignores_socket E : ignores_socket (free_but E).
Proof. split; intros; by eapply free_but_update. Qed.

Lemma free_but_ignores_connect E : ignores_connect (free_but E).
Proof.
  split; [by intros w f Hw|]. split; [by intros w f Hw|].
  split; [by intros w f Hw|]. intros; by eapply free_but_update.
Qed.

Lemma pres_update_this_free E this f :
  (forall s, on_cancelComplete (f s) = on_cancelComplete s /\
             on_executeComplete (f s) = on_executeComplete s) ->
  pres (free_but E) (update_this this f).
Proof.
  intros Hf. apply pres_update_this. intros w s Hw Hs.
  eapply free_but_update; [done..|]. intros _. apply Hf.
Qed.

Lemma pres_emit_executeComplete_free E p msg :
  pres (free_but E) (emit_executeComplete p msg).
Proof.
  destruct (E p) eqn:Hp.
  - apply (pres_emit_executeComplete _ any_signal (fun p => E p = true));
      [apply free_but_ignores_signals|done|apply free_but_ignores_sync|done].
  - intros w Hw. unfold emit_executeComplete, emit. apply post_bind, post_modify.
    apply post_bind, post_this_obj. intros s Hs.
    destruct (Hw p s Hp Hs) as [_ ->]. by apply post_ret.
Qed.

Lemma pres_emit_cancelComplete_free E p msg :
  pres (free_but E) (emit_cancelComplete p msg).
Proof.
  destruct (E p) eqn:Hp.
  - apply (pres_emit_cancelComplete _ any_signal (fun p => E p = true));
      [apply free_but_ignores_signals|done|apply free_but_ignores_sync|done].
  - intros w Hw. unfold emit_cancelComplete, emit. apply post_bind, post_modify.
    apply post_bind, post_this_obj. intros s Hs.
    destruct (Hw p s Hp Hs) as [-> _]. by apply post_ret.
Qed.

Ltac free_step :=
  first
    [ apply pres_update_this_free; by intros ?
    | apply pres_connectToServer_ignored; apply free_but_ignores_connect
    | apply pres_modify; by intros ? ?
    | pres_step ].

Lemma pres_getInfo_slot_free E p fid id cat msg :
  pres (free_but E) (getInfo_slot p fid id cat msg).
Proof.
  unfold getInfo_slot, done, finishCommand, commands_of, put_frame, qWarning.
  cbv zeta. repeat free_step.
Qed.

Lemma pres_deliver_free E rd ev : pres (free_but E) (deliver rd ev).
Proof.
  apply (pres_deliver (free_but E) (fun _ _ => True)); try done.
  - intros. by eapply free_but_update.
  - intros. by eapply free_but_update.
  - intros. by apply pres_modify.
  - intros. apply pres_emit_executeComplete_free.
  - intros. apply pres_emit_cancelComplete_free.
  - intros. apply pres_getInfo_slot_free.
  - apply free_but_ignores_socket.
Qed.

Lemma pres_loop_exec_free E rd evs this fid :
  pres (free_but E) (loop_exec rd evs this fid).
Proof.
  apply (pres_loop_exec (free_but E) (fun _ _ => True)); try done.
  - intros. by eapply free_but_update.
  - intros. by eapply free_but_update.
  - intros. by apply pres_modify.
  - intros. apply pres_emit_executeComplete_free.
  - intros. apply pres_emit_cancelComplete_free.
  - intros. apply pres_getInfo_slot_free.
  - apply free_but_ignores_socket.
Qed.

Lemma pres_send_free E this function cmd data :
  pres (free_but E) (send this function cmd data).
Proof.
  unfold send, createUuid, write_frame, update_socket. repeat free_step.
Qed.

Lemma pres_execute_free E this cmd data :
  pres (free_but E) (execute this cmd data).
Proof.
  unfold execute. free_step; [apply pres_send_free|].
  unfold connect_message, new_connection. repeat free_step.
Qed.

Lemma pres_cancel_free E this reqMsgId :
  pres (free_but E) (cancel this reqMsgId).
Proof.
  unfold cancel, createUuid, write_frame, update_socket, connect_message,
    new_connection.
  repeat free_step.
Qed.

Lemma pres_getInfo_free E rd this category queryDetails :
  pres (free_but E) (getInfo rd this category queryDetails).
Proof.
  unfold getInfo. free_step; [apply pres_send_free|].
  unfold new_frame, drop_frame, connect_message, new_connection,
    QEventLoop_exec.
  repeat first [ apply pres_loop_exec_free | free_step ].
Qed.

Lemma pres_capabilities_of_free E this :
  pres (free_but E) (capabilities_of this).
Proof.
  unfold capabilities_of. free_step; [free_step|]. free_step; [free_step|].
  destruct (QMap.index _ _ _). repeat free_step.
Qed.

Lemma pres_getCapabilities_free E rd this :
  pres (free_but E) (getCapabilities rd this).
Proof.
  unfold getCapabilities. free_step; [free_step|].
  free_step; [apply pres_getInfo_free|]. repeat free_step.
Qed.

Lemma pres_constant {A} (P : Prop) J (c : M A) :
  pres J c -> pres (fun w => P -> J w) c.
Proof.
  intros H w Hw. unfold post. destruct (c w) as [a w'| |w'] eqn:E; [|done|].
  - intros HP. specialize (H w (Hw HP)). unfold post in H. by rewrite E in H.
  - intros HP. specialize (H w (Hw HP)). unfold post in H. by rewrite E in H.
Qed.

(** * What a returned [syncCancel] leaves connected *)

Lemma syncCancel_exit rd this reqMsgId w w1 s (K : World -> Prop) :
  objs w !! this = Some s -> sync_settled s ->
  execute_ids_set (on_message s) ->
  connectToServer this w = Ret true w1 ->
  of_others this K -> (forall ev, pres K (deliver rd ev)) ->
  post (syncCancel rd this reqMsgId)
       (fun b w' =>
          b = true /\
          exists s' fid h2,
            objs w' !! this = Some s' /\ frames s' !! fid = None /\
            on_cancelComplete s' = [] /\
            on_executeComplete s' =
              (on_executeComplete s ++
               (if execute_seen this reqMsgId (new_trace w w') then []
                else [(h2, SyncCancelC2 fid reqMsgId)]))%list /\
            Forall (stale s') (on_executeComplete s') /\
            (K w1 -> K w'))
       (fun _ => True) w.
Proof.
  intros Hs Hset Hids Hconn HK Hdel.
  set (cid := uuid_string (uuid_seed w1)).
  destruct (syncCancel_start rd this reqMsgId w w1 s Hs Hset Hids Hconn)
    as (fid & h1 & h2 & w3 & Erun & Hwait & _ & Hothers).
  fold cid in Hwait.
  set (old := on_executeComplete s) in *.
  set (J := fun x => waiting this fid cid reqMsgId h1 h2 old w x /\
                     (K w1 -> K x)).
  eapply post_run_eq; [exact Erun|].
  apply post_bind. unfold QEventLoop_exec. eapply post_bind_eq; [reflexivity|].
  eapply post_mono.
  - apply (loop_exec_post J rd this fid).
    + intros ev. apply pres_and; [apply waiting_deliver|].
      apply pres_constant, Hdel.
    + intros x f [Ha Hb]. split; [done|]. intros Hk.
      apply (HK x); [by apply Hb|done].
    + split; [done|]. intros Hk. by apply (HK w1).
  - intros [] w' [[(s' & rest & fin & ex & Hs' & Ht' & Hf' & Hcc & Hec & Hold
                     & [Hh2 Hfid] & Hex & _) HK'] Hflag].
    unfold exit_flag in Hflag. rewrite Hs', Hf' in Hflag. simpl in Hflag.
    injection Hflag as ->.
    apply post_bind, post_update_this. intros s'' Hs''. apply post_ret.
    rewrite Hs' in Hs''. injection Hs'' as <-. split; [done|].
    eexists _, fid, h2. simpl. rewrite lookup_insert_eq.
    split; [reflexivity|]. simpl. split; [apply lookup_delete_eq|].
    split; [|split; [|split]].
    + rewrite Hcc. symmetry in Hex. unfold wait_over in Hex.
      by destruct (cancel_reply this cid rest).
    + rewrite Hec. unfold new_trace. simpl. rewrite Ht'.
      by rewrite drop_app_length.
    + rewrite Hec. apply Forall_app. split.
      * eapply Forall_impl; [exact Hold|]. intros c [Hst _].
        eapply stale_kept; [| | |exact Hst]; simpl; [lia|lia|].
        intros i _ Hi. by rewrite lookup_delete_None; right.
      * destruct (execute_seen this reqMsgId rest); constructor; [|done].
        split; [simpl; lia|]. simpl. split; [apply lookup_delete_eq|lia].
    + intros Hk. apply (HK w'); [by apply HK'|].
      intros p Hp. simpl. by rewrite lookup_insert_ne.
  - done.
Qed.

Lemma settled_clean s :
  on_cancelComplete s = [] -> on_executeComplete s = [] -> sync_settled s.
Proof. intros Hc He. split; [done|]. rewrite He. constructor. Qed.

Lemma free_but_of_others this : of_others this (free_but (Nat.eqb this)).
Proof.
  intros x y Hx Hsame p sp Hp Hsp. apply Nat.eqb_neq in Hp.
  rewrite Hsame in Hsp by done. apply (Hx p sp); [|done].
  by apply Nat.eqb_neq.
Qed.

(** X14. [syncCancel] never disconnects its lambda on [executeComplete];
    only the lambda does, when the completion of the target arrives. So
    when [syncCancel] returns - on a proxy that had no such lambda left and
    whose pending executes carry an id - without the proxy having emitted
    the [executeComplete] of the target during the call (no target was
    given, or the reply to the cancel was a failure), that lambda is still
    connected while the locals it captured by reference are gone, and an
    [executeComplete] for the target emitted later makes the lambda use
    them - a use of dangling references, the fault [DanglingReference]. *)
Theorem syncCancel_leaves_lambda (rd : list byte -> ReadStatus) (this : nat)
    (reqMsgId : string) (w w1 w' : World) (s : QXfsSocketStream) (b : bool) :
  objs w !! this = Some s ->
  on_cancelComplete s = [] -> on_executeComplete s = [] ->
  execute_ids_set (on_message s) ->
  connectToServer this w = Ret true w1 ->
  syncCancel rd this reqMsgId w = Ret b w' ->
  execute_seen this reqMsgId (new_trace w w') = false ->
  (exists s' fid h,
     objs w' !! this = Some s' /\ frames s' !! fid = None /\
     on_executeComplete s' = [(h, SyncCancelC2 fid reqMsgId)]) /\
  (forall msg, msgid_is msg reqMsgId = true ->
     emit_executeComplete this msg w' = Stop DanglingReference).
Proof.
  intros Hs Hc0 He0 Hids Hconn Hrun Hseen.
  pose proof (syncCancel_exit rd this reqMsgId w w1 s (fun _ => True) Hs
                (settled_clean s Hc0 He0) Hids Hconn
                (fun _ _ _ _ => I) (fun ev => pres_true _)) as Hpost.
  apply (post_Ret _ _ _ _ _ _ Hpost) in Hrun.
  destruct Hrun as (_ & s' & fid & h & Hs' & Hf & _ & Hec & _).
  rewrite Hseen, He0 in Hec. simpl in Hec.
  split; [by exists s', fid, h|].
  intros msg Hid. unfold emit_executeComplete, emit.
  erewrite bind_eq; [|reflexivity].
  erewrite bind_eq; [|by apply this_obj_eq]. rewrite Hec.
  cbv beta iota delta [forM fst snd].
  rewrite bind_assoc. erewrite bind_eq; [|by apply this_obj_eq]. rewrite Hec.
  unfold is_connected. cbv beta iota delta [existsb fst].
  rewrite Nat.eqb_refl. cbv beta iota delta [orb when].
  unfold syncCancel_c2. rewrite (msgid_is_index _ _ Hid).
  unfold msgid_is in Hid. rewrite Hid. cbv beta iota delta [negb].
  set (w2 := set_trace _ w').
  assert (get_frame this fid w2 = Stop DanglingReference) as Hg.
  { unfold get_frame, bind, this_obj. subst w2. simpl. rewrite Hs'.
    by rewrite Hf. }
  unfold bind. by rewrite Hg.
Qed.

(** X16. The lambdas of [syncCancel] are connected by [syncCancel] alone.
    A fresh process has none on any proxy, and the constructor, the
    dispatch of any socket event, [connectToServer], [execute], [cancel],
    [getInfo] and [getCapabilities] keep it so, whether they return or are
    left waiting. [syncCancel] itself, on a proxy whose pending executes
    carry an id, keeps it so when it returns false, and when it returns
    after the proxy has emitted the [executeComplete] of the target during
    the call: then both its lambdas have disconnected themselves. Where
    none is connected, the completions find no dangling lambda. *)
Theorem sync_lambdas_kept (rd : list byte -> ReadStatus) :
  (forall debug waits events, sync_free (fresh_world debug waits events)) /\
  (forall w p s, sync_free w -> objs w !! p = Some s -> sync_live s) /\
  (forall a d c, pres sync_free (QXfsSocketStream_new a d c)) /\
  (forall ev, pres sync_free (deliver rd ev)) /\
  (forall this, pres sync_free (connectToServer this)) /\
  (forall this cmd data, pres sync_free (execute this cmd data)) /\
  (forall this reqMsgId, pres sync_free (cancel this reqMsgId)) /\
  (forall this category queryDetails,
     pres sync_free (getInfo rd this category queryDetails)) /\
  (forall this, pres sync_free (getCapabilities rd this)) /\
  (forall this reqMsgId w s b w',
     sync_free w -> objs w !! this = Some s ->
     execute_ids_set (on_message s) ->
     syncCancel rd this reqMsgId w = Ret b w' ->
     b = false \/ execute_seen this reqMsgId (new_trace w w') = true ->
     sync_free w').
Proof.
  split; [|split; [|split; [|split; [|split; [|split; [|split; [|split;
    [|split]]]]]]]].
  - intros debug waits events p s _. simpl. by rewrite lookup_empty.
  - intros w p s Hw Hs. destruct (Hw p s eq_refl Hs) as [Hc He].
    unfold sync_live. rewrite Hc, He. split; constructor.
  - intros a d c. unfold QXfsSocketStream_new.
    pres_step; [pres_step|]. pres_step; [by apply pres_modify|].
    pres_step; [by apply pres_modify|]. pres_step; [pres_step|].
    pres_step; [pres_step|].
    pres_step; [|pres_step; [by apply pres_modify|pres_step]].
    apply pres_modify. intros w Hw. by apply free_but_new.
  - intros ev. apply pres_deliver_free.
  - intros this. apply pres_connectToServer_ignored, free_but_ignores_connect.
  - intros. apply pres_execute_free.
  - intros. apply pres_cancel_free.
  - intros. apply pres_getInfo_free.
  - intros. apply pres_getCapabilities_free.
  - intros this reqMsgId w s b w' Hw Hs Hids Hrun Hor.
    destruct (Hw this s eq_refl Hs) as [Hc0 He0].
    destruct (connectToServer this w) as [ok w1| |] eqn:Hconn;
      [|unfold syncCancel, cancel, bind in Hrun; by rewrite Hconn in Hrun..].
    assert (sync_free w1) as Hw1.
    { eapply (post_Ret _ (fun _ => sync_free) sync_free); [|exact Hconn].
      by apply pres_connectToServer_ignored; [apply free_but_ignores_connect|]. }
    destruct ok.
    2:{ unfold syncCancel in Hrun.
        erewrite bind_eq in Hrun;
          [|by apply (proj1 (cancel_sent this reqMsgId w))].
        by injection Hrun as _ <-. }
    pose proof (syncCancel_exit rd this reqMsgId w w1 s
                  (free_but (Nat.eqb this)) Hs (settled_clean s Hc0 He0) Hids
                  Hconn (free_but_of_others this)
                  (fun ev => pres_deliver_free _ rd ev)) as Hpost.
    pose proof (post_Ret _ _ _ _ _ _ Hpost Hrun)
      as (-> & s' & fid & h & Hs' & _ & Hcc & Hec & _ & Hothers).
    destruct Hor as [?|Hseen]; [done|]. rewrite Hseen, He0 in Hec.
    intros p sp _ Hp. destruct (decide (p = this)) as [->|Hne].
    + rewrite Hs' in Hp. by injection Hp as <-.
    + apply (Hothers (fun q sq Hq Hsq => Hw1 q sq eq_refl Hsq) p sp); [|done].
      by apply Nat.eqb_neq, not_eq_sym.
Qed.

(** * No [getInfo] stays under way *)

Lemma all_idle_update w p s' :
  all_idle w -> getInfo_free (on_message s') ->
  all_idle (set_objs (fun h => <[p := s']> h) w).
Proof.
  intros Hw Hs' q s. simpl. destruct (decide (q = p)) as [->|Hne].
  - rewrite lookup_insert_eq. by intros [= <-].
  - rewrite lookup_insert_ne by done. apply Hw.
Qed.

Lemma one_asking_update this c w p s' :
  one_asking this c w -> asking_only this c p (on_message s') ->
  one_asking this c (set_objs (fun h => <[p := s']> h) w).
Proof.
  intros Hw Hs' q s. simpl. destruct (decide (q = p)) as [->|Hne].
  - rewrite lookup_insert_eq. by intros [= <-].
  - rewrite lookup_insert_ne by done. apply Hw.
Qed.

Lemma getInfo_free_drop h l :
  getInfo_free l -> getInfo_free (drop_connection h l).
Proof.
  intros H x Hx. apply H. unfold drop_connection in Hx.
  by apply list_elem_of_filter in Hx as [_ Hx].
Qed.

Lemma asking_only_drop this c p h l :
  asking_only this c p l -> asking_only this c p (drop_connection h l).
Proof.
  intros H x Hx. apply H. unfold drop_connection in Hx.
  by apply list_elem_of_filter in Hx as [_ Hx].
Qed.

Lemma all_idle_ignores_slots : ignores_slots all_idle any_signal.
Proof.
  split; [by intros w e Hw _|].
  split; [repeat split; intros w p s f; intros; apply all_idle_update;
          try done; by apply (H0 p s)|].
  split; [by intros w e Hw|]. split; [by intros w f Hw|].
  split; intros w p s f Hw Hs; (apply all_idle_update; [done|]).
  - by apply (Hw p s).
  - simpl. apply getInfo_free_drop. by apply (Hw p s).
Qed.

Lemma all_idle_ignores_socket : ignores_socket all_idle.
Proof.
  split; intros; (apply all_idle_update; [done|]); by apply (H p s).
Qed.

Lemma all_idle_ignores_connect : ignores_connect all_idle.
Proof.
  split; [by intros w f Hw|]. split; [by intros w f Hw|].
  split; [by intros w f Hw|].
  intros w p s f Hw Hs _. apply all_idle_update; [done|]. by apply (Hw p s).
Qed.

Lemma one_asking_ignores_slots this c :
  ignores_slots (one_asking this c) any_signal.
Proof.
  split; [by intros w e Hw _|].
  split; [repeat split; intros w p s f; intros; apply one_asking_update;
          try done; by apply (H0 p s)|].
  split; [by intros w e Hw|]. split; [by intros w f Hw|].
  split; intros w p s f Hw Hs; (apply one_asking_update; [done|]).
  - by apply (Hw p s).
  - simpl. apply asking_only_drop. by apply (Hw p s).
Qed.

Lemma one_asking_ignores_socket this c : ignores_socket (one_asking this c).
Proof.
  split; intros; (apply one_asking_update; [done|]); by apply (H p s).
Qed.

Lemma pres_update_this_idle this f :
  (forall s, on_message (f s) = on_message s) ->
  pres all_idle (update_this this f).
Proof.
  intros Hf. apply pres_update_this. intros w s Hw Hs.
  apply all_idle_update; [done|]. rewrite Hf. by apply (Hw this s).
Qed.

Lemma pres_connect_message_idle this slot :
  (forall fid id cat, slot <> GetInfoSlot fid id cat) ->
  pres all_idle (connect_message this slot).
Proof.
  intros Hslot. unfold connect_message, new_connection.
  pres_step; [pres_step; [pres_step|]; pres_step;
              [by apply pres_update_this_idle|pres_step]|].
  pres_step; [|pres_step]. apply pres_update_this. intros w s Hw Hs.
  apply all_idle_update; [done|]. simpl. intros x Hx.
  apply elem_of_app in Hx as [Hx|Hx]; [by apply (Hw this s)|].
  apply list_elem_of_singleton in Hx. subst x. simpl.
  destruct slot as [| | fid id cat|]; try done. by destruct (Hslot fid id cat).
Qed.

Ltac idle_step :=
  first
    [ apply pres_update_this_idle; by intros ?
    | apply pres_connectToServer_ignored; apply all_idle_ignores_connect
    | apply pres_connect_message_idle; by intros ? ? ?
    | apply pres_modify; by intros ? ?
    | pres_step ].

Lemma pres_send_idle this function cmd data :
  pres all_idle (send this function cmd data).
Proof.
  unfold send, createUuid, write_frame, update_socket. repeat idle_step.
Qed.

Lemma pres_execute_idle this cmd data :
  pres all_idle (execute this cmd data).
Proof.
  unfold execute. idle_step; [apply pres_send_idle|]. repeat idle_step.
Qed.

Lemma pres_cancel_idle this reqMsgId :
  pres all_idle (cancel this reqMsgId).
Proof.
  unfold cancel, createUuid, write_frame, update_socket. repeat idle_step.
Qed.

Lemma pres_syncCancel_idle rd this reqMsgId :
  pres all_idle (syncCancel rd this reqMsgId).
Proof.
  unfold syncCancel. idle_step; [apply pres_cancel_idle|].
  idle_step; [idle_step|].
  unfold new_frame, drop_frame, connect_cancelComplete,
    connect_executeComplete, new_connection, QEventLoop_exec.
  repeat first
    [ apply pres_loop_exec_ignored;
        [apply all_idle_ignores_slots|apply all_idle_ignores_socket|
         by intros ? ? ?]
    | idle_step ].
Qed.

Lemma pres_returns_keep {A} J (c : M A) : pres J c -> returns_keep J c.
Proof. intros H w Hw. eapply post_mono; [by apply H|done|done]. Qed.

Lemma returns_keep_bind {A C} J (c : M A) (k : A -> M C) :
  returns_keep J c -> (forall a, returns_keep J (k a)) ->
  returns_keep J (bind c k).
Proof.
  intros Hc Hk w Hw. apply post_bind.
  eapply post_mono; [by apply Hc| |done]. intros a w' Hw'. by apply Hk.
Qed.

Lemma getInfo_idle rd this category queryDetails :
  returns_keep all_idle (getInfo rd this category queryDetails).
Proof.
  intros w Hw. unfold getInfo. apply post_bind.
  eapply post_mono; [by apply (pres_send_idle this)| |done].
  intros id w1 Hw1. cbv beta. destruct (isEmptyString id); [by apply post_ret|].
  destruct (objs w1 !! this) as [s1|] eqn:Hs1.
  2:{ unfold post, new_frame, this_obj, bind. by rewrite Hs1. }
  eapply post_bind_eq; [by apply new_frame_eq|].
  eapply post_bind_eq;
    [apply connect_message_eq; simpl; apply lookup_insert_eq|].
  rewrite set_objs_twice.
  set (fid := next_frame s1). set (c := next_connection _).
  match goal with |- post _ _ _ ?x => set (w2 := x) end.
  assert (one_asking this c w2) as Hone.
  { subst w2. apply one_asking_update.
    - intros p s Hp x Hx. specialize (Hw1 p s Hp x Hx). by destruct (snd x).
    - simpl. intros x Hx. apply elem_of_app in Hx as [Hx|Hx].
      + specialize (Hw1 this s1 Hs1 x Hx). by destruct (snd x).
      + apply list_elem_of_singleton in Hx. by subst x. }
  apply post_bind. unfold QEventLoop_exec. eapply post_bind_eq; [reflexivity|].
  eapply post_mono; [| |done].
  { apply (loop_exec_post (one_asking this c) rd this fid); [| |exact Hone].
    - intros ev. apply pres_deliver_ignored;
        [apply one_asking_ignores_slots|apply one_asking_ignores_socket].
    - by intros w' f Hw'. }
  intros [] w3 [Hone3 _]. cbv beta.
  apply post_bind, post_update_this. intros s3 Hs3.
  assert (all_idle (set_objs (fun h =>
            <[this := set_on_message (drop_connection c) s3]> h) w3)) as Hw4.
  { intros p s. simpl. destruct (decide (p = this)) as [->|Hne].
    - rewrite lookup_insert_eq. intros [= <-] x Hx. simpl in Hx.
      unfold drop_connection in Hx.
      apply list_elem_of_filter in Hx as [Hne Hx].
      specialize (Hone3 this s3 Hs3 x Hx). destruct (snd x); try done.
      by destruct Hone3.
    - rewrite lookup_insert_ne by done. intros Hp x Hx.
      specialize (Hone3 p s Hp x Hx). destruct (snd x); try done.
      by destruct Hone3. }
  revert Hw4. generalize (set_objs (fun h =>
    <[this := set_on_message (drop_connection c) s3]> h) w3).
  apply pres_returns_keep. unfold drop_frame. repeat idle_step.
Qed.

Lemma capabilities_of_idle this : pres all_idle (capabilities_of this).
Proof.
  unfold capabilities_of. idle_step; [idle_step|]. idle_step; [idle_step|].
  destruct (QMap.index _ _ _). repeat idle_step.
Qed.

Lemma getCapabilities_idle rd this :
  returns_keep all_idle (getCapabilities rd this).
Proof.
  unfold getCapabilities.
  apply returns_keep_bind; [apply pres_returns_keep; idle_step|]. intros s.
  apply returns_keep_bind; [apply getInfo_idle|]. intros data.
  apply pres_returns_keep. repeat idle_step.
Qed.

(** X15. No [getInfo] stays under way: [getInfo] disconnects its lambda
    before it returns, and nothing else connects one. A fresh process has
    no lambda of [getInfo] connected on any proxy; the constructor,
    [execute], [cancel], [syncCancel], [connectToServer] and the dispatch
    of any socket event keep it so, and so do [getInfo], [getStatus] and
    [capabilities] whenever they return. *)
Theorem queries_leave_idle (rd : list byte -> ReadStatus) :
  (forall debug waits events, all_idle (fresh_world debug waits events)) /\
  (forall a d c, pres all_idle (QXfsSocketStream_new a d c)) /\
  (forall ev, pres all_idle (deliver rd ev)) /\
  (forall this, pres all_idle (connectToServer this)) /\
  (forall this cmd data, pres all_idle (execute this cmd data)) /\
  (forall this reqMsgId, pres all_idle (cancel this reqMsgId)) /\
  (forall this reqMsgId, pres all_idle (syncCancel rd this reqMsgId)) /\
  (forall this category queryDetails,
     returns_keep all_idle (getInfo rd this category queryDetails)) /\
  (forall this, returns_keep all_idle (getStatus rd this)) /\
  (forall this, returns_keep all_idle (capabilities rd this)).
Proof.
  split; [|split; [|split; [|split; [|split; [|split; [|split; [|split;
    [|split]]]]]]]].
  - intros debug waits events p s. simpl. by rewrite lookup_empty.
  - intros a d c. unfold QXfsSocketStream_new.
    pres_step; [pres_step|]. pres_step; [by apply pres_modify|].
    pres_step; [by apply pres_modify|]. pres_step; [pres_step|].
    pres_step; [pres_step|]. pres_step; [|pres_step; [by apply pres_modify|pres_step]].
    apply pres_modify. intros w Hw. apply all_idle_update; [done|].
    simpl. intros x Hx. apply list_elem_of_singleton in Hx. by subst x.
  - intros ev. apply pres_deliver_ignored;
      [apply all_idle_ignores_slots|apply all_idle_ignores_socket].
  - intros this. apply pres_connectToServer_ignored, all_idle_ignores_connect.
  - intros. apply pres_execute_idle.
  - intros. apply pres_cancel_idle.
  - intros. apply pres_syncCancel_idle.
  - intros. apply getInfo_idle.
  - intros this. unfold getStatus.
    apply returns_keep_bind; [apply pres_returns_keep; idle_step|]. intros s.
    apply returns_keep_bind; [apply getInfo_idle|]. intros data.
    apply pres_returns_keep. idle_step.
  - intros this. unfold capabilities.
    apply returns_keep_bind;
      [apply pres_returns_keep, capabilities_of_idle|]. intros caps.
    apply returns_keep_bind;
      [|intros; apply pres_returns_keep, capabilities_of_idle].
    destruct (QMap.isEmpty caps); simpl;
      [apply getCapabilities_idle|apply pres_returns_keep, pres_ret].
Qed.

(** * Requests and their lambdas stay matched *)

Lemma NoDup_fst_inj {S} (l : list (nat * S)) c c' :
  NoDup (map fst l) -> c ∈ l -> c' ∈ l -> fst c = fst c' -> c = c'.
Proof.
  induction l as [|x l IH]; simpl; intros Hnd Hc Hc' E.
  - by apply elem_of_nil in Hc.
  - apply NoDup_cons in Hnd as [Hx Hnd].
    apply elem_of_cons in Hc as [->|Hc]; apply elem_of_cons in Hc' as [->|Hc'].
    + done.
    + destruct Hx. rewrite E. apply list_elem_of_fmap. by exists c'.
    + destruct Hx. rewrite <- E. apply list_elem_of_fmap. by exists c.
    + by apply IH.
Qed.

Lemma tidy_step w s s' :
  tidy w s ->
  NoDup (QMap.keys (m_pending s')) ->
  (forall id, id ∈ QMap.keys (m_pending s') -> id ∈ QMap.keys (m_pending s)) ->
  NoDup (map fst (on_message s')) ->
  NoDup (omap (fun c => slot_id (snd c)) (on_message s')) ->
  (forall c, c ∈ on_message s' -> c ∈ on_message s) ->
  (forall c id, c ∈ on_message s -> slot_id (snd c) = Some id ->
     id ∈ QMap.keys (m_pending s') -> c ∈ on_message s') ->
  (forall fid rv ex, frames s !! fid = Some (GetInfoFrame rv ex) ->
     exists rv' ex', frames s' !! fid = Some (GetInfoFrame rv' ex')) ->
  next_connection s <= next_connection s' ->
  tidy w s'.
Proof.
  intros ((Hk & Hh & Hi & Hp & Hf) & Hpi & Hsi & Hlt)
    Hk' Hsub Hh' Hi' Hmsub Hkeep Hfr Hnc.
  split; [split; [|split; [|split; [|split]]]|split; [|split]]; try done.
  - intros id Hid. destruct (Hp id (Hsub id Hid)) as (c & Hc & Hcid).
    exists c. split; [|done]. by eapply Hkeep.
  - intros c fid id cat Hc Hsnd.
    destruct (Hf c fid id cat (Hmsub c Hc) Hsnd) as (rv & ex & Hfid).
    by eapply Hfr.
  - intros id Hid. by apply Hpi, Hsub.
  - intros c id Hc. by apply Hsi, Hmsub.
  - intros c Hc. specialize (Hlt c (Hmsub c Hc)). lia.
Qed.

Lemma tidy_remove w s id :
  tidy w s -> tidy w (set_m_pending (QMap.remove id) s).
Proof.
  intros Ht. pose proof Ht as ((Hk & Hh & Hi & _) & _).
  apply (tidy_step w s); simpl; try done.
  - by apply NoDup_remove_keys.
  - intros x Hx. by apply (remove_keys_subseteq id).
  - by eauto.
Qed.

Lemma tidy_put w s fid rv ex :
  tidy w s ->
  tidy w (set_frames (fun fs => <[fid := GetInfoFrame rv ex]> fs) s).
Proof.
  intros Ht. pose proof Ht as ((Hk & Hh & Hi & _) & _).
  apply (tidy_step w s); simpl; try done.
  intros fid' rv' ex' Hf'. destruct (decide (fid' = fid)) as [->|Hne].
  - rewrite lookup_insert_eq. by eauto.
  - rewrite lookup_insert_ne by done. by eauto.
Qed.

Lemma tidy_sync w s s' fid fin ex F :
  tidy w s -> frames s !! fid = Some (SyncCancelFrame fin ex) ->
  m_pending s' = m_pending s -> on_message s' = on_message s ->
  next_connection s' = next_connection s ->
  frames s' = <[fid := F]> (frames s) ->
  tidy w s'.
Proof.
  intros Ht Hfid Ep Em Enc Ef. pose proof Ht as ((Hk & Hh & Hi & _) & _).
  apply (tidy_step w s); rewrite ?Ep, ?Em, ?Enc, ?Ef; try done.
  intros fid' rv' ex' Hf'. rewrite lookup_insert_ne by congruence. by eauto.
Qed.

Lemma tidy_same w s s' :
  tidy w s -> m_pending s' = m_pending s -> on_message s' = on_message s ->
  next_connection s' = next_connection s -> frames s' = frames s ->
  tidy w s'.
Proof.
  intros Ht Ep Em Enc Ef. pose proof Ht as ((Hk & Hh & Hi & _) & _).
  apply (tidy_step w s); rewrite ?Ep, ?Em, ?Enc, ?Ef; try done. by eauto.
Qed.

Lemma tidy_drop w s h :
  tidy w s ->
  (forall c id, c ∈ on_message s -> fst c = h -> slot_id (snd c) = Some id ->
     id ∉ QMap.keys (m_pending s)) ->
  tidy w (set_on_message (drop_connection h) s).
Proof.
  intros Ht Hgone. pose proof Ht as ((Hk & Hh & Hi & _) & _).
  apply (tidy_step w s); simpl; try done.
  - by apply NoDup_map_drop.
  - by apply NoDup_omap_drop.
  - intros c. apply elem_of_drop_connection.
  - intros c id Hc Hcid Hid. unfold drop_connection.
    apply list_elem_of_filter. split; [|done]. intros E.
    by apply (Hgone c id).
  - by eauto.
Qed.

Lemma tidy_seed w w' s :
  tidy w s -> uuid_seed w <= uuid_seed w' -> tidy w' s.
Proof.
  intros (Hsv & Hpi & Hsi & Hlt) Hle.
  assert (forall id, issued w id -> issued w' id) as Hmono.
  { intros id (n & Hn & ->). exists n. split; [lia|done]. }
  split; [done|]. split; [|split; [|done]].
  - intros id Hid. by apply Hmono, Hpi.
  - intros c id Hc Hcid. by eapply Hmono, Hsi.
Qed.

Lemma emitting_update this l0 w p s s' :
  emitting this l0 w -> objs w !! p = Some s -> tidy w s' ->
  (forall c, c ∈ on_message s' -> c ∈ on_message s) ->
  emitting this l0 (set_objs (fun h => <[p := s']> h) w).
Proof.
  intros [Ht Hsub] Hp Hs' Hm. split.
  - intros q sq. simpl. destruct (decide (q = p)) as [->|Hne].
    + rewrite lookup_insert_eq. by intros [= <-].
    + rewrite lookup_insert_ne by done. apply Ht.
  - intros sx. simpl. destruct (decide (this = p)) as [->|Hne].
    + rewrite lookup_insert_eq. intros [= <-] c Hc.
      by apply (Hsub s Hp), Hm.
    + rewrite lookup_insert_ne by done. apply Hsub.
Qed.

Lemma emitting_tidy this l0 w p s :
  emitting this l0 w -> objs w !! p = Some s -> tidy w s.
Proof. intros [Ht _]. apply Ht. Qed.

Section Emitting.

Variable X : World -> Prop.
Hypothesis X_trace : forall w f, X w -> X (set_trace f w).
Hypothesis X_log : forall w f, X w -> X (set_log f w).
Hypothesis X_commands : forall w f, X w -> X (set_commands f w).
Hypothesis X_shrunk : forall w p s s',
  X w -> objs w !! p = Some s -> shrunk s s' ->
  X (set_objs (fun h => <[p := s']> h) w).
Hypothesis X_getInfo : forall this l0 h fid id cat msg w s,
  emitting_with X this l0 w -> objs w !! this = Some s ->
  (h, GetInfoSlot fid id cat) ∈ on_message s ->
  post (getInfo_slot this fid id cat msg)
       (fun _ => emitting_with X this l0) (emitting_with X this l0) w.

Lemma with_update this l0 w p s s' :
  emitting_with X this l0 w -> objs w !! p = Some s -> tidy w s' ->
  shrunk s s' ->
  emitting_with X this l0 (set_objs (fun h => <[p := s']> h) w).
Proof.
  intros [He Hx] Hs Ht Hsh. split.
  - eapply emitting_update; [done..|]. apply Hsh.
  - by eapply X_shrunk.
Qed.

Lemma with_trace this l0 w f :
  emitting_with X this l0 w -> emitting_with X this l0 (set_trace f w).
Proof. intros [He Hx]. split; [done|by apply X_trace]. Qed.

Lemma with_log this l0 w f :
  emitting_with X this l0 w -> emitting_with X this l0 (set_log f w).
Proof. intros [He Hx]. split; [done|by apply X_log]. Qed.

Lemma with_commands this l0 w f :
  emitting_with X this l0 w -> emitting_with X this l0 (set_commands f w).
Proof. intros [He Hx]. split; [done|by apply X_commands]. Qed.

Lemma with_keeps_sync_frames this l0 :
  keeps_sync_frames (emitting_with X this l0).
Proof.
  intros w p s fid fin ex F fc fe Hw Hs Hf.
  assert (tidy w s) as Ht by (destruct Hw as [He _]; by eapply emitting_tidy).
  split; (eapply with_update; [done|done| |]).
  - by apply (tidy_sync w s _ fid fin ex F).
  - split; [done|]. split; [done|]. intros fid' rv' ex' Hf'. simpl.
    rewrite lookup_insert_ne by congruence. done.
  - by apply (tidy_sync w s _ fid fin ex F).
  - split; [done|]. split; [done|]. intros fid' rv' ex' Hf'. simpl.
    rewrite lookup_insert_ne by congruence. done.
Qed.

Ltac with_step :=
  first
    [ apply pres_modify; intros ? ?;
        first [by apply with_trace | by apply with_log
              | by apply with_commands]
    | pres_step ].

Lemma pres_emit_executeComplete_with this l0 p msg :
  pres (emitting_with X this l0) (emit_executeComplete p msg).
Proof.
  unfold emit_executeComplete, emit.
  pres_step; [with_step|]. pres_step; [pres_step|].
  pres_step. pres_step; [pres_step|]. pres_step.
  apply pres_syncCancel_c2_frames, with_keeps_sync_frames.
Qed.

Lemma pres_emit_cancelComplete_with this l0 p msg :
  pres (emitting_with X this l0) (emit_cancelComplete p msg).
Proof.
  unfold emit_cancelComplete, emit.
  pres_step; [with_step|]. pres_step; [pres_step|].
  pres_step. pres_step; [pres_step|]. pres_step.
  apply pres_syncCancel_c1_frames, with_keeps_sync_frames.
Qed.

Lemma pres_ctor_slot_with this l0 p msg :
  pres (emitting_with X this l0) (ctor_slot p msg).
Proof.
  unfold ctor_slot, currentCommand, commands_of, serviceEvent, userEvent,
    systemEvent, emit.
  repeat with_step.
Qed.

Lemma pres_appendCommand_with this l0 p cmd :
  pres (emitting_with X this l0) (appendCommand p cmd).
Proof. unfold appendCommand, commands_of. repeat with_step. Qed.

(** The end of a request: [done], [disconnect], then the completion
    signal. *)
Lemma finalize_with this l0 h slot id (after : M unit) w s :
  emitting_with X this l0 w -> objs w !! this = Some s ->
  (h, slot) ∈ on_message s -> slot_id slot = Some id ->
  pres (emitting_with X this l0) after ->
  post (done this id ;;
        update_this this (set_on_message (drop_connection h)) ;; after)
       (fun _ => emitting_with X this l0) (emitting_with X this l0) w.
Proof.
  intros Hw Hs Hin Hslot Hafter.
  assert (tidy w s) as Ht by (destruct Hw as [He _]; by eapply emitting_tidy).
  eapply post_bind_eq; [by apply done_eq|].
  eapply post_bind_eq; [apply update_this_eq; simpl; apply lookup_insert_eq|].
  rewrite set_objs_twice. apply Hafter.
  eapply (with_update this l0 _ this s); [by apply with_commands|done| |].
  - apply tidy_drop; [by apply tidy_remove|].
    intros c id' Hc E Hid'. simpl in *.
    assert (c = (h, slot)) as ->.
    { apply (NoDup_fst_inj (on_message s)); [|done..].
      by destruct Ht as ((_ & ? & _) & _). }
    simpl in Hid'. rewrite Hslot in Hid'. injection Hid' as <-.
    apply remove_not_in.
  - split; [|split]; simpl.
    + intros x. apply remove_keys_subseteq.
    + intros c. apply elem_of_drop_connection.
    + done.
Qed.

Lemma run_message_slot_with this l0 h slot msg w s :
  emitting_with X this l0 w -> objs w !! this = Some s ->
  (h, slot) ∈ on_message s ->
  post (run_message_slot this h slot msg)
       (fun _ => emitting_with X this l0) (emitting_with X this l0) w.
Proof.
  intros Hw Hs Hin. destruct slot as [|id cmd data|fid id cat|id]; simpl.
  - by apply pres_ctor_slot_with.
  - unfold execute_slot.
    destruct (QMap.index "msgid" Invalid msg) as [v msg1].
    destruct (negb (eqQString v id)); [by apply post_ret|].
    set (J := fun x => emitting_with X this l0 x /\ objs x !! this = Some s).
    assert (pres J (broadcast this msg1 cmd data)) as Hbc.
    { unfold broadcast, emit.
      repeat first
        [ apply pres_modify; intros ? [? ?]; split; [by apply with_trace|done]
        | pres_step ]. }
    apply post_bind.
    eapply post_mono; [apply Hbc; by split| |intros w' H; exact (proj1 H)].
    intros [] w1 [Hw1 Hs1]. cbv beta.
    destruct (QMap.index "hResult" Invalid msg1) as [hr msg2].
    assert (post (done this id ;;
                  update_this this (set_on_message (drop_connection h)) ;;
                  emit_executeComplete this msg2)
              (fun _ => emitting_with X this l0) (emitting_with X this l0) w1)
      as Hfin.
    { eapply finalize_with; [done..|].
      apply pres_emit_executeComplete_with. }
    assert (forall b (k : M unit),
              post k (fun _ => emitting_with X this l0)
                (emitting_with X this l0) w1 ->
              post (Q_ASSERT b ;; k) (fun _ => emitting_with X this l0)
                (emitting_with X this l0) w1) as HQ.
    { intros b k Hk. unfold post, bind, Q_ASSERT.
      by destruct (qt_debug w1 && negb b). }
    destruct (eqQString hr "WFS_SUCCESS"); [|exact Hfin].
    destruct (QMap.contains "message" msg2).
    + destruct (String.eqb _ "WFS_EXECUTE_COMPLETE"); [by apply HQ|].
      destruct (String.eqb _ "WFS_EXECUTE_EVENT"); [|by apply post_ret].
      apply post_modify. by apply with_trace.
    + apply HQ. by apply pres_appendCommand_with.
  - by eapply X_getInfo.
  - unfold cancel_slot.
    destruct (QMap.index "msgid" Invalid msg) as [v msg1].
    destruct (negb (eqQString v id)); [by apply post_ret|].
    eapply finalize_with; [done..|].
    apply pres_emit_cancelComplete_with.
Qed.

Lemma pres_emit_message_with this msg :
  pres (fun w => all_tidy w /\ X w) (emit_message this msg).
Proof.
  intros w [Hw Hx]. unfold emit_message, emit. apply post_bind, post_modify.
  apply post_bind, post_this_obj. intros s0 Hs0. simpl in Hs0.
  set (w1 := set_trace _ w).
  assert (emitting_with X this (on_message s0) w1) as HK.
  { split; [split; [exact Hw|]|by apply X_trace].
    intros s Hs c Hc. subst w1. simpl in Hs.
    rewrite Hs0 in Hs. by injection Hs as <-. }
  assert (NoDup (map fst (on_message s0))) as Hnd.
  { by destruct (Hw this s0 Hs0) as ((_ & ? & _) & _). }
  apply (post_mono _ (fun _ => emitting_with X this (on_message s0)) _
           (emitting_with X this (on_message s0)));
    [|intros a w' [[H _] H']; by split|intros w' [[H _] H']; by split].
  apply (pres_forM_in (emitting_with X this (on_message s0))); [|exact HK].
  intros c Hc w2 Hw2. apply post_bind, post_this_obj. intros s2 Hs2.
  destruct (is_connected (fst c) (on_message s2)) eqn:Hconn;
    [|by apply post_ret].
  unfold is_connected in Hconn. apply existsb_exists in Hconn
    as (c' & Hc' & E). apply list_elem_of_In in Hc'. apply Nat.eqb_eq in E.
  assert (c' = c) as ->.
  { apply (NoDup_fst_inj (on_message s0)); [done| |done|done].
    by apply (proj2 (proj1 Hw2) s2 Hs2). }
  simpl. eapply run_message_slot_with; [done|done|]. by destruct c.
Qed.

End Emitting.

Lemma pres_emit_message_tidy this msg : pres all_tidy (emit_message this msg).
Proof.
  intros w Hw.
  apply (post_mono _ (fun _ w' => all_tidy w' /\ no_extra w') _
           (fun w' => all_tidy w' /\ no_extra w'));
    [|by intros a w' [H _]|by intros w' [H _]].
  apply (pres_emit_message_with no_extra); try done.
  intros this0 l0 h fid id cat msg0 w0 s0 [He _] Hs0 Hin.
  apply (post_mono _ (fun _ => emitting this0 l0) _ (emitting this0 l0));
    [|by intros a w' H|by intros w' H].
  revert He. generalize w0.
  change (pres (emitting this0 l0) (getInfo_slot this0 fid id cat msg0)).
  unfold getInfo_slot, done, finishCommand, commands_of, put_frame, qWarning.
  cbv zeta.
  repeat first
    [ apply pres_update_this; intros w1 s1 Hw1 Hs1;
        (eapply emitting_update; [done|done| |by intros c]);
        first [apply tidy_remove | apply tidy_put]; by eapply emitting_tidy
    | apply pres_modify; by intros ? ?
    | pres_step ].
Qed.

(** The dispatch path, for an invariant that [emit_message] keeps. *)
Section DispatchBy.

Variable J : World -> Prop.
Variable rd : list byte -> ReadStatus.
Hypothesis J_emit : forall p msg, pres J (emit_message p msg).
Hypothesis J_socket : ignores_socket J.
Hypothesis J_inbox : forall w f, J w -> J (set_inbox f w).

Lemma pres_readyRead_by this : pres J (readyRead rd this).
Proof.
  assert (forall fuel, pres J (readyRead_loop rd fuel this)) as Hloop.
  { induction fuel as [|fuel IH]; simpl; [apply pres_fault|].
    pres_step; [pres_step|]. destruct (io_device a) as [k|]; [|apply pres_fault].
    destruct (rd (sock_rx k)).
    - pres_step; [apply pres_update_this; intros; by apply J_socket|].
      pres_step; [apply J_emit | apply IH].
    - apply pres_ret.
    - apply pres_update_this; intros; by apply J_socket. }
  unfold readyRead. pres_step; [pres_step|].
  destruct (io_device a); [apply Hloop | apply pres_fault].
Qed.

Lemma pres_disconnected_by this : pres J (disconnected this).
Proof.
  assert (forall its msg, pres J (disconnected_loop this its msg)) as Hloop.
  { induction its as [|[key value] its IH]; intros msg; simpl.
    - apply pres_ret.
    - pres_step; [apply J_emit | apply IH]. }
  unfold disconnected. pres_step; [pres_step|]. apply Hloop.
Qed.

Lemma pres_deliver_by ev : pres J (deliver rd ev).
Proof.
  intros w Hw. unfold post, deliver.
  destruct (objs w !! ev.1) as [s|] eqn:Hs; [|done].
  destruct (ev.2) as [bytes|].
  - destruct (io_device s); [|done].
    apply (pres_bind J (update_socket ev.1 (set_sock_rx (fun b => (b ++ bytes)%list)))
             (fun _ => readyRead rd ev.1));
      [|intros _; apply pres_readyRead_by|done].
    apply pres_update_this. intros. by apply J_socket.
  - destruct (m_socket s); [|done].
    apply (pres_bind J
             (update_socket ev.1 (fun k =>
                set_sock_state UnconnectedState (set_sock_encrypted false k)))
             (fun _ => disconnected ev.1));
      [ | intros _; apply pres_disconnected_by | done].
    apply pres_update_this. intros. by apply J_socket.
Qed.

Lemma pres_loop_exec_by evs this fid : pres J (loop_exec rd evs this fid).
Proof.
  induction evs as [|ev evs IH]; simpl.
  - pres_step; [apply pres_get_frame|].
    destruct (frame_exited a); [apply pres_ret|]. by intros w Hw.
  - pres_step; [apply pres_get_frame|].
    destruct (frame_exited a); [apply pres_ret|].
    pres_step; [apply pres_modify; intros; by apply J_inbox|].
    pres_step; [apply pres_deliver_by | apply IH].
Qed.

End DispatchBy.

Lemma all_tidy_update w p s' :
  all_tidy w -> tidy w s' -> all_tidy (set_objs (fun h => <[p := s']> h) w).
Proof.
  intros Hw Hs' q sq. simpl. destruct (decide (q = p)) as [->|Hne].
  - rewrite lookup_insert_eq. by intros [= <-].
  - rewrite lookup_insert_ne by done. apply Hw.
Qed.

Lemma all_tidy_ignores_socket : ignores_socket all_tidy.
Proof.
  split; intros w p s f; intros; (apply all_tidy_update; [done|]);
    by apply (tidy_same w s); [apply (H p s)|..].
Qed.

Lemma all_tidy_ignores_connect : ignores_connect all_tidy.
Proof.
  split; [by intros w f Hw|]. split; [by intros w f Hw|].
  split; [by intros w f Hw|].
  intros w p s f Hw Hs _. apply all_tidy_update; [done|].
  by apply (tidy_same w s); [apply (Hw p s)|..].
Qed.

Lemma pres_deliver_tidy rd ev : pres all_tidy (deliver rd ev).
Proof.
  apply pres_deliver_by;
    [apply pres_emit_message_tidy|apply all_tidy_ignores_socket].
Qed.

(** A request added to a proxy, under the next id. *)
Lemma all_tidy_request this w1 s1 s' v slot :
  let id := uuid_string (uuid_seed w1) in
  all_tidy w1 -> objs w1 !! this = Some s1 ->
  m_pending s' = QMap.insert id v (m_pending s1) ->
  on_message s' = (on_message s1 ++ [(next_connection s1, slot)])%list ->
  slot_id slot = Some id ->
  (forall fid i cat, slot <> GetInfoSlot fid i cat) ->
  next_connection s' = S (next_connection s1) -> frames s' = frames s1 ->
  all_tidy (set_objs (fun h => <[this := s']> h) (set_uuid_seed S w1)).
Proof.
  intros id Hw Hs1 Ep Em Hslot Hng Enc Ef q sq. simpl.
  destruct (decide (q = this)) as [->|Hne].
  - rewrite lookup_insert_eq. intros [= <-].
    by eapply (tidy_add w1 _ s1); [apply (Hw this)|..].
  - rewrite lookup_insert_ne by done. intros Hq.
    eapply tidy_seed; [by apply (Hw q)|]. simpl. lia.
Qed.

Lemma pres_execute_tidy this cmd data : pres all_tidy (execute this cmd data).
Proof.
  intros w Hw. unfold post.
  pose proof (pres_connectToServer_ignored all_tidy this
                all_tidy_ignores_connect w Hw) as Hc.
  unfold post in Hc.
  destruct (connectToServer this w) as [[|] w1| |w1] eqn:E.
  - destruct (connectToServer_tx this w true w1 E) as (_ & s1 & k1 & Hs1 & _).
    rewrite (execute_eq this cmd data w w1 s1 E Hs1). cbv zeta.
    set (fr := request_frame _ _ _ _).
    destruct (written_fields fr s1) as (Em & _ & _ & Ef & _ & Enc & _ & Ep).
    eapply (all_tidy_request this w1 s1); [done|done|simpl; by rewrite Ep|
      simpl; by rewrite Em|done|done|simpl; by rewrite Enc|simpl; by rewrite Ef].
  - unfold execute. by erewrite bind_eq; [|by apply send_fail].
  - unfold execute, send, bind. by rewrite E.
  - unfold execute, send, bind. by rewrite E.
Qed.

Lemma pres_cancel_tidy this reqMsgId : pres all_tidy (cancel this reqMsgId).
Proof.
  intros w Hw. unfold post.
  pose proof (pres_connectToServer_ignored all_tidy this
                all_tidy_ignores_connect w Hw) as Hc.
  unfold post in Hc.
  destruct (connectToServer this w) as [[|] w1| |w1] eqn:E.
  - destruct (connectToServer_tx this w true w1 E) as (_ & s1 & k1 & Hs1 & _).
    rewrite (cancel_eq this reqMsgId w w1 s1 E Hs1). cbv zeta.
    set (fr := cancel_frame _ _). set (s2 := set_m_pending _ _).
    destruct (written_fields fr s2) as (Em & _ & _ & Ef & _ & Enc & _ & Ep).
    eapply (all_tidy_request this w1 s1); [done|done|by rewrite Ep|
      by rewrite Em|done|done|by rewrite Enc|by rewrite Ef].
  - by rewrite (proj1 (cancel_sent this reqMsgId w) w1 E).
  - unfold cancel, bind. by rewrite E.
  - unfold cancel, bind. by rewrite E.
Qed.

Lemma pres_new_tidy a d c : pres all_tidy (QXfsSocketStream_new a d c).
Proof.
  unfold QXfsSocketStream_new.
  pres_step; [pres_step|]. pres_step; [by apply pres_modify|].
  pres_step; [by apply pres_modify|]. pres_step; [pres_step|].
  pres_step; [pres_step|].
  pres_step; [|pres_step; [by apply pres_modify|pres_step]].
  apply pres_modify. intros w Hw. apply all_tidy_update; [done|].
  split; [split; [|split; [|split; [|split]]]|split; [|split]]; simpl.
  - apply NoDup_nil_2.
  - apply NoDup_singleton.
  - apply NoDup_nil_2.
  - intros id Hin. by apply elem_of_nil in Hin.
  - intros x fid id cat Hx Hsnd. apply list_elem_of_singleton in Hx.
    by subst x.
  - intros id Hin. by apply elem_of_nil in Hin.
  - intros x id Hx Hsnd. apply list_elem_of_singleton in Hx. by subst x.
  - intros x Hx. apply list_elem_of_singleton in Hx. subst x. simpl. lia.
Qed.

(** With no [getInfo] under way the frames of a proxy are of no concern
    to its requests. *)
Lemma tidy_idle w s s' :
  tidy w s -> getInfo_free (on_message s) ->
  m_pending s' = m_pending s -> on_message s' = on_message s ->
  next_connection s <= next_connection s' ->
  tidy w s'.
Proof.
  intros ((Hk & Hh & Hi & Hp & Hf) & Hpi & Hsi & Hlt) Hfree Ep Em Hnc.
  unfold tidy, served. rewrite Ep, Em.
  split; [split; [|split; [|split; [|split]]]|split; [|split]]; try done.
  - intros c fid id cat Hc Hsnd. specialize (Hfree c Hc).
    by rewrite Hsnd in Hfree.
  - intros c Hc. specialize (Hlt c Hc). lia.
Qed.

Lemma pres_update_this_at_ease this f :
  (forall s, m_pending (f s) = m_pending s /\
             on_message (f s) = on_message s /\
             next_connection s <= next_connection (f s)) ->
  pres at_ease (update_this this f).
Proof.
  intros Hf. apply pres_update_this. intros w s [Ht Hi] Hs.
  destruct (Hf s) as (Ep & Em & Hnc). split.
  - apply all_tidy_update; [done|].
    by apply (tidy_idle w s); [apply (Ht this)|apply (Hi this)|..].
  - apply all_idle_update; [done|]. rewrite Em. by apply (Hi this).
Qed.

Lemma pres_syncCancel_at_ease rd this reqMsgId :
  pres at_ease (syncCancel rd this reqMsgId).
Proof.
  unfold syncCancel.
  pres_step; [apply pres_and; [apply pres_cancel_tidy|apply pres_cancel_idle]|].
  pres_step; [pres_step|].
  unfold new_frame, drop_frame, connect_cancelComplete,
    connect_executeComplete, new_connection, QEventLoop_exec.
  repeat first
    [ apply pres_update_this_at_ease; intros ?; simpl; repeat split; lia
    | apply pres_and;
        [apply pres_loop_exec_by;
           [apply pres_emit_message_tidy|apply all_tidy_ignores_socket|
            by intros ? ? ?]
        |apply pres_loop_exec_ignored;
           [apply all_idle_ignores_slots|apply all_idle_ignores_socket|
            by intros ? ? ?]]
    | pres_step ].
Qed.

(** ** A [getInfo] in its event loop *)

Lemma getInfo_wait_update this fid c id cat w p s s' :
  getInfo_wait this fid c id cat w -> objs w !! p = Some s ->
  (forall x, x ∈ on_message s' -> x ∈ on_message s) ->
  (p = this -> forall rv ex,
     frames s !! fid = Some (GetInfoFrame rv ex) ->
     (ex = true -> id ∉ QMap.keys (m_pending s)) ->
     exists rv' ex',
       frames s' !! fid = Some (GetInfoFrame rv' ex') /\
       (ex' = true -> id ∉ QMap.keys (m_pending s'))) ->
  getInfo_wait this fid c id cat (set_objs (fun h => <[p := s']> h) w).
Proof.
  intros (H1 & (s0 & rv & ex & Hs0 & Hf0 & Hex0) & H3) Hs Hm Hfr.
  split; [|split].
  - intros q sq x. simpl. destruct (decide (q = p)) as [->|Hne].
    + rewrite lookup_insert_eq. intros [= <-] Hx. by apply (H1 p s), Hm.
    + rewrite lookup_insert_ne by done. apply H1.
  - simpl. destruct (decide (p = this)) as [->|Hne].
    + rewrite Hs0 in Hs. injection Hs as <-.
      destruct (Hfr eq_refl rv ex Hf0 Hex0) as (rv' & ex' & Hf' & Hex').
      exists s', rv', ex'. by rewrite lookup_insert_eq.
    + exists s0, rv, ex. by rewrite lookup_insert_ne.
  - intros sx x. simpl. destruct (decide (this = p)) as [->|Hne].
    + rewrite lookup_insert_eq. intros [= <-] Hx. by apply (H3 s), Hm.
    + rewrite lookup_insert_ne by done. apply H3.
Qed.

Lemma getInfo_wait_shrunk this fid c id cat w p s s' :
  getInfo_wait this fid c id cat w -> objs w !! p = Some s -> shrunk s s' ->
  getInfo_wait this fid c id cat (set_objs (fun h => <[p := s']> h) w).
Proof.
  intros Hw Hs (Hp & Hm & Hf). eapply getInfo_wait_update; [done..|].
  intros _ rv ex Hfid Hex. exists rv, ex. split; [by apply Hf|].
  intros E Hin. by apply (Hex E), Hp.
Qed.

Lemma getInfo_wait_slot this fid c id cat this0 l0 h fid' id' cat' msg w s :
  emitting_with (getInfo_wait this fid c id cat) this0 l0 w ->
  objs w !! this0 = Some s ->
  (h, GetInfoSlot fid' id' cat') ∈ on_message s ->
  post (getInfo_slot this0 fid' id' cat' msg)
       (fun _ => emitting_with (getInfo_wait this fid c id cat) this0 l0)
       (emitting_with (getInfo_wait this fid c id cat) this0 l0) w.
Proof.
  intros Hw Hs Hin. set (Y := emitting_with _ this0 l0).
  assert (this0 = this /\ fid' = fid /\ id' = id /\ cat' = cat)
    as (-> & -> & -> & ->).
  { destruct Hw as [_ (H1 & _)].
    destruct (H1 this0 s _ Hs Hin) as [-> E]. by injection E as -> -> -> ->. }
  assert (forall rv' w',
    Y w' ->
    post (done this id ;;
          f ← get_frame this fid;
          match f with
          | GetInfoFrame _ _ => put_frame this fid (GetInfoFrame rv' true)
          | _ => fault DanglingReference
          end) (fun _ => Y) Y w') as Hfin.
  { intros rv' w' [He (H1 & (s1 & rv & ex & Hs1 & Hf1 & Hex1) & H3)].
    eapply post_bind_eq; [by apply done_eq|].
    eapply post_bind_eq;
      [eapply get_frame_eq; [simpl; apply lookup_insert_eq|exact Hf1]|].
    cbv iota. unfold post.
    erewrite put_frame_eq; [|simpl; apply lookup_insert_eq].
    rewrite set_objs_twice.
    assert (tidy w' s1) as Ht by (by eapply emitting_tidy).
    split.
    - eapply emitting_update; [done|done| |by intros x].
      by apply tidy_put, tidy_remove.
    - eapply (getInfo_wait_update this fid c id cat _ this s1);
        [split; [exact H1|split; [by exists s1, rv, ex|exact H3]]
        |done|by intros x|].
      intros _ rv0 ex0 _ _. exists rv', true. simpl.
      rewrite lookup_insert_eq. split; [done|]. intros _.
      apply remove_not_in. }
  unfold getInfo_slot.
  destruct (QMap.index "msgid" Invalid msg) as [v msg1].
  destruct (negb (eqQString v id)); [by apply post_ret|].
  destruct (QMap.index "hResult" Invalid msg1) as [hr msg2]. cbv zeta.
  destruct (String.eqb (toString hr) "WFS_SUCCESS").
  - unfold post, bind, Q_ASSERT. destruct (qt_debug w && _); [done|].
    destruct (negb (QMap.contains "message" msg2)); [done|].
    by apply Hfin.
  - apply post_bind, post_this_obj. intros s' Hs'.
    apply post_bind, post_modify. apply Hfin.
    destruct Hw as [He Hx]. by split.
Qed.

Lemma pres_deliver_wait rd this fid c id cat ev :
  pres (fun w => all_tidy w /\ getInfo_wait this fid c id cat w)
       (deliver rd ev).
Proof.
  apply pres_deliver_by.
  - intros p msg.
    apply (pres_emit_message_with (getInfo_wait this fid c id cat));
      try done.
    + intros. by eapply getInfo_wait_shrunk.
    + intros. by eapply getInfo_wait_slot.
  - split; [intros w p s f [Ht Hx] Hs|intros w p s st e [Ht Hx] Hs];
      (split;
       [apply all_tidy_update; [done|];
        by apply (tidy_same w s); [apply (Ht p s)|..]
       |eapply getInfo_wait_shrunk; [done..|]; by split]).
Qed.

(** The lambda of a query is connected: the request is pending, its frame
    is there. *)
Lemma tidy_query w s s' id cat fid :
  tidy w s -> getInfo_free (on_message s) ->
  id = uuid_string (uuid_seed w) ->
  m_pending s' = QMap.insert id cat (m_pending s) ->
  on_message s' =
    (on_message s ++ [(next_connection s, GetInfoSlot fid id cat)])%list ->
  next_connection s' = S (next_connection s) ->
  frames s' !! fid = Some (GetInfoFrame [] false) ->
  forall w', uuid_seed w' = S (uuid_seed w) -> tidy w' s'.
Proof.
  intros ((Hk & Hh & Hi & Hp & Hf) & Hpi & Hsi & Hlt) Hfree -> Ep Em Enc Ef
    w' Hu.
  set (id := uuid_string (uuid_seed w)) in *.
  assert (id ∉ QMap.keys (m_pending s)) as Hfresh.
  { intros Hin. by apply (not_issued_next w), Hpi. }
  split; [split; [|split; [|split; [|split]]]|split; [|split]].
  - rewrite Ep. by apply NoDup_insert_keys.
  - rewrite Em, map_app. apply NoDup_app. split; [done|]. split.
    + intros h Hin Hin'. apply list_elem_of_singleton in Hin'. simpl in Hin'.
      apply list_elem_of_fmap in Hin as (c & -> & Hc).
      specialize (Hlt c Hc). lia.
    + apply NoDup_singleton.
  - rewrite Em, omap_app. apply NoDup_app. split; [done|]. split.
    + intros x Hin Hin'. simpl in Hin'.
      apply list_elem_of_singleton in Hin'. subst x.
      apply list_elem_of_omap in Hin as (c & Hc & Hx).
      by apply (not_issued_next w), (Hsi c).
    + apply NoDup_singleton.
  - intros x Hx. rewrite Ep in Hx. apply keys_insert in Hx as [->|Hx].
    + exists (next_connection s, GetInfoSlot fid id cat). split; [|done].
      rewrite Em. apply elem_of_app. right. by left.
    + destruct (Hp x Hx) as (c & Hc & Hcx). exists c. split; [|done].
      rewrite Em. apply elem_of_app. by left.
  - intros c fid' i cat' Hc Hsnd. rewrite Em in Hc.
    apply elem_of_app in Hc as [Hc|Hc].
    + specialize (Hfree c Hc). by rewrite Hsnd in Hfree.
    + apply list_elem_of_singleton in Hc. subst c. simpl in Hsnd.
      injection Hsnd as <- _ _. by eauto.
  - intros x Hx. rewrite Ep in Hx. apply (issued_next w); [done|].
    apply keys_insert in Hx as [->|Hx]; [by right|left; by apply Hpi].
  - intros c x Hc Hx. rewrite Em in Hc. apply (issued_next w); [done|].
    apply elem_of_app in Hc as [Hc|Hc]; [left; by eapply Hsi|].
    apply list_elem_of_singleton in Hc. subst c. simpl in Hx.
    injection Hx as <-. by right.
  - intros c Hc. rewrite Enc. rewrite Em in Hc.
    apply elem_of_app in Hc as [Hc|Hc]; [specialize (Hlt c Hc); lia|].
    apply list_elem_of_singleton in Hc. subst c. simpl. lia.
Qed.

Lemma pres_connectToServer_at_ease this : pres at_ease (connectToServer this).
Proof.
  apply pres_and; apply pres_connectToServer_ignored;
    [apply all_tidy_ignores_connect|apply all_idle_ignores_connect].
Qed.

Lemma getInfo_at_ease rd this category queryDetails :
  returns_keep at_ease (getInfo rd this category queryDetails).
Proof.
  intros w Hw.
  pose proof (pres_connectToServer_at_ease this w Hw) as Hc. unfold post in Hc.
  destruct (connectToServer this w) as [[|] w1| |w1] eqn:E;
    [|unfold getInfo; eapply post_bind_eq; [by apply send_fail|];
      by apply post_ret
     |unfold post, getInfo, send, bind; by rewrite E..].
  destruct Hc as [Ht1 Hi1].
  destruct (connectToServer_tx this w true w1 E) as (_ & s1 & k1 & Hs1 & _).
  unfold getInfo. eapply post_bind_eq; [by apply send_eq|]. cbv zeta.
  set (id := uuid_string (uuid_seed w1)).
  change (isEmptyString id) with false. cbv iota.
  set (fr := request_frame "WFSGetInfo" id category queryDetails).
  destruct (written_fields fr s1) as (Em & _ & _ & Ef & Enf & Enc & _ & Ep).
  set (w2 := set_uuid_seed S w1).
  eapply post_bind_eq; [apply new_frame_eq; simpl; apply lookup_insert_eq|].
  rewrite set_objs_twice.
  eapply post_bind_eq;
    [apply connect_message_eq; simpl; apply lookup_insert_eq|].
  rewrite set_objs_twice. simpl next_frame. simpl next_connection.
  rewrite Enf, Enc.
  set (fid := next_frame s1). set (c := next_connection s1).
  match goal with |- post _ _ _ (set_objs (fun h => <[this := ?x]> h) _) =>
    set (s3 := x) end.
  set (w3 := set_objs _ w2).
  assert (tidy w1 s1) as Hts1 by by apply (Ht1 this).
  assert (getInfo_free (on_message s1)) as Hfree1 by by apply (Hi1 this).
  assert (on_message s3 =
          (on_message s1 ++ [(c, GetInfoSlot fid id category)])%list) as Em3
    by (subst s3; simpl; by rewrite Em).
  assert (frames s3 !! fid = Some (GetInfoFrame [] false)) as Ef3
    by (subst s3; simpl; apply lookup_insert_eq).
  set (J := fun x => all_tidy x /\ getInfo_wait this fid c id category x).
  assert (J w3) as HJ3.
  { split.
    - intros q sq. subst w3. simpl. destruct (decide (q = this)) as [->|Hne].
      + rewrite lookup_insert_eq. intros [= <-].
        apply (tidy_query w1 s1 s3 id category fid); try done.
        * subst s3. simpl. by rewrite Ep.
        * subst s3. simpl. by rewrite Enc.
      + rewrite lookup_insert_ne by done. intros Hq.
        eapply tidy_seed; [by apply (Ht1 q)|]. simpl. lia.
    - split; [|split].
      + intros q sq x. subst w3. simpl.
        destruct (decide (q = this)) as [->|Hne].
        * rewrite lookup_insert_eq. intros [= <-] Hx. rewrite Em3 in Hx.
          apply elem_of_app in Hx as [Hx|Hx].
          -- specialize (Hfree1 x Hx). by destruct (snd x).
          -- apply list_elem_of_singleton in Hx. by subst x.
        * rewrite lookup_insert_ne by done. intros Hq Hx.
          specialize (Hi1 q sq Hq x Hx). by destruct (snd x).
      + exists s3, [], false. subst w3. simpl. rewrite lookup_insert_eq.
        done.
      + intros sx x. subst w3. simpl. rewrite lookup_insert_eq.
        intros [= <-] Hx Hfst. rewrite Em3 in Hx.
        apply elem_of_app in Hx as [Hx|Hx].
        * destruct Hts1 as (_ & _ & _ & Hlt). specialize (Hlt x Hx).
          subst c. lia.
        * by apply list_elem_of_singleton in Hx. }
  apply post_bind. unfold QEventLoop_exec. eapply post_bind_eq; [reflexivity|].
  eapply post_mono; [| |done].
  { apply (loop_exec_post J rd this fid); [| |exact HJ3].
    - intros ev. apply pres_deliver_wait.
    - by intros x f [Ha Hb]. }
  intros [] w4 [[Ht4 (H1 & (s4 & rv & ex & Hs4 & Hf4 & Hex4) & H3)] Hflag].
  cbv beta.
  unfold exit_flag in Hflag. rewrite Hs4, Hf4 in Hflag. simpl in Hflag.
  injection Hflag as ->.
  eapply post_bind_eq; [by apply update_this_eq|].
  eapply post_bind_eq;
    [eapply get_frame_eq; [simpl; apply lookup_insert_eq|exact Hf4]|].
  eapply post_bind_eq; [unfold drop_frame; apply update_this_eq; simpl;
                        apply lookup_insert_eq|].
  rewrite set_objs_twice. apply post_ret.
  set (s5 := set_on_message (drop_connection c) s4).
  assert (tidy w4 s5) as Ht5.
  { apply tidy_drop; [by apply (Ht4 this)|].
    intros x id' Hx Hfst Hid'. rewrite (H3 s4 x Hs4 Hx Hfst) in Hid'.
    simpl in Hid'. injection Hid' as <-. by apply Hex4. }
  assert (getInfo_free (on_message s5)) as Hfree5.
  { intros x Hx. subst s5. simpl in Hx. unfold drop_connection in Hx.
    apply list_elem_of_filter in Hx as [Hne Hx].
    specialize (H1 this s4 x Hs4 Hx). destruct (snd x); try done.
    destruct H1 as [_ ->]. by destruct Hne. }
  split.
  - apply all_tidy_update; [done|]. by apply (tidy_idle w4 s5).
  - intros q sq. simpl. destruct (decide (q = this)) as [->|Hne].
    + rewrite lookup_insert_eq. by intros [= <-].
    + rewrite lookup_insert_ne by done. intros Hq x Hx.
      specialize (H1 q sq x Hq Hx). destruct (snd x); try done.
      by destruct H1.
Qed.

Lemma pres_capabilities_of_at_ease this : pres at_ease (capabilities_of this).
Proof.
  unfold capabilities_of. pres_step; [pres_step|]. pres_step; [pres_step|].
  destruct (QMap.index _ _ _).
  pres_step; [apply pres_modify; by intros ? ?|pres_step].
Qed.

Lemma getCapabilities_at_ease rd this :
  returns_keep at_ease (getCapabilities rd this).
Proof.
  unfold getCapabilities.
  apply returns_keep_bind; [apply pres_returns_keep; pres_step|]. intros s.
  apply returns_keep_bind; [apply getInfo_at_ease|]. intros data.
  apply pres_returns_keep.
  destruct (QMap.contains _ _); [apply pres_modify; by intros ? ?|pres_step].
Qed.

(** X17. Between the calls every proxy is in order: each pending request
    has one lambda connected on [message], no id and no connection handle
    is used twice, and no [getInfo] is under way. That holds in a fresh
    process; the constructor, the dispatch of any socket event - replies,
    events, garbage, the loss of the connection -, [connectToServer],
    [execute], [cancel] and [syncCancel] keep it, whether they return or
    are left waiting, and [getInfo], [getStatus], [getCapabilities] and
    [capabilities] keep it whenever they return. *)
Theorem proxies_stay_in_order (rd : list byte -> ReadStatus) :
  (forall debug waits events, at_ease (fresh_world debug waits events)) /\
  (forall w p s, at_ease w -> objs w !! p = Some s ->
     served s /\ getInfo_free (on_message s)) /\
  (forall a d c, pres at_ease (QXfsSocketStream_new a d c)) /\
  (forall ev, pres at_ease (deliver rd ev)) /\
  (forall this, pres at_ease (connectToServer this)) /\
  (forall this cmd data, pres at_ease (execute this cmd data)) /\
  (forall this reqMsgId, pres at_ease (cancel this reqMsgId)) /\
  (forall this reqMsgId, pres at_ease (syncCancel rd this reqMsgId)) /\
  (forall this category queryDetails,
     returns_keep at_ease (getInfo rd this category queryDetails)) /\
  (forall this, returns_keep at_ease (getStatus rd this)) /\
  (forall this, returns_keep at_ease (getCapabilities rd this)) /\
  (forall this, returns_keep at_ease (capabilities rd this)).
Proof.
  split; [|split; [|split; [|split; [|split; [|split; [|split; [|split;
    [|split; [|split; [|split]]]]]]]]]].
  - intros debug waits events. split; intros p s; simpl;
      by rewrite lookup_empty.
  - intros w p s [Ht Hi] Hs. split; [by destruct (Ht p s Hs)|by apply (Hi p)].
  - intros a d c. apply pres_and; [apply pres_new_tidy|].
    unfold QXfsSocketStream_new.
    pres_step; [pres_step|]. pres_step; [by apply pres_modify|].
    pres_step; [by apply pres_modify|]. pres_step; [pres_step|].
    pres_step; [pres_step|].
    pres_step; [|pres_step; [by apply pres_modify|pres_step]].
    apply pres_modify. intros w Hw. apply all_idle_update; [done|].
    simpl. intros x Hx. apply list_elem_of_singleton in Hx. by subst x.
  - intros ev. apply pres_and; [apply pres_deliver_tidy|].
    apply pres_deliver_ignored;
      [apply all_idle_ignores_slots|apply all_idle_ignores_socket].
  - intros this. apply pres_connectToServer_at_ease.
  - intros. apply pres_and; [apply pres_execute_tidy|apply pres_execute_idle].
  - intros. apply pres_and; [apply pres_cancel_tidy|apply pres_cancel_idle].
  - intros. apply pres_syncCancel_at_ease.
  - intros. apply getInfo_at_ease.
  - intros this. unfold getStatus.
    apply returns_keep_bind; [apply pres_returns_keep; pres_step|]. intros s.
    apply returns_keep_bind; [apply getInfo_at_ease|]. intros data.
    apply pres_returns_keep. pres_step.
  - intros. apply getCapabilities_at_ease.
  - intros this. unfold capabilities.
    apply returns_keep_bind;
      [apply pres_returns_keep, pres_capabilities_of_at_ease|]. intros caps.
    apply returns_keep_bind;
      [|intros; apply pres_returns_keep, pres_capabilities_of_at_ease].
    destruct (QMap.isEmpty caps); simpl;
      [apply getCapabilities_at_ease|apply pres_returns_keep, pres_ret].
Qed.
(** * The lambdas that [syncCancel] leaves behind *)

Lemma sync_settled_kept s s' :
  on_cancelComplete s' = on_cancelComplete s ->
  on_executeComplete s' = on_executeComplete s ->
  next_connection s <= next_connection s' ->
  next_frame s <= next_frame s' ->
  (forall i, i < next_frame s -> frames s !! i = None ->
             frames s' !! i = None) ->
  sync_settled s -> sync_settled s'.
Proof.
  intros Ec Ee Hc Hn Hf [H1 H2]. split; [by rewrite Ec|]. rewrite Ee.
  eapply Forall_impl; [exact H2|]. intros c. by apply stale_kept.
Qed.

Lemma settled_but_update E w p s s' :
  settled_but E w -> objs w !! p = Some s ->
  (E p = false -> sync_settled s -> sync_settled s') ->
  settled_but E (set_objs (fun h => <[p := s']> h) w).
Proof.
  intros Hw Hs Hsame q s0 Hq. simpl. destruct (decide (q = p)) as [->|Hne].
  - rewrite lookup_insert_eq. intros [= <-]. apply Hsame; [done|].
    by apply (Hw p s).
  - rewrite lookup_insert_ne by done. by apply Hw.
Qed.

Lemma settled_but_ignores_signals E :
  ignores_signals (settled_but E) any_signal.
Proof. by intros w e Hw _. Qed.

Lemma settled_but_ignores_sync E :
  ignores_sync (settled_but E) (fun p => E p = true).
Proof.
  split; [|split]; intros w p s f Hp Hw Hs;
    (eapply settled_but_update; [done..|]); intros Hq; congruence.
Qed.

Lemma settled_but_ignores_socket E : ignores_socket (settled_but E).
Proof.
  split; [intros w p s f Hw Hs|intros w p s st e Hw Hs];
    (eapply settled_but_update; [done..|]); by intros _ ?.
Qed.

Lemma settled_but_ignores_connect E : ignores_connect (settled_but E).
Proof.
  split; [by intros w f Hw|]. split; [by intros w f Hw|].
  split; [by intros w f Hw|]. intros w p s f Hw Hs _.
  eapply settled_but_update; [done..|]. by intros _ ?.
Qed.

Lemma settled_but_of_others this :
  of_others this (settled_but (Nat.eqb this)).
Proof.
  intros x y Hx Hsame p sp Hp Hsp. apply Nat.eqb_neq in Hp.
  rewrite Hsame in Hsp by done. apply (Hx p sp); [|done].
  by apply Nat.eqb_neq.
Qed.

Lemma pres_update_this_settled E this f :
  (forall s, sync_settled s -> sync_settled (f s)) ->
  pres (settled_but E) (update_this this f).
Proof.
  intros Hf. apply pres_update_this. intros w s Hw Hs.
  eapply settled_but_update; [done..|]. intros _. apply Hf.
Qed.

(** Allocating the locals of a blocking call: the frame is a new one. *)
Lemma pres_new_frame_settled E this f :
  pres (settled_but E) (new_frame this f).
Proof.
  intros w Hw. unfold post. destruct (objs w !! this) as [s|] eqn:Hs.
  - rewrite (new_frame_eq this f w s Hs).
    eapply settled_but_update; [done..|]. intros _ Hst.
    eapply sync_settled_kept; [| | | | |exact Hst]; simpl; [done|done|lia|lia|].
    intros i Hi Hd. rewrite lookup_insert_ne; [done|lia].
  - unfold new_frame, bind, this_obj. by rewrite Hs.
Qed.

Ltac settled_upd :=
  intros ? ?; eapply sync_settled_kept; [| | | | |eassumption]; simpl;
  first [ reflexivity | lia
        | intros ? _ ?; first [ eassumption
                              | apply lookup_delete_None; by right ] ].

Ltac settled_step :=
  first
    [ apply pres_update_this_settled; settled_upd
    | apply pres_new_frame_settled
    | apply pres_connectToServer_ignored; apply settled_but_ignores_connect
    | apply pres_modify; by intros ? ?
    | pres_step ].

Lemma pres_emit_executeComplete_settled E p msg :
  pres (settled_but E) (emit_executeComplete p msg).
Proof.
  destruct (E p) eqn:Hp.
  - apply (pres_emit_executeComplete _ any_signal (fun p => E p = true));
      [apply settled_but_ignores_signals|done
      |apply settled_but_ignores_sync|done].
  - intros w Hw. unfold emit_executeComplete, emit.
    apply post_bind, post_modify.
    apply post_bind, post_this_obj. intros s Hs.
    destruct (Hw p s Hp Hs) as [_ Hst]. unfold post.
    destruct (stale_lambdas_run p msg _ _ s Hs Hst) as [E1|E1];
      rewrite E1; done.
Qed.

Lemma pres_emit_cancelComplete_settled E p msg :
  pres (settled_but E) (emit_cancelComplete p msg).
Proof.
  destruct (E p) eqn:Hp.
  - apply (pres_emit_cancelComplete _ any_signal (fun p => E p = true));
      [apply settled_but_ignores_signals|done
      |apply settled_but_ignores_sync|done].
  - intros w Hw. unfold emit_cancelComplete, emit.
    apply post_bind, post_modify.
    apply post_bind, post_this_obj. intros s Hs.
    destruct (Hw p s Hp Hs) as [-> _]. by apply post_ret.
Qed.

(** The lambda of [getInfo] writes to the locals of its own call, which
    are there. *)
Lemma pres_getInfo_slot_settled E p fid id cat msg :
  pres (settled_but E) (getInfo_slot p fid id cat msg).
Proof.
  set (J := settled_but E).
  assert (forall q msgid, pres J (done q msgid)) as Hdone.
  { intros q msgid. apply pres_done; [done|].
    intros w q' s f Hw Hs. eapply settled_but_update; [done..|].
    by intros _ ?. }
  unfold getInfo_slot.
  destruct (QMap.index "msgid" Invalid msg) as [id0 msg1].
  destruct (negb (eqQString id0 id)); [apply pres_ret|].
  destruct (QMap.index "hResult" Invalid msg1) as [hr msg2].
  assert (pres J (done p id ;; f ← get_frame p fid;
                  match f with
                  | GetInfoFrame _ _ => put_frame p fid (GetInfoFrame msg2 true)
                  | _ => fault DanglingReference
                  end)) as Hfin.
  { pres_step; [apply Hdone|]. intros w Hw. unfold post, bind.
    rewrite get_frame_cases.
    destruct (objs w !! p) as [s|] eqn:Hs; [|done].
    destruct (frames s !! fid) as [[rv ex|fin ex]|] eqn:Hf; [|done..].
    erewrite put_frame_eq; [|done].
    eapply settled_but_update; [done..|]. intros _ Hst.
    eapply sync_settled_kept; [| | | | |exact Hst]; simpl; [done..|].
    intros i _ Hi. rewrite lookup_insert_ne; [done|]. intros ->. congruence. }
  repeat first [ apply Hfin | pres_step ].
  apply pres_modify. by intros ? ?.
Qed.

Lemma pres_deliver_settled E rd ev : pres (settled_but E) (deliver rd ev).
Proof.
  apply (pres_deliver (settled_but E) (fun _ _ => True)); try done.
  - intros. eapply settled_but_update; [done..|]. by intros _ ?.
  - intros. eapply settled_but_update; [done..|]. by intros _ ?.
  - intros. by apply pres_modify.
  - intros. apply pres_emit_executeComplete_settled.
  - intros. apply pres_emit_cancelComplete_settled.
  - intros. apply pres_getInfo_slot_settled.
  - apply settled_but_ignores_socket.
Qed.

Lemma pres_loop_exec_settled E rd evs this fid :
  pres (settled_but E) (loop_exec rd evs this fid).
Proof.
  apply (pres_loop_exec (settled_but E) (fun _ _ => True)); try done.
  - intros. eapply settled_but_update; [done..|]. by intros _ ?.
  - intros. eapply settled_but_update; [done..|]. by intros _ ?.
  - intros. by apply pres_modify.
  - intros. apply pres_emit_executeComplete_settled.
  - intros. apply pres_emit_cancelComplete_settled.
  - intros. apply pres_getInfo_slot_settled.
  - apply settled_but_ignores_socket.
Qed.

Lemma pres_send_settled E this function cmd data :
  pres (settled_but E) (send this function cmd data).
Proof.
  unfold send, createUuid, write_frame, update_socket. repeat settled_step.
Qed.

Lemma pres_execute_settled E this cmd data :
  pres (settled_but E) (execute this cmd data).
Proof.
  unfold execute. settled_step; [apply pres_send_settled|].
  unfold connect_message, new_connection. repeat settled_step.
Qed.

Lemma pres_cancel_settled E this reqMsgId :
  pres (settled_but E) (cancel this reqMsgId).
Proof.
  unfold cancel, createUuid, write_frame, update_socket, connect_message,
    new_connection.
  repeat settled_step.
Qed.

Lemma pres_getInfo_settled E rd this category queryDetails :
  pres (settled_but E) (getInfo rd this category queryDetails).
Proof.
  unfold getInfo. settled_step; [apply pres_send_settled|].
  unfold drop_frame, connect_message, new_connection, QEventLoop_exec.
  repeat first [ apply pres_loop_exec_settled | settled_step ].
Qed.

Lemma pres_capabilities_of_settled E this :
  pres (settled_but E) (capabilities_of this).
Proof.
  unfold capabilities_of. settled_step; [settled_step|].
  settled_step; [settled_step|].
  destruct (QMap.index _ _ _). repeat settled_step.
Qed.

Lemma pres_getCapabilities_settled E rd this :
  pres (settled_but E) (getCapabilities rd this).
Proof.
  unfold getCapabilities. settled_step; [settled_step|].
  settled_step; [apply pres_getInfo_settled|]. repeat settled_step.
Qed.

Lemma tidy_ids_set w s : tidy w s -> execute_ids_set (on_message s).
Proof.
  intros (_ & _ & Hi & _) c Hc. destruct c as [h slot]. simpl.
  destruct slot as [|id cmd data| |]; try done.
  destruct (Hi (h, ExecuteSlot id cmd data) id Hc eq_refl) as (n & _ & ->).
  done.
Qed.

(** X18. Between the calls the lambdas of [syncCancel] are settled on every
    proxy: none is connected on [cancelComplete], and those connected on
    [executeComplete] are stale - left by a [syncCancel] that has
    returned, their locals gone, their frame and their handle never handed
    out again. That holds in a fresh process; the constructor, the dispatch
    of any socket event, [connectToServer], [execute], [cancel], [getInfo],
    [getCapabilities], [capabilities] and [getStatus] keep it, whether they
    return or are left waiting; and [syncCancel] keeps it whenever it
    returns, on a proxy
    whose pending executes carry an id - which is so on every proxy that is
    in order. *)
Theorem stale_lambdas_only (rd : list byte -> ReadStatus) :
  (forall debug waits events, all_settled (fresh_world debug waits events)) /\
  (forall a d c, pres all_settled (QXfsSocketStream_new a d c)) /\
  (forall ev, pres all_settled (deliver rd ev)) /\
  (forall this, pres all_settled (connectToServer this)) /\
  (forall this cmd data, pres all_settled (execute this cmd data)) /\
  (forall this reqMsgId, pres all_settled (cancel this reqMsgId)) /\
  (forall this category queryDetails,
     pres all_settled (getInfo rd this category queryDetails)) /\
  (forall this, pres all_settled (getCapabilities rd this)) /\
  (forall this, pres all_settled (capabilities rd this)) /\
  (forall this, pres all_settled (getStatus rd this)) /\
  (forall this reqMsgId w s b w',
     all_settled w -> objs w !! this = Some s ->
     execute_ids_set (on_message s) ->
     syncCancel rd this reqMsgId w = Ret b w' ->
     all_settled w') /\
  (forall w p s, at_ease w -> objs w !! p = Some s ->
     execute_ids_set (on_message s)).
Proof.
  split; [|split; [|split; [|split; [|split; [|split; [|split; [|split;
    [|split; [|split; [|split]]]]]]]]]].
  - intros debug waits events p s _. simpl. by rewrite lookup_empty.
  - intros a d c. unfold QXfsSocketStream_new.
    pres_step; [pres_step|]. pres_step; [by apply pres_modify|].
    pres_step; [by apply pres_modify|]. pres_step; [pres_step|].
    pres_step; [pres_step|].
    pres_step; [|pres_step; [by apply pres_modify|pres_step]].
    apply pres_modify. intros w Hw q s0 _. simpl.
    destruct (decide (q = a0)) as [->|Hne].
    + rewrite lookup_insert_eq. intros [= <-]. split; [done|constructor].
    + rewrite lookup_insert_ne by done. by apply Hw.
  - intros ev. apply pres_deliver_settled.
  - intros this.
    apply pres_connectToServer_ignored, settled_but_ignores_connect.
  - intros. apply pres_execute_settled.
  - intros. apply pres_cancel_settled.
  - intros. apply pres_getInfo_settled.
  - intros. apply pres_getCapabilities_settled.
  - intros this. unfold capabilities.
    settled_step; [apply pres_capabilities_of_settled|].
    settled_step; [|apply pres_capabilities_of_settled].
    destruct (QMap.isEmpty a); simpl;
      [apply pres_getCapabilities_settled|apply pres_ret].
  - intros this. unfold getStatus. settled_step; [settled_step|].
    settled_step; [apply pres_getInfo_settled|]. settled_step.
  - intros this reqMsgId w s b w' Hw Hs Hids Hrun.
    destruct (connectToServer this w) as [ok w1| |] eqn:Hconn;
      [|unfold syncCancel, cancel, bind in Hrun; by rewrite Hconn in Hrun..].
    assert (all_settled w1) as Hw1.
    { eapply (post_Ret _ (fun _ => all_settled) all_settled); [|exact Hconn].
      by apply pres_connectToServer_ignored;
        [apply settled_but_ignores_connect|]. }
    destruct ok.
    2:{ unfold syncCancel in Hrun.
        erewrite bind_eq in Hrun;
          [|by apply (proj1 (cancel_sent this reqMsgId w))].
        by injection Hrun as _ <-. }
    pose proof (syncCancel_exit rd this reqMsgId w w1 s
                  (settled_but (Nat.eqb this)) Hs (Hw this s eq_refl Hs) Hids
                  Hconn (settled_but_of_others this)
                  (fun ev => pres_deliver_settled _ rd ev)) as Hpost.
    pose proof (post_Ret _ _ _ _ _ _ Hpost Hrun)
      as (_ & s' & fid & h & Hs' & _ & Hcc & _ & Hst & Hothers).
    intros p sp _ Hp. destruct (decide (p = this)) as [->|Hne].
    + rewrite Hs' in Hp. injection Hp as <-. by split.
    + apply (Hothers (fun q sq Hq Hsq => Hw1 q sq eq_refl Hsq) p sp); [|done].
      by apply Nat.eqb_neq, not_eq_sym.
  - intros w p s [Ht _] Hs. exact (tidy_ids_set w s (Ht p s Hs)).
Qed.

(** * The theorems on concrete runs *)

Lemma ids_set_dispense (l : list (nat * MessageSlot)) :
  l = [(0, CtorSlot); (1, ExecuteSlot "{0}" dispense Invalid)] ->
  execute_ids_set l.
Proof.
  intros -> c Hin.
  apply elem_of_cons in Hin as [->|Hin]; [exact I|].
  apply elem_of_cons in Hin as [->|Hin]; [discriminate|].
  apply elem_of_nil in Hin. destruct Hin.
Qed.

(** C9 at work: the request "{0}" has queued its command; finalizing a
    request "{7}" that never queued one removes it. *)
Lemma done_pops_shared_queue_witness :
  objs crd_acked !! 0 = Some (proxy_at 0 crd_acked) /\
  queue_of "CRD1" crd_acked = [(dispense, Invalid)] /\
  exists w',
    done 0 "{7}" crd_acked = Ret tt w' /\
    done_effect 0 "CRD1" [] [("{0}", dispense)] w'.
Proof.
  assert (objs crd_acked !! 0 = Some (proxy_at 0 crd_acked)) as Hs
    by (vm_compute; reflexivity).
  split; [exact Hs|]. split; [vm_compute; reflexivity|].
  pose proof (proj1 (done_pops_shared_queue 0 crd_acked _ Hs) "{7}") as H.
  vm_compute in H |- *. exact H.
Defined.

(** C1 at work: the completion of the pending request. *)
Lemma execute_reply_protocol_witness :
  objs (crd_pending false []) !! 0 = Some (proxy_at 0 (crd_pending false [])) /\
  registry_live (crd_pending false []) /\
  sync_live (proxy_at 0 (crd_pending false [])) /\
  msgid_is complete_frame "{0}" = true /\
  exists w',
    execute_slot 0 1 "{0}" dispense Invalid complete_frame
      (crd_pending false []) = Ret tt w' /\
    pending_of 0 w' = [] /\
    slots_of 0 w' = [(0, CtorSlot)] /\
    new_trace (crd_pending false []) w' =
      [(0, executeEventBroadcasted complete_frame dispense Invalid);
       (0, executeComplete complete_frame)].
Proof.
  assert (objs (crd_pending false []) !! 0 =
          Some (proxy_at 0 (crd_pending false []))) as Hs
    by (vm_compute; reflexivity).
  assert (registry_live (crd_pending false [])) as Hreg.
  { vm_compute. constructor; [by eexists|constructor]. }
  assert (sync_live (proxy_at 0 (crd_pending false []))) as Hlive.
  { vm_compute. split; constructor. }
  assert (msgid_is complete_frame "{0}" = true) as Hid
    by (vm_compute; reflexivity).
  split; [exact Hs|]. split; [exact Hreg|]. split; [exact Hlive|].
  split; [exact Hid|].
  pose proof (proj1 (proj2 (execute_reply_protocol 0 1 "{0}" dispense Invalid
                complete_frame (crd_pending false []) _ Hs Hreg Hlive Hid))
                eq_refl eq_refl (or_introl eq_refl)) as H.
  vm_compute in H |- *. exact H.
Defined.

(** C1 needs its proviso: in a debug build a completion that echoes
    another command code stops the process at the [Q_ASSERT]; nothing is
    completed and the request stays pending. *)
Lemma execute_reply_protocol_counterexample :
  msgid_is stray_frame "{0}" = true /\
  eqQString (hResult_of stray_frame) "WFS_SUCCESS" = true /\
  QMap.find "message" stray_frame = Some (VString "WFS_EXECUTE_COMPLETE") /\
  pending_of 0 (crd_pending true []) = [("{0}", dispense)] /\
  execute_slot 0 1 "{0}" dispense Invalid stray_frame (crd_pending true []) =
    Stop AssertFailed.
Proof. vm_compute. repeat split; reflexivity. Qed.

(** C5 at work: the second proxy of the device identity hears of the
    completion of a request of the first. *)
Lemma completion_is_broadcast_witness :
  objs crd_twice !! 0 = Some (proxy_at 0 crd_twice) /\
  registry_live crd_twice /\
  msgid_is complete_frame "{0}" = true /\
  execute_slot 0 1 "{0}" dispense Invalid complete_frame crd_twice =
    Ret tt (state_after
              (execute_slot 0 1 "{0}" dispense Invalid complete_frame)
              crd_twice) /\
  (1, executeEventBroadcasted complete_frame dispense Invalid) ∈
    new_trace crd_twice
      (state_after (execute_slot 0 1 "{0}" dispense Invalid complete_frame)
         crd_twice).
Proof.
  assert (objs crd_twice !! 0 = Some (proxy_at 0 crd_twice)) as Hs
    by (vm_compute; reflexivity).
  assert (registry_live crd_twice) as Hreg.
  { vm_compute. repeat constructor; by eexists. }
  assert (msgid_is complete_frame "{0}" = true) as Hid
    by (vm_compute; reflexivity).
  assert (execute_slot 0 1 "{0}" dispense Invalid complete_frame crd_twice =
          Ret tt (state_after
                    (execute_slot 0 1 "{0}" dispense Invalid complete_frame)
                    crd_twice)) as Hrun
    by (vm_compute; reflexivity).
  split; [exact Hs|]. split; [exact Hreg|]. split; [exact Hid|].
  split; [exact Hrun|].
  apply (completion_is_broadcast 0 1 "{0}" dispense Invalid complete_frame
           crd_twice _ _ Hs Hreg Hid Hrun 1 (proxy_at 1 crd_twice)).
  - vm_compute. right. left.
  - vm_compute. reflexivity.
  - vm_compute. reflexivity.
Defined.

(** X19 at work: the server does not answer; three attempts, one
    warning. *)
Lemma connect_failure_warns_once_witness :
  objs crd_offline !! 0 = Some (proxy_at 0 crd_offline) /\
  io_device (proxy_at 0 crd_offline) = Some (fresh_socket ConnectingState) /\
  must_connect (proxy_at 0 crd_offline) (fresh_socket ConnectingState) = true /\
  wait_fails crd_offline /\
  warn_budget "CRD1" crd_offline /\
  (exists w', connectToServer 0 crd_offline = Ret false w') /\
  connect_warnings "CRD1" (log (state_after (attempts [0; 0; 0]) crd_offline))
    = 1.
Proof.
  assert (objs crd_offline !! 0 = Some (proxy_at 0 crd_offline)) as Hs
    by (vm_compute; reflexivity).
  assert (io_device (proxy_at 0 crd_offline) =
          Some (fresh_socket ConnectingState)) as Hk
    by (vm_compute; reflexivity).
  assert (must_connect (proxy_at 0 crd_offline)
            (fresh_socket ConnectingState) = true) as Hm
    by (vm_compute; reflexivity).
  assert (wait_fails crd_offline) as Hw by (vm_compute; exact I).
  assert (warn_budget "CRD1" crd_offline) as Hb by (vm_compute; lia).
  split; [exact Hs|]. split; [exact Hk|]. split; [exact Hm|].
  split; [exact Hw|]. split; [exact Hb|].
  split.
  - exact (proj1 (connect_failure_warns_once "CRD1") 0 crd_offline _ _
             Hs Hk Hm Hw).
  - pose proof (proj2 (connect_failure_warns_once "CRD1")
                  [0; 0; 0] crd_offline Hb) as H.
    vm_compute in H |- *. reflexivity.
Defined.


(** C7 at work, on a wire whose frames take three bytes. With two bytes
    of a frame buffered a read changes nothing; when the third byte
    arrives the frame is dispatched. Two frames and the beginning of a
    third in the buffer: the two are dispatched in their order and the
    beginning of the third stays. *)
Lemma readyRead_transactional_witness :
  let part := crd_received [x02; x00] in
  let more := crd_received [x02; x00; xff; x02; x00; x11; x02; x00] in
  progressing frame_wire /\
  frame_wire [x02; x00] = ReadPastEnd /\
  readyRead frame_wire 0 part = Ret tt part /\
  (exists w',
     deliver frame_wire (0, EvReadyRead [xff]) part = Ret tt w' /\
     messages_of 0 (new_trace part w') = [ack_frame] /\
     rx_of 0 w' = []) /\
  (exists w',
     readyRead frame_wire 0 more = Ret tt w' /\
     messages_of 0 (new_trace more w') = [ack_frame; ack_frame] /\
     rx_of 0 w' = [x02; x00]).
Proof.
  intros part more.
  assert (objs part !! 0 = Some (proxy_at 0 part)) as Hs
    by (vm_compute; reflexivity).
  assert (io_device (proxy_at 0 part) =
          Some (set_sock_rx (fun _ => [x02; x00])
                  (fresh_socket ConnectingState))) as Hk
    by (vm_compute; reflexivity).
  assert (objs more !! 0 = Some (proxy_at 0 more)) as Hs'
    by (vm_compute; reflexivity).
  assert (io_device (proxy_at 0 more) =
          Some (set_sock_rx
                  (fun _ => [x02; x00; xff; x02; x00; x11; x02; x00])
                  (fresh_socket ConnectingState))) as Hk'
    by (vm_compute; reflexivity).
  pose proof (framed_codec_progressing [ack_frame]) as Hp.
  assert (frame_wire [x02; x00] = ReadPastEnd) as Hpart
    by (vm_compute; reflexivity).
  split; [exact Hp|]. split; [exact Hpart|]. split; [|split].
  - exact (proj1 (readyRead_transactional frame_wire 0 part _ _ Hs Hk) Hpart).
  - pose proof (proj2 (proj2 (proj2 (readyRead_transactional frame_wire 0
                  part _ _ Hs Hk))) Hp [xff]) as H.
    eexists. split; [vm_compute; reflexivity|].
    vm_compute in H |- *. exact H.
  - pose proof (proj2 (proj2 (proj1 (proj2 (proj2 (readyRead_transactional
                  frame_wire 0 more _ _ Hs' Hk'))) Hp))) as H.
    eexists. split; [vm_compute; reflexivity|].
    vm_compute in H |- *. exact H.
Defined.

(** C7 as the claim words it does not hold of corrupt data. The two bytes
    [x01; x09] hold no frame, and the read consumes them; with a complete
    frame behind them the read loop stops after the corrupt bytes, and the
    frame stays in the buffer, not dispatched. *)
Lemma readyRead_transactional_counterexample :
  let bad := crd_received [x01; x09] in
  let mixed := crd_received [x01; x09; x02; x00; xff] in
  frame_wire [x01; x09] = ReadCorruptData [] /\
  frame_wire [x02; x00; xff] = ReadOk ack_frame [] /\
  (exists w',
     readyRead frame_wire 0 bad = Ret tt w' /\
     rx_of 0 bad = [x01; x09] /\ rx_of 0 w' = [] /\
     messages_of 0 (new_trace bad w') = []) /\
  (exists w',
     readyRead frame_wire 0 mixed = Ret tt w' /\
     messages_of 0 (new_trace mixed w') = [] /\
     rx_of 0 w' = [x02; x00; xff]).
Proof.
  intros bad mixed.
  split; [vm_compute; reflexivity|]. split; [vm_compute; reflexivity|].
  split.
  - eexists. split; [vm_compute; reflexivity|].
    split; [vm_compute; reflexivity|]. split; vm_compute; reflexivity.
  - eexists. split; [vm_compute; reflexivity|].
    split; vm_compute; reflexivity.
Qed.




(** C6 at work: the first call asks the backend and caches the snapshot,
    the second is answered from the cache. *)
Lemma capabilities_cached_witness :
  let rd := table_codec [caps_reply] in
  let w := crd_started false [(0, EvReadyRead [x00])] in
  let w1 := state_after (capabilities rd 0) w in
  let caps := [("fwType", VString "WFS_CRD_DISPENSE_TO_TRANSPORT")] in
  objs w !! 0 = Some (proxy_at 0 w) /\
  getInfo_free (on_message (proxy_at 0 w)) /\
  QMap.find "CRD1" (m_capabilities w) = None /\
  capabilities rd 0 w = Ret caps w1 /\
  caps <> [] /\
  List.length (tx_of 0 w1) = 1 + List.length (tx_of 0 w) /\
  capabilities rd 0 w1 = Ret caps w1.
Proof.
  intros rd w w1 caps.
  assert (objs w !! 0 = Some (proxy_at 0 w)) as Hs by (vm_compute; reflexivity).
  assert (getInfo_free (on_message (proxy_at 0 w))) as Hfree.
  { intros c Hin. vm_compute in Hin.
    apply elem_of_cons in Hin as [->|Hin]; [exact I|].
    by apply elem_of_nil in Hin. }
  assert (QMap.find (objectName (proxy_at 0 w)) (m_capabilities w) = None)
    as Hnone by (vm_compute; reflexivity).
  assert (capabilities rd 0 w = Ret caps w1) as Hrun
    by (vm_compute; reflexivity).
  assert (caps <> []) as Hcaps by discriminate.
  split; [exact Hs|]. split; [exact Hfree|]. split; [exact Hnone|].
  split; [exact Hrun|]. split; [exact Hcaps|].
  destruct (capabilities_cached rd 0 w w1 _ caps Hs Hfree Hnone Hrun Hcaps)
    as ((query & Htx & _) & _ & Hagain).
  split.
  - rewrite Htx, length_app. simpl. lia.
  - assert (objs w1 !! 0 = Some (proxy_at 0 w1)) as Hs1
      by (vm_compute; reflexivity).
    assert (objectName (proxy_at 0 w1) = objectName (proxy_at 0 w)) as Hn1
      by (vm_compute; reflexivity).
    exact (Hagain 0 (proxy_at 0 w1) Hs1 Hn1).
Defined.

(** X20 at work: an [execute] and a [cancel] are pending when the
    connection is lost. *)
Lemma disconnect_fails_all_pending_witness :
  let w := crd_cancelling in
  objs w !! 0 = Some (proxy_at 0 w) /\
  registry_live w /\ sync_live (proxy_at 0 w) /\ served (proxy_at 0 w) /\
  exists w',
    disconnected 0 w = Ret tt w' /\
    pending_of 0 w' = [] /\
    outcomes (new_trace w w') =
      [(0, message (lost_message "{0}" dispense));
       (0, executeComplete (lost_message "{0}" dispense));
       (0, message (lost_message "{1}" ""));
       (0, cancelComplete (lost_message "{1}" ""))].
Proof.
  intros w.
  assert (objs w !! 0 = Some (proxy_at 0 w)) as Hs by (vm_compute; reflexivity).
  assert (registry_live w) as Hreg.
  { vm_compute. constructor; [by eexists|constructor]. }
  assert (sync_live (proxy_at 0 w)) as Hlive.
  { vm_compute. split; constructor. }
  assert (served (proxy_at 0 w)) as Hsv.
  { vm_compute. split; [|split; [|split; [|split]]].
    - apply (bool_decide_unpack _). vm_compute. exact I.
    - apply (bool_decide_unpack _). vm_compute. exact I.
    - apply (bool_decide_unpack _). vm_compute. exact I.
    - intros id Hin.
      apply elem_of_cons in Hin as [->|Hin];
        [exists (1, ExecuteSlot "{0}" dispense Invalid);
         split; [right; left|reflexivity]|].
      apply elem_of_cons in Hin as [->|Hin];
        [exists (2, CancelSlot "{1}");
         split; [right; right; left|reflexivity]|].
      by apply elem_of_nil in Hin.
    - intros c fid id cat Hin Hsnd.
      apply elem_of_cons in Hin as [->|Hin]; [discriminate Hsnd|].
      apply elem_of_cons in Hin as [->|Hin]; [discriminate Hsnd|].
      apply elem_of_cons in Hin as [->|Hin]; [discriminate Hsnd|].
      by apply elem_of_nil in Hin. }
  split; [exact Hs|]. split; [exact Hreg|]. split; [exact Hlive|].
  split; [exact Hsv|].
  destruct (disconnect_fails_all_pending 0 w _ Hs Hreg Hlive Hsv)
    as (w' & Hrun & Hp & _ & Ho & _).
  exists w'. split; [exact Hrun|]. split; [exact Hp|].
  rewrite Ho. vm_compute. reflexivity.
Defined.

(** C3. A disconnect does not always fail the pending requests. The
    dispenser has one request pending; a [syncCancel] of it is refused by
    the backend and returns true, the request still pending and the lambda
    of the call still connected on [executeComplete]. When the connection
    is then lost, [disconnected] makes up the failure frame of the request
    and the lambda of [execute] emits [executeComplete] for it - which runs
    the lambda that [syncCancel] left, through its dangling references. No
    failure completion is delivered in a defined way and the request is
    never taken off the pending map. *)
Theorem disconnect_meets_stale_lambda :
  let w := crd_pending false [(0, EvReadyRead [x00])] in
  syncCancel refusing_wire 0 "{0}" w = Ret true crd_refused /\
  QMap.keys (pending_of 0 crd_refused) = ["{0}"] /\
  on_executeComplete (proxy_at 0 crd_refused) = [(4, SyncCancelC2 0 "{0}")] /\
  frames (proxy_at 0 crd_refused) !! 0 = None /\
  disconnected 0 crd_refused = Stop DanglingReference /\
  deliver refusing_wire (0, EvDisconnected) crd_refused =
    Stop DanglingReference.
Proof.
  intros w. split; [vm_compute; reflexivity|].
  split; [vm_compute; reflexivity|]. split; [vm_compute; reflexivity|].
  split; [vm_compute; reflexivity|]. split; vm_compute; reflexivity.
Qed.

(** * Further runs *)

(** X1 at work: two commands appended through the first proxy of the
    device come back, in order, through the second. *)
Lemma command_queue_fifo_witness :
  let w := crd_twice in
  objs w !! 0 = Some (proxy_at 0 w) /\ objs w !! 1 = Some (proxy_at 1 w) /\
  objectName (proxy_at 1 w) = objectName (proxy_at 0 w) /\
  exists w',
    (forM two_commands (appendCommand 0) ;; drain 2 1) w =
      Ret two_commands w' /\
    queue_of "CRD1" w' = [].
Proof.
  intros w.
  assert (objs w !! 0 = Some (proxy_at 0 w)) as Hs by (vm_compute; reflexivity).
  assert (objs w !! 1 = Some (proxy_at 1 w)) as Hs2
    by (vm_compute; reflexivity).
  assert (objectName (proxy_at 1 w) = objectName (proxy_at 0 w)) as Hn
    by (vm_compute; reflexivity).
  split; [exact Hs|]. split; [exact Hs2|]. split; [exact Hn|].
  pose proof (command_queue_fifo 0 1 two_commands w _ _ Hs Hs2 Hn) as H.
  vm_compute in H |- *. exact H.
Defined.

(** X2 at work, on the queue that holds the acknowledged command. *)
Lemma command_queue_isolated_witness :
  let w := crd_acked in
  objs w !! 0 = Some (proxy_at 0 w) /\
  (exists w', currentCommand 0 w = Ret (dispense, Invalid) w') /\
  (exists w', finishCommand 0 w = Ret tt w' /\ queue_of "CRD1" w' = []).
Proof.
  intros w.
  assert (objs w !! 0 = Some (proxy_at 0 w)) as Hs by (vm_compute; reflexivity).
  split; [exact Hs|].
  destruct (command_queue_isolated 0 (dispense, Invalid) w _ Hs)
    as ((wa & Ha & _) & _ & (wc & Hc & _ & Hq & _)).
  split.
  - exists wa. vm_compute in Ha |- *. exact Ha.
  - exists wc. split; [exact Hc|]. vm_compute in Hq |- *. exact Hq.
Defined.

(** X3 at work: a system event while the acknowledged command is at the
    head of the queue. *)
Lemma event_routing_witness :
  let w := crd_acked in
  objs w !! 0 = Some (proxy_at 0 w) /\
  exists w',
    ctor_slot 0 system_event w = Ret tt w' /\
    new_trace w w' = [(0, systemEventRecieved system_event dispense Invalid)].
Proof.
  intros w.
  assert (objs w !! 0 = Some (proxy_at 0 w)) as Hs by (vm_compute; reflexivity).
  split; [exact Hs|].
  destruct (event_routing 0 system_event w _ Hs) as (w' & Hrun & _ & _ & Ht).
  exists w'. split; [exact Hrun|]. vm_compute in Ht |- *. exact Ht.
Defined.

(** X4 at work: a reply to the request "{9}" while "{0}" is pending. *)
Lemma unknown_reply_ignored_witness :
  let w := crd_pending false [] in
  objs w !! 0 = Some (proxy_at 0 w) /\
  no_event late_reply /\
  unknown_reply late_reply (on_message (proxy_at 0 w)) /\
  emit_message 0 late_reply w =
    Ret tt (set_trace (fun t => (t ++ [(0, message late_reply)])%list) w).
Proof.
  intros w.
  assert (objs w !! 0 = Some (proxy_at 0 w)) as Hs by (vm_compute; reflexivity).
  assert (no_event late_reply) as Hev.
  { vm_compute. split; [|split]; discriminate. }
  assert (unknown_reply late_reply (on_message (proxy_at 0 w))) as Hun.
  { intros c Hin. vm_compute in Hin.
    apply elem_of_cons in Hin as [->|Hin]; [exact I|].
    apply elem_of_cons in Hin as [->|Hin]; [vm_compute; reflexivity|].
    by apply elem_of_nil in Hin. }
  split; [exact Hs|]. split; [exact Hev|]. split; [exact Hun|].
  exact (unknown_reply_ignored 0 late_reply w _ Hs Hev Hun).
Defined.

(** X5 at work: the port 70000 is not refused; the socket goes for port
    4464. *)
Lemma createSocket_remote_witness :
  colon_free "10.0.0.7" = true /\ toUInt_go 0%N "70000" = Some 70000%N /\
  createSocket "tcp://10.0.0.7:70000" "CRD1" =
    mkSetup IoSocket (Some (fresh_socket ConnectingState)) false false
      "10.0.0.7" 4464%N [].
Proof.
  assert (colon_free "10.0.0.7" = true) as Hh by (vm_compute; reflexivity).
  assert ("70000" <> "") as Hne by discriminate.
  assert (toUInt_go 0%N "70000" = Some 70000%N) as Hp
    by (vm_compute; reflexivity).
  assert (70000 <= 4294967295)%N as Hn by lia.
  split; [exact Hh|]. split; [exact Hp|].
  exact (createSocket_remote false "10.0.0.7" "70000" "CRD1" 70000%N
           Hh Hne Hp Hn).
Defined.

(** X8 at work: the first [execute] of the dispenser. *)
Lemma execute_outcome_witness :
  let w := crd_started false [] in
  objs w !! 0 = Some (proxy_at 0 w) /\
  connectToServer 0 w = Ret true (state_after (connectToServer 0) w) /\
  exists w',
    execute 0 dispense Invalid w = Ret "{0}" w' /\
    pending_of 0 w' = [("{0}", dispense)] /\
    slots_of 0 w' = [(0, CtorSlot); (1, ExecuteSlot "{0}" dispense Invalid)] /\
    tx_of 0 w' = [request_frame "WFSExecute" "{0}" dispense Invalid].
Proof.
  intros w.
  assert (objs w !! 0 = Some (proxy_at 0 w)) as Hs by (vm_compute; reflexivity).
  assert (connectToServer 0 w = Ret true (state_after (connectToServer 0) w))
    as Hc by (vm_compute; reflexivity).
  split; [exact Hs|]. split; [exact Hc|].
  destruct (proj2 (execute_outcome 0 dispense Invalid w _ Hs) _ Hc)
    as (w' & Hex & _ & Hp & Hm & Htx & _).
  exists w'. split; [vm_compute in Hex |- *; exact Hex|].
  split; [vm_compute in Hp |- *; exact Hp|].
  split; [vm_compute in Hm |- *; exact Hm|].
  vm_compute in Htx |- *. exact Htx.
Defined.

(** X10 at work: the dispense request is sent and the backend answers
    that it was cancelled. *)
Lemma execute_failure_round_trip_witness :
  let w := crd_started false [] in
  let w1 := crd_pending false [] in
  objs w !! 0 = Some (proxy_at 0 w) /\
  registry_live w /\ sync_live (proxy_at 0 w) /\ tidy w (proxy_at 0 w) /\
  execute 0 dispense Invalid w = Ret "{0}" w1 /\
  exists w2,
    emit_message 0 cancelled_frame w1 = Ret tt w2 /\
    pending_of 0 w2 = [] /\ slots_of 0 w2 = [(0, CtorSlot)] /\
    outcomes (new_trace w1 w2) =
      [(0, message cancelled_frame); (0, executeComplete cancelled_frame)].
Proof.
  intros w w1.
  assert (objs w !! 0 = Some (proxy_at 0 w)) as Hs by (vm_compute; reflexivity).
  assert (registry_live w) as Hreg.
  { vm_compute. constructor; [by eexists|constructor]. }
  assert (sync_live (proxy_at 0 w)) as Hlive.
  { vm_compute. split; constructor. }
  assert (tidy w (proxy_at 0 w)) as Ht.
  { split; [split; [|split; [|split; [|split]]]|split; [|split]].
    - apply (bool_decide_unpack _). vm_compute. exact I.
    - apply (bool_decide_unpack _). vm_compute. exact I.
    - apply (bool_decide_unpack _). vm_compute. exact I.
    - intros id Hin. vm_compute in Hin. by apply elem_of_nil in Hin.
    - intros c fid id cat Hin Hsnd. vm_compute in Hin.
      apply elem_of_cons in Hin as [->|Hin]; [discriminate Hsnd|].
      by apply elem_of_nil in Hin.
    - intros id Hin. vm_compute in Hin. by apply elem_of_nil in Hin.
    - intros c id Hin Hsnd. vm_compute in Hin.
      apply elem_of_cons in Hin as [->|Hin]; [discriminate Hsnd|].
      by apply elem_of_nil in Hin.
    - intros c Hin. vm_compute in Hin.
      apply elem_of_cons in Hin as [->|Hin]; [vm_compute; lia|].
      by apply elem_of_nil in Hin. }
  assert (execute 0 dispense Invalid w = Ret "{0}" w1) as Hex
    by (vm_compute; reflexivity).
  assert ("{0}" <> "") as Hne by discriminate.
  assert (msgid_is cancelled_frame "{0}" = true) as Hid
    by (vm_compute; reflexivity).
  assert (eqQString (hResult_of cancelled_frame) "WFS_SUCCESS" = false)
    as Hfail by (vm_compute; reflexivity).
  assert (with_hResult cancelled_frame = cancelled_frame) as Hres
    by (vm_compute; reflexivity).
  assert (QMap.find "message" cancelled_frame = None) as Hm
    by (vm_compute; reflexivity).
  split; [exact Hs|]. split; [exact Hreg|]. split; [exact Hlive|].
  split; [exact Ht|]. split; [exact Hex|].
  pose proof (execute_failure_round_trip 0 dispense Invalid w w1 _ "{0}"
                cancelled_frame Hs Hreg Hlive Ht Hex Hne Hid Hfail Hres Hm)
    as H.
  vm_compute in H |- *. exact H.
Defined.


(** X13 at work: the backend answers the capability query with a hardware
    error; the snapshot is empty and the next call asks again. *)
Lemma capabilities_entry_witness :
  let rd := table_codec [info_failure] in
  let w := crd_started false [(0, EvReadyRead [x00])] in
  let w1 := state_after (capabilities rd 0) w in
  objs w !! 0 = Some (proxy_at 0 w) /\
  getInfo_free (on_message (proxy_at 0 w)) /\
  capabilities rd 0 w = Ret [] w1 /\
  QMap.find "CRD1" (m_capabilities w1) = Some [] /\
  capabilities rd 0 w1 = (getCapabilities rd 0 ;; capabilities_of 0) w1.
Proof.
  intros rd w w1.
  assert (objs w !! 0 = Some (proxy_at 0 w)) as Hs by (vm_compute; reflexivity).
  assert (getInfo_free (on_message (proxy_at 0 w))) as Hfree.
  { intros c Hin. vm_compute in Hin.
    apply elem_of_cons in Hin as [->|Hin]; [exact I|].
    by apply elem_of_nil in Hin. }
  assert (capabilities rd 0 w = Ret [] w1) as Hrun
    by (vm_compute; reflexivity).
  split; [exact Hs|]. split; [exact Hfree|]. split; [exact Hrun|].
  destruct (capabilities_entry rd 0 w w1 _ _ Hs Hfree Hrun)
    as (Hentry & _ & Hagain).
  split; [vm_compute in Hentry |- *; exact Hentry|].
  assert (objs w1 !! 0 = Some (proxy_at 0 w1)) as Hs1
    by (vm_compute; reflexivity).
  assert (objectName (proxy_at 0 w1) = objectName (proxy_at 0 w)) as Hn1
    by (vm_compute; reflexivity).
  exact (Hagain eq_refl 0 (proxy_at 0 w1) Hs1 Hn1).
Defined.

(** X14 at work: the backend refuses the cancel of the pending request
    "{0}", [syncCancel] returns, and the completion of "{0}" that arrives
    afterwards runs into the lambda that was left connected. *)
Lemma syncCancel_leaves_lambda_witness :
  let w := crd_pending false [(0, EvReadyRead [x00])] in
  let w' := state_after (syncCancel refusing_wire 0 "{0}") w in
  objs w !! 0 = Some (proxy_at 0 w) /\
  on_cancelComplete (proxy_at 0 w) = [] /\
  on_executeComplete (proxy_at 0 w) = [] /\
  execute_ids_set (on_message (proxy_at 0 w)) /\
  connectToServer 0 w = Ret true w /\
  syncCancel refusing_wire 0 "{0}" w = Ret true w' /\
  execute_seen 0 "{0}" (new_trace w w') = false /\
  msgid_is cancelled_frame "{0}" = true /\
  emit_executeComplete 0 cancelled_frame w' = Stop DanglingReference /\
  deliver refusing_wire (0, EvReadyRead [x01]) w' = Stop DanglingReference.
Proof.
  intros w w'.
  assert (objs w !! 0 = Some (proxy_at 0 w)) as Hs by (vm_compute; reflexivity).
  assert (on_cancelComplete (proxy_at 0 w) = []) as Hc
    by (vm_compute; reflexivity).
  assert (on_executeComplete (proxy_at 0 w) = []) as He
    by (vm_compute; reflexivity).
  assert (execute_ids_set (on_message (proxy_at 0 w))) as Hids.
  { intros c Hin. vm_compute in Hin.
    apply elem_of_cons in Hin as [->|Hin]; [exact I|].
    apply elem_of_cons in Hin as [->|Hin]; [done|].
    by apply elem_of_nil in Hin. }
  assert (connectToServer 0 w = Ret true w) as Hconn
    by (vm_compute; reflexivity).
  assert (syncCancel refusing_wire 0 "{0}" w = Ret true w') as Hrun
    by (vm_compute; reflexivity).
  assert (execute_seen 0 "{0}" (new_trace w w') = false) as Hseen
    by (vm_compute; reflexivity).
  assert (msgid_is cancelled_frame "{0}" = true) as Hid
    by (vm_compute; reflexivity).
  split; [exact Hs|]. split; [exact Hc|]. split; [exact He|].
  split; [exact Hids|]. split; [exact Hconn|]. split; [exact Hrun|].
  split; [exact Hseen|]. split; [exact Hid|]. split.
  - exact (proj2 (syncCancel_leaves_lambda refusing_wire 0 "{0}" w w w' _ true
                    Hs Hc He Hids Hconn Hrun Hseen) cancelled_frame Hid).
  - vm_compute. reflexivity.
Defined.

(** X7 at work: the dispenser is connected by its first [execute]; the
    attempt after that changes nothing. And after the connection is lost
    with two bytes of a frame in the buffer, the next attempt opens the
    socket again and the two bytes are gone. *)
Lemma connectToServer_settles_witness :
  let w := crd_started false [] in
  let w1 := state_after (connectToServer 0) w in
  let v := crd_cut_off in
  let v1 := state_after (connectToServer 0) v in
  connectToServer 0 w = Ret true w1 /\
  net w = [WaitOk] /\ net w1 = [] /\
  connectToServer 0 w1 = Ret true w1 /\
  rx_of 0 v = [x02; x00] /\
  reopens (proxy_at 0 v)
    (set_sock_state UnconnectedState
       (set_sock_rx (fun _ => [x02; x00]) (fresh_socket ConnectedState)))
    = true /\
  connectToServer 0 v = Ret true v1 /\
  rx_of 0 v1 = [].
Proof.
  intros w w1 v v1.
  assert (connectToServer 0 w = Ret true w1) as Hc by (vm_compute; reflexivity).
  assert (objs v !! 0 = Some (proxy_at 0 v)) as Hs by (vm_compute; reflexivity).
  assert (io_device (proxy_at 0 v) =
          Some (set_sock_state UnconnectedState
                  (set_sock_rx (fun _ => [x02; x00])
                     (fresh_socket ConnectedState)))) as Hk
    by (vm_compute; reflexivity).
  assert (reopens (proxy_at 0 v)
            (set_sock_state UnconnectedState
               (set_sock_rx (fun _ => [x02; x00])
                  (fresh_socket ConnectedState))) = true) as Hre
    by (vm_compute; reflexivity).
  assert (connectToServer 0 v = Ret true v1) as Hcv
    by (vm_compute; reflexivity).
  split; [exact Hc|]. split; [vm_compute; reflexivity|].
  split; [vm_compute; reflexivity|].
  split; [exact (proj2 (proj1 (proj2 (connectToServer_settles 0 w)) w1 Hc))|].
  split; [vm_compute; reflexivity|]. split; [exact Hre|].
  split; [exact Hcv|].
  exact (proj2 (proj2 (proj2 (connectToServer_settles 0 v)))
           _ _ _ _ Hs Hk Hre Hcv).
Defined.

(** X9 at work: the dispenser after its constructor, an [execute] and a
    [cancel]. *)
Lemma requests_keep_served_witness :
  let w0 := fresh_world false [WaitOk] [] in
  let w1 := crd_started false [] in
  let w2 := crd_pending false [] in
  let w3 := crd_cancelling in
  QXfsSocketStream_new "local" "CRD1" "crd" w0 = Ret 0 w1 /\
  execute 0 dispense Invalid w1 = Ret "{0}" w2 /\
  cancel 0 "{0}" w2 = Ret "{1}" w3 /\
  exists s3, objs w3 !! 0 = Some s3 /\ tidy w3 s3.
Proof.
  intros w0 w1 w2 w3.
  assert (QXfsSocketStream_new "local" "CRD1" "crd" w0 = Ret 0 w1) as Hnew
    by (vm_compute; reflexivity).
  assert (execute 0 dispense Invalid w1 = Ret "{0}" w2) as Hex
    by (vm_compute; reflexivity).
  assert (cancel 0 "{0}" w2 = Ret "{1}" w3) as Hcan
    by (vm_compute; reflexivity).
  split; [exact Hnew|]. split; [exact Hex|]. split; [exact Hcan|].
  destruct (proj1 (requests_keep_served 0 w0 blank_stream) _ _ _ _ _ Hnew)
    as (s1 & Hs1 & Ht1 & _).
  destruct (proj1 (proj2 (proj2 (requests_keep_served 0 w1 s1) Hs1 Ht1))
              _ _ _ _ Hex) as (s2 & Hs2 & Ht2).
  exact (proj2 (proj2 (proj2 (requests_keep_served 0 w2 s2) Hs2 Ht2))
           _ _ _ Hcan).
Defined.

(** X11 at work: two proxies of the dispenser; the first is deleted and
    the list holds the second alone. *)
Lemma registry_kept_witness :
  let w0 := fresh_world false [WaitOk] [] in
  let w1 := crd_started false [] in
  let w2 := state_after (QXfsSocketStream_new "local" "CRD1" "crd") w1 in
  let w3 := state_after (QXfsSocketStream_delete 0) w2 in
  QXfsSocketStream_new "local" "CRD1" "crd" w0 = Ret 0 w1 /\
  QXfsSocketStream_new "local" "CRD1" "crd" w1 = Ret 1 w2 /\
  QXfsSocketStream_delete 0 w2 = Ret tt w3 /\
  registry_exact w3 /\ objs w3 !! 0 = None /\ devices w3 = [1].
Proof.
  intros w0 w1 w2 w3.
  assert (QXfsSocketStream_new "local" "CRD1" "crd" w0 = Ret 0 w1) as Hn0
    by (vm_compute; reflexivity).
  assert (QXfsSocketStream_new "local" "CRD1" "crd" w1 = Ret 1 w2) as Hn1
    by (vm_compute; reflexivity).
  assert (QXfsSocketStream_delete 0 w2 = Ret tt w3) as Hdel
    by (vm_compute; reflexivity).
  split; [exact Hn0|]. split; [exact Hn1|]. split; [exact Hdel|].
  destruct (registry_kept (table_codec [])) as (Hfresh & _ & Hnew & Hdelete & _).
  destruct (Hnew _ _ _ _ _ _ (Hfresh false [WaitOk] []) Hn0) as (Hr1 & _).
  destruct (Hnew _ _ _ _ _ _ Hr1 Hn1) as (Hr2 & _).
  destruct (Hdelete _ _ _ Hr2 Hdel) as (Hr3 & Hgone & _).
  split; [exact Hr3|]. split; [exact Hgone|]. vm_compute. reflexivity.
Defined.

(** X15 at work: after the status query of the dispenser no lambda of
    [getInfo] is left. *)
Lemma queries_leave_idle_witness :
  let rd := table_codec [caps_reply] in
  let w0 := fresh_world false [WaitOk] [(0, EvReadyRead [x00])] in
  let w1 := crd_started false [(0, EvReadyRead [x00])] in
  let w2 := state_after (getStatus rd 0) w1 in
  QXfsSocketStream_new "local" "CRD1" "crd" w0 = Ret 0 w1 /\
  getStatus rd 0 w1 =
    Ret [("fwType", VString "WFS_CRD_DISPENSE_TO_TRANSPORT")] w2 /\
  all_idle w2 /\ slots_of 0 w2 = [(0, CtorSlot)].
Proof.
  intros rd w0 w1 w2.
  assert (QXfsSocketStream_new "local" "CRD1" "crd" w0 = Ret 0 w1) as Hnew
    by (vm_compute; reflexivity).
  assert (getStatus rd 0 w1 =
          Ret [("fwType", VString "WFS_CRD_DISPENSE_TO_TRANSPORT")] w2) as Hrun
    by (vm_compute; reflexivity).
  split; [exact Hnew|]. split; [exact Hrun|].
  destruct (queries_leave_idle rd)
    as (Hfresh & Hctor & _ & _ & _ & _ & _ & _ & Hstatus & _).
  pose proof (post_Ret _ _ _ _ _ _
                (Hctor _ _ _ w0 (Hfresh false [WaitOk] [(0, EvReadyRead [x00])]))
                Hnew) as Hi1.
  split; [exact (post_Ret _ _ _ _ _ _ (Hstatus 0 w1 Hi1) Hrun)|].
  vm_compute. reflexivity.
Defined.

(** X16 at work: the cancel of the pending request "{0}" succeeds and the
    request completes; when [syncCancel] returns its lambdas are gone. *)
Lemma sync_lambdas_kept_witness :
  let evs := [(0, EvReadyRead [x00]); (0, EvReadyRead [x01])] in
  let w0 := fresh_world false [WaitOk] evs in
  let w1 := crd_started false evs in
  let w := crd_pending false evs in
  let w' := state_after (syncCancel cancel_wire 0 "{0}") w in
  QXfsSocketStream_new "local" "CRD1" "crd" w0 = Ret 0 w1 /\
  execute 0 dispense Invalid w1 = Ret "{0}" w /\
  objs w !! 0 = Some (proxy_at 0 w) /\
  execute_ids_set (on_message (proxy_at 0 w)) /\
  syncCancel cancel_wire 0 "{0}" w = Ret true w' /\
  execute_seen 0 "{0}" (new_trace w w') = true /\
  sync_free w /\ sync_free w'.
Proof.
  intros evs w0 w1 w w'.
  assert (QXfsSocketStream_new "local" "CRD1" "crd" w0 = Ret 0 w1) as Hnew
    by (vm_compute; reflexivity).
  assert (execute 0 dispense Invalid w1 = Ret "{0}" w) as Hex
    by (vm_compute; reflexivity).
  assert (objs w !! 0 = Some (proxy_at 0 w)) as Hs by (vm_compute; reflexivity).
  assert (execute_ids_set (on_message (proxy_at 0 w))) as Hids.
  { intros c Hin. vm_compute in Hin.
    apply elem_of_cons in Hin as [->|Hin]; [exact I|].
    apply elem_of_cons in Hin as [->|Hin]; [done|].
    by apply elem_of_nil in Hin. }
  assert (syncCancel cancel_wire 0 "{0}" w = Ret true w') as Hrun
    by (vm_compute; reflexivity).
  assert (execute_seen 0 "{0}" (new_trace w w') = true) as Hseen
    by (vm_compute; reflexivity).
  split; [exact Hnew|]. split; [exact Hex|]. split; [exact Hs|].
  split; [exact Hids|]. split; [exact Hrun|]. split; [exact Hseen|].
  destruct (sync_lambdas_kept cancel_wire)
    as (Hfresh & _ & Hctor & _ & _ & Hexec & _ & _ & _ & Hsync).
  pose proof (post_Ret _ _ _ _ _ _
                (Hctor _ _ _ w0 (Hfresh false [WaitOk] evs)) Hnew) as Hf1.
  pose proof (post_Ret _ _ _ _ _ _ (Hexec 0 dispense Invalid w1 Hf1) Hex)
    as Hf.
  split; [exact Hf|].
  exact (Hsync 0 "{0}" w _ true w' Hf Hs Hids Hrun (or_intror Hseen)).
Defined.

(** X17 at work: the dispenser is built, a request is sent, and its
    acknowledgement and its completion arrive in one read. *)
Lemma proxies_stay_in_order_witness :
  let rd := table_codec [ack_frame; complete_frame] in
  let w0 := fresh_world false [WaitOk] [] in
  let w1 := crd_started false [] in
  let w2 := crd_pending false [] in
  let w3 := state_after (deliver rd (0, EvReadyRead [x00; x01])) w2 in
  QXfsSocketStream_new "local" "CRD1" "crd" w0 = Ret 0 w1 /\
  execute 0 dispense Invalid w1 = Ret "{0}" w2 /\
  deliver rd (0, EvReadyRead [x00; x01]) w2 = Ret tt w3 /\
  objs w3 !! 0 = Some (proxy_at 0 w3) /\
  pending_of 0 w3 = [] /\
  at_ease w3 /\ served (proxy_at 0 w3).
Proof.
  intros rd w0 w1 w2 w3.
  assert (QXfsSocketStream_new "local" "CRD1" "crd" w0 = Ret 0 w1) as Hnew
    by (vm_compute; reflexivity).
  assert (execute 0 dispense Invalid w1 = Ret "{0}" w2) as Hex
    by (vm_compute; reflexivity).
  assert (deliver rd (0, EvReadyRead [x00; x01]) w2 = Ret tt w3) as Hdel
    by (vm_compute; reflexivity).
  assert (objs w3 !! 0 = Some (proxy_at 0 w3)) as Hs3
    by (vm_compute; reflexivity).
  split; [exact Hnew|]. split; [exact Hex|]. split; [exact Hdel|].
  split; [exact Hs3|]. split; [vm_compute; reflexivity|].
  destruct (proxies_stay_in_order rd)
    as (Hfresh & Huse & Hctor & Hdeliver & _ & Hexec & _).
  pose proof (post_Ret _ _ _ _ _ _
                (Hctor _ _ _ w0 (Hfresh false [WaitOk] [])) Hnew) as H1.
  pose proof (post_Ret _ _ _ _ _ _ (Hexec 0 dispense Invalid w1 H1) Hex) as H2.
  pose proof (post_Ret _ _ _ _ _ _ (Hdeliver _ w2 H2) Hdel) as H3.
  split; [exact H3|]. exact (proj1 (Huse w3 0 _ H3 Hs3)).
Defined.

(** X18 at work: after a [syncCancel] without a target has returned, its
    lambda is still connected on [executeComplete] - the proxy is settled,
    not free of lambdas - and a second [syncCancel] that returns leaves the
    proxy settled again. *)
Lemma stale_lambdas_only_witness :
  let v := crd_cancelled_all in
  let v' := state_after (syncCancel retry_wire 0 "{0}") v in
  on_executeComplete (proxy_at 0 v) = [(4, SyncCancelC2 0 "")] /\
  all_settled v /\
  objs v !! 0 = Some (proxy_at 0 v) /\
  execute_ids_set (on_message (proxy_at 0 v)) /\
  syncCancel retry_wire 0 "{0}" v = Ret true v' /\
  all_settled v' /\
  on_executeComplete (proxy_at 0 v') = [(4, SyncCancelC2 0 "")].
Proof.
  intros v v'.
  assert (objs v !! 0 = Some (proxy_at 0 v)) as Hs by (vm_compute; reflexivity).
  assert (on_executeComplete (proxy_at 0 v) = [(4, SyncCancelC2 0 "")]) as He
    by (vm_compute; reflexivity).
  assert (all_settled v) as Hv.
  { assert (objs v = {[0 := proxy_at 0 v]}) as Eo by (vm_compute; reflexivity).
    intros p s _ Hp. rewrite Eo in Hp.
    apply lookup_singleton_Some in Hp as [<- <-].
    split; [vm_compute; reflexivity|]. rewrite He.
    constructor; [|constructor]. vm_compute.
    split; [lia|]. split; [reflexivity|lia]. }
  assert (execute_ids_set (on_message (proxy_at 0 v))) as Hids
    by (apply ids_set_dispense; vm_compute; reflexivity).
  assert (syncCancel retry_wire 0 "{0}" v = Ret true v') as Hrun
    by (vm_compute; reflexivity).
  split; [exact He|]. split; [exact Hv|]. split; [exact Hs|].
  split; [exact Hids|]. split; [exact Hrun|]. split.
  - exact (proj1 (proj2 (proj2 (proj2 (proj2 (proj2 (proj2 (proj2 (proj2
             (proj2 (proj2 (stale_lambdas_only retry_wire)))))))))))
             0 "{0}" v _ true v' Hv Hs Hids Hrun).
  - vm_compute. reflexivity.
Defined.

